(** * Runtime3DModelImportExport: the export/import marshaling engine

    A shallow embedding of the plugin's scene marshaling code
    (AssimpCustom.cpp, RuntimeMeshImportExportTypes.cpp,
    RuntimeMeshExporter.cpp and the import half of
    RuntimeMeshImportExportLibrary.cpp) together with the properties the
    design document states about it.

    Conventions.
    - A [TArray<T>] is a [list T]; [Num] is its length as an [int32].
    - [int32] and [uint32] values are [Z]; arithmetic on vertex indices
      wraps ([int32_add], [to_int32], [to_uint32]); loop counters and array
      sizes are bounded by the array they range over and are kept in [Z].
    - [float] is IEEE binary32, through the Standard Library's executable
      [spec_float] model (precision 24, maximal exponent 128).
    - A [check(...)] that fails, and an out-of-range [TArray] access, abort
      the program: the functions that contain one return [option] and
      [None] stands for the abort.  A step whose behaviour is undefined has
      no result either, and is [None] as well.
    - Engine value types ([FVector], [FQuat], [FTransform], ...) are laid out
      as the engine declares them; the engine's operations on them
      (transform composition, inversion, ...) are section variables. *)

From Stdlib Require Import ZArith String List Bool Lia.
From Stdlib Require Import Floats.SpecFloat.
From stdpp Require Import base option list strings.

Import ListNotations.
Local Open Scope Z_scope.

(** ** Machine integers *)

Definition int32_min : Z := - 2 ^ 31.
Definition int32_max : Z := 2 ^ 31 - 1.

Definition in_int32 (z : Z) : Prop := int32_min <= z <= int32_max.

(** Two's complement reduction to 32 bits, signed and unsigned. *)
Definition to_int32 (z : Z) : Z := (z + 2 ^ 31) mod 2 ^ 32 - 2 ^ 31.
Definition to_uint32 (z : Z) : Z := z mod 2 ^ 32.

Definition int32_add (a b : Z) : Z := to_int32 (a + b).

Definition INDEX_NONE : Z := -1.

(** [TArray::Num]. *)
Definition Num {A : Type} (l : list A) : Z := Z.of_nat (length l).

(** [TArray::IsValidIndex]. *)
Definition IsValidIndex {A : Type} (l : list A) (i : Z) : bool :=
  (0 <=? i) && (i <? Num l).

(** [TArray::operator[]] with its range check. *)
Definition at_index {A : Type} (l : list A) (i : Z) : option A :=
  if IsValidIndex l i then l !! Z.to_nat i else None.

(** ** Floats *)

Definition float : Type := spec_float.

Definition fmul : float -> float -> float := SFmul 24 128.
Definition fltb : float -> float -> bool := SFltb.

Definition f_zero : float := S754_zero false.
Definition f_one : float := S754_finite false 8388608 (-23).
Definition f_minus_one : float := S754_finite true 8388608 (-23).
Definition f_plus_90 : float := S754_finite false 11796480 (-17).
Definition f_minus_90 : float := S754_finite true 11796480 (-17).

(** A literal [n] of type [float], for small integers. *)
Definition f_of_Z (n : Z) : float := binary_normalize 24 128 n 0 false.

(** ** Engine value types *)

Definition FString : Type := string.

Record FVector := mkFVector { vecX : float; vecY : float; vecZ : float }.
Record FVector2D := mkFVector2D { uvX : float; uvY : float }.
Record FQuat := mkFQuat { quatX : float; quatY : float; quatZ : float; quatW : float }.
Record FRotator := mkFRotator { Pitch : float; Yaw : float; Roll : float }.
Record FColor := mkFColor { colB : Z; colG : Z; colR : Z; colA : Z }.
Record FLinearColor := mkFLinearColor { linR : float; linG : float; linB : float; linA : float }.

Record FTransform := mkFTransform {
  Rotation : FQuat;
  Translation : FVector;
  Scale3D : FVector
}.

Definition GetScale3D (t : FTransform) : FVector := Scale3D t.
Definition SetScale3D (t : FTransform) (s : FVector) : FTransform :=
  mkFTransform (Rotation t) (Translation t) s.

Definition FVector_Zero : FVector := mkFVector f_zero f_zero f_zero.
Definition FVector_One : FVector := mkFVector f_one f_one f_one.
Definition FQuat_Identity : FQuat := mkFQuat f_zero f_zero f_zero f_one.

(** The default-constructed [FTransform]. *)
Definition FTransform_Identity : FTransform :=
  mkFTransform FQuat_Identity FVector_Zero FVector_One.

(** [FVector::operator*=(float)]. *)
Definition FVector_scale (v : FVector) (k : float) : FVector :=
  mkFVector (fmul (vecX v) k) (fmul (vecY v) k) (fmul (vecZ v) k).

(** A [UMaterialInterface*]: an address, [0] for [nullptr]. *)
Definition UMaterialInterface_ptr : Type := Z.
Definition nullptr : Z := 0.

(** ** RuntimeMeshImportExportTypes.h *)

Inductive ERotationCorrection := Minus_90 | Zero | Plus_90.

Record FTransformCorrection := mkFTransformCorrection {
  bFlipX : bool;
  bFlipY : bool;
  bFlipZ : bool;
  RollCorrection_X : ERotationCorrection;
  PitchCorrection_Y : ERotationCorrection;
  YawCorrection_Z : ERotationCorrection;
  scaleFactor : float
}.

Record FRuntimeMeshExportParam := mkFRuntimeMeshExportParam {
  bCombineSameMaterial : bool;
  lod : Z;
  bSkipLodNotValid : bool;
  formatId : FString;
  file : FString;
  bOverrideExisting : bool;
  correction : FTransformCorrection;
  bLogToUnreal_param : bool
}.

Record FRuntimeMeshExportAsyncParam := mkFRuntimeMeshExportAsyncParam {
  numGatherPerTick_param : Z;
  param_of_async : FRuntimeMeshExportParam
}.

Record FExportableMeshSection := mkFExportableMeshSection {
  meshToWorld : FTransform;
  material : UMaterialInterface_ptr;
  vertices : list FVector;
  normals : list FVector;
  tangents : list FVector;
  textureCoordinates : list FVector2D;
  vertexColors : list FColor;
  triangles : list Z
}.

(** [FExportableMeshSection::Append].  The [check] on the material handles
    aborts when they differ. *)
Definition Append (this other : FExportableMeshSection)
  : option FExportableMeshSection :=
  if decide (material this = material other) then
    let triangleOffset := Num (vertices this) in
    Some {|
      meshToWorld := meshToWorld this;
      material := material this;
      vertices := vertices this ++ vertices other;
      normals := normals this ++ normals other;
      tangents := tangents this ++ tangents other;
      textureCoordinates := textureCoordinates this ++ textureCoordinates other;
      vertexColors := vertexColors this ++ vertexColors other;
      triangles :=
        triangles this ++ map (fun tri => int32_add tri triangleOffset) (triangles other)
    |}
  else None.

(** The object behind a [TScriptInterface<IMeshExportable>]: its name and
    the two interface functions.  [GetMeshData] returns the acceptance flag
    and the contents of [outSectionData]. *)
Record IMeshExportable := mkIMeshExportable {
  GetName : FString;
  GetHierarchicalNodeName : FString;
  GetMeshData : Z -> bool -> bool * list FExportableMeshSection
}.

(** ** Assimp value types (the foreign structure's side) *)

Record aiVector3D := mkaiVector3D { ai_x : float; ai_y : float; ai_z : float }.
Record aiColor4D := mkaiColor4D { ai_r : float; ai_g : float; ai_b : float; ai_a : float }.

Record aiMatrix4x4 := mkaiMatrix4x4 {
  a1 : float; a2 : float; a3 : float; a4 : float;
  b1 : float; b2 : float; b3 : float; b4 : float;
  c1 : float; c2 : float; c3 : float; c4 : float;
  d1 : float; d2 : float; d3 : float; d4 : float
}.

Definition aiMatrix4x4_Identity : aiMatrix4x4 :=
  mkaiMatrix4x4 f_one f_zero f_zero f_zero
                f_zero f_one f_zero f_zero
                f_zero f_zero f_one f_zero
                f_zero f_zero f_zero f_one.

(** [FMatrix]: [M i j] is [M[i][j]]. *)
Definition FMatrix : Type := nat -> nat -> float.

Record aiFace := mkaiFace { mNumIndices : Z; mIndices : list Z }.

Inductive aiReturn := aiReturn_SUCCESS | aiReturn_FAILURE | aiReturn_OUTOFMEMORY.

(** The material keys the exporter writes. *)
Inductive aiMaterialProperty :=
| AI_MATKEY_NAME (materialName : string)
| AI_MATKEY_TWOSIDED (bTwoSided : Z)
| AI_MATKEY_SHININESS (shininess : float)
| AI_MATKEY_TEXTURE_DIFFUSE (N : Z) (path : string).

(** An [aiMaterial] is the sequence of its properties. *)
Definition aiMaterial : Type := list aiMaterialProperty.

(** A pointer field of a foreign parent struct: null, or aliasing the data
    of the owned array it was bound to. *)
Inductive view_ptr := view_null | view_of_owned.

(** ** AssimpCustom.h: the owned wrappers *)

(** The fields of the [aiNode] base class that the wrapper fills. *)
Record aiNode_base := mkaiNode_base {
  mName : string;
  mTransformation : aiMatrix4x4;
  mNumMeshes : Z;
  mMeshes : view_ptr;
  mNumChildren : Z;
  mChildren : view_ptr;
  mMetaData : view_ptr
}.

Definition aiNode_base_init : aiNode_base :=
  mkaiNode_base EmptyString aiMatrix4x4_Identity 0 view_null 0 view_null view_null.

(** The fields of the [aiMesh] base class that the wrapper fills. *)
Record aiMesh_base := mkaiMesh_base {
  mPrimitiveTypes : Z;
  mMaterialIndex : Z;
  mNumVertices : Z;
  mNumFaces : Z;
  mVertices : view_ptr;
  mNormals : view_ptr;
  mTangents : view_ptr;
  mBitangents : view_ptr;
  mColors_0 : view_ptr;
  mNumUVComponents_0 : Z;
  mTextureCoords_0 : view_ptr;
  mFaces : view_ptr
}.

Definition aiPrimitiveType_TRIANGLE : Z := 4.

Definition aiMesh_base_init : aiMesh_base :=
  mkaiMesh_base 0 0 0 0 view_null view_null view_null view_null view_null 0
                view_null view_null.

(** [FAssimpMesh]; of the texture coordinate channels only channel 0 is
    ever written. *)
Record FAssimpMesh := mkFAssimpMesh {
  mesh_vertices : list aiVector3D;
  mesh_normals : list aiVector3D;
  mesh_tangents : list aiVector3D;
  mesh_bitangents : list aiVector3D;
  mesh_textureCoordinates_0 : list aiVector3D;
  mesh_numUVComponents_0 : Z;
  mesh_vertexColors : list aiColor4D;
  mesh_faces : list aiFace;
  mesh_base : aiMesh_base
}.

(** The fields of the [aiScene] base class that the wrapper fills. *)
Record aiScene_base := mkaiScene_base {
  scene_mRootNode : view_ptr;
  scene_mNumMeshes : Z;
  scene_mMeshes : view_ptr;
  scene_mNumMaterials : Z;
  scene_mMaterials : view_ptr
}.

Definition aiScene_base_init : aiScene_base :=
  mkaiScene_base view_null 0 view_null 0 view_null.

(** A [FAssimpNode*] into the scene's tree: the child indices that lead from
    the node up to the root, innermost first.  The root is [[]] and the
    [parent] pointer of [i :: p] is [p].  Children are only ever appended, so
    a position names the same node for as long as the tree lives. *)
Definition NodePtr : Type := list nat.

Section Engine.

(** [FName]: interned names compared by identity. *)
Context {FName : Type} `{FName_eq : EqDecision FName}.
Variable NAME_None : FName.
Variable FName_of : FString -> FName.
Variable ToString : FName -> FString.

(** [TCHAR_TO_ANSI] and [FString::Printf] with its arguments. *)
Variable TCHAR_TO_ANSI : FString -> string.
Inductive PrintfArg := arg_s (s : FString) | arg_d (d : Z) | arg_seconds.
Variable Printf : string -> list PrintfArg -> FString.

(** [FAssimpNode].  The [parent] pointer is the node's position, see
    [NodePtr]. *)
Local Unset Elimination Schemes.
Inductive FAssimpNode := mkFAssimpNode {
  children : list FAssimpNode;
  meshRefIndices : list Z;
  name : FName;
  worldTransform : FTransform;
  exportObjects : list IMeshExportable;
  indexGatherNext : Z;
  gatheredExportables : list (list FExportableMeshSection);
  node_base : aiNode_base
}.

Local Set Elimination Schemes.

(** The constructor [FAssimpNode(inName, inParent)]. *)
Definition new_FAssimpNode (inName : FName) : FAssimpNode :=
  mkFAssimpNode [] [] inName FTransform_Identity [] 0 [] aiNode_base_init.

Definition set_children (n : FAssimpNode) (cs : list FAssimpNode) : FAssimpNode :=
  mkFAssimpNode cs (meshRefIndices n) (name n) (worldTransform n)
    (exportObjects n) (indexGatherNext n) (gatheredExportables n) (node_base n).
Definition set_meshRefIndices (n : FAssimpNode) (l : list Z) : FAssimpNode :=
  mkFAssimpNode (children n) l (name n) (worldTransform n)
    (exportObjects n) (indexGatherNext n) (gatheredExportables n) (node_base n).
Definition set_worldTransform (n : FAssimpNode) (t : FTransform) : FAssimpNode :=
  mkFAssimpNode (children n) (meshRefIndices n) (name n) t
    (exportObjects n) (indexGatherNext n) (gatheredExportables n) (node_base n).
Definition set_exportObjects (n : FAssimpNode) (l : list IMeshExportable) : FAssimpNode :=
  mkFAssimpNode (children n) (meshRefIndices n) (name n) (worldTransform n)
    l (indexGatherNext n) (gatheredExportables n) (node_base n).
Definition set_indexGatherNext (n : FAssimpNode) (i : Z) : FAssimpNode :=
  mkFAssimpNode (children n) (meshRefIndices n) (name n) (worldTransform n)
    (exportObjects n) i (gatheredExportables n) (node_base n).
Definition set_gatheredExportables (n : FAssimpNode)
    (g : list (list FExportableMeshSection)) : FAssimpNode :=
  mkFAssimpNode (children n) (meshRefIndices n) (name n) (worldTransform n)
    (exportObjects n) (indexGatherNext n) g (node_base n).
Definition set_node_base (n : FAssimpNode) (b : aiNode_base) : FAssimpNode :=
  mkFAssimpNode (children n) (meshRefIndices n) (name n) (worldTransform n)
    (exportObjects n) (indexGatherNext n) (gatheredExportables n) b.

(** [FAssimpScene].  [exportLog] is the string the [FString*] points to
    while it is bound to the result of the running export, [None] for
    [nullptr].  The engine's own log ([bLogToUnreal]) is not modelled. *)
Record FAssimpScene := mkFAssimpScene {
  rootNode : FAssimpNode;
  meshes : list FAssimpMesh;
  materials : list aiMaterial;
  uniqueMaterials : list UMaterialInterface_ptr;
  bLogToUnreal : bool;
  numObjectsSkipped : Z;
  exportLog : option FString;
  allNodesHelper : list NodePtr;
  currentNodeIndex : Z;
  numGatherPerTick : Z;
  gatheredMeshNum : Z;
  gatherMeshDataTicker : bool;
  scene_base : aiScene_base
}.

Definition set_rootNode (s : FAssimpScene) (r : FAssimpNode) : FAssimpScene :=
  mkFAssimpScene r (meshes s) (materials s) (uniqueMaterials s) (bLogToUnreal s)
    (numObjectsSkipped s) (exportLog s) (allNodesHelper s) (currentNodeIndex s)
    (numGatherPerTick s) (gatheredMeshNum s) (gatherMeshDataTicker s) (scene_base s).
Definition set_pools (s : FAssimpScene) (ms : list FAssimpMesh)
    (mats : list aiMaterial) (uniq : list UMaterialInterface_ptr) : FAssimpScene :=
  mkFAssimpScene (rootNode s) ms mats uniq (bLogToUnreal s)
    (numObjectsSkipped s) (exportLog s) (allNodesHelper s) (currentNodeIndex s)
    (numGatherPerTick s) (gatheredMeshNum s) (gatherMeshDataTicker s) (scene_base s).
Definition set_bLogToUnreal (s : FAssimpScene) (b : bool) : FAssimpScene :=
  mkFAssimpScene (rootNode s) (meshes s) (materials s) (uniqueMaterials s) b
    (numObjectsSkipped s) (exportLog s) (allNodesHelper s) (currentNodeIndex s)
    (numGatherPerTick s) (gatheredMeshNum s) (gatherMeshDataTicker s) (scene_base s).
Definition set_numObjectsSkipped (s : FAssimpScene) (k : Z) : FAssimpScene :=
  mkFAssimpScene (rootNode s) (meshes s) (materials s) (uniqueMaterials s) (bLogToUnreal s)
    k (exportLog s) (allNodesHelper s) (currentNodeIndex s)
    (numGatherPerTick s) (gatheredMeshNum s) (gatherMeshDataTicker s) (scene_base s).
Definition set_exportLog (s : FAssimpScene) (l : option FString) : FAssimpScene :=
  mkFAssimpScene (rootNode s) (meshes s) (materials s) (uniqueMaterials s) (bLogToUnreal s)
    (numObjectsSkipped s) l (allNodesHelper s) (currentNodeIndex s)
    (numGatherPerTick s) (gatheredMeshNum s) (gatherMeshDataTicker s) (scene_base s).
Definition set_allNodesHelper (s : FAssimpScene) (l : list NodePtr) : FAssimpScene :=
  mkFAssimpScene (rootNode s) (meshes s) (materials s) (uniqueMaterials s) (bLogToUnreal s)
    (numObjectsSkipped s) (exportLog s) l (currentNodeIndex s)
    (numGatherPerTick s) (gatheredMeshNum s) (gatherMeshDataTicker s) (scene_base s).
Definition set_async (s : FAssimpScene) (cur perTick gathered : Z) (ticker : bool)
  : FAssimpScene :=
  mkFAssimpScene (rootNode s) (meshes s) (materials s) (uniqueMaterials s) (bLogToUnreal s)
    (numObjectsSkipped s) (exportLog s) (allNodesHelper s) cur
    perTick gathered ticker (scene_base s).
Definition set_scene_base (s : FAssimpScene) (b : aiScene_base) : FAssimpScene :=
  mkFAssimpScene (rootNode s) (meshes s) (materials s) (uniqueMaterials s) (bLogToUnreal s)
    (numObjectsSkipped s) (exportLog s) (allNodesHelper s) (currentNodeIndex s)
    (numGatherPerTick s) (gatheredMeshNum s) (gatherMeshDataTicker s) b.

(** ** Logging *)

Definition newline : string := String (Ascii.ascii_of_nat 10) EmptyString.

Fixpoint ends_with_newline (s : string) : bool :=
  match s with
  | EmptyString => false
  | String c EmptyString => if decide (c = Ascii.ascii_of_nat 10) then true else false
  | String _ rest => ends_with_newline rest
  end.

(** [URuntimeMeshImportExportLibrary::NewLineAndAppend]. *)
Definition NewLineAndAppend (appendTo append : FString) : FString :=
  let appendTo :=
    if negb (String.eqb appendTo EmptyString) && negb (ends_with_newline appendTo)
    then (appendTo ++ newline)%string else appendTo in
  (appendTo ++ append)%string.

(** [FAssimpScene::WriteToLogWithNewLine]. *)
Definition WriteToLogWithNewLine (scene : FAssimpScene) (logText : FString)
  : FAssimpScene :=
  match exportLog scene with
  | Some log => set_exportLog scene (Some (NewLineAndAppend log logText))
  | None => scene
  end.

(** ** Section validation *)

(** [FAssimpNode::ValidateMeshSection]: the scene with the diagnostics
    logged, and the verdict. *)
Definition ValidateMeshSection (scene : FAssimpScene) (exportable : IMeshExportable)
    (section : FExportableMeshSection) : FAssimpScene * bool :=
  let bMeshValid := true in
  let numVertices := Num (vertices section) in
  let '(scene, bMeshValid) :=
    if negb (Num (normals section) =? numVertices) then
      (WriteToLogWithNewLine scene
         (Printf "Object %: Number of normals not equal number of vertices!"
                 [arg_s (GetName exportable)]), false)
    else (scene, bMeshValid) in
  let '(scene, bMeshValid) :=
    if negb (Num (tangents section) =? numVertices) then
      (WriteToLogWithNewLine scene
         (Printf "Object %: Number of tangents not equal number of vertices!"
                 [arg_s (GetName exportable)]), false)
    else (scene, bMeshValid) in
  let '(scene, bMeshValid) :=
    if negb (Num (vertexColors section) =? numVertices) then
      (WriteToLogWithNewLine scene
         (Printf "Object %: Number of vertexColors not equal number of vertices!"
                 [arg_s (GetName exportable)]), false)
    else (scene, bMeshValid) in
  let '(scene, bMeshValid) :=
    if negb (Num (textureCoordinates section) =? numVertices) then
      (WriteToLogWithNewLine scene
         (Printf "Object %: Number of textureCoordinates not equal number of vertices!"
                 [arg_s (GetName exportable)]), false)
    else (scene, bMeshValid) in
  let '(scene, bMeshValid) :=
    if negb (Z.rem (Num (triangles section)) 3 =? 0) then
      (WriteToLogWithNewLine scene
         (Printf "Object %: Number of triangles is not dividable by 3!"
                 [arg_s (GetName exportable)]), false)
    else (scene, bMeshValid) in
  (scene, bMeshValid).

(** ** The node tree *)

(** The node reached from [n] along child indices, outermost first. *)
Fixpoint node_at (n : FAssimpNode) (path : list nat) : option FAssimpNode :=
  match path with
  | [] => Some n
  | i :: rest =>
      match children n !! i with
      | Some c => node_at c rest
      | None => None
      end
  end.

(** The tree with [f] applied in place to the node at [path]. *)
Fixpoint node_update (n : FAssimpNode) (path : list nat)
    (f : FAssimpNode -> FAssimpNode) : FAssimpNode :=
  match path with
  | [] => f n
  | i :: rest =>
      match children n !! i with
      | Some c => set_children n (<[i := node_update c rest f]> (children n))
      | None => n
      end
  end.

(** Dereferencing a [FAssimpNode*], and writing through it. *)
Definition deref (root : FAssimpNode) (p : NodePtr) : option FAssimpNode :=
  node_at root (rev p).
Definition store (root : FAssimpNode) (p : NodePtr) (n : FAssimpNode) : FAssimpNode :=
  node_update root (rev p) (fun _ => n).

(** [FAssimpNode::GetHierarchicalName], called on the node [p] points to. *)
Fixpoint GetHierarchicalName (root : FAssimpNode) (p : NodePtr) : option FString :=
  match deref root p with
  | None => None
  | Some this =>
      match p with
      | _ :: parent =>
          match GetHierarchicalName root parent with
          | Some s => Some (s ++ "." ++ ToString (name this))%string
          | None => None
          end
      | [] => Some "root"%string
      end
  end.

(** [FAssimpNode::FindOrCreateNode]: the receiver after the call and the
    returned node, as the child indices that lead to it from the receiver
    (outermost first; [[]] is [this]).  [children.FindByPredicate] is
    [list_find]: the first match. *)
Fixpoint FindOrCreateNode (this : FAssimpNode) (nodePathRelative : list FString)
  : FAssimpNode * list nat :=
  match nodePathRelative with
  | seg :: rest =>
      let nodeName := FName_of seg in
      match list_find (fun child => name child = nodeName) (children this) with
      | Some (i, childNode) =>
          let '(childNode, found) := FindOrCreateNode childNode rest in
          (set_children this (<[i := childNode]> (children this)), i :: found)
      | None =>
          let '(childNode, found) := FindOrCreateNode (new_FAssimpNode nodeName) rest in
          (set_children this (children this ++ [childNode]),
           length (children this) :: found)
      end
  | [] => (this, [])
  end.

(** [FAssimpNode::GetNodesRecursive], called on the node at [self]. *)
Fixpoint GetNodesRecursive (this : FAssimpNode) (self : NodePtr)
    (outNodes : list NodePtr) : list NodePtr :=
  let outNodes := outNodes ++ [self] in
  (fix each_child (cs : list FAssimpNode) (i : nat) (outNodes : list NodePtr) :=
     match cs with
     | [] => outNodes
     | child :: cs' => each_child cs' (S i) (GetNodesRecursive child (i :: self) outNodes)
     end) (children this) 0%nat outNodes.

(** ** Gathering *)

Definition skip_object (scene : FAssimpScene) (logText : FString) : FAssimpScene :=
  let scene := WriteToLogWithNewLine scene logText in
  set_numObjectsSkipped scene (numObjectsSkipped scene + 1).

(** The loop "Validate all sections" of [GatherMeshData]: [sectionIndex]
    runs from [i - 1] down to [0]. *)
Fixpoint validate_all_sections (i : nat) (scene : FAssimpScene)
    (object : IMeshExportable) (sections : list FExportableMeshSection)
  : option (FAssimpScene * bool) :=
  match i with
  | O => Some (scene, true)
  | S sectionIndex =>
      match sections !! sectionIndex with
      | None => None
      | Some section =>
          let '(scene, valid) := ValidateMeshSection scene object section in
          let scene :=
            if negb valid then
              WriteToLogWithNewLine scene
                (Printf "Object %s: Section %d failed validation."
                        [arg_s (GetName object); arg_d (Z.of_nat sectionIndex)])
            else scene in
          match validate_all_sections sectionIndex scene object sections with
          | Some (scene, bAllSectionsValid) => Some (scene, valid && bAllSectionsValid)
          | None => None
          end
      end
  end.

(** One iteration of the loop of [GatherMeshData], the increment of
    [indexGatherNext] included. *)
Definition GatherMeshData_step (param : FRuntimeMeshExportParam)
    (st : FAssimpScene * FAssimpNode) : option (FAssimpScene * FAssimpNode) :=
  let '(scene, this) := st in
  let advance (n : FAssimpNode) := set_indexGatherNext n (indexGatherNext n + 1) in
  match at_index (exportObjects this) (indexGatherNext this) with
  | None => None
  | Some object =>
      let '(accepted, sections) := GetMeshData object (lod param) (bSkipLodNotValid param) in
      if negb accepted then
        Some (skip_object scene
                (Printf "Object %s refused to be part of export." [arg_s (GetName object)]),
              advance this)
      else if Num sections =? 0 then
        Some (skip_object scene
                (Printf "Object %s did not return any sections." [arg_s (GetName object)]),
              advance this)
      else
        match validate_all_sections (length sections) scene object sections with
        | None => None
        | Some (scene, bAllSectionsValid) =>
            if negb bAllSectionsValid then
              Some (skip_object scene
                      (Printf "Object %s has invalid sections. Skipped."
                              [arg_s (GetName object)]),
                    advance this)
            else
              Some (scene,
                    advance (set_gatheredExportables this
                               (gatheredExportables this ++ [sections])))
        end
  end.

(** [n] iterations of the loop. *)
Fixpoint GatherMeshData_loop (n : nat) (param : FRuntimeMeshExportParam)
    (st : FAssimpScene * FAssimpNode) : option (FAssimpScene * FAssimpNode) :=
  match n with
  | O => Some st
  | S n' =>
      match GatherMeshData_step param st with
      | Some st' => GatherMeshData_loop n' param st'
      | None => None
      end
  end.

(** [FAssimpNode::GatherMeshData].  The loop runs while
    [indexGatherNext < endIndex] and every iteration, skipped or not,
    advances [indexGatherNext] by one: it makes [endIndex - indexGatherNext]
    iterations, each counted in [numGathered]. *)
Definition GatherMeshData (scene : FAssimpScene) (this : FAssimpNode)
    (param : FRuntimeMeshExportParam) (bGatherAll : bool) (numToGather : Z)
  : option (FAssimpScene * FAssimpNode * Z) :=
  if negb (bGatherAll || (0 <? numToGather)) then None
  else
    let startIndex := if bGatherAll then 0 else indexGatherNext this in
    let endIndex :=
      Z.min (if bGatherAll then Num (exportObjects this)
             else int32_add startIndex numToGather)
            (Num (exportObjects this)) in
    let iterations := Z.to_nat (endIndex - indexGatherNext this) in
    match GatherMeshData_loop iterations param (scene, this) with
    | Some (scene, this) => Some (scene, this, Z.of_nat iterations)
    | None => None
    end.

(** ** Building meshes *)

(** Engine operations: [FTransform::operator*], [Inverse],
    [TransformPosition], [TransformVector], [FColor::ReinterpretAsLinear]
    and [UObject::GetName] of the material behind a non-null handle. *)
Variable FTransform_mul : FTransform -> FTransform -> FTransform.
Variable Inverse : FTransform -> FTransform.
Variable TransformPosition : FTransform -> FVector -> FVector.
Variable TransformVector : FTransform -> FVector -> FVector.
Variable ReinterpretAsLinear : FColor -> FLinearColor.
Variable UMaterial_GetName : UMaterialInterface_ptr -> FString.

(** A [TMap<K, V>] that is only added to: its entries in insertion order,
    which is the order a range-for visits them in. *)
Definition TMap (K V : Type) : Type := list (K * V).

Definition TMap_Find {K V : Type} `{EqDecision K} (m : TMap K V) (k : K) : option V :=
  match list_find (fun e => fst e = k) m with
  | Some (_, e) => Some (snd e)
  | None => None
  end.

(** [FindOrAdd] as far as the map goes: a missing key is added with a
    default-constructed value. *)
Definition TMap_FindOrAdd {K V : Type} `{EqDecision K} (m : TMap K V) (k : K)
    (default : V) : TMap K V :=
  match TMap_Find m k with
  | Some _ => m
  | None => m ++ [(k, default)]
  end.

(** Writing through the reference [FindOrAdd] returned. *)
Definition TMap_assign {K V : Type} `{EqDecision K} (m : TMap K V) (k : K) (v : V)
  : TMap K V :=
  map (fun e => if decide (fst e = k) then (k, v) else e) m.

(** [TArray::Find]: the index of the first occurrence, or [INDEX_NONE]. *)
Definition TArray_Find {A : Type} `{EqDecision A} (l : list A) (x : A) : Z :=
  match list_find (fun y => y = x) l with
  | Some (i, _) => Z.of_nat i
  | None => INDEX_NONE
  end.

(** [f 0], ..., [f (n - 1)], when each exists. *)
Fixpoint for_each_index {B : Type} (n : nat) (f : nat -> option B) : option (list B) :=
  match n with
  | O => Some []
  | S n' =>
      match for_each_index n' f, f n' with
      | Some l, Some x => Some (l ++ [x])
      | _, _ => None
      end
  end.

Definition set_geometry (s : FExportableMeshSection)
    (vs ns ts : list FVector) : FExportableMeshSection :=
  mkFExportableMeshSection (meshToWorld s) (material s) vs ns ts
    (textureCoordinates s) (vertexColors s) (triangles s).

(** The loop "Transform the data": [i] runs from [n - 1] down to [0]. *)
Fixpoint transform_section_data (n : nat) (objectSpaceToNodeSpace : FTransform)
    (section : FExportableMeshSection) : option FExportableMeshSection :=
  match n with
  | O => Some section
  | S i =>
      match vertices section !! i, normals section !! i, tangents section !! i with
      | Some v, Some nrm, Some tng =>
          transform_section_data i objectSpaceToNodeSpace
            (set_geometry section
               (<[i := TransformPosition objectSpaceToNodeSpace v]> (vertices section))
               (<[i := TransformVector objectSpaceToNodeSpace nrm]> (normals section))
               (<[i := TransformVector objectSpaceToNodeSpace tng]> (tangents section)))
      | _, _, _ => None
      end
  end.

Definition MaterialSections : Type :=
  TMap UMaterialInterface_ptr (list FExportableMeshSection).

(** The body of the loop over the sections of one gathered exportable. *)
Definition group_section (this_worldTransform : FTransform)
    (param : FRuntimeMeshExportParam) (mapMaterialSections : MaterialSections)
    (section : FExportableMeshSection) : option MaterialSections :=
  let objectSpaceToNodeSpace :=
    FTransform_mul (meshToWorld section) (Inverse this_worldTransform) in
  section ← transform_section_data (length (vertices section))
              objectSpaceToNodeSpace section;
  let mapMaterialSections := TMap_FindOrAdd mapMaterialSections (material section) [] in
  materialSections ← TMap_Find mapMaterialSections (material section);
  materialSections ←
    (if bCombineSameMaterial param && IsValidIndex materialSections 0 then
       match materialSections with
       | first :: others => merged ← Append first section; Some (merged :: others)
       | [] => None
       end
     else Some (materialSections ++ [section]));
  Some (TMap_assign mapMaterialSections (material section) materialSections).

Fixpoint group_sections (this_worldTransform : FTransform)
    (param : FRuntimeMeshExportParam) (mapMaterialSections : MaterialSections)
    (sections : list FExportableMeshSection) : option MaterialSections :=
  match sections with
  | [] => Some mapMaterialSections
  | section :: rest =>
      match group_section this_worldTransform param mapMaterialSections section with
      | Some m => group_sections this_worldTransform param m rest
      | None => None
      end
  end.

Definition texture_path : string :=
  "E:\Unreal Engine Projects\ImportExportDemo\Export\T_Chair_M.jpg".

(** The material record written for a handle that is new to
    [uniqueMaterials]. *)
Definition new_aiMaterial (handle : UMaterialInterface_ptr) : aiMaterial :=
  let materialName :=
    if decide (handle = nullptr) then "Unknown"%string
    else TCHAR_TO_ANSI (UMaterial_GetName handle) in
  [ AI_MATKEY_NAME materialName;
    AI_MATKEY_TWOSIDED 1;
    AI_MATKEY_SHININESS f_zero;
    AI_MATKEY_TEXTURE_DIFFUSE 0 texture_path ].

Definition FVector_to_ai (v : FVector) : aiVector3D :=
  mkaiVector3D (vecX v) (vecY v) (vecZ v).
Definition FLinearColor_to_ai (c : FLinearColor) : aiColor4D :=
  mkaiColor4D (linR c) (linG c) (linB c) (linA c).

(** The body of the loop "Create aiMeshes from the gathered data": one
    section becomes one mesh of the scene's pool. *)
Definition create_mesh (st : FAssimpScene * FAssimpNode)
    (section : FExportableMeshSection) : option (FAssimpScene * FAssimpNode) :=
  let '(scene, this) := st in
  let meshIndex := Num (meshes scene) in
  let this := set_meshRefIndices this (meshRefIndices this ++ [to_uint32 meshIndex]) in
  let foundMaterialIndex := TArray_Find (uniqueMaterials scene) (material section) in
  '(uniq, mats, materialIndex) ←
    (if foundMaterialIndex =? INDEX_NONE then
       let materialIndex := Num (uniqueMaterials scene) in
       let uniq := uniqueMaterials scene ++ [material section] in
       let mats := materials scene ++ [new_aiMaterial (material section)] in
       if Num uniq =? Num mats then Some (uniq, mats, materialIndex) else None
     else Some (uniqueMaterials scene, materials scene, foundMaterialIndex));
  let numVertices := length (vertices section) in
  linearColors ←
    for_each_index numVertices
      (fun colorIndex => ReinterpretAsLinear <$> vertexColors section !! colorIndex);
  coords ←
    for_each_index numVertices
      (fun texIndex =>
         (fun coord => mkaiVector3D (uvX coord) (uvY coord) f_zero)
           <$> textureCoordinates section !! texIndex);
  let numIndicesPerFace := 3 in
  if negb (Z.rem (Num (triangles section)) numIndicesPerFace =? 0) then None
  else
    let numFaces := Z.quot (Num (triangles section)) numIndicesPerFace in
    faces ←
      for_each_index (Z.to_nat numFaces)
        (fun faceIndex =>
           let triangleStart := (faceIndex * 3)%nat in
           match triangles section !! triangleStart,
                 triangles section !! (triangleStart + 1)%nat,
                 triangles section !! (triangleStart + 2)%nat with
           | Some i0, Some i1, Some i2 =>
               Some (mkaiFace numIndicesPerFace
                       [to_uint32 i0; to_uint32 i1; to_uint32 i2])
           | _, _, _ => None
           end);
    let mesh :=
      {| mesh_vertices := map FVector_to_ai (vertices section);
         mesh_normals := map FVector_to_ai (normals section);
         mesh_tangents := map FVector_to_ai (tangents section);
         mesh_bitangents := replicate numVertices (mkaiVector3D f_zero f_zero f_zero);
         mesh_textureCoordinates_0 := coords;
         mesh_numUVComponents_0 := 2;
         mesh_vertexColors := map FLinearColor_to_ai linearColors;
         mesh_faces := faces;
         mesh_base :=
           mkaiMesh_base aiPrimitiveType_TRIANGLE (to_uint32 materialIndex)
             0 0 view_null view_null view_null view_null view_null 0
             view_null view_null |} in
    Some (set_pools scene (meshes scene ++ [mesh]) mats uniq, this).

Fixpoint create_meshes (st : FAssimpScene * FAssimpNode)
    (sections : list FExportableMeshSection) : option (FAssimpScene * FAssimpNode) :=
  match sections with
  | [] => Some st
  | section :: rest =>
      match create_mesh st section with
      | Some st => create_meshes st rest
      | None => None
      end
  end.

(** [FAssimpNode::CreateAssimpMeshesFromMeshData]. *)
Definition CreateAssimpMeshesFromMeshData (scene : FAssimpScene) (this : FAssimpNode)
    (param : FRuntimeMeshExportParam) : option (FAssimpScene * FAssimpNode) :=
  mapMaterialSections ←
    group_sections (worldTransform this) param []
      (concat (gatheredExportables this));
  let this := set_gatheredExportables this [] in
  create_meshes (scene, this) (concat (map snd mapMaterialSections)).

(** [FAssimpNode::ProcessGatheredData_Internal] on the node at [self] of the
    tree [root]: the scene, and the node after the call.  The children are
    processed from the last to the first. *)
Fixpoint ProcessGatheredData_Internal (root : FAssimpNode)
    (param : FRuntimeMeshExportParam) (this : FAssimpNode) (self : NodePtr)
    (scene : FAssimpScene) : option (FAssimpScene * FAssimpNode) :=
  match GetHierarchicalName root self with
  | None => None
  | Some hierarchicalName =>
      match CreateAssimpMeshesFromMeshData scene this param with
      | None => None
      | Some (scene, created) =>
          let scene :=
            WriteToLogWithNewLine scene
              (Printf "Node %s has %d meshes for export."
                      [arg_s hierarchicalName; arg_d (Num (meshRefIndices created))]) in
          match
            (fix each_child (cs : list FAssimpNode) (childIndex : nat)
                 (scene : FAssimpScene) : option (FAssimpScene * list FAssimpNode) :=
               match cs with
               | [] => Some (scene, [])
               | child :: later =>
                   match each_child later (S childIndex) scene with
                   | None => None
                   | Some (scene, later) =>
                       match ProcessGatheredData_Internal root param child
                               (childIndex :: self) scene with
                       | Some (scene, child) => Some (scene, child :: later)
                       | None => None
                       end
                   end
               end) (children this) 0%nat scene
          with
          | None => None
          | Some (scene, processed) =>
              let this := set_children created processed in
              let scene :=
                if (Num (children this) =? 0) && (Num (meshRefIndices this) =? 0) then
                  WriteToLogWithNewLine scene
                    (Printf "Node %s has no children and no meshes."
                            [arg_s hierarchicalName])
                else scene in
              Some (scene, this)
          end
      end
  end.

(** [FAssimpNode::ProcessGatheredData_Recursive], called on the root node of
    the scene. *)
Definition ProcessGatheredData_Recursive (scene : FAssimpScene)
    (param : FRuntimeMeshExportParam) : option FAssimpScene :=
  let scene := WriteToLogWithNewLine scene "Begin processing gathered data." in
  '(scene, root) ←
    ProcessGatheredData_Internal (rootNode scene) param (rootNode scene) [] scene;
  let scene := set_rootNode scene root in
  Some (WriteToLogWithNewLine scene
          (Printf "End processing gathered data. Duration: %.3fs" [arg_seconds])).

(** ** Binding: filling the foreign parent structs *)

(** Engine operations: [FRotator::Quaternion],
    [FTransform::ConcatenateRotation] and [FTransform::ToMatrixWithScale]. *)
Variable Quaternion : FRotator -> FQuat.
Variable ConcatenateRotation : FTransform -> FQuat -> FTransform.
Variable ToMatrixWithScale : FTransform -> FMatrix.

(** [URuntimeMeshImportExportLibrary::RotationCorrectionToValue]. *)
Definition RotationCorrectionToValue (correction : ERotationCorrection) : float :=
  match correction with
  | Minus_90 => f_minus_90
  | Zero => f_zero
  | Plus_90 => f_plus_90
  end.

(** [URuntimeMeshImportExportLibrary::FTransformToAiTransform]. *)
Definition FTransformToAiTransform (transform : FTransform) : aiMatrix4x4 :=
  let uMatrix := ToMatrixWithScale transform in
  {| a1 := uMatrix 0 0; b1 := uMatrix 0 1; c1 := uMatrix 0 2; d1 := uMatrix 0 3;
     a2 := uMatrix 1 0; b2 := uMatrix 1 1; c2 := uMatrix 1 2; d2 := uMatrix 1 3;
     a3 := uMatrix 2 0; b3 := uMatrix 2 1; c3 := uMatrix 2 2; d3 := uMatrix 2 3;
     a4 := uMatrix 3 0; b4 := uMatrix 3 1; c4 := uMatrix 3 2; d4 := uMatrix 3 3 |}%nat.

(** "Apply transform corrections": the branch of a node without parent. *)
Definition apply_correction (relativeTransform : FTransform)
    (c : FTransformCorrection) : FTransform :=
  let scale := GetScale3D relativeTransform in
  let scale := FVector_scale scale (scaleFactor c) in
  let scale :=
    if bFlipX c then mkFVector (fmul (vecX scale) f_minus_one) (vecY scale) (vecZ scale)
    else scale in
  let scale :=
    if bFlipY c then mkFVector (vecX scale) (fmul (vecY scale) f_minus_one) (vecZ scale)
    else scale in
  let scale :=
    if bFlipZ c then mkFVector (vecX scale) (vecY scale) (fmul (vecZ scale) f_minus_one)
    else scale in
  let relativeTransform := SetScale3D relativeTransform scale in
  let deltaRot :=
    mkFRotator (RotationCorrectionToValue (PitchCorrection_Y c))
               (RotationCorrectionToValue (YawCorrection_Z c))
               (RotationCorrectionToValue (RollCorrection_X c)) in
  ConcatenateRotation relativeTransform (Quaternion deltaRot).

(** The [relativeTransform] that [FAssimpNode::SetDataAndPtrsToParentClass]
    computes for [this], whose [parent] pointer is [parent]. *)
Definition relativeTransform_of (parent : option FAssimpNode) (this : FAssimpNode)
    (param : FRuntimeMeshExportParam) : FTransform :=
  let relativeTransform := worldTransform this in
  match parent with
  | Some parent => FTransform_mul (Inverse (worldTransform parent)) (worldTransform this)
  | None => apply_correction relativeTransform (correction param)
  end.

(** [FAssimpNode::SetDataAndPtrsToParentClass]. *)
Fixpoint SetDataAndPtrsToParentClass (parent : option FAssimpNode)
    (this : FAssimpNode) (param : FRuntimeMeshExportParam) : FAssimpNode :=
  let base :=
    {| mName := TCHAR_TO_ANSI (ToString (name this));
       mTransformation := FTransformToAiTransform (relativeTransform_of parent this param);
       mNumMeshes := Num (meshRefIndices this);
       mMeshes := view_of_owned;
       mNumChildren := Num (children this);
       mChildren := view_of_owned;
       mMetaData := mMetaData (node_base this) |} in
  set_children (set_node_base this base)
    (map (fun child => SetDataAndPtrsToParentClass (Some this) child param)
         (children this)).

(** [FAssimpMesh::SetDataAndPtrsToParentClass]. *)
Definition FAssimpMesh_SetDataAndPtrsToParentClass (mesh : FAssimpMesh) : FAssimpMesh :=
  {| mesh_vertices := mesh_vertices mesh;
     mesh_normals := mesh_normals mesh;
     mesh_tangents := mesh_tangents mesh;
     mesh_bitangents := mesh_bitangents mesh;
     mesh_textureCoordinates_0 := mesh_textureCoordinates_0 mesh;
     mesh_numUVComponents_0 := mesh_numUVComponents_0 mesh;
     mesh_vertexColors := mesh_vertexColors mesh;
     mesh_faces := mesh_faces mesh;
     mesh_base :=
       {| mPrimitiveTypes := mPrimitiveTypes (mesh_base mesh);
          mMaterialIndex := mMaterialIndex (mesh_base mesh);
          mNumVertices := Num (mesh_vertices mesh);
          mNumFaces := Num (mesh_faces mesh);
          mVertices := view_of_owned;
          mNormals := view_of_owned;
          mTangents := view_of_owned;
          mBitangents := view_of_owned;
          mColors_0 := view_of_owned;
          mNumUVComponents_0 := mesh_numUVComponents_0 mesh;
          mTextureCoords_0 := view_of_owned;
          mFaces := view_of_owned |} |}.

(** [FAssimpScene::SetDataAndPtrsToParentClass_EntireScene]. *)
Definition SetDataAndPtrsToParentClass_EntireScene (scene : FAssimpScene)
    (param : FRuntimeMeshExportParam) : FAssimpScene :=
  let base :=
    {| scene_mNumMeshes := Num (meshes scene);
       scene_mMeshes := view_of_owned;
       scene_mNumMaterials := Num (materials scene);
       scene_mMaterials := view_of_owned;
       scene_mRootNode := view_of_owned |} in
  let scene := set_scene_base scene base in
  let scene := set_rootNode scene (SetDataAndPtrsToParentClass None (rootNode scene) param) in
  set_pools scene (map FAssimpMesh_SetDataAndPtrsToParentClass (meshes scene))
    (materials scene) (uniqueMaterials scene).

(** [FAssimpNode::ClearParentDataAndPtrs] and [FAssimpNode::ClearMeshData]. *)
Definition FAssimpNode_ClearParentDataAndPtrs (this : FAssimpNode) : FAssimpNode :=
  set_node_base this
    {| mName := mName (node_base this);
       mTransformation := mTransformation (node_base this);
       mNumMeshes := 0; mMeshes := view_null;
       mNumChildren := 0; mChildren := view_null;
       mMetaData := view_null |}.

Definition FAssimpNode_ClearMeshData (this : FAssimpNode) : FAssimpNode :=
  set_meshRefIndices (set_gatheredExportables (set_indexGatherNext this 0) []) [].

(** [FAssimpNode::ClearExportData]. *)
Fixpoint ClearExportData (this : FAssimpNode) : FAssimpNode :=
  let cleared := FAssimpNode_ClearMeshData (FAssimpNode_ClearParentDataAndPtrs this) in
  set_children cleared (map ClearExportData (children this)).

(** [FAssimpScene::ClearParentDataAndPtrs] and [FAssimpScene::ClearMeshData]. *)
Definition FAssimpScene_ClearParentDataAndPtrs (scene : FAssimpScene) : FAssimpScene :=
  set_scene_base scene aiScene_base_init.

Definition FAssimpScene_ClearMeshData (scene : FAssimpScene) : FAssimpScene :=
  set_pools scene [] [] [].

(** [FAssimpScene::ClearSceneExportData]. *)
Definition ClearSceneExportData (scene : FAssimpScene) : FAssimpScene :=
  let scene :=
    set_async scene 0 (-1) (gatheredMeshNum scene) (gatherMeshDataTicker scene) in
  let scene := FAssimpScene_ClearParentDataAndPtrs scene in
  let scene := FAssimpScene_ClearMeshData scene in
  set_rootNode scene (ClearExportData (rootNode scene)).

(** The constructor [FAssimpScene()]. *)
Definition new_FAssimpScene : FAssimpScene :=
  {| rootNode := new_FAssimpNode NAME_None;
     meshes := []; materials := []; uniqueMaterials := [];
     bLogToUnreal := false; numObjectsSkipped := 0; exportLog := None;
     allNodesHelper := []; currentNodeIndex := 0; numGatherPerTick := -1;
     gatheredMeshNum := 0; gatherMeshDataTicker := false;
     scene_base := aiScene_base_init |}.

(** ** Preparing the scene *)

(** [GatherMeshData] called through a pointer of [allNodesHelper]. *)
Definition GatherMeshData_at (scene : FAssimpScene) (node : NodePtr)
    (param : FRuntimeMeshExportParam) (bGatherAll : bool) (numToGather : Z)
  : option (FAssimpScene * Z) :=
  this ← deref (rootNode scene) node;
  '(scene, this, numGathered) ← GatherMeshData scene this param bGatherAll numToGather;
  Some (set_rootNode scene (store (rootNode scene) node this), numGathered).

Fixpoint gather_all_nodes (scene : FAssimpScene) (nodes : list NodePtr)
    (param : FRuntimeMeshExportParam) : option FAssimpScene :=
  match nodes with
  | [] => Some scene
  | node :: rest =>
      match GatherMeshData_at scene node param true 0 with
      | Some (scene, _) => gather_all_nodes scene rest param
      | None => None
      end
  end.

(** [FAssimpScene::PrepareSceneForExport]. *)
Definition PrepareSceneForExport (scene : FAssimpScene)
    (param : FRuntimeMeshExportParam) : option FAssimpScene :=
  let scene := set_numObjectsSkipped scene 0 in
  let scene := WriteToLogWithNewLine scene "Begin gather mesh data." in
  let scene :=
    set_allNodesHelper scene
      (GetNodesRecursive (rootNode scene) [] (allNodesHelper scene)) in
  scene ← gather_all_nodes scene (allNodesHelper scene) param;
  let scene :=
    WriteToLogWithNewLine scene
      (Printf "End gather mesh data. Duration: %.3fs" [arg_seconds]) in
  scene ← ProcessGatheredData_Recursive scene param;
  Some (SetDataAndPtrsToParentClass_EntireScene scene param).

(** [FAssimpScene::PrepareSceneForExport_Async_Start]. *)
Definition PrepareSceneForExport_Async_Start (scene : FAssimpScene)
    (param : FRuntimeMeshExportAsyncParam) : FAssimpScene :=
  let scene := set_numObjectsSkipped scene 0 in
  let perTick :=
    if numGatherPerTick_param param <? 1 then 1 else numGatherPerTick_param param in
  let scene := set_async scene 0 perTick 0 (gatherMeshDataTicker scene) in
  let scene :=
    set_allNodesHelper scene
      (GetNodesRecursive (rootNode scene) [] (allNodesHelper scene)) in
  let scene := WriteToLogWithNewLine scene "Begin gather mesh data." in
  set_async scene (currentNodeIndex scene) (numGatherPerTick scene)
    (gatheredMeshNum scene) true.

(** The [while (numToGather)] loop of [PrepareSceneForExport_Update]; the
    flag tells whether [onGameThreadPrepareFinished] was called.  Every
    iteration lowers [numToGather] or advances [currentNodeIndex]; [fuel]
    bounds the iterations. *)
Fixpoint PrepareSceneForExport_Update_loop (fuel : nat) (scene : FAssimpScene)
    (param : FRuntimeMeshExportParam) (numToGather : Z)
  : option (FAssimpScene * bool) :=
  if numToGather =? 0 then Some (scene, false)
  else
    match fuel with
    | O => None
    | S fuel =>
        match at_index (allNodesHelper scene) (currentNodeIndex scene) with
        | None => None
        | Some node =>
            match GatherMeshData_at scene node param false numToGather with
            | None => None
            | Some (scene, numGathered) =>
                let scene :=
                  set_async scene (currentNodeIndex scene) (numGatherPerTick scene)
                    (gatheredMeshNum scene + numGathered) (gatherMeshDataTicker scene) in
                if numGathered =? 0 then
                  let scene :=
                    set_async scene (currentNodeIndex scene + 1) (numGatherPerTick scene)
                      (gatheredMeshNum scene) (gatherMeshDataTicker scene) in
                  if currentNodeIndex scene >=? Num (allNodesHelper scene) then
                    let scene :=
                      set_async scene (currentNodeIndex scene) (numGatherPerTick scene)
                        (gatheredMeshNum scene) false in
                    Some (WriteToLogWithNewLine scene
                            (Printf "End gather mesh data. Duration: %.3fs" [arg_seconds]),
                          true)
                  else
                    PrepareSceneForExport_Update_loop fuel scene param
                      (numToGather - numGathered)
                else
                  PrepareSceneForExport_Update_loop fuel scene param
                    (numToGather - numGathered)
            end
        end
    end.

(** [FAssimpScene::PrepareSceneForExport_Update], one tick of the ticker. *)
Definition PrepareSceneForExport_Update (scene : FAssimpScene)
    (param : FRuntimeMeshExportParam) : option (FAssimpScene * bool) :=
  if negb (0 <? numGatherPerTick scene) then None
  else if currentNodeIndex scene >=? Num (allNodesHelper scene) then None
  else
    let fuel :=
      Z.to_nat (numGatherPerTick scene
                + (Num (allNodesHelper scene) - currentNodeIndex scene)) in
    PrepareSceneForExport_Update_loop fuel scene param (numGatherPerTick scene).


(** ** RuntimeMeshExporter.cpp *)

Record FRuntimeMeshExportResult := mkFRuntimeMeshExportResult {
  bSuccess : bool;
  result_exportLog : FString;
  error : FString;
  result_numObjectsSkipped : Z
}.

(** What one call of [Assimp::Exporter::Export] does, as far as the exporter
    observes it: the value returned or the exception thrown, the messages
    sent to the attached log stream, and [GetErrorString] afterwards. *)
Inductive codec_outcome :=
| codec_returned (ret : aiReturn)
| codec_threw (what : string).

Record codec_run := mkcodec_run {
  outcome : codec_outcome;
  logged : list string;
  errorString : string
}.

(** The platform file system, [FPaths::GetPath], [FString::ParseIntoArray]
    with the delimiter ["."] and empty parts culled, and the codec. *)
Variable FileExists : FString -> bool.
Variable CreateDirectoryTree : FString -> bool.
Variable FPaths_GetPath : FString -> FString.
Variable ParseIntoArray : FString -> list FString.
Variable Exporter_Export : FAssimpScene -> string -> string -> codec_run.

(** A [UObject*] handed to the exporter: it may implement the
    [MeshExportable] interface. *)
Record UObject := mkUObject {
  object_name : FString;
  as_MeshExportable : option IMeshExportable
}.

(** [URuntimeMeshExporter].  While an export runs, the text of the result's
    [exportLog] is held by [exportLog] of the scene, which points to it;
    [PostExportWork] hands it back when it resets the pointer. *)
Record URuntimeMeshExporter := mkURuntimeMeshExporter {
  bIsExporting : bool;
  scene : FAssimpScene;
  aiExporterReturn : aiReturn;
  aiExporterError : FString;
  asyncResult : FRuntimeMeshExportResult;
  delegatesBound : bool
}.

Definition set_scene (e : URuntimeMeshExporter) (s : FAssimpScene) : URuntimeMeshExporter :=
  mkURuntimeMeshExporter (bIsExporting e) s (aiExporterReturn e) (aiExporterError e)
    (asyncResult e) (delegatesBound e).
Definition set_asyncResult (e : URuntimeMeshExporter) (r : FRuntimeMeshExportResult)
  : URuntimeMeshExporter :=
  mkURuntimeMeshExporter (bIsExporting e) (scene e) (aiExporterReturn e)
    (aiExporterError e) r (delegatesBound e).
Definition set_codec_result (e : URuntimeMeshExporter) (ret : aiReturn) (err : FString)
  : URuntimeMeshExporter :=
  mkURuntimeMeshExporter (bIsExporting e) (scene e) ret err
    (asyncResult e) (delegatesBound e).
Definition set_delegatesBound (e : URuntimeMeshExporter) (b : bool) : URuntimeMeshExporter :=
  mkURuntimeMeshExporter (bIsExporting e) (scene e) (aiExporterReturn e)
    (aiExporterError e) (asyncResult e) b.

Definition set_bSuccess (r : FRuntimeMeshExportResult) (b : bool)
  : FRuntimeMeshExportResult :=
  mkFRuntimeMeshExportResult b (result_exportLog r) (error r) (result_numObjectsSkipped r).
Definition set_error (r : FRuntimeMeshExportResult) (e : FString)
  : FRuntimeMeshExportResult :=
  mkFRuntimeMeshExportResult (bSuccess r) (result_exportLog r) e (result_numObjectsSkipped r).

(** The constructor [URuntimeMeshExporter()]. *)
Definition new_URuntimeMeshExporter : URuntimeMeshExporter :=
  mkURuntimeMeshExporter false new_FAssimpScene aiReturn_FAILURE EmptyString
    (mkFRuntimeMeshExportResult false EmptyString EmptyString 0) false.

(** [URuntimeMeshExporter::AddNode]. *)
Definition AddNode (this : URuntimeMeshExporter) (hierarchicalName : FString)
    (nodeTransformWS : FTransform) : URuntimeMeshExporter :=
  if bIsExporting this then this
  else
    let nodeList := ParseIntoArray hierarchicalName in
    let '(root, foundNode) := FindOrCreateNode (rootNode (scene this)) nodeList in
    let root :=
      node_update root foundNode (fun n => set_worldTransform n nodeTransformWS) in
    set_scene this (set_rootNode (scene this) root).

(** [URuntimeMeshExporter::AddExportObject]. *)
Definition AddExportObject (this : URuntimeMeshExporter) (exportable : IMeshExportable)
    (bOverrideNode : bool) (hierarchicalNodeName : FString) : URuntimeMeshExporter :=
  if bIsExporting this then this
  else
    let nodeList :=
      ParseIntoArray (if bOverrideNode then hierarchicalNodeName
                      else GetHierarchicalNodeName exportable) in
    let '(root, foundNode) := FindOrCreateNode (rootNode (scene this)) nodeList in
    let root :=
      node_update root foundNode
        (fun n => set_exportObjects n (exportObjects n ++ [exportable])) in
    set_scene this (set_rootNode (scene this) root).

(** [URuntimeMeshExporter::AddExportObjects]. *)
Definition AddExportObjects (this : URuntimeMeshExporter)
    (exportables : list IMeshExportable) (bOverrideNode : bool)
    (hierarchicalNodeName : FString) : URuntimeMeshExporter :=
  if bIsExporting this then this
  else
    fold_left (fun this object =>
                 AddExportObject this object bOverrideNode hierarchicalNodeName)
              exportables this.

(** [URuntimeMeshExporter::AddObjectIfExportable]. *)
Definition AddObjectIfExportable (this : URuntimeMeshExporter) (object : UObject)
    (bOverrideNode : bool) (hierarchicalNodeName : FString)
  : URuntimeMeshExporter * bool :=
  if bIsExporting this then (this, false)
  else
    match as_MeshExportable object with
    | None => (this, false)
    | Some interfaceObject =>
        (AddExportObject this interfaceObject bOverrideNode hierarchicalNodeName, true)
    end.

(** [URuntimeMeshExporter::AddObjectsIfExportable]: the exporter and
    [notExportable] after the call. *)
Definition AddObjectsIfExportable (this : URuntimeMeshExporter) (objects : list UObject)
    (bOverrideNode : bool) (hierarchicalNodeName : FString)
    (notExportable : list UObject) : URuntimeMeshExporter * list UObject :=
  if bIsExporting this then (this, notExportable)
  else
    fold_left (fun '(this, notExportable) object =>
                 let '(this, added) :=
                   AddObjectIfExportable this object bOverrideNode hierarchicalNodeName in
                 if negb added then (this, notExportable ++ [object])
                 else (this, notExportable))
              objects (this, notExportable).

(** [URuntimeMeshExporter::PreExportWork]. *)
Definition PreExportWork (this : URuntimeMeshExporter) (param : FRuntimeMeshExportParam)
    (result : FRuntimeMeshExportResult)
  : URuntimeMeshExporter * FRuntimeMeshExportResult * bool :=
  if bIsExporting this then
    (this, set_error result (NewLineAndAppend (error result) "Already exporting!"), false)
  else
    let result :=
      mkFRuntimeMeshExportResult (bSuccess result) EmptyString EmptyString
        (result_numObjectsSkipped result) in
    let this := set_codec_result this aiReturn_FAILURE EmptyString in
    if negb (bOverrideExisting param) && FileExists (file param) then
      (this,
       set_error result
         (NewLineAndAppend (error result)
            (Printf "File %s does already exist!" [arg_s (file param)])),
       false)
    else if negb (CreateDirectoryTree (FPaths_GetPath (file param))) then
      (this,
       set_error result
         (NewLineAndAppend (error result)
            (Printf "Could not create directory: %s"
                    [arg_s (FPaths_GetPath (file param))])),
       false)
    else
      let s := set_bLogToUnreal (scene this) (bLogToUnreal_param param) in
      let s := set_exportLog s (Some (result_exportLog result)) in
      let this := set_scene this s in
      (mkURuntimeMeshExporter true (scene this) (aiExporterReturn this)
         (aiExporterError this) (asyncResult this) (delegatesBound this),
       result, true).

(** [URuntimeMeshExporter::PostExportWork]. *)
Definition PostExportWork (this : URuntimeMeshExporter)
    (result : FRuntimeMeshExportResult)
  : URuntimeMeshExporter * FRuntimeMeshExportResult * bool :=
  let result :=
    if negb (String.eqb (aiExporterError this) EmptyString) then
      set_error result (NewLineAndAppend (error result) (aiExporterError this))
    else result in
  let '(result, bExportSuccessful) :=
    match aiExporterReturn this with
    | aiReturn_OUTOFMEMORY =>
        (set_error result
           (NewLineAndAppend (error result) "Export failed: out of memory!"), false)
    | aiReturn_FAILURE =>
        (set_error result (NewLineAndAppend (error result) "Export failed!"), false)
    | aiReturn_SUCCESS =>
        if negb (String.eqb (error result) EmptyString) then (result, false)
        else (result, true)
    end in
  let result :=
    match exportLog (scene this) with
    | Some text =>
        mkFRuntimeMeshExportResult (bSuccess result) text (error result)
          (result_numObjectsSkipped result)
    | None => result
    end in
  let s := set_exportLog (scene this) None in
  let result :=
    mkFRuntimeMeshExportResult (bSuccess result) (result_exportLog result)
      (error result) (numObjectsSkipped s) in
  let s := ClearSceneExportData s in
  (mkURuntimeMeshExporter false s aiReturn_FAILURE EmptyString
     (asyncResult this) (delegatesBound this),
   result, bExportSuccessful).

Definition log_scene_counts (s : FAssimpScene) : FAssimpScene :=
  let s :=
    WriteToLogWithNewLine s
      (Printf "Scene does contain %d meshes." [arg_d (scene_mNumMeshes (scene_base s))]) in
  WriteToLogWithNewLine s
    (Printf "Scene does contain %d materials."
            [arg_d (scene_mNumMaterials (scene_base s))]).

(** [URuntimeMeshExporter::Export]: the exporter and [result] after the
    call. *)
Definition Export (this : URuntimeMeshExporter) (param : FRuntimeMeshExportParam)
    (result : FRuntimeMeshExportResult)
  : option (URuntimeMeshExporter * FRuntimeMeshExportResult) :=
  let '(this, result, ready) := PreExportWork this param result in
  if negb ready then Some (this, set_bSuccess result false)
  else
    sceneRef ← PrepareSceneForExport (scene this) param;
    let sceneRef := log_scene_counts sceneRef in
    let sceneRef := WriteToLogWithNewLine sceneRef "Begin export scene." in
    let run :=
      Exporter_Export sceneRef (TCHAR_TO_ANSI (formatId param))
        (TCHAR_TO_ANSI (file param)) in
    let sceneRef := fold_left WriteToLogWithNewLine (logged run) sceneRef in
    let '(this, sceneRef, result) :=
      match outcome run with
      | codec_returned ret =>
          (set_codec_result this ret (aiExporterError this),
           WriteToLogWithNewLine sceneRef
             (Printf "End export scene. Duration: %.3fs" [arg_seconds]),
           result)
      | codec_threw what =>
          let exceptionString :=
            Printf "Exception thrown during export: %s" [arg_s what] in
          (this,
           WriteToLogWithNewLine sceneRef exceptionString,
           set_error result (NewLineAndAppend (error result) exceptionString))
      end in
    let this := set_codec_result this (aiExporterReturn this) (errorString run) in
    let this := set_scene this sceneRef in
    let '(this, result, success) := PostExportWork this result in
    Some (this, set_bSuccess result success).

(** The member [asyncResult] as a reader finds it while an export runs:
    the scene's [exportLog] points to the log of that result, so the text
    read there is the log of the running export. *)
Definition asyncResult_read (this : URuntimeMeshExporter) : FRuntimeMeshExportResult :=
  match exportLog (scene this) with
  | Some text =>
      mkFRuntimeMeshExportResult (bSuccess (asyncResult this)) text
        (error (asyncResult this)) (result_numObjectsSkipped (asyncResult this))
  | None => asyncResult this
  end.

(** [URuntimeMeshExporter::Export_Async_Cpp]: the exporter, and the result
    passed to [callbackFinished] when the call is turned down.  The result
    passed is the member [asyncResult] itself.  When the call is turned down
    because an export runs, [PreExportWork] has left its log alone, and the
    callback finds in it the log of the running export; otherwise
    [PreExportWork] has emptied it. *)
Definition Export_Async_Cpp (this : URuntimeMeshExporter)
    (param : FRuntimeMeshExportAsyncParam)
  : URuntimeMeshExporter * option FRuntimeMeshExportResult :=
  let running := bIsExporting this in
  let '(this, result, ready) :=
    PreExportWork this (param_of_async param) (asyncResult this) in
  let this := set_asyncResult this result in
  if negb ready then
    let this := set_asyncResult this (set_bSuccess (asyncResult this) false) in
    (this, Some (if running then asyncResult_read this else asyncResult this))
  else
    let this := set_delegatesBound this true in
    (set_scene this (PrepareSceneForExport_Async_Start (scene this) param), None).

(** One tick of the gather ticker on the game thread; the flag tells
    whether gathering is complete and the export moves to another thread. *)
Definition Export_Async_Tick (this : URuntimeMeshExporter)
    (param : FRuntimeMeshExportAsyncParam) : option (URuntimeMeshExporter * bool) :=
  '(s, finished) ← PrepareSceneForExport_Update (scene this) (param_of_async param);
  Some (set_scene this s, finished).



(** ** Import: section records and their merging *)

(** [FRuntimeMeshImportSectionInfo]; [BoneInfo] is never written by the
    code below and is left out. *)
Record FRuntimeMeshImportSectionInfo := mkFRuntimeMeshImportSectionInfo {
  materialName : FName;
  materialIndex : Z;
  sec_vertices : list FVector;
  sec_triangles : list Z;
  sec_normals : list FVector;
  uv0 : list FVector2D;
  sec_vertexColors : list FLinearColor;
  sec_tangents : list FVector
}.

Record FRuntimeMeshImportMeshInfo := mkFRuntimeMeshImportMeshInfo {
  meshName : FName;
  sections : list FRuntimeMeshImportSectionInfo
}.

(** [URuntimeMeshImportExportLibrary::OffsetTriangleArray]. *)
Definition OffsetTriangleArray (offset : Z) (triangles : list Z) : list Z :=
  map (fun index => int32_add index offset) triangles.

(** [FRuntimeMeshImportSectionInfo::Append_Move]: the receiver and [other]
    after the call.  An array that was moved from is empty. *)
Definition Append_Move (this other : FRuntimeMeshImportSectionInfo)
  : FRuntimeMeshImportSectionInfo * FRuntimeMeshImportSectionInfo :=
  let other_triangles := OffsetTriangleArray (Num (sec_vertices this)) (sec_triangles other) in
  ({| sec_vertices := sec_vertices this ++ sec_vertices other;
      sec_normals := sec_normals this ++ sec_normals other;
      sec_tangents := sec_tangents this ++ sec_tangents other;
      sec_vertexColors := sec_vertexColors this ++ sec_vertexColors other;
      uv0 := uv0 this ++ uv0 other;
      sec_triangles := sec_triangles this ++ other_triangles;
      materialName :=
        if decide (materialName this = materialName other) then materialName this
        else NAME_None;
      materialIndex :=
        if materialIndex this =? materialIndex other then materialIndex this
        else INDEX_NONE |},
   {| sec_vertices := []; sec_normals := []; sec_tangents := [];
      sec_vertexColors := []; uv0 := []; sec_triangles := [];
      materialName := NAME_None;
      materialIndex := INDEX_NONE |}).

(** [MergeAllSections]. *)
Definition MergeAllSections (sectionInfos : list FRuntimeMeshImportSectionInfo)
  : list FRuntimeMeshImportSectionInfo :=
  match sectionInfos with
  | first :: ((_ :: _) as others) =>
      [fold_left (fun merged section => fst (Append_Move merged section)) others first]
  | _ => sectionInfos
  end.

(** [MergeSectionsSameMaterial].  [FindOrAdd] default-constructs the entry
    of a new key, which has no vertices and is assigned at once. *)
Definition MergeSectionsSameMaterial (sectionInfos : list FRuntimeMeshImportSectionInfo)
  : list FRuntimeMeshImportSectionInfo :=
  let map_MatName_Mesh :=
    fold_left
      (fun (m : TMap FName FRuntimeMeshImportSectionInfo) section =>
         match TMap_Find m (materialName section) with
         | None => m ++ [(materialName section, section)]
         | Some meshInfoRef =>
             if Num (sec_vertices meshInfoRef) =? 0 then
               TMap_assign m (materialName section) section
             else
               TMap_assign m (materialName section)
                 (fst (Append_Move meshInfoRef section))
         end)
      (rev sectionInfos) [] in
  map snd map_MatName_Mesh.

(** ** Import: reading the meshes of a node *)

(** The parts of a foreign [aiMesh] the importer reads; an optional channel
    is [None] when its pointer is null. *)
Record aiMesh := mkaiMesh {
  in_mNumVertices : Z;
  in_mVertices : list aiVector3D;
  in_mNormals : option (list aiVector3D);
  in_mTangents : option (list aiVector3D);
  in_mBitangents : option (list aiVector3D);
  in_mTextureCoords_0 : option (list aiVector3D);
  in_mColors_0 : option (list aiColor4D);
  in_mNumFaces : Z;
  in_mFaces : list aiFace;
  in_mMaterialIndex : Z
}.

(** The parts of a foreign [aiNode] and [aiScene] the importer reads; a
    material is represented by what [GetName] returns. *)
Record aiNode := mkaiNode {
  in_mName : string;
  in_mNumMeshes : Z;
  in_mMeshes : list Z
}.

Record aiScene := mkaiScene {
  in_scene_mMeshes : list aiMesh;
  in_scene_mMaterials : list string
}.

Record FRuntimeMeshImportResult := mkFRuntimeMeshImportResult {
  import_bSuccess : bool;
  meshInfos : list FRuntimeMeshImportMeshInfo
}.

(** Engine operations: [FTransform::TransformVectorNoScale],
    [FVector::GetSafeNormal], and the transform built from the inverse
    transpose of [ToMatrixWithScale]. *)
Variable TransformVectorNoScale : FTransform -> FVector -> FVector.
Variable GetSafeNormal : FVector -> FVector.
Variable InverseTransposed : FTransform -> FTransform.

Definition ai_to_FVector (v : aiVector3D) : FVector :=
  mkFVector (ai_x v) (ai_y v) (ai_z v).

(** C arrays of the foreign scene are read without a range check; reading
    past the end is undefined and modelled as an abort. *)
Definition c_index {A : Type} (l : list A) (i : Z) : option A :=
  if 0 <=? i then l !! Z.to_nat i else None.

(** "When the mesh is inside out cause of the scale, flip the winding order
    of the triangles". *)
Definition bFlipTriangleWindingOrder (transform : FTransform) : bool :=
  fltb (fmul (fmul (vecX (GetScale3D transform)) (vecY (GetScale3D transform)))
             (vecZ (GetScale3D transform)))
       f_zero.

(** The indices one face contributes to [triangles]. *)
Definition import_face (flip : bool) (face : aiFace) : option (list Z) :=
  if negb (mNumIndices face =? 3) then None
  else
    match mIndices face with
    | i0 :: i1 :: i2 :: _ =>
        if flip then Some [to_int32 i0; to_int32 i2; to_int32 i1]
        else Some [to_int32 i0; to_int32 i1; to_int32 i2]
    | _ => None
    end.

(** The block "Triangles" of [ImportMeshesOfNode]. *)
Definition import_triangles (transform : FTransform) (mesh : aiMesh) : option (list Z) :=
  let flip := bFlipTriangleWindingOrder transform in
  let numFaces := to_int32 (in_mNumFaces mesh) in
  faces ←
    for_each_index (Z.to_nat numFaces)
      (fun faceIndex =>
         match in_mFaces mesh !! faceIndex with
         | Some face => import_face flip face
         | None => None
         end);
  Some (concat faces).

Definition has_channel {A : Type} (mesh : aiMesh) (channel : option (list A)) : bool :=
  match channel with
  | Some _ => 0 <? in_mNumVertices mesh
  | None => false
  end.

Definition read_channel {A B : Type} (mesh : aiMesh) (channel : option (list A))
    (f : A -> B) : option (list B) :=
  match channel with
  | Some data =>
      for_each_index (Z.to_nat (in_mNumVertices mesh)) (fun i => f <$> data !! i)
  | None => None
  end.

(** The body of the loop over the meshes of a node: one section. *)
Definition import_section (scene : aiScene) (transform : FTransform) (mesh : aiMesh)
  : option FRuntimeMeshImportSectionInfo :=
  matName ← c_index (in_scene_mMaterials scene) (in_mMaterialIndex mesh);
  vs ← read_channel mesh (Some (in_mVertices mesh))
          (fun v => TransformPosition transform (ai_to_FVector v));
  let transformForNormal := InverseTransposed transform in
  ns ←
    (if has_channel mesh (in_mNormals mesh) then
       read_channel mesh (in_mNormals mesh)
         (fun v => GetSafeNormal (TransformVector transformForNormal (ai_to_FVector v)))
     else Some (replicate (Z.to_nat (in_mNumVertices mesh)) FVector_Zero));
  uvs ←
    (if has_channel mesh (in_mTextureCoords_0 mesh) then
       read_channel mesh (in_mTextureCoords_0 mesh)
         (fun v => mkFVector2D (ai_x v) (SFopp (ai_y v)))
     else Some []);
  ts ←
    (if has_channel mesh (in_mTangents mesh) && has_channel mesh (in_mBitangents mesh) then
       read_channel mesh (in_mTangents mesh)
         (fun v => GetSafeNormal (TransformVectorNoScale transform (ai_to_FVector v)))
     else Some []);
  cs ←
    (if has_channel mesh (in_mColors_0 mesh) then
       read_channel mesh (in_mColors_0 mesh)
         (fun c => mkFLinearColor (ai_r c) (ai_g c) (ai_b c) (ai_a c))
     else Some []);
  tris ← import_triangles transform mesh;
  Some {| materialName := FName_of matName;
          materialIndex := to_int32 (in_mMaterialIndex mesh);
          sec_vertices := vs; sec_triangles := tris; sec_normals := ns;
          uv0 := uvs; sec_vertexColors := cs; sec_tangents := ts |}.

(** [ImportMeshesOfNode]. *)
Definition ImportMeshesOfNode (scene : aiScene) (node : aiNode)
    (result : FRuntimeMeshImportResult) (nodeTransform : FTransform)
  : option FRuntimeMeshImportResult :=
  if in_mNumMeshes node =? 0 then Some result
  else
    secs ←
      for_each_index (Z.to_nat (in_mNumMeshes node))
        (fun nodeMeshIndex =>
           sceneMeshIndex ← in_mMeshes node !! nodeMeshIndex;
           mesh ← c_index (in_scene_mMeshes scene) (to_int32 sceneMeshIndex);
           import_section scene nodeTransform mesh);
    Some (mkFRuntimeMeshImportResult (import_bSuccess result)
            (meshInfos result ++
             [mkFRuntimeMeshImportMeshInfo (FName_of (in_mName node)) secs])).

(** ** The asynchronous export as it runs *)



(** ** Import: merging meshes and sections after the import *)

Inductive EImportMethodMesh := ImportMesh_Keep | ImportMesh_Merge.

Inductive EImportMethodSection :=
  ImportSection_Keep | ImportSection_Merge | ImportSection_MergeSameMaterial.

(** [MergeMeshes]. *)
Definition MergeMeshes (meshInfos : list FRuntimeMeshImportMeshInfo)
  : list FRuntimeMeshImportMeshInfo :=
  match meshInfos with
  | first :: ((_ :: _) as others) =>
      [fold_left
         (fun merged mesh =>
            mkFRuntimeMeshImportMeshInfo (meshName merged)
              (sections merged ++ sections mesh))
         others
         (mkFRuntimeMeshImportMeshInfo NAME_None (sections first))]
  | _ => meshInfos
  end.

(** The blocks "Handle Mesh Import Methode" and "Handle Section Import
    Methode" of [ImportScene_AnyThread], which run on the meshes imported
    from all nodes. *)
Definition handle_import_methods (importMethodMesh : EImportMethodMesh)
    (importMethodSection : EImportMethodSection)
    (meshInfos : list FRuntimeMeshImportMeshInfo) : list FRuntimeMeshImportMeshInfo :=
  if 0 <? Num meshInfos then
    let meshInfos :=
      match importMethodMesh with
      | ImportMesh_Keep => meshInfos
      | ImportMesh_Merge => MergeMeshes meshInfos
      end in
    match importMethodSection with
    | ImportSection_Keep => meshInfos
    | ImportSection_Merge =>
        map (fun mesh =>
               mkFRuntimeMeshImportMeshInfo (meshName mesh)
                 (MergeAllSections (sections mesh)))
            meshInfos
    | ImportSection_MergeSameMaterial =>
        map (fun mesh =>
               mkFRuntimeMeshImportMeshInfo (meshName mesh)
                 (MergeSectionsSameMaterial (sections mesh)))
            meshInfos
    end
  else meshInfos.

(** ** Conversions between the engine's and the foreign value types *)

(** The engine's constructor [FTransform(const FMatrix&)]. *)
Variable FTransform_of_FMatrix : FMatrix -> FTransform.

(** The matrix [tempMatrix] that [AiTransformToFTransform] fills; the
    entries outside the four rows and columns do not exist. *)
Definition tempMatrix_of (transform : aiMatrix4x4) : FMatrix :=
  fun i j =>
    match i, j with
    | 0, 0 => a1 transform | 0, 1 => b1 transform
    | 0, 2 => c1 transform | 0, 3 => d1 transform
    | 1, 0 => a2 transform | 1, 1 => b2 transform
    | 1, 2 => c2 transform | 1, 3 => d2 transform
    | 2, 0 => a3 transform | 2, 1 => b3 transform
    | 2, 2 => c3 transform | 2, 3 => d3 transform
    | 3, 0 => a4 transform | 3, 1 => b4 transform
    | 3, 2 => c4 transform | 3, 3 => d4 transform
    | _, _ => f_zero
    end%nat.

(** [URuntimeMeshImportExportLibrary::AiTransformToFTransform]. *)
Definition AiTransformToFTransform (transform : aiMatrix4x4) : FTransform :=
  FTransform_of_FMatrix (tempMatrix_of transform).

(** The engine's [FProcMeshTangent] and its two-argument constructor. *)
Record FProcMeshTangent := mkFProcMeshTangent {
  TangentX : FVector;
  bFlipTangentY : bool
}.

(** [URuntimeMeshImportExportLibrary::ConvertVectorToProceduralMeshTangent]:
    the array [procTangents] after the call. *)
Definition ConvertVectorToProceduralMeshTangent (tangents : list FVector)
    (bFlipTangentY : bool) : list FProcMeshTangent :=
  map (fun tan => mkFProcMeshTangent tan bFlipTangentY) tangents.

(** [URuntimeMeshImportExportLibrary::ConvertProceduralMeshTangentToVector]:
    the array [tangents] after the call. *)
Definition ConvertProceduralMeshTangentToVector (procTangents : list FProcMeshTangent)
  : list FVector :=
  map TangentX procTangents.

(** ** Import: walking the nodes of a foreign scene *)

(** A node of the foreign scene as the walk reads it: the node, its
    transformation and its [mNumChildren] children.  The [mParent] pointer
    is the node's position: the walk carries the nodes above a node, its
    parent first. *)
Local Unset Elimination Schemes.
Inductive aiNodeTree := mkaiNodeTree {
  in_node : aiNode;
  in_mTransformation : aiMatrix4x4;
  in_mChildren : list aiNodeTree
}.

Local Set Elimination Schemes.

(** [IterateSceneNodes], for a predicate that works on a state and may
    abort. *)
Fixpoint IterateSceneNodes {S : Type} (above : list aiNodeTree) (node : aiNodeTree)
    (predicate : list aiNodeTree -> aiNodeTree -> S -> option S) (s : S)
  : option S :=
  match predicate above node s with
  | Some s =>
      (fix each_child (cs : list aiNodeTree) (s : S) : option S :=
         match cs with
         | [] => Some s
         | child :: cs' =>
             match IterateSceneNodes (node :: above) child predicate s with
             | Some s => each_child cs' s
             | None => None
             end
         end) (in_mChildren node) s
  | None => None
  end.

(** [BuildComposedNodeTransform]. *)
Fixpoint BuildComposedNodeTransform (above : list aiNodeTree) (node : aiNodeTree)
    (transform : FTransform) : FTransform :=
  let transform :=
    match above with
    | parent :: above' => BuildComposedNodeTransform above' parent transform
    | [] => transform
    end in
  FTransform_mul (AiTransformToFTransform (in_mTransformation node)) transform.

Inductive ERuntimeMeshImportExportProgressType :=
  | Progress_Nothing | Progress_Unknown | Progress_AssimpFileRead
  | Progress_AssimpFileWrite | Progress_AssimpPostProcess | Progress_GatheringMeshs
  | Progress_ImportingMeshes | Progress_ImportingMaterials.

Record FRuntimeMeshImportExportProgress := mkFRuntimeMeshImportExportProgress {
  progress_type : ERuntimeMeshImportExportProgressType;
  progress_current : Z;
  progress_max : Z
}.

(** The blocks "Count scene nodes for progress update" and "Import mesh
    data" of [ImportScene_AnyThread], which run when the scene has meshes,
    for the scene with root node [root]: the result, and the progress
    updates sent to a bound callback.  The lambda does not use
    [composedParentTransform], the copy of the argument [transform]. *)
Definition import_scene_meshes (scene : aiScene) (root : aiNodeTree)
    (result : FRuntimeMeshImportResult)
  : option (FRuntimeMeshImportResult * list FRuntimeMeshImportExportProgress) :=
  numNodes ← IterateSceneNodes [] root
                (fun _ _ numNodes => Some (int32_add numNodes 1)) 0;
  walked ←
    IterateSceneNodes [] root
      (fun above node '(result, nodeCounter, sent) =>
         let composedNodeTransform :=
           BuildComposedNodeTransform above node FTransform_Identity in
         result ← ImportMeshesOfNode scene (in_node node) result composedNodeTransform;
         let nodeCounter := int32_add nodeCounter 1 in
         Some (result, nodeCounter,
               sent ++ [mkFRuntimeMeshImportExportProgress
                          Progress_ImportingMeshes nodeCounter numNodes]))
      (result, 0, []);
  let '(result, _, sent) := walked in
  Some (result, sent).

(** * Properties *)

(** ** Arithmetic helpers *)

Lemma Num_nonneg {A : Type} (l : list A) : 0 <= Num l.
Proof. unfold Num. lia. Qed.

Lemma Num_app {A : Type} (l k : list A) : Num (l ++ k) = Num l + Num k.
Proof. unfold Num. rewrite length_app. lia. Qed.

Lemma Num_nil_iff {A : Type} (l : list A) : Num l = 0 <-> l = [].
Proof.
  unfold Num. destruct l as [|x l]; simpl; split; intro H; try reflexivity;
    try discriminate; lia.
Qed.

Lemma to_int32_exact (z : Z) : in_int32 z -> to_int32 z = z.
Proof.
  unfold in_int32, int32_min, int32_max, to_int32. intros H.
  rewrite Z.mod_small by lia. lia.
Qed.

Lemma int32_add_exact (a b : Z) : in_int32 (a + b) -> int32_add a b = a + b.
Proof. unfold int32_add. apply to_int32_exact. Qed.

Lemma to_uint32_exact (z : Z) : 0 <= z < 2 ^ 32 -> to_uint32 z = z.
Proof. unfold to_uint32. intros H. apply Z.mod_small. exact H. Qed.

(** ** Section validity *)

(** The five conditions of the section invariant, as a boolean. *)
Definition section_valid (section : FExportableMeshSection) : bool :=
  (Num (normals section) =? Num (vertices section))
  && (Num (tangents section) =? Num (vertices section))
  && (Num (vertexColors section) =? Num (vertices section))
  && (Num (textureCoordinates section) =? Num (vertices section))
  && (Z.rem (Num (triangles section)) 3 =? 0).

Lemma ValidateMeshSection_verdict scene exportable section :
  snd (ValidateMeshSection scene exportable section) = section_valid section.
Proof.
  unfold ValidateMeshSection, section_valid.
  destruct (Num (normals section) =? Num (vertices section));
    destruct (Num (tangents section) =? Num (vertices section));
    destruct (Num (vertexColors section) =? Num (vertices section));
    destruct (Num (textureCoordinates section) =? Num (vertices section));
    destruct (Z.rem (Num (triangles section)) 3 =? 0); reflexivity.
Qed.

Lemma section_valid_spec (section : FExportableMeshSection) :
  section_valid section = true <->
  Num (normals section) = Num (vertices section)
  /\ Num (tangents section) = Num (vertices section)
  /\ Num (vertexColors section) = Num (vertices section)
  /\ Num (textureCoordinates section) = Num (vertices section)
  /\ (3 | Num (triangles section)).
Proof.
  unfold section_valid. rewrite !andb_true_iff, !Z.eqb_eq.
  rewrite (Z.rem_divide (Num (triangles section)) 3) by lia.
  split; [intros ((((Hn & Ht) & Hc) & Hu) & Hd)|intros (Hn & Ht & Hc & Hu & Hd)];
    repeat split; assumption.
Qed.

(** C3.  [ValidateMeshSection] answers false exactly when one of the
    parallel arrays normals, tangents, vertexColors, textureCoordinates
    differs in length from the vertices or the number of triangle indices is
    no multiple of 3, and true exactly when all five conditions hold. *)
Theorem ValidateMeshSection_false_iff :
  forall scene exportable section,
    (snd (ValidateMeshSection scene exportable section) = false <->
       Num (normals section) <> Num (vertices section)
       \/ Num (tangents section) <> Num (vertices section)
       \/ Num (vertexColors section) <> Num (vertices section)
       \/ Num (textureCoordinates section) <> Num (vertices section)
       \/ ~ (3 | Num (triangles section)))
    /\
    (snd (ValidateMeshSection scene exportable section) = true <->
       Num (normals section) = Num (vertices section)
       /\ Num (tangents section) = Num (vertices section)
       /\ Num (vertexColors section) = Num (vertices section)
       /\ Num (textureCoordinates section) = Num (vertices section)
       /\ (3 | Num (triangles section))).
Proof.
  intros scene exportable section.
  rewrite ValidateMeshSection_verdict.
  pose proof (section_valid_spec section) as Hspec.
  split; [|exact Hspec].
  destruct (section_valid section).
  - split; [discriminate|].
    intros Hbad. destruct Hspec as [Hall _].
    destruct (Hall eq_refl) as (Hn & Ht & Hc & Hu & Hd).
    destruct Hbad as [H|[H|[H|[H|H]]]]; contradiction.
  - split; [|reflexivity]. intros _.
    destruct (Z.eq_dec (Num (normals section)) (Num (vertices section))) as [Hn|Hn];
      [|left; exact Hn].
    destruct (Z.eq_dec (Num (tangents section)) (Num (vertices section))) as [Ht|Ht];
      [|right; left; exact Ht].
    destruct (Z.eq_dec (Num (vertexColors section)) (Num (vertices section))) as [Hc|Hc];
      [|right; right; left; exact Hc].
    destruct (Z.eq_dec (Num (textureCoordinates section)) (Num (vertices section)))
      as [Hu|Hu]; [|right; right; right; left; exact Hu].
    right; right; right; right. intros Hd.
    destruct Hspec as [_ Hall]. discriminate Hall. repeat split; assumption.
Qed.

(** ** Appending export sections *)

(** C4.  For sections with equal material handles [Append] succeeds; it
    concatenates each parallel vertex array, keeps the receiver's triangle
    indices as they are, and appends the other's indices each offset by the
    receiver's vertex count before the append (an offset that is the plain
    sum whenever that sum is an [int32]). *)
Theorem Append_concatenates_and_offsets :
  forall A B : FExportableMeshSection,
    material A = material B ->
    exists R,
      Append A B = Some R
      /\ vertices R = vertices A ++ vertices B
      /\ normals R = normals A ++ normals B
      /\ tangents R = tangents A ++ tangents B
      /\ textureCoordinates R = textureCoordinates A ++ textureCoordinates B
      /\ vertexColors R = vertexColors A ++ vertexColors B
      /\ Num (vertices R) = Num (vertices A) + Num (vertices B)
      /\ take (length (triangles A)) (triangles R) = triangles A
      /\ drop (length (triangles A)) (triangles R)
         = map (fun tri => int32_add tri (Num (vertices A))) (triangles B)
      /\ (forall (k : nat) (tri : Z),
             triangles B !! k = Some tri ->
             triangles R !! (length (triangles A) + k)%nat
             = Some (int32_add tri (Num (vertices A)))
             /\ (in_int32 (tri + Num (vertices A)) ->
                 int32_add tri (Num (vertices A)) = tri + Num (vertices A)))
      /\ (triangles B = [] -> triangles R = triangles A)
      /\ material R = material A.
Proof.
  intros A B Hmat. unfold Append.
  destruct (decide (material A = material B)) as [_|Hne]; [|contradiction].
  eexists. split; [reflexivity|]. simpl.
  repeat split; try reflexivity.
  - apply Num_app.
  - rewrite take_app_length. reflexivity.
  - rewrite drop_app_length. reflexivity.
  - rewrite lookup_app_r by lia.
    replace (length (triangles A) + k - length (triangles A))%nat with k by lia.
    rewrite list_lookup_fmap, H. reflexivity.
  - apply int32_add_exact.
  - intros ->. simpl. apply app_nil_r.
Qed.

(** ** Merging import sections *)

(** C10.  [Append_Move] keeps the destination's [materialName] when both
    names agree and resets it to [None] otherwise, keeps its [materialIndex]
    when both indices agree and resets it to [-1] otherwise, always clears
    both fields of the source, and concatenates the source's triangle
    indices offset by the destination's prior vertex count. *)
Theorem Append_Move_material_and_offsets :
  forall A B : FRuntimeMeshImportSectionInfo,
    let merged := fst (Append_Move A B) in
    let source := snd (Append_Move A B) in
    (materialName A = materialName B -> materialName merged = materialName A)
    /\ (materialName A <> materialName B -> materialName merged = NAME_None)
    /\ (materialIndex A = materialIndex B -> materialIndex merged = materialIndex A)
    /\ (materialIndex A <> materialIndex B -> materialIndex merged = -1)
    /\ materialName source = NAME_None
    /\ materialIndex source = -1
    /\ sec_triangles merged
       = sec_triangles A
         ++ map (fun index => int32_add index (Num (sec_vertices A))) (sec_triangles B)
    /\ sec_vertices merged = sec_vertices A ++ sec_vertices B
    /\ sec_normals merged = sec_normals A ++ sec_normals B
    /\ sec_tangents merged = sec_tangents A ++ sec_tangents B
    /\ sec_vertexColors merged = sec_vertexColors A ++ sec_vertexColors B
    /\ uv0 merged = uv0 A ++ uv0 B
    /\ sec_vertices source = [] /\ sec_triangles source = [].
Proof.
  intros A B. simpl.
  repeat split; try reflexivity.
  - intros Heq. destruct (decide (materialName A = materialName B)); [reflexivity|contradiction].
  - intros Hne. destruct (decide (materialName A = materialName B)); [contradiction|reflexivity].
  - intros Heq. rewrite Heq, Z.eqb_refl. reflexivity.
  - intros Hne. destruct (Z.eqb_spec (materialIndex A) (materialIndex B));
      [contradiction|reflexivity].
Qed.

(** ** Winding order on import *)

Lemma for_each_index_list {A B : Type} (l : list A) (f : nat -> option B) (h : A -> B) :
  (forall i x, l !! i = Some x -> f i = Some (h x)) ->
  for_each_index (length l) f = Some (map h l).
Proof.
  induction l as [|x l IH] using rev_ind; intros Hf; [reflexivity|].
  rewrite length_app. simpl. rewrite Nat.add_1_r. simpl.
  rewrite IH.
  - rewrite (Hf (length l) x).
    + rewrite map_app. reflexivity.
    + rewrite lookup_app_r by lia. rewrite Nat.sub_diag. reflexivity.
  - intros i y Hi. apply Hf. rewrite lookup_app_l; [exact Hi|].
    apply lookup_lt_Some in Hi. exact Hi.
Qed.

Lemma for_each_index_length {B : Type} (n : nat) (f : nat -> option B) (l : list B) :
  for_each_index n f = Some l -> length l = n.
Proof.
  revert l. induction n as [|n IH]; simpl; intros l H.
  - injection H as <-. reflexivity.
  - destruct (for_each_index n f) as [l'|]; [|discriminate].
    destruct (f n); [|discriminate]. injection H as <-.
    rewrite length_app, (IH l' eq_refl). simpl. lia.
Qed.

(** A face of a triangulated mesh. *)
Definition face_is_triangle (face : aiFace) : Prop :=
  mNumIndices face = 3 /\ length (mIndices face) = 3%nat.

(** The indices of a face in stored order, and with the second and third
    exchanged. *)
Definition face_in_order (face : aiFace) : list Z :=
  match mIndices face with
  | i0 :: i1 :: i2 :: _ => [to_int32 i0; to_int32 i1; to_int32 i2]
  | _ => []
  end.
Definition face_reversed (face : aiFace) : list Z :=
  match mIndices face with
  | i0 :: i1 :: i2 :: _ => [to_int32 i0; to_int32 i2; to_int32 i1]
  | _ => []
  end.

(** A flat index buffer with the second and third index of every triangle
    exchanged. *)
Fixpoint swap_winding (l : list Z) : list Z :=
  match l with
  | i0 :: i1 :: i2 :: rest => i0 :: i2 :: i1 :: swap_winding rest
  | _ => l
  end.

Lemma import_face_triangle (flip : bool) (face : aiFace) :
  face_is_triangle face ->
  import_face flip face = Some (if flip then face_reversed face else face_in_order face).
Proof.
  intros [Hn Hl]. unfold import_face, face_reversed, face_in_order.
  rewrite Hn. simpl.
  destruct (mIndices face) as [|i0 [|i1 [|i2 rest]]]; try discriminate.
  destruct flip; reflexivity.
Qed.

Lemma swap_winding_faces (faces : list aiFace) :
  Forall face_is_triangle faces ->
  concat (map face_reversed faces) = swap_winding (concat (map face_in_order faces)).
Proof.
  induction 1 as [|face faces [Hn Hl] _ IH]; [reflexivity|].
  simpl. unfold face_reversed at 1, face_in_order at 1.
  destruct (mIndices face) as [|i0 [|i1 [|i2 rest]]]; try discriminate.
  simpl. rewrite IH. reflexivity.
Qed.

Lemma import_triangles_wellformed (transform : FTransform) (mesh : aiMesh) :
  in_mNumFaces mesh = Num (in_mFaces mesh) ->
  Num (in_mFaces mesh) <= int32_max ->
  Forall face_is_triangle (in_mFaces mesh) ->
  import_triangles transform mesh
  = Some (concat (map (fun face =>
                         if bFlipTriangleWindingOrder transform then face_reversed face
                         else face_in_order face) (in_mFaces mesh))).
Proof.
  intros Hnum Hmax Hfaces. unfold import_triangles.
  rewrite Hnum, to_int32_exact.
  2:{ pose proof (Num_nonneg (in_mFaces mesh)). unfold in_int32, int32_min. lia. }
  unfold Num. rewrite Nat2Z.id.
  erewrite for_each_index_list; [reflexivity|].
  intros i face Hi. simpl. rewrite Hi.
  apply import_face_triangle.
  rewrite Forall_forall in Hfaces. apply Hfaces.
  eapply list_elem_of_lookup_2. exact Hi.
Qed.

Lemma import_section_triangles scene transform mesh sec :
  import_section scene transform mesh = Some sec ->
  import_triangles transform mesh = Some (sec_triangles sec).
Proof.
  unfold import_section. intros H.
  repeat match type of H with
         | (?m ≫= _) = Some _ => destruct m; simpl in H; [|discriminate]
         end.
  injection H as <-. reflexivity.
Qed.

(** ** The node tree: lookup, creation and names *)

Lemma set_children_children n cs : children (set_children n cs) = cs.
Proof. reflexivity. Qed.

Lemma set_children_name n cs : name (set_children n cs) = name n.
Proof. reflexivity. Qed.

Lemma set_children_twice n cs cs' :
  set_children (set_children n cs) cs' = set_children n cs'.
Proof. reflexivity. Qed.

Lemma node_at_app (n : FAssimpNode) (a b : list nat) :
  node_at n (a ++ b)
  = match node_at n a with Some m => node_at m b | None => None end.
Proof.
  revert n. induction a as [|i a IH]; intros n; simpl; [reflexivity|].
  destruct (children n !! i) as [c|]; [apply IH|reflexivity].
Qed.

Lemma FindOrCreateNode_name (path : list FString) (this : FAssimpNode) :
  name (fst (FindOrCreateNode this path)) = name this.
Proof.
  destruct path as [|seg rest]; simpl; [reflexivity|].
  destruct (list_find _ (children this)) as [[i c]|].
  - destruct (FindOrCreateNode c rest). reflexivity.
  - destruct (FindOrCreateNode (new_FAssimpNode (FName_of seg)) rest). reflexivity.
Qed.

Lemma FindOrCreateNode_again (path : list FString) :
  forall this this' found,
    FindOrCreateNode this path = (this', found) ->
    FindOrCreateNode this' path = (this', found).
Proof.
  induction path as [|seg rest IH]; intros this this' found H; simpl in H.
  - injection H as <- <-. reflexivity.
  - destruct (list_find (fun child => name child = FName_of seg) (children this))
      as [[i c]|] eqn:Hfind.
    + destruct (FindOrCreateNode c rest) as [c' p] eqn:Hrec.
      injection H as <- <-. simpl.
      assert (Hname : name c' = FName_of seg).
      { pose proof (FindOrCreateNode_name rest c) as Hn. rewrite Hrec in Hn.
        simpl in Hn. rewrite Hn.
        apply list_find_Some in Hfind as (_ & Hfound & _). exact Hfound. }
      assert (Hfind' : list_find (fun child => name child = FName_of seg)
                         (<[i:=c']> (children this)) = Some (i, c')).
      { apply list_find_insert_Some. right; left.
        apply list_find_Some in Hfind as (Hi & _ & Hleast).
        repeat split; try assumption.
        apply lookup_lt_Some in Hi. exact Hi. }
      rewrite Hfind'. rewrite (IH _ _ _ Hrec).
      rewrite set_children_twice, list_insert_insert_eq. reflexivity.
    + destruct (FindOrCreateNode (new_FAssimpNode (FName_of seg)) rest)
        as [c' p] eqn:Hrec.
      injection H as <- <-. simpl.
      assert (Hname : name c' = FName_of seg).
      { pose proof (FindOrCreateNode_name rest (new_FAssimpNode (FName_of seg))) as Hn.
        rewrite Hrec in Hn. exact Hn. }
      assert (Hfind' : list_find (fun child => name child = FName_of seg)
                         (children this ++ [c']) = Some (length (children this), c')).
      { rewrite list_find_app_r by exact Hfind. simpl.
        destruct (decide (name c' = FName_of seg)); [reflexivity|contradiction]. }
      rewrite Hfind'. rewrite (IH _ _ _ Hrec).
      rewrite set_children_twice. f_equal. f_equal.
      apply list_insert_id. rewrite lookup_app_r by lia.
      rewrite Nat.sub_diag. reflexivity.
Qed.

Lemma FindOrCreateNode_found (path : list FString) :
  forall this this' found,
    FindOrCreateNode this path = (this', found) ->
    is_Some (node_at this' found) /\ length found = length path.
Proof.
  induction path as [|seg rest IH]; intros this this' found H; simpl in H.
  - injection H as <- <-. simpl. split; [eexists; reflexivity|reflexivity].
  - destruct (list_find (fun child => name child = FName_of seg) (children this))
      as [[i c]|] eqn:Hfind.
    + destruct (FindOrCreateNode c rest) as [c' p] eqn:Hrec.
      injection H as <- <-. simpl.
      apply list_find_Some in Hfind as (Hi & _ & _).
      rewrite list_lookup_insert_eq by (apply lookup_lt_Some in Hi; exact Hi).
      destruct (IH _ _ _ Hrec) as [Hsome Hlen]. split; [exact Hsome|].
      rewrite Hlen. reflexivity.
    + destruct (FindOrCreateNode (new_FAssimpNode (FName_of seg)) rest)
        as [c' p] eqn:Hrec.
      injection H as <- <-. simpl.
      rewrite lookup_app_r by lia. rewrite Nat.sub_diag. simpl.
      destruct (IH _ _ _ Hrec) as [Hsome Hlen]. split; [exact Hsome|].
      rewrite Hlen. reflexivity.
Qed.

Lemma FindOrCreateNode_first_match (this : FAssimpNode) (seg : FString)
    (rest : list FString) (j : nat) (c : FAssimpNode) :
  children this !! j = Some c -> name c = FName_of seg ->
  exists i p first,
    snd (FindOrCreateNode this (seg :: rest)) = i :: p
    /\ (i <= j)%nat
    /\ children this !! i = Some first
    /\ name first = FName_of seg
    /\ (forall k ck, children this !! k = Some ck -> (k < i)%nat ->
                     name ck <> FName_of seg)
    /\ length (children (fst (FindOrCreateNode this (seg :: rest))))
       = length (children this).
Proof.
  intros Hj Hc. simpl.
  destruct (list_find (fun child => name child = FName_of seg) (children this))
    as [[i first]|] eqn:Hfind.
  - destruct (FindOrCreateNode first rest) as [c' p].
    apply list_find_Some in Hfind as (Hi & Hname & Hleast).
    exists i, p, first. simpl. repeat split; try assumption.
    + destruct (Nat.le_gt_cases i j) as [Hle|Hgt]; [exact Hle|].
      exfalso. exact (Hleast j c Hj Hgt Hc).
    + apply length_insert.
  - exfalso. apply list_find_None in Hfind. rewrite Forall_forall in Hfind.
    apply (Hfind c); [|exact Hc]. eapply list_elem_of_lookup_2. exact Hj.
Qed.

Lemma GetHierarchicalName_root (root : FAssimpNode) :
  GetHierarchicalName root [] = Some "root"%string.
Proof. reflexivity. Qed.

Lemma GetHierarchicalName_child (root : FAssimpNode) (i : nat) (parent : NodePtr) :
  GetHierarchicalName root (i :: parent)
  = match deref root (i :: parent) with
    | None => None
    | Some this =>
        match GetHierarchicalName root parent with
        | Some s => Some (s ++ "." ++ ToString (name this))%string
        | None => None
        end
    end.
Proof. reflexivity. Qed.

Lemma deref_parent (root : FAssimpNode) (i : nat) (parent : NodePtr) :
  is_Some (deref root (i :: parent)) -> is_Some (deref root parent).
Proof.
  unfold deref. simpl. rewrite node_at_app.
  destruct (node_at root (rev parent)); intros [x Hx]; [eexists; reflexivity|discriminate].
Qed.

Lemma GetHierarchicalName_is_Some (root : FAssimpNode) (p : NodePtr) :
  is_Some (deref root p) -> is_Some (GetHierarchicalName root p).
Proof.
  induction p as [|i parent IH]; intros Hp.
  - eexists. reflexivity.
  - rewrite GetHierarchicalName_child.
    destruct (IH (deref_parent _ _ _ Hp)) as [s ->].
    destruct Hp as [this ->]. eexists. reflexivity.
Qed.

(** C6.  [FindOrCreateNode] called again with the same path returns the
    same node and leaves the tree as it is; an empty path returns the
    receiver; among children of equal name the first one is taken; the
    hierarchical name of the node without parent is "root" and that of any
    other node is its parent's hierarchical name, a dot and its own name. *)
Theorem FindOrCreateNode_idempotent_and_names :
  (forall this path,
      let '(this', found) := FindOrCreateNode this path in
      FindOrCreateNode this' path = (this', found)
      /\ is_Some (node_at this' found))
  /\ (forall this, FindOrCreateNode this [] = (this, []))
  /\ (forall this seg rest j c,
        children this !! j = Some c -> name c = FName_of seg ->
        exists i p first,
          snd (FindOrCreateNode this (seg :: rest)) = i :: p
          /\ (i <= j)%nat
          /\ children this !! i = Some first
          /\ name first = FName_of seg
          /\ (forall k ck, children this !! k = Some ck -> (k < i)%nat ->
                           name ck <> FName_of seg)
          /\ length (children (fst (FindOrCreateNode this (seg :: rest))))
             = length (children this))
  /\ (forall root, GetHierarchicalName root [] = Some "root"%string)
  /\ (forall root i parent this,
        deref root (i :: parent) = Some this ->
        exists s,
          GetHierarchicalName root parent = Some s
          /\ GetHierarchicalName root (i :: parent)
             = Some (s ++ "." ++ ToString (name this))%string).
Proof.
  split; [|split; [|split; [|split]]].
  - intros this path. destruct (FindOrCreateNode this path) as [this' found] eqn:H.
    split; [exact (FindOrCreateNode_again _ _ _ _ H)|].
    exact (proj1 (FindOrCreateNode_found _ _ _ _ H)).
  - reflexivity.
  - intros this seg rest j c. apply FindOrCreateNode_first_match.
  - apply GetHierarchicalName_root.
  - intros root i parent this Hthis.
    destruct (GetHierarchicalName_is_Some root parent) as [s Hs].
    { apply (deref_parent root i). rewrite Hthis. eexists. reflexivity. }
    exists s. split; [exact Hs|].
    rewrite GetHierarchicalName_child, Hthis, Hs. reflexivity.
Qed.

(** ** Traversal orders of gathering and building *)

(** The nodes in the order in which [ProcessGatheredData_Internal], called
    on the node at [self], creates their meshes: the node itself, then the
    subtrees of its children from the last child to the first. *)
Fixpoint ProcessGatheredData_order (this : FAssimpNode) (self : NodePtr) : list NodePtr :=
  self ::
  (fix each_child (cs : list FAssimpNode) (childIndex : nat) : list NodePtr :=
     match cs with
     | [] => []
     | child :: later =>
         each_child later (S childIndex)
         ++ ProcessGatheredData_order child (childIndex :: self)
     end) (children this) 0%nat.

(** No node has more than one child. *)
Fixpoint at_most_one_child (n : FAssimpNode) : bool :=
  match n with
  | mkFAssimpNode cs _ _ _ _ _ _ _ =>
      match cs with
      | [] => true
      | [c] => at_most_one_child c
      | _ => false
      end
  end.

(** Induction on a node with the property assumed for its children. *)
Lemma FAssimpNode_induction (P : FAssimpNode -> Prop)
    (step : forall n, Forall P (children n) -> P n) : forall n, P n.
Proof.
  fix prove 1. intros [cs m nm w e i g b]. apply step. simpl.
  induction cs as [|c l IH]; constructor; [apply prove|exact IH].
Qed.

(** The two loops over the children, by name. *)
Definition gather_children (self : NodePtr) :=
  fix each_child (cs : list FAssimpNode) (i : nat) (outNodes : list NodePtr) :=
    match cs with
    | [] => outNodes
    | child :: cs' => each_child cs' (S i) (GetNodesRecursive child (i :: self) outNodes)
    end.

Definition order_children (self : NodePtr) :=
  fix each_child (cs : list FAssimpNode) (childIndex : nat) : list NodePtr :=
    match cs with
    | [] => []
    | child :: later =>
        each_child later (S childIndex)
        ++ ProcessGatheredData_order child (childIndex :: self)
    end.

Lemma GetNodesRecursive_unfold this self outNodes :
  GetNodesRecursive this self outNodes
  = gather_children self (children this) 0%nat (outNodes ++ [self]).
Proof. destruct this. reflexivity. Qed.

Lemma ProcessGatheredData_order_unfold this self :
  ProcessGatheredData_order this self
  = self :: order_children self (children this) 0%nat.
Proof. destruct this. reflexivity. Qed.

Lemma gather_children_spec self cs :
  Forall (fun c => forall self out,
              GetNodesRecursive c self out = out ++ GetNodesRecursive c self []) cs ->
  forall i out,
    gather_children self cs i out
    = out ++ concat (imap (fun k c => GetNodesRecursive c ((i + k)%nat :: self) []) cs).
Proof.
  induction 1 as [|c cs Hc _ IH]; intros i out; simpl.
  - symmetry. apply app_nil_r.
  - rewrite IH, Hc, <- app_assoc, Nat.add_0_r. do 2 f_equal. f_equal.
    apply imap_ext. intros k x _. simpl. rewrite Nat.add_succ_r. reflexivity.
Qed.

Lemma GetNodesRecursive_acc :
  forall this self out,
    GetNodesRecursive this self out = out ++ GetNodesRecursive this self [].
Proof.
  induction this as [this IH] using FAssimpNode_induction. intros self out.
  rewrite !GetNodesRecursive_unfold, !(gather_children_spec self _ IH).
  simpl. rewrite <- app_assoc. reflexivity.
Qed.

Lemma GetNodesRecursive_preorder this self :
  GetNodesRecursive this self []
  = self :: concat (imap (fun i c => GetNodesRecursive c (i :: self) []) (children this)).
Proof.
  rewrite GetNodesRecursive_unfold, gather_children_spec.
  - reflexivity.
  - apply Forall_forall. intros c _. apply GetNodesRecursive_acc.
Qed.

Lemma order_children_spec self cs :
  forall i,
    order_children self cs i
    = concat (rev (imap (fun k c => ProcessGatheredData_order c ((i + k)%nat :: self)) cs)).
Proof.
  induction cs as [|c cs IH]; intros i; simpl; [reflexivity|].
  rewrite IH, concat_app. simpl. rewrite app_nil_r, Nat.add_0_r. f_equal.
  do 2 f_equal. apply imap_ext. intros k x _. simpl.
  rewrite Nat.add_succ_r. reflexivity.
Qed.

Lemma ProcessGatheredData_order_preorder this self :
  ProcessGatheredData_order this self
  = self :: concat (rev (imap (fun i c => ProcessGatheredData_order c (i :: self))
                              (children this))).
Proof. rewrite ProcessGatheredData_order_unfold, order_children_spec. reflexivity. Qed.

Lemma concat_rev_Permutation {A : Type} (l : list (list A)) :
  Permutation (concat (rev l)) (concat l).
Proof.
  induction l as [|x l IH]; simpl; [reflexivity|].
  rewrite concat_app. simpl. rewrite app_nil_r.
  rewrite Permutation_app_comm. apply Permutation_app_head. exact IH.
Qed.

Lemma order_Permutation_children self cs :
  Forall (fun c => forall self,
              Permutation (ProcessGatheredData_order c self)
                          (GetNodesRecursive c self [])) cs ->
  forall i,
    Permutation
      (concat (imap (fun k c => ProcessGatheredData_order c ((i + k)%nat :: self)) cs))
      (concat (imap (fun k c => GetNodesRecursive c ((i + k)%nat :: self) []) cs)).
Proof.
  induction 1 as [|c cs Hc _ IH]; intros i; simpl; [reflexivity|].
  apply Permutation_app; [apply Hc|].
  rewrite (imap_ext _ (fun k c0 => ProcessGatheredData_order c0 ((S i + k)%nat :: self)) cs)
    by (intros k x _; simpl; rewrite Nat.add_succ_r; reflexivity).
  rewrite (imap_ext ((fun k c0 => GetNodesRecursive c0 ((i + k)%nat :: self) []) ∘ S)
             (fun k c0 => GetNodesRecursive c0 ((S i + k)%nat :: self) []) cs)
    by (intros k x _; simpl; rewrite Nat.add_succ_r; reflexivity).
  apply IH.
Qed.

Lemma order_Permutation :
  forall this self,
    Permutation (ProcessGatheredData_order this self) (GetNodesRecursive this self []).
Proof.
  induction this as [this IH] using FAssimpNode_induction. intros self.
  rewrite ProcessGatheredData_order_preorder, GetNodesRecursive_preorder.
  apply perm_skip. rewrite concat_rev_Permutation.
  exact (order_Permutation_children self _ IH 0%nat).
Qed.

Lemma at_most_one_child_children this :
  at_most_one_child this = true ->
  children this = []
  \/ exists c, children this = [c] /\ at_most_one_child c = true.
Proof.
  destruct this as [cs m nm w e i g b]. simpl.
  destruct cs as [|c [|c' cs]]; intros H; try discriminate.
  - left. reflexivity.
  - right. exists c. split; [reflexivity|exact H].
Qed.

Lemma order_single_chain :
  forall this self,
    at_most_one_child this = true ->
    ProcessGatheredData_order this self = GetNodesRecursive this self [].
Proof.
  induction this as [this IH] using FAssimpNode_induction. intros self Hone.
  rewrite ProcessGatheredData_order_preorder, GetNodesRecursive_preorder.
  destruct (at_most_one_child_children this Hone) as [Hnil|[c [Hc Hcone]]].
  - rewrite Hnil. reflexivity.
  - rewrite Hc in IH |- *. simpl. rewrite !app_nil_r. f_equal.
    inversion IH as [|? ? Hhead _]; subst. apply Hhead. exact Hcone.
Qed.

(** ** Gathering: skipped sources *)

(** What gathering may change in a scene: the skipped counter, by [k], and
    the text of the log. *)
Definition gather_effect (k : Z) (s s' : FAssimpScene) : Prop :=
  s' = set_exportLog (set_numObjectsSkipped s (numObjectsSkipped s + k)) (exportLog s').

Lemma gather_effect_refl s : gather_effect 0 s s.
Proof. unfold gather_effect. destruct s. simpl. rewrite Z.add_0_r. reflexivity. Qed.

Lemma gather_effect_trans a b s s' s'' :
  gather_effect a s s' -> gather_effect b s' s'' -> gather_effect (a + b) s s''.
Proof.
  unfold gather_effect. intros H1 H2. rewrite H2. rewrite H1 at 1 2.
  destruct s. simpl. rewrite Z.add_assoc. reflexivity.
Qed.

Lemma WriteToLogWithNewLine_effect s logText :
  gather_effect 0 s (WriteToLogWithNewLine s logText).
Proof.
  unfold gather_effect, WriteToLogWithNewLine.
  destruct s as [r ms mats uq lg k [l|] an ci gp gm tk b]; simpl;
    rewrite Z.add_0_r; reflexivity.
Qed.

Lemma skip_object_effect s logText : gather_effect 1 s (skip_object s logText).
Proof.
  unfold gather_effect, skip_object, WriteToLogWithNewLine.
  destruct s as [r ms mats uq lg k [l|] an ci gp gm tk b]; reflexivity.
Qed.

Lemma ValidateMeshSection_effect s exportable section :
  gather_effect 0 s (fst (ValidateMeshSection s exportable section)).
Proof.
  unfold ValidateMeshSection.
  repeat match goal with
         | |- context [if ?b then _ else _] => destruct b
         end; simpl;
    repeat first
      [ apply gather_effect_refl
      | apply WriteToLogWithNewLine_effect
      | eapply (gather_effect_trans 0 0); [|apply WriteToLogWithNewLine_effect] ].
Qed.

Lemma validate_all_sections_spec object sections :
  forall (i : nat) s,
    (i <= length sections)%nat ->
    exists s',
      validate_all_sections i s object sections
      = Some (s', forallb section_valid (take i sections))
      /\ gather_effect 0 s s'.
Proof.
  induction i as [|i IH]; intros s Hi.
  - exists s. split; [reflexivity|apply gather_effect_refl].
  - simpl. destruct (lookup_lt_is_Some_2 sections i) as [section Hsec]; [lia|].
    rewrite Hsec.
    pose proof (ValidateMeshSection_verdict s object section) as Hv.
    pose proof (ValidateMeshSection_effect s object section) as He.
    destruct (ValidateMeshSection s object section) as [s1 valid]. simpl in Hv, He.
    set (s2 := if negb valid then WriteToLogWithNewLine s1 _ else s1).
    assert (He2 : gather_effect 0 s s2).
    { subst s2. destruct (negb valid); [|exact He].
      apply (gather_effect_trans 0 0 s s1); [exact He|].
      apply WriteToLogWithNewLine_effect. }
    destruct (IH s2) as (s' & Hrec & He'); [lia|].
    rewrite Hrec. exists s'. split.
    + rewrite (take_S_r _ _ _ Hsec), forallb_app. simpl.
      rewrite Hv, andb_true_r, andb_comm. reflexivity.
    + apply (gather_effect_trans 0 0 s s2); assumption.
Qed.

(** A source is accepted when it does not refuse, returns at least one
    section, and all its sections are valid; otherwise it is skipped. *)
Definition source_accepted (param : FRuntimeMeshExportParam) (object : IMeshExportable)
  : bool :=
  let '(accepted, sections) := GetMeshData object (lod param) (bSkipLodNotValid param) in
  accepted && negb (Num sections =? 0) && forallb section_valid sections.

Definition source_skipped (param : FRuntimeMeshExportParam) (object : IMeshExportable)
  : bool :=
  let '(accepted, sections) := GetMeshData object (lod param) (bSkipLodNotValid param) in
  negb accepted || (Num sections =? 0) || negb (forallb section_valid sections).

Definition source_sections (param : FRuntimeMeshExportParam) (object : IMeshExportable)
  : list FExportableMeshSection :=
  snd (GetMeshData object (lod param) (bSkipLodNotValid param)).

Lemma source_skipped_accepted param object :
  source_skipped param object = negb (source_accepted param object).
Proof.
  unfold source_skipped, source_accepted.
  destruct (GetMeshData object (lod param) (bSkipLodNotValid param)) as [a secs].
  destruct a, (Num secs =? 0), (forallb section_valid secs); reflexivity.
Qed.

(** The node after one iteration on [object]. *)
Definition gathered_one (param : FRuntimeMeshExportParam) (this : FAssimpNode)
    (object : IMeshExportable) : FAssimpNode :=
  set_indexGatherNext
    (if source_accepted param object then
       set_gatheredExportables this
         (gatheredExportables this ++ [source_sections param object])
     else this)
    (indexGatherNext this + 1).

Lemma GatherMeshData_step_spec param scene this object :
  at_index (exportObjects this) (indexGatherNext this) = Some object ->
  exists scene',
    GatherMeshData_step param (scene, this) = Some (scene', gathered_one param this object)
    /\ gather_effect (if source_accepted param object then 0 else 1) scene scene'.
Proof.
  intros Hobj. unfold GatherMeshData_step, gathered_one, source_accepted, source_sections.
  rewrite Hobj.
  destruct (GetMeshData object (lod param) (bSkipLodNotValid param)) as [accepted secs].
  destruct accepted; simpl.
  2:{ eexists. split; [reflexivity|apply skip_object_effect]. }
  destruct (Num secs =? 0); simpl.
  { eexists. split; [reflexivity|apply skip_object_effect]. }
  destruct (validate_all_sections_spec object secs (length secs) scene) as (s' & Hv & He);
    [lia|].
  rewrite Hv, firstn_all.
  destruct (forallb section_valid secs); simpl.
  - eexists. split; [reflexivity|exact He].
  - eexists. split; [reflexivity|].
    apply (gather_effect_trans 0 1 scene s'); [exact He|apply skip_object_effect].
Qed.

(** The node after the loop has run over [batch]. *)
Definition gathered_batch (param : FRuntimeMeshExportParam) (this : FAssimpNode)
    (batch : list IMeshExportable) : FAssimpNode :=
  fold_left (gathered_one param) batch this.

(** The sources one call of [GatherMeshData] asks. *)
Definition gather_batch (this : FAssimpNode) (bGatherAll : bool) (numToGather : Z)
  : list IMeshExportable :=
  let startIndex := if bGatherAll then 0 else indexGatherNext this in
  let endIndex :=
    Z.min (if bGatherAll then Num (exportObjects this)
           else int32_add startIndex numToGather)
          (Num (exportObjects this)) in
  take (Z.to_nat (endIndex - indexGatherNext this))
       (drop (Z.to_nat (indexGatherNext this)) (exportObjects this)).

Lemma gathered_batch_spec param batch :
  forall this,
    gathered_batch param this batch
    = set_indexGatherNext
        (set_gatheredExportables this
           (gatheredExportables this
            ++ map (source_sections param) (List.filter (source_accepted param) batch)))
        (indexGatherNext this + Num batch).
Proof.
  unfold gathered_batch.
  induction batch as [|object batch IH]; intros this; simpl.
  - destruct this. unfold set_indexGatherNext, set_gatheredExportables. simpl.
    rewrite app_nil_r, Z.add_0_r. reflexivity.
  - rewrite IH. unfold gathered_one.
    replace (Num (object :: batch)) with (1 + Num batch) by (unfold Num; simpl; lia).
    destruct (source_accepted param object); destruct this;
      unfold set_indexGatherNext, set_gatheredExportables; simpl;
      rewrite ?Z.add_assoc, <- ?app_assoc; reflexivity.
Qed.

Lemma GatherMeshData_loop_spec param :
  forall (n : nat) scene this,
    0 <= indexGatherNext this ->
    indexGatherNext this + Z.of_nat n <= Num (exportObjects this) ->
    let batch := take n (drop (Z.to_nat (indexGatherNext this)) (exportObjects this)) in
    exists scene',
      GatherMeshData_loop n param (scene, this)
      = Some (scene', gathered_batch param this batch)
      /\ gather_effect (Num (List.filter (source_skipped param) batch)) scene scene'
      /\ length batch = n.
Proof.
  induction n as [|n IH]; intros scene this Hlo Hhi batch.
  - exists scene. subst batch. simpl. repeat split. apply gather_effect_refl.
  - destruct (lookup_lt_is_Some_2 (exportObjects this) (Z.to_nat (indexGatherNext this)))
      as [object Hobj].
    { unfold Num in Hhi. lia. }
    assert (Hat : at_index (exportObjects this) (indexGatherNext this) = Some object).
    { unfold at_index, IsValidIndex.
      replace (0 <=? indexGatherNext this) with true by (symmetry; apply Z.leb_le; lia).
      replace (indexGatherNext this <? Num (exportObjects this)) with true
        by (symmetry; apply Z.ltb_lt; lia).
      exact Hobj. }
    destruct (GatherMeshData_step_spec param scene this object Hat) as (s1 & Hstep & He1).
    cbn [GatherMeshData_loop]. rewrite Hstep.
    set (this1 := gathered_one param this object).
    assert (Hidx : indexGatherNext this1 = indexGatherNext this + 1).
    { subst this1. unfold gathered_one. reflexivity. }
    assert (Hobjs : exportObjects this1 = exportObjects this).
    { subst this1. unfold gathered_one.
      destruct (source_accepted param object); reflexivity. }
    destruct (IH s1 this1) as (s2 & Hloop & He2 & Hlen).
    { lia. }
    { rewrite Hidx, Hobjs. lia. }
    rewrite Hidx, Hobjs in Hloop, He2, Hlen.
    replace (Z.to_nat (indexGatherNext this + 1))
      with (S (Z.to_nat (indexGatherNext this))) in Hloop, He2, Hlen by lia.
    subst batch. rewrite (drop_S _ _ _ Hobj). simpl.
    exists s2. split; [exact Hloop|]. split; [|rewrite Hlen; reflexivity].
    rewrite source_skipped_accepted.
    rewrite source_skipped_accepted in He1 || idtac.
    destruct (source_accepted param object); simpl.
    + apply (gather_effect_trans 0 _ scene s1 s2); assumption.
    + replace (Num (object :: List.filter (source_skipped param)
                       (take n (drop (S (Z.to_nat (indexGatherNext this)))
                                     (exportObjects this)))))
        with (1 + Num (List.filter (source_skipped param)
                         (take n (drop (S (Z.to_nat (indexGatherNext this)))
                                       (exportObjects this)))))
        by (unfold Num; simpl; lia).
      apply (gather_effect_trans 1 _ scene s1 s2); assumption.
Qed.

Lemma GatherMeshData_spec scene this param bGatherAll numToGather :
  bGatherAll = true \/ 0 < numToGather ->
  0 <= indexGatherNext this <= Num (exportObjects this) ->
  let batch := gather_batch this bGatherAll numToGather in
  exists scene',
    GatherMeshData scene this param bGatherAll numToGather
    = Some (scene', gathered_batch param this batch, Num batch)
    /\ gather_effect (Num (List.filter (source_skipped param) batch)) scene scene'.
Proof.
  intros Hpre [Hlo Hup] batch. unfold GatherMeshData.
  replace (negb (bGatherAll || (0 <? numToGather))) with false.
  2:{ destruct Hpre as [->| H]; [reflexivity|].
      apply Z.ltb_lt in H. rewrite H, orb_true_r. reflexivity. }
  subst batch. unfold gather_batch.
  set (endIndex := Z.min _ (Num (exportObjects this))).
  destruct (GatherMeshData_loop_spec param (Z.to_nat (endIndex - indexGatherNext this))
              scene this Hlo) as (s' & Hloop & He & Hlen).
  { subst endIndex. lia. }
  rewrite Hloop. exists s'. split; [|exact He].
  unfold Num. rewrite Hlen. reflexivity.
Qed.

(** ** Gathering over the whole tree *)

(** A tree on which no gathering has taken place, as the constructor and
    [ClearExportData] leave it. *)
Local Unset Elimination Schemes.
Inductive fresh : FAssimpNode -> Prop :=
| fresh_node n :
    indexGatherNext n = 0 -> gatheredExportables n = [] ->
    Forall fresh (children n) -> fresh n.
Local Set Elimination Schemes.

(** Every node gathered in full. *)
Fixpoint gather_tree (param : FRuntimeMeshExportParam) (n : FAssimpNode) : FAssimpNode :=
  set_children (gathered_batch param n (exportObjects n))
    (map (gather_tree param) (children n)).

(** The sources registered in a tree, and the section lists gathered in it,
    node by node in pre-order. *)
Fixpoint tree_sources (n : FAssimpNode) : list IMeshExportable :=
  exportObjects n ++ concat (map tree_sources (children n)).

Fixpoint tree_gathered (n : FAssimpNode) : list (list FExportableMeshSection) :=
  gatheredExportables n ++ concat (map tree_gathered (children n)).

Lemma node_eta (n : FAssimpNode) : set_children n (children n) = n.
Proof. destruct n. reflexivity. Qed.

Lemma node_update_app (a b : list nat) (f : FAssimpNode -> FAssimpNode) :
  forall n, node_update n (a ++ b) f = node_update n a (fun m => node_update m b f).
Proof.
  induction a as [|i a IH]; intros n; simpl; [reflexivity|].
  destruct (children n !! i) as [c|]; [|reflexivity]. rewrite IH. reflexivity.
Qed.

Lemma node_update_const (a : list nat) (f : FAssimpNode -> FAssimpNode) :
  forall n X, node_at n a = Some X -> node_update n a f = node_update n a (fun _ => f X).
Proof.
  induction a as [|i a IH]; intros n X H; simpl in *.
  - injection H as ->. reflexivity.
  - destruct (children n !! i) as [c|]; [|discriminate].
    rewrite (IH c X H). reflexivity.
Qed.

Lemma node_update_id (a : list nat) :
  forall n X, node_at n a = Some X -> node_update n a (fun _ => X) = n.
Proof.
  induction a as [|i a IH]; intros n X H; simpl in *.
  - injection H as ->. reflexivity.
  - destruct (children n !! i) as [c|] eqn:Hc; [|discriminate].
    rewrite (IH c X H), (list_insert_id _ _ _ Hc). apply node_eta.
Qed.

Lemma node_update_twice (a : list nat) (f g : FAssimpNode -> FAssimpNode) :
  forall n, node_update (node_update n a f) a g = node_update n a (fun m => g (f m)).
Proof.
  induction a as [|i a IH]; intros n; simpl; [reflexivity|].
  destruct (children n !! i) as [c|] eqn:Hc; simpl.
  - rewrite list_lookup_insert_eq by (apply lookup_lt_Some in Hc; exact Hc).
    rewrite IH, set_children_twice, list_insert_insert_eq. reflexivity.
  - rewrite Hc. reflexivity.
Qed.

Lemma node_at_update (a : list nat) (f : FAssimpNode -> FAssimpNode) :
  forall n X, node_at n a = Some X -> node_at (node_update n a f) a = Some (f X).
Proof.
  induction a as [|i a IH]; intros n X H; simpl in *.
  - injection H as ->. reflexivity.
  - destruct (children n !! i) as [c|] eqn:Hc; [|discriminate]. simpl.
    rewrite list_lookup_insert_eq by (apply lookup_lt_Some in Hc; exact Hc).
    apply IH. exact H.
Qed.

Lemma deref_store root ctx X Y :
  deref root ctx = Some X -> deref (store root ctx Y) ctx = Some Y.
Proof. unfold deref, store. intros H. apply (node_at_update _ (fun _ => Y) _ _ H). Qed.

Lemma store_store root ctx X Y : store (store root ctx X) ctx Y = store root ctx Y.
Proof. unfold store. apply node_update_twice. Qed.

Lemma store_same root ctx X : deref root ctx = Some X -> store root ctx X = root.
Proof. unfold deref, store. apply node_update_id. Qed.

Lemma deref_child root ctx X i :
  deref root ctx = Some X -> deref root (i :: ctx) = children X !! i.
Proof.
  unfold deref. simpl. intros H. rewrite node_at_app, H. simpl.
  destruct (children X !! i); reflexivity.
Qed.

Lemma store_child root ctx X i c Y :
  deref root ctx = Some X -> children X !! i = Some c ->
  store root (i :: ctx) Y = store root ctx (set_children X (<[i := Y]> (children X))).
Proof.
  unfold deref, store. simpl. intros HX Hc.
  rewrite node_update_app, (node_update_const _ _ _ _ HX). simpl.
  rewrite Hc. reflexivity.
Qed.

(** What gathering over several nodes changes in a scene: the counter, the
    log and the tree. *)
Definition scene_gathered (k : Z) (r : FAssimpNode) (s s' : FAssimpScene) : Prop :=
  s' = set_rootNode
         (set_exportLog (set_numObjectsSkipped s (numObjectsSkipped s + k)) (exportLog s'))
         r.

Lemma scene_gathered_refl s : scene_gathered 0 (rootNode s) s s.
Proof. unfold scene_gathered. destruct s. simpl. rewrite Z.add_0_r. reflexivity. Qed.

Lemma scene_gathered_trans a b r1 r2 s s1 s2 :
  scene_gathered a r1 s s1 -> scene_gathered b r2 s1 s2 ->
  scene_gathered (a + b) r2 s s2.
Proof.
  unfold scene_gathered. intros H1 H2. rewrite H2. rewrite H1 at 1 2.
  destruct s. simpl. rewrite Z.add_assoc. reflexivity.
Qed.

Lemma scene_gathered_rootNode k r s s' : scene_gathered k r s s' -> rootNode s' = r.
Proof. unfold scene_gathered. intros ->. reflexivity. Qed.

Lemma gather_all_nodes_app param (a b : list NodePtr) :
  forall s,
    gather_all_nodes s (a ++ b) param
    = match gather_all_nodes s a param with
      | Some s' => gather_all_nodes s' b param
      | None => None
      end.
Proof.
  induction a as [|p a IH]; intros s; simpl; [reflexivity|].
  destruct (GatherMeshData_at s p param true 0) as [[s' n]|]; [apply IH|reflexivity].
Qed.

(** The sources of a node that were not asked yet, those of a whole tree,
    and the tree after every node has asked its remaining sources. *)
Definition pending (n : FAssimpNode) : list IMeshExportable :=
  drop (Z.to_nat (indexGatherNext n)) (exportObjects n).

Fixpoint tree_pending (n : FAssimpNode) : list IMeshExportable :=
  pending n ++ concat (map tree_pending (children n)).

Fixpoint gather_rest (param : FRuntimeMeshExportParam) (n : FAssimpNode) : FAssimpNode :=
  set_children (gathered_batch param n (pending n))
    (map (gather_rest param) (children n)).

(** Every [indexGatherNext] of the tree is an index of [exportObjects] or
    its length. *)
Local Unset Elimination Schemes.
Inductive in_range : FAssimpNode -> Prop :=
| in_range_node n :
    0 <= indexGatherNext n <= Num (exportObjects n) ->
    Forall in_range (children n) -> in_range n.
Local Set Elimination Schemes.

Lemma gather_batch_pending this numToGather :
  0 <= indexGatherNext this <= Num (exportObjects this) ->
  gather_batch this true numToGather = pending this.
Proof.
  intros Hrange. unfold gather_batch, pending. rewrite Z.min_id.
  apply take_ge. rewrite length_drop. unfold Num in *. lia.
Qed.

Lemma GatherMeshData_at_all param s p n :
  deref (rootNode s) p = Some n ->
  0 <= indexGatherNext n <= Num (exportObjects n) ->
  exists s',
    GatherMeshData_at s p param true 0 = Some (s', Num (pending n))
    /\ scene_gathered (Num (List.filter (source_skipped param) (pending n)))
         (store (rootNode s) p (gathered_batch param n (pending n))) s s'.
Proof.
  intros Hn Hrange. unfold GatherMeshData_at. rewrite Hn. simpl.
  destruct (GatherMeshData_spec s n param true 0) as (s1 & Hg & He).
  { left. reflexivity. }
  { exact Hrange. }
  rewrite (gather_batch_pending n 0 Hrange) in Hg, He. rewrite Hg. simpl.
  eexists. split; [reflexivity|].
  unfold gather_effect in He. unfold scene_gathered. rewrite He at 1 2 3.
  destruct s. reflexivity.
Qed.

Definition gathers_subtree (param : FRuntimeMeshExportParam) (sub : FAssimpNode) : Prop :=
  in_range sub ->
  forall ctx s,
    deref (rootNode s) ctx = Some sub ->
    exists s',
      gather_all_nodes s (GetNodesRecursive sub ctx []) param = Some s'
      /\ scene_gathered (Num (List.filter (source_skipped param) (tree_pending sub)))
           (store (rootNode s) ctx (gather_rest param sub)) s s'.

Lemma gather_tree_unfold param n :
  gather_tree param n
  = set_children (gathered_batch param n (exportObjects n))
      (map (gather_tree param) (children n)).
Proof. destruct n. reflexivity. Qed.

Lemma gather_rest_unfold param n :
  gather_rest param n
  = set_children (gathered_batch param n (pending n))
      (map (gather_rest param) (children n)).
Proof. destruct n. reflexivity. Qed.

Lemma tree_sources_unfold n :
  tree_sources n = exportObjects n ++ concat (map tree_sources (children n)).
Proof. destruct n. reflexivity. Qed.

Lemma tree_pending_unfold n :
  tree_pending n = pending n ++ concat (map tree_pending (children n)).
Proof. destruct n. reflexivity. Qed.

Lemma tree_gathered_unfold n :
  tree_gathered n = gatheredExportables n ++ concat (map tree_gathered (children n)).
Proof. destruct n. reflexivity. Qed.

Lemma gather_children_loop param todo :
  Forall (gathers_subtree param) todo -> Forall in_range todo ->
  forall done X ctx s,
    children X = done ++ todo ->
    deref (rootNode s) ctx = Some X ->
    exists s',
      gather_all_nodes s
        (concat (imap (fun k c => GetNodesRecursive c ((length done + k)%nat :: ctx) [])
                      todo)) param = Some s'
      /\ scene_gathered
           (Num (List.filter (source_skipped param) (concat (map tree_pending todo))))
           (store (rootNode s) ctx (set_children X (done ++ map (gather_rest param) todo)))
           s s'.
Proof.
  induction 1 as [|c todo Hc _ IH]; intros Hrange done X ctx s HX Hder.
  - exists s. split; [reflexivity|]. simpl.
    rewrite app_nil_r in HX |- *. rewrite <- HX, node_eta, (store_same _ _ _ Hder).
    apply scene_gathered_refl.
  - inversion Hrange as [|? ? Hfc Hftodo]; subst.
    assert (Hchild : children X !! length done = Some c).
    { rewrite HX, lookup_app_r by lia. rewrite Nat.sub_diag. reflexivity. }
    rewrite imap_cons. simpl concat. rewrite gather_all_nodes_app, Nat.add_0_r.
    destruct (Hc Hfc (length done :: ctx) s) as (s1 & Hg1 & He1).
    { rewrite (deref_child _ _ _ _ Hder). exact Hchild. }
    rewrite Hg1.
    rewrite (store_child _ _ _ _ _ _ Hder Hchild) in He1.
    assert (Hins : <[length done := gather_rest param c]> (children X)
                   = (done ++ [gather_rest param c]) ++ todo).
    { rewrite HX. replace (length done) with (length done + 0)%nat at 1 by lia.
      rewrite insert_app_r. simpl. rewrite <- app_assoc. reflexivity. }
    rewrite Hins in He1.
    set (X1 := set_children X ((done ++ [gather_rest param c]) ++ todo)) in *.
    destruct (IH Hftodo (done ++ [gather_rest param c]) X1 ctx s1) as (s2 & Hg2 & He2).
    { reflexivity. }
    { rewrite (scene_gathered_rootNode _ _ _ _ He1).
      apply (deref_store _ _ X). exact Hder. }
    exists s2. split.
    + rewrite <- Hg2. f_equal. f_equal. apply imap_ext. intros k x _. simpl.
      rewrite length_app. simpl. do 2 f_equal. lia.
    + rewrite (scene_gathered_rootNode _ _ _ _ He1), store_store in He2.
      subst X1. rewrite set_children_twice in He2.
      simpl map. simpl concat.
      rewrite List.filter_app, Num_app.
      replace (done ++ gather_rest param c :: map (gather_rest param) todo)
        with ((done ++ [gather_rest param c]) ++ map (gather_rest param) todo)
        by (rewrite <- app_assoc; reflexivity).
      exact (scene_gathered_trans _ _ _ _ _ _ _ He1 He2).
Qed.

(** Gathering along the pre-order of a subtree asks every remaining source
    of the subtree. *)
Lemma gather_all_nodes_rest param : forall sub, gathers_subtree param sub.
Proof.
  induction sub as [sub IH] using FAssimpNode_induction.
  intros Hrange ctx s Hder.
  inversion Hrange as [? Hidx Hfc]; subst.
  rewrite GetNodesRecursive_preorder. cbn [gather_all_nodes].
  destruct (GatherMeshData_at_all param s ctx sub Hder Hidx) as (s1 & Hg1 & He1).
  rewrite Hg1.
  set (sub1 := gathered_batch param sub (pending sub)) in *.
  assert (Hch : children sub1 = children sub).
  { subst sub1. rewrite gathered_batch_spec. reflexivity. }
  destruct (gather_children_loop param (children sub) IH Hfc [] sub1 ctx s1)
    as (s2 & Hg2 & He2).
  { exact Hch. }
  { rewrite (scene_gathered_rootNode _ _ _ _ He1). apply (deref_store _ _ sub). exact Hder. }
  simpl in Hg2, He2. exists s2. split; [exact Hg2|].
  rewrite (scene_gathered_rootNode _ _ _ _ He1), store_store in He2.
  rewrite gather_rest_unfold, tree_pending_unfold, List.filter_app, Num_app.
  exact (scene_gathered_trans _ _ _ _ _ _ _ He1 He2).
Qed.

(** On a fresh tree every source is pending. *)
Lemma fresh_pending :
  forall n,
    fresh n ->
    in_range n /\ tree_pending n = tree_sources n
    /\ forall param, gather_rest param n = gather_tree param n.
Proof.
  induction n as [n IH] using FAssimpNode_induction. intros Hfresh.
  inversion Hfresh as [? Hidx Hgath Hfc]; subst.
  assert (Hpending : pending n = exportObjects n).
  { unfold pending. rewrite Hidx. apply drop_0. }
  assert (Hchildren : Forall (fun c => in_range c /\ tree_pending c = tree_sources c
                                       /\ forall param,
                                            gather_rest param c = gather_tree param c)
                             (children n)).
  { clear -IH Hfc. induction IH as [|c cs Hc _ IHcs]; [constructor|].
    inversion Hfc as [|? ? Hfc1 Hfcs]; subst.
    constructor; [exact (Hc Hfc1)|exact (IHcs Hfcs)]. }
  split; [|split].
  - constructor.
    + rewrite Hidx. pose proof (Num_nonneg (exportObjects n)). lia.
    + eapply Forall_impl; [exact Hchildren|]. intros c (Hc & _). exact Hc.
  - rewrite tree_pending_unfold, tree_sources_unfold, Hpending. do 2 f_equal.
    apply map_ext_Forall. eapply Forall_impl; [exact Hchildren|].
    intros c (_ & Hc & _). exact Hc.
  - intros param. rewrite gather_rest_unfold, gather_tree_unfold, Hpending. f_equal.
    apply map_ext_Forall. eapply Forall_impl; [exact Hchildren|].
    intros c (_ & _ & Hc). exact (Hc param).
Qed.

Lemma gather_all_nodes_subtree param sub :
  fresh sub ->
  forall ctx s,
    deref (rootNode s) ctx = Some sub ->
    exists s',
      gather_all_nodes s (GetNodesRecursive sub ctx []) param = Some s'
      /\ scene_gathered (Num (List.filter (source_skipped param) (tree_sources sub)))
           (store (rootNode s) ctx (gather_tree param sub)) s s'.
Proof.
  intros Hfresh ctx s Hder.
  destruct (fresh_pending sub Hfresh) as (Hrange & Hpending & Hrest).
  rewrite <- Hpending, <- Hrest.
  exact (gather_all_nodes_rest param sub Hrange ctx s Hder).
Qed.

Lemma tree_gathered_gather_tree param :
  forall n,
    fresh n ->
    tree_gathered (gather_tree param n)
    = map (source_sections param) (List.filter (source_accepted param) (tree_sources n)).
Proof.
  induction n as [n IH] using FAssimpNode_induction. intros Hfresh.
  inversion Hfresh as [? Hidx Hgath Hfc]; subst.
  rewrite tree_gathered_unfold, gather_tree_unfold, tree_sources_unfold.
  rewrite set_children_children, List.filter_app, map_app.
  f_equal.
  - rewrite gathered_batch_spec. simpl. rewrite Hgath. reflexivity.
  - clear Hidx Hgath Hfresh.
    induction (children n) as [|c cs IHcs]; [reflexivity|].
    inversion IH as [|? ? Hc Hcs]; inversion Hfc as [|? ? Hfc1 Hfcs]; subst.
    simpl. rewrite List.filter_app, map_app, (Hc Hfc1), (IHcs Hcs Hfcs). reflexivity.
Qed.

(** ** Gathering through a cache that lists nodes more than once *)

(** [allNodesHelper] is never emptied: from the second export on it lists
    every node of the earlier exports again.  A node that was gathered in
    full is passed over. *)

Lemma node_at_update_shape (f : FAssimpNode -> FAssimpNode) :
  forall path q t n,
    node_at t path = Some n ->
    children (f n) = children n ->
    is_Some (node_at t q) -> is_Some (node_at (node_update t path f) q).
Proof.
  induction path as [|i path IH]; intros q t n Hn Hch Hq; simpl in *.
  - injection Hn as ->. destruct q as [|j q]; simpl in *; [eexists; reflexivity|].
    rewrite Hch. exact Hq.
  - destruct (children t !! i) as [c|] eqn:Hc; [|discriminate].
    destruct q as [|j q]; simpl in *; [eexists; reflexivity|].
    destruct (decide (j = i)) as [->|Hne].
    + rewrite list_lookup_insert_eq by (apply lookup_lt_Some in Hc; exact Hc).
      rewrite Hc in Hq. exact (IH q c n Hn Hch Hq).
    + rewrite list_lookup_insert_ne by (intros E; apply Hne; symmetry; exact E).
      exact Hq.
Qed.

Lemma in_range_node_at :
  forall path t n, in_range t -> node_at t path = Some n -> in_range n.
Proof.
  induction path as [|i path IH]; intros t n Hrange Hn; simpl in Hn.
  - injection Hn as <-. exact Hrange.
  - destruct (children t !! i) as [c|] eqn:Hc; [|discriminate].
    inversion Hrange as [? _ Hchildren]; subst.
    rewrite Forall_forall in Hchildren.
    apply (IH c n); [|exact Hn]. apply Hchildren.
    exact (list_elem_of_lookup_2 _ _ _ Hc).
Qed.

Lemma in_range_update (f : FAssimpNode -> FAssimpNode) :
  forall path t n,
    in_range t -> node_at t path = Some n -> in_range (f n) ->
    in_range (node_update t path f).
Proof.
  induction path as [|i path IH]; intros t n Hrange Hn Hf; simpl in *.
  - injection Hn as ->. exact Hf.
  - destruct (children t !! i) as [c|] eqn:Hc; [|discriminate].
    inversion Hrange as [? Hidx Hchildren]; subst.
    constructor; [exact Hidx|]. simpl.
    apply Forall_insert; [exact Hchildren|].
    apply (IH c n); [|exact Hn|exact Hf].
    rewrite Forall_forall in Hchildren. apply Hchildren.
    exact (list_elem_of_lookup_2 _ _ _ Hc).
Qed.

(** The number of pending sources that will be skipped. *)
Definition skipped_pending (param : FRuntimeMeshExportParam) (t : FAssimpNode) : Z :=
  Num (List.filter (source_skipped param) (tree_pending t)).

Lemma skipped_pending_unfold param t :
  skipped_pending param t
  = Num (List.filter (source_skipped param) (pending t))
    + Num (List.filter (source_skipped param) (concat (map tree_pending (children t)))).
Proof.
  unfold skipped_pending. rewrite tree_pending_unfold, List.filter_app, Num_app.
  reflexivity.
Qed.

Lemma skipped_pending_update param (f : FAssimpNode -> FAssimpNode) :
  forall path t n,
    node_at t path = Some n ->
    children (f n) = children n ->
    skipped_pending param (node_update t path f)
    + Num (List.filter (source_skipped param) (pending n))
    = skipped_pending param t
      + Num (List.filter (source_skipped param) (pending (f n))).
Proof.
  induction path as [|i path IH]; intros t n Hn Hch; simpl in *.
  - injection Hn as ->. rewrite !skipped_pending_unfold, Hch. lia.
  - destruct (children t !! i) as [c|] eqn:Hc; [|discriminate].
    specialize (IH c n Hn Hch).
    rewrite !skipped_pending_unfold. simpl.
    change (pending (set_children t ?cs)) with (pending t).
    rewrite insert_take_drop by (apply lookup_lt_Some in Hc; exact Hc).
    rewrite <- (take_drop_middle _ _ _ Hc) at 3.
    rewrite !map_app, !concat_app. simpl.
    rewrite !List.filter_app, !Num_app.
    unfold skipped_pending in IH. lia.
Qed.

Lemma gather_rest_update param (f : FAssimpNode -> FAssimpNode) :
  forall path t n,
    node_at t path = Some n ->
    gather_rest param (f n) = gather_rest param n ->
    gather_rest param (node_update t path f) = gather_rest param t.
Proof.
  induction path as [|i path IH]; intros t n Hn Hf; simpl in *.
  - injection Hn as ->. exact Hf.
  - destruct (children t !! i) as [c|] eqn:Hc; [|discriminate].
    assert (Hmap : map (gather_rest param) (<[i := node_update c path f]> (children t))
                   = map (gather_rest param) (children t)).
    { change (map (gather_rest param)) with (fmap (M := list) (gather_rest param)).
      rewrite list_fmap_insert, (IH c n Hn Hf). apply list_insert_id.
      rewrite list_lookup_fmap, Hc. reflexivity. }
    rewrite (gather_rest_unfold param (set_children _ _)), (gather_rest_unfold param t).
    rewrite set_children_children, Hmap.
    change (pending (set_children t ?cs)) with (pending t).
    rewrite !gathered_batch_spec. destruct t. reflexivity.
Qed.

Lemma GetNodesRecursive_update (f : FAssimpNode -> FAssimpNode) :
  forall path t n,
    node_at t path = Some n ->
    children (f n) = children n ->
    forall self,
      GetNodesRecursive (node_update t path f) self [] = GetNodesRecursive t self [].
Proof.
  induction path as [|i path IH]; intros t n Hn Hch self; simpl in *.
  - injection Hn as ->. rewrite !GetNodesRecursive_preorder, Hch. reflexivity.
  - destruct (children t !! i) as [c|] eqn:Hc; [|discriminate].
    rewrite !GetNodesRecursive_preorder, set_children_children. do 2 f_equal.
    apply list_eq. intros j. rewrite !list_lookup_imap.
    destruct (decide (j = i)) as [->|Hne].
    + rewrite list_lookup_insert_eq by (apply lookup_lt_Some in Hc; exact Hc).
      rewrite Hc. simpl. rewrite (IH c n Hn Hch). reflexivity.
    + rewrite list_lookup_insert_ne by (intros E; apply Hne; symmetry; exact E).
      reflexivity.
Qed.

(** A node after it has asked its remaining sources. *)
Lemma gathered_batch_pending param n :
  0 <= indexGatherNext n <= Num (exportObjects n) ->
  let n' := gathered_batch param n (pending n) in
  children n' = children n
  /\ pending n' = []
  /\ 0 <= indexGatherNext n' <= Num (exportObjects n')
  /\ gather_rest param n' = gather_rest param n.
Proof.
  intros Hrange n'.
  assert (Hch : children n' = children n).
  { subst n'. rewrite gathered_batch_spec. reflexivity. }
  assert (Hobj : exportObjects n' = exportObjects n).
  { subst n'. rewrite gathered_batch_spec. reflexivity. }
  assert (Hidx : indexGatherNext n' = Num (exportObjects n)).
  { subst n'. rewrite gathered_batch_spec. simpl. unfold pending, Num in *.
    rewrite length_drop. lia. }
  assert (Hpending : pending n' = []).
  { unfold pending. rewrite Hidx, Hobj. apply drop_ge. unfold Num. lia. }
  split; [exact Hch|]. split; [exact Hpending|].
  split; [rewrite Hidx, Hobj; pose proof (Num_nonneg (exportObjects n)); lia|].
  rewrite (gather_rest_unfold param n'), (gather_rest_unfold param n), Hpending, Hch.
  reflexivity.
Qed.

(** One visit of the gather phase at a node of the tree. *)
Lemma GatherMeshData_at_visit param s p n :
  in_range (rootNode s) ->
  deref (rootNode s) p = Some n ->
  exists s' k,
    GatherMeshData_at s p param true 0 = Some (s', Num (pending n))
    /\ scene_gathered k (rootNode s') s s'
    /\ in_range (rootNode s')
    /\ k + skipped_pending param (rootNode s') = skipped_pending param (rootNode s)
    /\ gather_rest param (rootNode s') = gather_rest param (rootNode s)
    /\ (forall q, is_Some (deref (rootNode s) q) -> is_Some (deref (rootNode s') q))
    /\ GetNodesRecursive (rootNode s') [] [] = GetNodesRecursive (rootNode s) [] [].
Proof.
  intros Hrange Hn.
  assert (Hnr : in_range n) by exact (in_range_node_at _ _ _ Hrange Hn).
  inversion Hnr as [? Hidx Hchildren]; subst.
  destruct (GatherMeshData_at_all param s p n Hn Hidx) as (s' & Hg & He).
  destruct (gathered_batch_pending param n Hidx) as (Hch & Hpending & Hidx' & Hrest).
  set (n' := gathered_batch param n (pending n)) in *.
  pose proof (scene_gathered_rootNode _ _ _ _ He) as Hroot.
  exists s', (Num (List.filter (source_skipped param) (pending n))).
  split; [exact Hg|]. rewrite Hroot. split; [exact He|].
  unfold store, deref in *.
  split; [|split; [|split; [|split]]].
  - apply (in_range_update _ _ _ n Hrange Hn). constructor; [exact Hidx'|].
    rewrite Hch. exact Hchildren.
  - pose proof (skipped_pending_update param (fun _ => n') _ _ _ Hn Hch) as Hcount.
    cbv beta in Hcount. rewrite Hpending in Hcount.
    change (Num (List.filter (source_skipped param) [])) with 0 in Hcount. lia.
  - exact (gather_rest_update param (fun _ => n') _ _ _ Hn Hrest).
  - intros q. exact (node_at_update_shape (fun _ => n') _ _ _ _ Hn Hch).
  - exact (GetNodesRecursive_update (fun _ => n') _ _ _ Hn Hch []).
Qed.

(** The gather phase over any list of nodes of the tree. *)
Lemma gather_all_nodes_visits param :
  forall nodes s,
    in_range (rootNode s) ->
    Forall (fun p => is_Some (deref (rootNode s) p)) nodes ->
    exists s' k,
      gather_all_nodes s nodes param = Some s'
      /\ scene_gathered k (rootNode s') s s'
      /\ in_range (rootNode s')
      /\ k + skipped_pending param (rootNode s') = skipped_pending param (rootNode s)
      /\ gather_rest param (rootNode s') = gather_rest param (rootNode s)
      /\ (forall q, is_Some (deref (rootNode s) q) -> is_Some (deref (rootNode s') q))
      /\ GetNodesRecursive (rootNode s') [] [] = GetNodesRecursive (rootNode s) [] [].
Proof.
  induction nodes as [|p nodes IH]; intros s Hrange Hvalid; cbn [gather_all_nodes].
  - exists s, 0. split; [reflexivity|]. split; [apply scene_gathered_refl|].
    split; [exact Hrange|]. split; [lia|]. split; [reflexivity|].
    split; [intros q Hq; exact Hq|reflexivity].
  - inversion Hvalid as [|? ? [n Hn] Hrest]; subst.
    destruct (GatherMeshData_at_visit param s p n Hrange Hn)
      as (s1 & k1 & Hg1 & He1 & Hr1 & Hc1 & Hg1' & Hv1 & Ht1).
    rewrite Hg1.
    destruct (IH s1 Hr1) as (s2 & k2 & Hg2 & He2 & Hr2 & Hc2 & Hg2' & Hv2 & Ht2).
    { eapply Forall_impl; [exact Hrest|]. intros q Hq. exact (Hv1 q Hq). }
    exists s2, (k1 + k2). split; [exact Hg2|].
    split; [exact (scene_gathered_trans _ _ _ _ _ _ _ He1 He2)|].
    split; [exact Hr2|]. split; [lia|]. split; [rewrite Hg2'; exact Hg1'|].
    split; [intros q Hq; exact (Hv2 q (Hv1 q Hq))|rewrite Ht2; exact Ht1].
Qed.

(** The gather phase of an export: the nodes of the cache, then the
    pre-order of the tree.  Every source is asked once. *)
Lemma gather_all_nodes_cached param s (cache : list NodePtr) :
  fresh (rootNode s) ->
  Forall (fun p => is_Some (deref (rootNode s) p)) cache ->
  exists s',
    gather_all_nodes s (cache ++ GetNodesRecursive (rootNode s) [] []) param = Some s'
    /\ scene_gathered
         (Num (List.filter (source_skipped param) (tree_sources (rootNode s))))
         (gather_tree param (rootNode s)) s s'.
Proof.
  intros Hfresh Hvalid.
  destruct (fresh_pending _ Hfresh) as (Hrange & Hpending & Hrest).
  destruct (gather_all_nodes_visits param cache s Hrange Hvalid)
    as (s1 & k1 & Hg1 & He1 & Hr1 & Hc1 & Hg1' & _ & Ht1).
  rewrite gather_all_nodes_app, Hg1, <- Ht1.
  destruct (gather_all_nodes_rest param (rootNode s1) Hr1 [] s1 eq_refl)
    as (s2 & Hg2 & He2).
  exists s2. split; [exact Hg2|].
  change (store (rootNode s1) [] ?x) with x in He2.
  rewrite Hg1', Hrest in He2.
  replace (Num (List.filter (source_skipped param) (tree_sources (rootNode s))))
    with (k1 + skipped_pending param (rootNode s1)).
  - exact (scene_gathered_trans _ _ _ _ _ _ _ He1 He2).
  - rewrite Hc1. unfold skipped_pending. rewrite Hpending. reflexivity.
Qed.

(** ** Building: materials by handle *)

Lemma for_each_index_list_n {A B : Type} (l : list A) (f : nat -> option B)
    (h : A -> B) (n : nat) :
  n = length l ->
  (forall i x, l !! i = Some x -> f i = Some (h x)) ->
  for_each_index n f = Some (map h l).
Proof. intros ->. apply for_each_index_list. Qed.

Lemma for_each_index_total {B : Type} (n : nat) (f : nat -> option B) :
  (forall i, (i < n)%nat -> is_Some (f i)) -> is_Some (for_each_index n f).
Proof.
  induction n as [|n IH]; intros Hf; simpl; [eexists; reflexivity|].
  destruct IH as [l ->]; [intros i Hi; apply Hf; lia|].
  destruct (Hf n) as [x ->]; [lia|]. eexists. reflexivity.
Qed.

Lemma TArray_Find_None {A : Type} `{EqDecision A} (l : list A) (x : A) :
  TArray_Find l x = INDEX_NONE <-> ~ In x l.
Proof.
  unfold TArray_Find, INDEX_NONE.
  destruct (list_find (fun y => y = x) l) as [[i y]|] eqn:Hfind.
  - split; [lia|]. intros Hnot. exfalso. apply Hnot.
    apply list_find_Some in Hfind as (Hi & -> & _).
    apply list_elem_of_In. eapply list_elem_of_lookup_2. exact Hi.
  - split; [|reflexivity]. intros _ Hin.
    apply list_find_None in Hfind. rewrite Forall_forall in Hfind.
    apply (Hfind x); [apply list_elem_of_In; exact Hin|reflexivity].
Qed.

Lemma TArray_Find_Some {A : Type} `{EqDecision A} (l : list A) (x : A) :
  In x l ->
  0 <= TArray_Find l x < Num l
  /\ l !! Z.to_nat (TArray_Find l x) = Some x
  /\ (forall j, l !! j = Some x -> (Z.to_nat (TArray_Find l x) <= j)%nat).
Proof.
  intros Hin. unfold TArray_Find.
  destruct (list_find (fun y => y = x) l) as [[i y]|] eqn:Hfind.
  - apply list_find_Some in Hfind as (Hi & -> & Hleast).
    pose proof (lookup_lt_Some _ _ _ Hi) as Hlt.
    rewrite Nat2Z.id. unfold Num. repeat split; try lia; try exact Hi.
    intros j Hj. destruct (Nat.le_gt_cases i j) as [Hle|Hgt]; [exact Hle|].
    exfalso. exact (Hleast j x Hj Hgt eq_refl).
  - exfalso. apply list_find_None in Hfind. rewrite Forall_forall in Hfind.
    apply (Hfind x); [apply list_elem_of_In; exact Hin|reflexivity].
Qed.

(** The material pools after a mesh of handle [handle] is created, and the
    material index of that mesh: a known handle keeps its first index, a
    new one is appended together with one new material record. *)
Definition resolve_material (uniq : list UMaterialInterface_ptr) (mats : list aiMaterial)
    (handle : UMaterialInterface_ptr)
  : list UMaterialInterface_ptr * list aiMaterial * Z :=
  if TArray_Find uniq handle =? INDEX_NONE then
    (uniq ++ [handle], mats ++ [new_aiMaterial handle], Num uniq)
  else (uniq, mats, TArray_Find uniq handle).

Lemma section_valid_lengths section :
  section_valid section = true ->
  length (normals section) = length (vertices section)
  /\ length (tangents section) = length (vertices section)
  /\ length (vertexColors section) = length (vertices section)
  /\ length (textureCoordinates section) = length (vertices section)
  /\ Z.rem (Num (triangles section)) 3 = 0.
Proof.
  unfold section_valid. rewrite !andb_true_iff, !Z.eqb_eq. unfold Num.
  intros ((((Hn & Ht) & Hc) & Hu) & Hd). repeat split; lia.
Qed.

Lemma create_mesh_spec scene this section :
  section_valid section = true ->
  Num (materials scene) = Num (uniqueMaterials scene) ->
  exists mesh,
    create_mesh (scene, this) section
    = Some (set_pools scene (meshes scene ++ [mesh])
              (snd (fst (resolve_material (uniqueMaterials scene) (materials scene)
                                          (material section))))
              (fst (fst (resolve_material (uniqueMaterials scene) (materials scene)
                                          (material section)))),
            set_meshRefIndices this
              (meshRefIndices this ++ [to_uint32 (Num (meshes scene))]))
    /\ mMaterialIndex (mesh_base mesh)
       = to_uint32 (snd (resolve_material (uniqueMaterials scene) (materials scene)
                                          (material section)))
    /\ Num (mesh_vertices mesh) = Num (vertices section)
    /\ Num (mesh_faces mesh) = Z.quot (Num (triangles section)) 3.
Proof.
  intros Hvalid Hlen.
  destruct (section_valid_lengths section Hvalid) as (Hn & Ht & Hc & Hu & Hd).
  unfold create_mesh, resolve_material.
  assert (Hmat : (if TArray_Find (uniqueMaterials scene) (material section) =? INDEX_NONE
                  then
                    if Num (uniqueMaterials scene ++ [material section])
                       =? Num (materials scene ++ [new_aiMaterial (material section)])
                    then Some (uniqueMaterials scene ++ [material section],
                               materials scene ++ [new_aiMaterial (material section)],
                               Num (uniqueMaterials scene))
                    else None
                  else Some (uniqueMaterials scene, materials scene,
                             TArray_Find (uniqueMaterials scene) (material section)))
                 = Some (if TArray_Find (uniqueMaterials scene) (material section)
                            =? INDEX_NONE
                         then (uniqueMaterials scene ++ [material section],
                               materials scene ++ [new_aiMaterial (material section)],
                               Num (uniqueMaterials scene))
                         else (uniqueMaterials scene, materials scene,
                               TArray_Find (uniqueMaterials scene) (material section)))).
  { destruct (TArray_Find (uniqueMaterials scene) (material section) =? INDEX_NONE);
      [|reflexivity].
    rewrite !Num_app, Hlen, Z.eqb_refl. reflexivity. }
  cbv zeta. rewrite Hmat. clear Hmat. simpl.
  set (r := if TArray_Find (uniqueMaterials scene) (material section) =? INDEX_NONE
            then _ else _).
  destruct r as [[uniq mats] idx] eqn:Hr. simpl.
  rewrite (for_each_index_list_n (vertexColors section) _ ReinterpretAsLinear
             (length (vertices section)) (eq_sym Hc))
    by (intros i x Hi; rewrite Hi; reflexivity).
  simpl.
  rewrite (for_each_index_list_n (textureCoordinates section) _
             (fun coord => mkaiVector3D (uvX coord) (uvY coord) f_zero)
             (length (vertices section)) (eq_sym Hu))
    by (intros i x Hi; rewrite Hi; reflexivity).
  simpl. rewrite Hd. simpl.
  destruct (for_each_index_total
              (Z.to_nat (Z.quot (Num (triangles section)) 3))
              (fun faceIndex =>
                 match triangles section !! (faceIndex * 3)%nat,
                       triangles section !! (faceIndex * 3 + 1)%nat,
                       triangles section !! (faceIndex * 3 + 2)%nat with
                 | Some i0, Some i1, Some i2 =>
                     Some (mkaiFace 3 [to_uint32 i0; to_uint32 i1; to_uint32 i2])
                 | _, _, _ => None
                 end)) as [faces Hfaces].
  { intros i Hi.
    assert (Hbound : (i * 3 + 2 < length (triangles section))%nat).
    { unfold Num in Hi. rewrite Z.quot_div_nonneg in Hi by lia.
      assert (Z.of_nat i < Z.of_nat (length (triangles section)) / 3) by lia.
      assert (3 * (Z.of_nat (length (triangles section)) / 3)
              <= Z.of_nat (length (triangles section)))
        by (apply Z.mul_div_le; lia).
      lia. }
    destruct (lookup_lt_is_Some_2 (triangles section) (i * 3)) as [i0 ->]; [lia|].
    destruct (lookup_lt_is_Some_2 (triangles section) (i * 3 + 1)) as [i1 ->]; [lia|].
    destruct (lookup_lt_is_Some_2 (triangles section) (i * 3 + 2)) as [i2 ->]; [lia|].
    eexists. reflexivity. }
  rewrite Hfaces. simpl.
  eexists. split; [reflexivity|]. simpl. split; [reflexivity|]. split.
  - unfold Num. rewrite length_map. reflexivity.
  - apply for_each_index_length in Hfaces. unfold Num at 1. rewrite Hfaces.
    apply Z2Nat.id. apply Z.quot_pos; [apply Num_nonneg|lia].
Qed.

(** The invariant of the scene's pools. *)
Definition pools_consistent (scene : FAssimpScene) : Prop :=
  Num (materials scene) = Num (uniqueMaterials scene)
  /\ NoDup (uniqueMaterials scene)
  /\ Forall (fun mesh => 0 <= mMaterialIndex (mesh_base mesh) < Num (materials scene))
            (meshes scene).

Lemma resolve_material_spec uniq mats handle :
  Num mats = Num uniq -> NoDup uniq ->
  forall uniq' mats' idx,
    resolve_material uniq mats handle = (uniq', mats', idx) ->
    Num mats' = Num uniq'
    /\ NoDup uniq'
    /\ 0 <= idx < Num uniq'
    /\ uniq' !! Z.to_nat idx = Some handle
    /\ (In handle uniq ->
        uniq' = uniq /\ mats' = mats /\ idx = TArray_Find uniq handle)
    /\ (~ In handle uniq ->
        uniq' = uniq ++ [handle] /\ mats' = mats ++ [new_aiMaterial handle]
        /\ idx = Num uniq)
    /\ (exists added, uniq' = uniq ++ added /\ (length added <= 1)%nat)
    /\ Num mats <= Num mats'.
Proof.
  intros Hlen Hnodup uniq' mats' idx. unfold resolve_material.
  destruct (Z.eqb_spec (TArray_Find uniq handle) INDEX_NONE) as [Hnone|Hsome].
  - apply TArray_Find_None in Hnone. intros [= <- <- <-].
    rewrite !Num_app, Hlen. pose proof (Num_nonneg uniq) as Hpos.
    repeat split; try (unfold Num; simpl; lia).
    + apply NoDup_app. repeat split; [exact Hnodup| |apply NoDup_singleton].
      intros x Hx Hx'. apply list_elem_of_singleton in Hx'. subst x.
      apply Hnone. apply list_elem_of_In. exact Hx.
    + unfold Num. rewrite Nat2Z.id, lookup_app_r by lia.
      rewrite Nat.sub_diag. reflexivity.
    + contradiction.
    + contradiction.
    + contradiction.
    + exists [handle]. split; [reflexivity|simpl; lia].
  - assert (Hin : In handle uniq).
    { destruct (In_dec Z.eq_dec handle uniq) as [Hin|Hnot]; [exact Hin|].
      exfalso. apply Hsome. apply TArray_Find_None. exact Hnot. }
    destruct (TArray_Find_Some uniq handle Hin) as (Hrange & Hlook & _).
    intros [= <- <- <-].
    repeat split; try assumption; try lia; try reflexivity; try contradiction.
    exists []. split; [symmetry; apply app_nil_r|simpl; lia].
Qed.

Lemma create_mesh_consistent scene this section :
  section_valid section = true ->
  pools_consistent scene ->
  Num (uniqueMaterials scene) < 2 ^ 32 ->
  exists scene' this' mesh,
    create_mesh (scene, this) section = Some (scene', this')
    /\ meshes scene' = meshes scene ++ [mesh]
    /\ resolve_material (uniqueMaterials scene) (materials scene) (material section)
       = (uniqueMaterials scene', materials scene', mMaterialIndex (mesh_base mesh))
    /\ pools_consistent scene'
    /\ scene' = set_pools scene (meshes scene') (materials scene') (uniqueMaterials scene')
    /\ this' = set_meshRefIndices this
                 (meshRefIndices this ++ [to_uint32 (Num (meshes scene))]).
Proof.
  intros Hvalid (Hlen & Hnodup & Hmeshes) Hbound.
  destruct (create_mesh_spec scene this section Hvalid Hlen)
    as (mesh & Hcreate & Hidx & _ & _).
  destruct (resolve_material (uniqueMaterials scene) (materials scene) (material section))
    as [[uniq' mats'] idx] eqn:Hres.
  destruct (resolve_material_spec _ _ _ Hlen Hnodup _ _ _ Hres)
    as (Hlen' & Hnodup' & Hrange & Hlook & _ & _ & (added & Hadd & Hadd1) & Hmono).
  simpl in Hcreate, Hidx.
  assert (Hexact : to_uint32 idx = idx).
  { apply to_uint32_exact. rewrite Hadd, Num_app in Hrange. unfold Num in Hrange at 2.
    lia. }
  rewrite Hexact in Hidx.
  eexists _, _, mesh. split; [exact Hcreate|]. simpl.
  split; [reflexivity|]. split; [rewrite Hidx; reflexivity|].
  split; [|split; reflexivity].
  repeat split; simpl; try assumption.
  apply Forall_app. split.
  - eapply Forall_impl; [exact Hmeshes|]. simpl. intros m Hm. lia.
  - constructor; [|constructor]. rewrite Hidx. lia.
Qed.

(** ** Building: grouping keeps sections valid *)

Lemma transform_section_data_spec objectSpaceToNodeSpace :
  forall (n : nat) section,
    (n <= length (vertices section))%nat ->
    (n <= length (normals section))%nat ->
    (n <= length (tangents section))%nat ->
    exists section',
      transform_section_data n objectSpaceToNodeSpace section = Some section'
      /\ length (vertices section') = length (vertices section)
      /\ length (normals section') = length (normals section)
      /\ length (tangents section') = length (tangents section)
      /\ textureCoordinates section' = textureCoordinates section
      /\ vertexColors section' = vertexColors section
      /\ triangles section' = triangles section
      /\ material section' = material section.
Proof.
  induction n as [|n IH]; intros section Hv Hn Ht.
  - exists section. repeat split.
  - simpl.
    destruct (lookup_lt_is_Some_2 (vertices section) n) as [v ->]; [lia|].
    destruct (lookup_lt_is_Some_2 (normals section) n) as [nrm ->]; [lia|].
    destruct (lookup_lt_is_Some_2 (tangents section) n) as [tng ->]; [lia|].
    edestruct IH as (section' & Hrec & H1 & H2 & H3 & H4 & H5 & H6 & H7);
      [| | |exists section'; split; [exact Hrec|]];
      simpl in *; rewrite ?length_insert in *; try lia.
    repeat split; assumption.
Qed.

Lemma transform_section_data_valid objectSpaceToNodeSpace section :
  section_valid section = true ->
  exists section',
    transform_section_data (length (vertices section)) objectSpaceToNodeSpace section
    = Some section'
    /\ section_valid section' = true
    /\ material section' = material section.
Proof.
  intros Hvalid.
  destruct (section_valid_lengths section Hvalid) as (Hn & Ht & Hc & Hu & Hd).
  destruct (transform_section_data_spec objectSpaceToNodeSpace
              (length (vertices section)) section)
    as (section' & Hrec & H1 & H2 & H3 & H4 & H5 & H6 & H7); try lia.
  exists section'. split; [exact Hrec|]. split; [|exact H7].
  unfold section_valid, Num. rewrite H1, H2, H3, H4, H5, H6.
  exact Hvalid.
Qed.

Lemma Append_valid A B R :
  Append A B = Some R ->
  section_valid A = true -> section_valid B = true ->
  section_valid R = true /\ material R = material A.
Proof.
  unfold Append. destruct (decide (material A = material B)); [|discriminate].
  intros [= <-] HA HB. split; [|reflexivity].
  destruct (section_valid_lengths A HA) as (Hn & Ht & Hc & Hu & Hd).
  destruct (section_valid_lengths B HB) as (Hn' & Ht' & Hc' & Hu' & Hd').
  unfold section_valid, Num. simpl. rewrite !length_app, length_map.
  rewrite Hn, Ht, Hc, Hu, Hn', Ht', Hc', Hu', !Z.eqb_refl. simpl.
  apply Z.eqb_eq. unfold Num in Hd, Hd'.
  rewrite Nat2Z.inj_add.
  apply Z.rem_divide; [lia|]. apply Z.divide_add_r; apply Z.rem_divide; lia.
Qed.

(** Every section filed under a key carries that material and is valid. *)
Definition map_valid (m : MaterialSections) : Prop :=
  Forall (fun e => Forall (fun section => material section = fst e
                                          /\ section_valid section = true) (snd e)) m.

Lemma TMap_Find_FindOrAdd {K V : Type} `{EqDecision K} (m : TMap K V) (k : K) (d : V) :
  exists v, TMap_Find (TMap_FindOrAdd m k d) k = Some v
            /\ (TMap_Find m k = Some v \/ (TMap_Find m k = None /\ v = d)).
Proof.
  unfold TMap_FindOrAdd. destruct (TMap_Find m k) as [v|] eqn:Hfind.
  - exists v. rewrite Hfind. split; [reflexivity|left; reflexivity].
  - exists d. split; [|right; split; reflexivity].
    unfold TMap_Find in *.
    destruct (list_find (fun e => fst e = k) m) as [[i e]|] eqn:Hm; [discriminate|].
    rewrite (list_find_app_r _ _ _ Hm). simpl.
    destruct (decide (k = k)); [reflexivity|contradiction].
Qed.

Lemma TMap_Find_In {K V : Type} `{EqDecision K} (m : TMap K V) (k : K) (v : V) :
  TMap_Find m k = Some v -> (k, v) ∈ m.
Proof.
  unfold TMap_Find.
  destruct (list_find (fun e => fst e = k) m) as [[i [k' v']]|] eqn:Hm; [|discriminate].
  intros [= <-]. apply list_find_Some in Hm as (Hi & Hk & _). simpl in Hk. subst k'.
  eapply list_elem_of_lookup_2. exact Hi.
Qed.

Lemma group_section_spec this_worldTransform param m section :
  section_valid section = true -> map_valid m ->
  exists m', group_section this_worldTransform param m section = Some m' /\ map_valid m'.
Proof.
  intros Hvalid Hm. unfold group_section.
  destruct (transform_section_data_valid
              (FTransform_mul (meshToWorld section) (Inverse this_worldTransform))
              section Hvalid) as (section' & -> & Hvalid' & Hmat).
  simpl.
  destruct (TMap_Find_FindOrAdd m (material section') []) as (secs & Hfind & Horigin).
  rewrite Hfind. simpl.
  assert (Hsecs : Forall (fun s0 => material s0 = material section'
                                    /\ section_valid s0 = true) secs).
  { destruct Horigin as [Hin|[_ ->]]; [|constructor].
    apply TMap_Find_In in Hin. unfold map_valid in Hm. rewrite Forall_forall in Hm.
    exact (Hm _ Hin). }
  assert (Hassign : forall new,
             Forall (fun s0 => material s0 = material section'
                               /\ section_valid s0 = true) new ->
             map_valid (TMap_assign (TMap_FindOrAdd m (material section') [])
                                    (material section') new)).
  { intros new Hnew. unfold map_valid, TMap_assign. apply Forall_fmap.
    assert (Hm1 : map_valid (TMap_FindOrAdd m (material section') [])).
    { unfold TMap_FindOrAdd. destruct (TMap_Find m (material section')); [exact Hm|].
      apply Forall_app. split; [exact Hm|]. constructor; [constructor|constructor]. }
    eapply Forall_impl; [exact Hm1|]. intros e He. simpl.
    destruct (decide (fst e = material section')); [exact Hnew|exact He]. }
  destruct (bCombineSameMaterial param && IsValidIndex secs 0) eqn:Hcombine.
  - destruct secs as [|first others].
    { rewrite andb_true_iff in Hcombine. destruct Hcombine as [_ Hidx].
      discriminate Hidx. }
    inversion Hsecs as [|? ? [Hfm Hfv] Hothers]; subst.
    destruct (Append first section') as [merged|] eqn:Happ.
    + simpl. eexists. split; [reflexivity|]. apply Hassign.
      destruct (Append_valid _ _ _ Happ Hfv Hvalid') as [Hmv Hmm].
      constructor; [|exact Hothers]. split; [rewrite Hmm; exact Hfm|exact Hmv].
    + exfalso. unfold Append in Happ.
      destruct (decide (material first = material section')); [discriminate|contradiction].
  - simpl. eexists. split; [reflexivity|]. apply Hassign.
    apply Forall_app. split; [exact Hsecs|]. constructor; [|constructor].
    split; [reflexivity|exact Hvalid'].
Qed.

Lemma group_sections_spec this_worldTransform param sections :
  forall m,
    Forall (fun section => section_valid section = true) sections -> map_valid m ->
    exists m',
      group_sections this_worldTransform param m sections = Some m' /\ map_valid m'.
Proof.
  induction sections as [|section rest IH]; intros m Hall Hm; simpl.
  - exists m. split; [reflexivity|exact Hm].
  - inversion Hall as [|? ? Hs Hrest]; subst.
    destruct (group_section_spec this_worldTransform param m section Hs Hm)
      as (m1 & -> & Hm1).
    apply IH; assumption.
Qed.

Lemma map_valid_concat (m : MaterialSections) :
  map_valid m ->
  Forall (fun section => section_valid section = true) (concat (map snd m)).
Proof.
  unfold map_valid. induction 1 as [|e m He _ IH]; simpl; [constructor|].
  apply Forall_app. split; [|exact IH].
  eapply Forall_impl; [exact He|]. intros s0 [_ Hv]. exact Hv.
Qed.

(** ** Building: the whole tree *)

(** What building may change in a scene: the pools and the text of the
    log. *)
Definition build_effect (s s' : FAssimpScene) : Prop :=
  s' = set_exportLog (set_pools s (meshes s') (materials s') (uniqueMaterials s'))
         (exportLog s').

Lemma build_effect_refl s : build_effect s s.
Proof. unfold build_effect. destruct s. reflexivity. Qed.

Lemma build_effect_trans s s1 s2 :
  build_effect s s1 -> build_effect s1 s2 -> build_effect s s2.
Proof.
  unfold build_effect. intros H1 H2. rewrite H2. rewrite H1 at 1.
  destruct s. reflexivity.
Qed.

Lemma build_effect_log s logText : build_effect s (WriteToLogWithNewLine s logText).
Proof.
  unfold build_effect, WriteToLogWithNewLine.
  destruct s as [r ms mats uq lg k [l|] an ci gp gm tk b]; reflexivity.
Qed.

Lemma build_effect_pools s ms mats uq : build_effect s (set_pools s ms mats uq).
Proof. unfold build_effect. destruct s. reflexivity. Qed.

Lemma build_effect_frame s s' :
  build_effect s s' ->
  rootNode s' = rootNode s /\ numObjectsSkipped s' = numObjectsSkipped s
  /\ allNodesHelper s' = allNodesHelper s /\ scene_base s' = scene_base s
  /\ bLogToUnreal s' = bLogToUnreal s.
Proof. unfold build_effect. intros ->. repeat split. Qed.

(** The pools after a step of building, relative to the pools before. *)
Definition pools_step (s s' : FAssimpScene) : Prop :=
  Num (materials s') = Num (uniqueMaterials s')
  /\ Num (uniqueMaterials s) <= Num (uniqueMaterials s')
  /\ (pools_consistent s -> Num (uniqueMaterials s') < 2 ^ 32 -> pools_consistent s').

Lemma pools_step_refl s :
  Num (materials s) = Num (uniqueMaterials s) -> pools_step s s.
Proof. intros H. split; [exact H|]. split; [lia|intros Hc _; exact Hc]. Qed.

Lemma pools_step_trans s s1 s2 : pools_step s s1 -> pools_step s1 s2 -> pools_step s s2.
Proof.
  intros (H1 & H2 & H3) (H4 & H5 & H6). split; [exact H4|]. split; [lia|].
  intros Hc Hb. apply H6; [apply H3; [exact Hc|lia]|exact Hb].
Qed.

Lemma pools_step_log s logText :
  Num (materials s) = Num (uniqueMaterials s) ->
  pools_step s (WriteToLogWithNewLine s logText).
Proof.
  intros H. unfold WriteToLogWithNewLine.
  destruct (exportLog s); [|apply pools_step_refl; exact H].
  split; [exact H|]. split; [simpl; lia|intros Hc _; exact Hc].
Qed.

Lemma create_mesh_step scene this section :
  section_valid section = true ->
  Num (materials scene) = Num (uniqueMaterials scene) ->
  exists scene' this',
    create_mesh (scene, this) section = Some (scene', this')
    /\ build_effect scene scene'
    /\ pools_step scene scene'
    /\ this' = set_meshRefIndices this (meshRefIndices this').
Proof.
  intros Hvalid Hlen.
  destruct (create_mesh_spec scene this section Hvalid Hlen)
    as (mesh & Hcreate & _).
  eexists _, _. split; [exact Hcreate|].
  split; [apply build_effect_pools|]. split; [|reflexivity].
  unfold pools_step. simpl.
  assert (Hweak : Num (snd (fst (resolve_material (uniqueMaterials scene)
                                   (materials scene) (material section))))
                  = Num (fst (fst (resolve_material (uniqueMaterials scene)
                                     (materials scene) (material section))))
                  /\ Num (uniqueMaterials scene)
                     <= Num (fst (fst (resolve_material (uniqueMaterials scene)
                                         (materials scene) (material section))))).
  { unfold resolve_material.
    destruct (TArray_Find (uniqueMaterials scene) (material section) =? INDEX_NONE);
      simpl; rewrite ?Num_app; unfold Num in *; simpl; lia. }
  destruct Hweak as [Hw1 Hw2]. split; [exact Hw1|]. split; [exact Hw2|].
  intros Hcons Hbound.
  destruct (create_mesh_consistent scene this section Hvalid Hcons)
    as (scene'' & this'' & mesh'' & Hcreate' & _ & _ & Hcons' & _); [lia|].
  rewrite Hcreate in Hcreate'. injection Hcreate' as <- _. exact Hcons'.
Qed.

Lemma create_meshes_spec sections :
  forall scene this,
    Forall (fun section => section_valid section = true) sections ->
    Num (materials scene) = Num (uniqueMaterials scene) ->
    exists scene' this',
      create_meshes (scene, this) sections = Some (scene', this')
      /\ build_effect scene scene'
      /\ pools_step scene scene'
      /\ this' = set_meshRefIndices this (meshRefIndices this').
Proof.
  induction sections as [|section rest IH]; intros scene this Hall Hlen;
    cbn [create_meshes].
  - exists scene, this. split; [reflexivity|].
    split; [apply build_effect_refl|]. split; [apply pools_step_refl; exact Hlen|].
    destruct this. reflexivity.
  - inversion Hall as [|? ? Hs Hrest]; subst.
    destruct (create_mesh_step scene this section Hs Hlen)
      as (s1 & t1 & -> & He1 & Hp1 & Ht1).
    destruct (IH s1 t1 Hrest (proj1 Hp1)) as (s2 & t2 & Hrec & He2 & Hp2 & Ht2).
    exists s2, t2. split; [exact Hrec|].
    split; [exact (build_effect_trans _ _ _ He1 He2)|].
    split; [exact (pools_step_trans _ _ _ Hp1 Hp2)|].
    rewrite Ht2, Ht1. reflexivity.
Qed.

(** The sections gathered at a node are valid. *)
Definition gathered_valid (n : FAssimpNode) : Prop :=
  Forall (Forall (fun section => section_valid section = true)) (gatheredExportables n).

Lemma CreateAssimpMeshesFromMeshData_spec scene this param :
  gathered_valid this ->
  Num (materials scene) = Num (uniqueMaterials scene) ->
  exists scene' this',
    CreateAssimpMeshesFromMeshData scene this param = Some (scene', this')
    /\ build_effect scene scene'
    /\ pools_step scene scene'
    /\ this' = set_meshRefIndices (set_gatheredExportables this []) (meshRefIndices this').
Proof.
  intros Hvalid Hlen. unfold CreateAssimpMeshesFromMeshData.
  destruct (group_sections_spec (worldTransform this) param
              (concat (gatheredExportables this)) []) as (m & -> & Hm).
  { unfold gathered_valid in Hvalid. clear -Hvalid.
    induction Hvalid as [|l ls Hl _ IH]; simpl; [constructor|].
    apply Forall_app. split; assumption. }
  { constructor. }
  simpl.
  destruct (create_meshes_spec (concat (map snd m)) scene
              (set_gatheredExportables this []) (map_valid_concat m Hm) Hlen)
    as (s' & t' & Hc & He & Hp & Ht).
  exists s', t'. split; [exact Hc|]. split; [exact He|]. split; [exact Hp|exact Ht].
Qed.

(** Every section gathered anywhere in the tree is valid. *)
Local Unset Elimination Schemes.
Inductive tree_valid : FAssimpNode -> Prop :=
| tree_valid_node n :
    gathered_valid n -> Forall tree_valid (children n) -> tree_valid n.
Local Set Elimination Schemes.

(** The loop over the children in [ProcessGatheredData_Internal], by name. *)
Definition process_children (root : FAssimpNode) (param : FRuntimeMeshExportParam)
    (self : NodePtr) :=
  fix each_child (cs : list FAssimpNode) (childIndex : nat) (scene : FAssimpScene)
    : option (FAssimpScene * list FAssimpNode) :=
    match cs with
    | [] => Some (scene, [])
    | child :: later =>
        match each_child later (S childIndex) scene with
        | None => None
        | Some (scene, later) =>
            match ProcessGatheredData_Internal root param child
                    (childIndex :: self) scene with
            | Some (scene, child) => Some (scene, child :: later)
            | None => None
            end
        end
    end.

Lemma ProcessGatheredData_Internal_unfold root param this self scene :
  ProcessGatheredData_Internal root param this self scene
  = match GetHierarchicalName root self with
    | None => None
    | Some hierarchicalName =>
        match CreateAssimpMeshesFromMeshData scene this param with
        | None => None
        | Some (scene, created) =>
            let scene :=
              WriteToLogWithNewLine scene
                (Printf "Node %s has %d meshes for export."
                        [arg_s hierarchicalName; arg_d (Num (meshRefIndices created))]) in
            match process_children root param self (children this) 0%nat scene with
            | None => None
            | Some (scene, processed) =>
                let this := set_children created processed in
                let scene :=
                  if (Num (children this) =? 0) && (Num (meshRefIndices this) =? 0) then
                    WriteToLogWithNewLine scene
                      (Printf "Node %s has no children and no meshes."
                              [arg_s hierarchicalName])
                  else scene in
                Some (scene, this)
            end
        end
    end.
Proof. destruct this. reflexivity. Qed.

Definition builds_subtree (root : FAssimpNode) (param : FRuntimeMeshExportParam)
    (this : FAssimpNode) : Prop :=
  tree_valid this ->
  forall self scene,
    deref root self = Some this ->
    Num (materials scene) = Num (uniqueMaterials scene) ->
    exists scene' this',
      ProcessGatheredData_Internal root param this self scene = Some (scene', this')
      /\ build_effect scene scene'
      /\ pools_step scene scene'.

Lemma process_children_spec root param self cs :
  Forall (builds_subtree root param) cs -> Forall tree_valid cs ->
  forall i scene,
    (forall k c, cs !! k = Some c -> deref root ((i + k)%nat :: self) = Some c) ->
    Num (materials scene) = Num (uniqueMaterials scene) ->
    exists scene' cs',
      process_children root param self cs i scene = Some (scene', cs')
      /\ build_effect scene scene'
      /\ pools_step scene scene'.
Proof.
  induction 1 as [|c cs Hc _ IH]; intros Hvalid i scene Hptr Hlen.
  - exists scene, []. split; [reflexivity|].
    split; [apply build_effect_refl|apply pools_step_refl; exact Hlen].
  - inversion Hvalid as [|? ? Hvc Hvcs]; subst.
    cbn [process_children].
    destruct (IH Hvcs (S i) scene) as (s1 & cs1 & Hrec & He1 & Hp1).
    { intros k x Hk. replace (S i + k)%nat with (i + S k)%nat by lia.
      apply Hptr. exact Hk. }
    { exact Hlen. }
    fold (process_children root param self). rewrite Hrec.
    destruct (Hc Hvc (i :: self) s1) as (s2 & c2 & Hint & He2 & Hp2).
    { rewrite <- (Nat.add_0_r i) at 1. apply Hptr. reflexivity. }
    { exact (proj1 Hp1). }
    rewrite Hint. exists s2, (c2 :: cs1). split; [reflexivity|].
    split; [exact (build_effect_trans _ _ _ He1 He2)|].
    exact (pools_step_trans _ _ _ Hp1 Hp2).
Qed.

Lemma ProcessGatheredData_Internal_spec root param :
  forall this, builds_subtree root param this.
Proof.
  induction this as [this IH] using FAssimpNode_induction.
  intros Hvalid self scene Hder Hlen.
  inversion Hvalid as [? Hgath Hchildren]; subst.
  rewrite ProcessGatheredData_Internal_unfold.
  destruct (GetHierarchicalName_is_Some root self) as [hname ->].
  { rewrite Hder. eexists. reflexivity. }
  destruct (CreateAssimpMeshesFromMeshData_spec scene this param Hgath Hlen)
    as (s1 & created & -> & He1 & Hp1 & _).
  cbv zeta.
  set (s2 := WriteToLogWithNewLine s1 _).
  assert (He2 : build_effect s1 s2) by apply build_effect_log.
  assert (Hp2 : pools_step s1 s2) by (apply pools_step_log; exact (proj1 Hp1)).
  destruct (process_children_spec root param self (children this) IH Hchildren 0%nat s2)
    as (s3 & processed & -> & He3 & Hp3).
  { intros k c Hk. simpl. rewrite (deref_child _ _ _ _ Hder). exact Hk. }
  { exact (proj1 Hp2). }
  eexists _, _. split; [reflexivity|].
  assert (He : build_effect scene s3).
  { exact (build_effect_trans _ _ _ He1 (build_effect_trans _ _ _ He2 He3)). }
  assert (Hp : pools_step scene s3).
  { exact (pools_step_trans _ _ _ Hp1 (pools_step_trans _ _ _ Hp2 Hp3)). }
  destruct ((Num (children (set_children created processed)) =? 0)
            && (Num (meshRefIndices (set_children created processed)) =? 0)).
  - split; [exact (build_effect_trans _ _ _ He (build_effect_log _ _))|].
    exact (pools_step_trans _ _ _ Hp (pools_step_log _ _ (proj1 Hp))).
  - split; assumption.
Qed.

(** What the build phase leaves of a scene: it replaces the tree and the
    pools and writes to the log. *)
Lemma ProcessGatheredData_Recursive_spec scene param :
  tree_valid (rootNode scene) ->
  Num (materials scene) = Num (uniqueMaterials scene) ->
  exists scene',
    ProcessGatheredData_Recursive scene param = Some scene'
    /\ numObjectsSkipped scene' = numObjectsSkipped scene
    /\ allNodesHelper scene' = allNodesHelper scene
    /\ pools_step scene scene'.
Proof.
  intros Hvalid Hlen. unfold ProcessGatheredData_Recursive.
  set (s0 := WriteToLogWithNewLine scene _).
  pose proof (build_effect_log scene "Begin processing gathered data.") as He0.
  pose proof (pools_step_log scene "Begin processing gathered data." Hlen) as Hp0.
  fold s0 in He0, Hp0.
  destruct (build_effect_frame _ _ He0) as (Hr0 & Hk0 & Ha0 & _).
  destruct (ProcessGatheredData_Internal_spec (rootNode s0) param (rootNode s0))
    with (self := @nil nat) (scene := s0) as (s1 & root1 & -> & He1 & Hp1).
  { rewrite Hr0. exact Hvalid. }
  { reflexivity. }
  { exact (proj1 Hp0). }
  simpl. eexists. split; [reflexivity|].
  destruct (build_effect_frame _ _ He1) as (_ & Hk1 & Ha1 & _).
  set (s2 := set_rootNode s1 root1).
  assert (Hp2 : pools_step s1 s2).
  { subst s2. split; [exact (proj1 Hp1)|]. split; [simpl; lia|intros Hc _; exact Hc]. }
  pose proof (build_effect_log s2
                (Printf "End processing gathered data. Duration: %.3fs" [arg_seconds]))
    as He3.
  destruct (build_effect_frame _ _ He3) as (_ & Hk3 & Ha3 & _).
  split; [rewrite Hk3; simpl; rewrite Hk1; exact Hk0|].
  split; [rewrite Ha3; simpl; rewrite Ha1; exact Ha0|].
  apply (pools_step_trans _ _ _ Hp0), (pools_step_trans _ _ _ Hp1),
        (pools_step_trans _ _ _ Hp2).
  apply pools_step_log. exact (proj1 Hp2).
Qed.

(** ** Preparing and exporting a scene *)

Lemma SetDataAndPtrsToParentClass_children parent this param :
  children (SetDataAndPtrsToParentClass parent this param)
  = map (fun child => SetDataAndPtrsToParentClass (Some this) child param)
        (children this).
Proof. destruct this. reflexivity. Qed.

Lemma WriteToLogWithNewLine_frame s logText :
  rootNode (WriteToLogWithNewLine s logText) = rootNode s
  /\ numObjectsSkipped (WriteToLogWithNewLine s logText) = numObjectsSkipped s
  /\ allNodesHelper (WriteToLogWithNewLine s logText) = allNodesHelper s
  /\ meshes (WriteToLogWithNewLine s logText) = meshes s
  /\ materials (WriteToLogWithNewLine s logText) = materials s
  /\ uniqueMaterials (WriteToLogWithNewLine s logText) = uniqueMaterials s.
Proof. unfold WriteToLogWithNewLine. destruct (exportLog s); repeat split. Qed.

Lemma WriteToLogWithNewLine_numObjectsSkipped s logText :
  numObjectsSkipped (WriteToLogWithNewLine s logText) = numObjectsSkipped s.
Proof. apply WriteToLogWithNewLine_frame. Qed.

Lemma fold_WriteToLog_numObjectsSkipped {A : Type} (f : FAssimpScene -> A -> FString)
    (l : list A) :
  forall s,
    numObjectsSkipped (fold_left (fun s x => WriteToLogWithNewLine s (f s x)) l s)
    = numObjectsSkipped s.
Proof.
  induction l as [|x l IH]; intros s; simpl; [reflexivity|].
  rewrite IH. apply WriteToLogWithNewLine_numObjectsSkipped.
Qed.

Lemma tree_valid_gather_tree param :
  forall n, fresh n -> tree_valid (gather_tree param n).
Proof.
  induction n as [n IH] using FAssimpNode_induction. intros Hfresh.
  inversion Hfresh as [? Hidx Hgath Hfc]; subst.
  rewrite gather_tree_unfold. constructor.
  - unfold gathered_valid. rewrite gathered_batch_spec. simpl. rewrite Hgath. simpl.
    apply Forall_fmap, Forall_forall. intros object Hobj.
    apply list_elem_of_In, List.filter_In in Hobj as [_ Hacc].
    unfold source_accepted, source_sections in *. simpl.
    destruct (GetMeshData object (lod param) (bSkipLodNotValid param)) as [a secs].
    rewrite !andb_true_iff in Hacc. destruct Hacc as [_ Hall]. simpl.
    apply Forall_forall. intros sec Hsec.
    rewrite forallb_forall in Hall. apply Hall. apply list_elem_of_In. exact Hsec.
  - rewrite set_children_children. apply Forall_fmap.
    clear Hidx Hgath Hfresh.
    induction (children n) as [|c cs IHcs]; [constructor|].
    inversion IH as [|? ? Hc Hcs]; inversion Hfc as [|? ? Hfc1 Hfcs]; subst.
    constructor; [exact (Hc Hfc1)|exact (IHcs Hcs Hfcs)].
Qed.

(** ** The order in which meshes are created *)

(** The indices that [count] meshes added to a pool of [from] meshes
    receive. *)
Fixpoint mesh_refs (from : Z) (count : nat) : list Z :=
  match count with
  | O => []
  | S count => to_uint32 from :: mesh_refs (from + 1) count
  end.

(** The mesh references of a tree, node by node: the node itself, then the
    subtrees of its children from the last to the first. *)
Fixpoint refs_build_order (n : FAssimpNode) : list Z :=
  meshRefIndices n ++ concat (rev (map refs_build_order (children n))).

(** The mesh references of the nodes at [ptrs], one node after the other. *)
Definition refs_along (root : FAssimpNode) (ptrs : list NodePtr) : list Z :=
  concat (map (fun p => match deref root p with
                        | Some n => meshRefIndices n
                        | None => []
                        end) ptrs).

Lemma mesh_refs_app a b :
  forall from,
    mesh_refs from (a + b) = mesh_refs from a ++ mesh_refs (from + Z.of_nat a) b.
Proof.
  induction a as [|a IH]; intros from; simpl.
  - rewrite Z.add_0_r. reflexivity.
  - rewrite IH. do 3 f_equal. lia.
Qed.

Lemma refs_along_app root l k :
  refs_along root (l ++ k) = refs_along root l ++ refs_along root k.
Proof. unfold refs_along. rewrite map_app, concat_app. reflexivity. Qed.

Lemma refs_along_concat root ls :
  refs_along root (concat ls) = concat (map (refs_along root) ls).
Proof.
  induction ls as [|l ls IH]; simpl; [reflexivity|].
  rewrite refs_along_app, IH. reflexivity.
Qed.

Lemma refs_build_order_unfold n :
  refs_build_order n
  = meshRefIndices n ++ concat (rev (map refs_build_order (children n))).
Proof. destruct n. reflexivity. Qed.

(** Reading the references along the build order of a subtree gives the
    references of the subtree in build order. *)
Lemma refs_along_build_order root :
  forall this self,
    deref root self = Some this ->
    refs_along root (ProcessGatheredData_order this self) = refs_build_order this.
Proof.
  induction this as [this IH] using FAssimpNode_induction. intros self Hself.
  rewrite ProcessGatheredData_order_preorder, refs_build_order_unfold.
  change (refs_along root (self :: ?l)) with
    (match deref root self with Some n => meshRefIndices n | None => [] end
     ++ refs_along root l).
  rewrite Hself. f_equal.
  rewrite refs_along_concat, map_rev. do 2 f_equal.
  change (map (refs_along root)) with (fmap (M := list) (refs_along root)).
  rewrite fmap_imap.
  rewrite <- (imap_const refs_build_order).
  apply imap_ext. intros i c Hc. simpl.
  rewrite Forall_forall in IH. apply IH.
  - apply list_elem_of_lookup_2 in Hc. exact Hc.
  - rewrite (deref_child _ _ _ _ Hself). exact Hc.
Qed.

(** One mesh created: the pool has one mesh more and the node refers to
    it. *)
Lemma create_mesh_refs scene this section scene' this' :
  create_mesh (scene, this) section = Some (scene', this') ->
  Num (meshes scene') = Num (meshes scene) + 1
  /\ meshRefIndices this' = meshRefIndices this ++ [to_uint32 (Num (meshes scene))]
  /\ children this' = children this.
Proof.
  unfold create_mesh, mbind, option_bind. cbv zeta. intros H.
  repeat case_match; simplify_eq; simpl; rewrite Num_app; repeat split.
Qed.

Lemma create_meshes_refs sections :
  forall scene this scene' this',
    create_meshes (scene, this) sections = Some (scene', this') ->
    Num (meshes scene') = Num (meshes scene) + Z.of_nat (length sections)
    /\ meshRefIndices this'
       = meshRefIndices this ++ mesh_refs (Num (meshes scene)) (length sections)
    /\ children this' = children this.
Proof.
  induction sections as [|section rest IH]; intros scene this scene' this' H;
    cbn [create_meshes] in H.
  - injection H as <- <-. simpl. rewrite app_nil_r. repeat split. lia.
  - destruct (create_mesh (scene, this) section) as [[s1 t1]|] eqn:Hone; [|discriminate].
    destruct (create_mesh_refs _ _ _ _ _ Hone) as (Hn1 & Hr1 & Hc1).
    destruct (IH _ _ _ _ H) as (Hn2 & Hr2 & Hc2).
    split; [rewrite Hn2, Hn1; simpl length; lia|].
    split; [|rewrite Hc2; exact Hc1].
    rewrite Hr2, Hr1, Hn1, <- app_assoc. reflexivity.
Qed.

Lemma CreateAssimpMeshesFromMeshData_refs scene this param scene' this' :
  CreateAssimpMeshesFromMeshData scene this param = Some (scene', this') ->
  exists count,
    Num (meshes scene') = Num (meshes scene) + Z.of_nat count
    /\ meshRefIndices this' = meshRefIndices this ++ mesh_refs (Num (meshes scene)) count
    /\ children this' = children this.
Proof.
  unfold CreateAssimpMeshesFromMeshData. intros H.
  destruct (group_sections _ _ _ _) as [m|]; simpl in H; [|discriminate].
  eexists. exact (create_meshes_refs _ _ _ _ _ H).
Qed.

(** The build of a subtree without mesh references: the meshes it adds to
    the pool are referred to by its nodes in build order. *)
Definition builds_in_order (root : FAssimpNode) (param : FRuntimeMeshExportParam)
    (this : FAssimpNode) : Prop :=
  forall self scene scene' this',
    refs_build_order this = [] ->
    ProcessGatheredData_Internal root param this self scene = Some (scene', this') ->
    exists count,
      Num (meshes scene') = Num (meshes scene) + Z.of_nat count
      /\ refs_build_order this' = mesh_refs (Num (meshes scene)) count
      /\ (forall s, ProcessGatheredData_order this' s = ProcessGatheredData_order this s).

Lemma concat_nil_Forall {A : Type} (ls : list (list A)) :
  concat ls = [] -> Forall (fun l => l = []) ls.
Proof.
  induction ls as [|l ls IH]; simpl; intros H; [constructor|].
  apply app_eq_nil in H as [-> H]. constructor; [reflexivity|exact (IH H)].
Qed.

Lemma process_children_in_order root param self cs :
  Forall (builds_in_order root param) cs ->
  Forall (fun c => refs_build_order c = []) cs ->
  forall i scene scene' cs',
    process_children root param self cs i scene = Some (scene', cs') ->
    exists count,
      Num (meshes scene') = Num (meshes scene) + Z.of_nat count
      /\ concat (rev (map refs_build_order cs')) = mesh_refs (Num (meshes scene)) count
      /\ Forall2 (fun c' c => forall s,
                    ProcessGatheredData_order c' s = ProcessGatheredData_order c s)
                 cs' cs.
Proof.
  induction 1 as [|c cs Hc _ IH]; intros Hnone i scene scene' cs' H;
    cbn [process_children] in H.
  - injection H as <- <-. exists 0%nat. simpl. split; [lia|]. split; constructor.
  - inversion Hnone as [|? ? Hnc Hncs]; subst.
    fold (process_children root param self) in H.
    destruct (process_children root param self cs (S i) scene) as [[s1 later]|] eqn:Hlater;
      [|discriminate].
    destruct (ProcessGatheredData_Internal root param c (i :: self) s1)
      as [[s2 c2]|] eqn:Hchild; [|discriminate].
    injection H as <- <-.
    destruct (IH Hncs _ _ _ _ Hlater) as (k1 & Hn1 & Hr1 & Hs1).
    destruct (Hc _ _ _ _ Hnc Hchild) as (k2 & Hn2 & Hr2 & Hs2).
    exists (k1 + k2)%nat. split; [lia|]. split.
    + simpl. rewrite concat_app. simpl. rewrite app_nil_r, Hr1, Hr2, Hn1.
      symmetry. apply mesh_refs_app.
    + constructor; assumption.
Qed.

Lemma order_children_same (cs' cs : list FAssimpNode) :
  Forall2 (fun c' c => forall s,
             ProcessGatheredData_order c' s = ProcessGatheredData_order c s) cs' cs ->
  forall g : nat -> NodePtr,
    imap (fun i c => ProcessGatheredData_order c (g i)) cs'
    = imap (fun i c => ProcessGatheredData_order c (g i)) cs.
Proof.
  induction 1 as [|c' c cs' cs Hc _ IH]; intros g; simpl; [reflexivity|].
  rewrite Hc. f_equal. exact (IH (g ∘ S)).
Qed.

Lemma refs_build_order_nil this :
  refs_build_order this = [] ->
  meshRefIndices this = []
  /\ Forall (fun c => refs_build_order c = []) (children this).
Proof.
  rewrite refs_build_order_unfold. intros H.
  apply app_eq_nil in H as [Hrefs Hcs]. split; [exact Hrefs|].
  apply concat_nil_Forall in Hcs.
  apply List.Forall_rev in Hcs. rewrite rev_involutive in Hcs.
  rewrite Forall_forall in Hcs. apply Forall_forall. intros c Hc.
  apply Hcs. apply list_elem_of_fmap. exists c. split; [reflexivity|exact Hc].
Qed.

Lemma ProcessGatheredData_Internal_in_order root param :
  forall this, builds_in_order root param this.
Proof.
  induction this as [this IH] using FAssimpNode_induction.
  intros self scene scene' this' Hnone H.
  destruct (refs_build_order_nil this Hnone) as [Hrefs Hchildren].
  rewrite ProcessGatheredData_Internal_unfold in H.
  destruct (GetHierarchicalName root self) as [hname|]; [|discriminate].
  destruct (CreateAssimpMeshesFromMeshData scene this param) as [[s1 created]|] eqn:Hcreate;
    [|discriminate].
  destruct (CreateAssimpMeshesFromMeshData_refs _ _ _ _ _ Hcreate)
    as (k0 & Hn0 & Hr0 & Hc0).
  cbv zeta in H.
  set (s2 := WriteToLogWithNewLine s1 _) in H.
  assert (Hm2 : meshes s2 = meshes s1) by apply WriteToLogWithNewLine_frame.
  destruct (process_children root param self (children this) 0%nat s2)
    as [[s3 processed]|] eqn:Hprocess; [|discriminate].
  destruct (process_children_in_order root param self (children this) IH Hchildren
              _ _ _ _ Hprocess) as (k1 & Hn1 & Hr1 & Hs1).
  assert (Hresult : meshes scene' = meshes s3 /\ this' = set_children created processed).
  { destruct ((Num (children (set_children created processed)) =? 0)
              && (Num (meshRefIndices (set_children created processed)) =? 0));
      injection H as <- <-; split; try reflexivity.
    apply WriteToLogWithNewLine_frame. }
  destruct Hresult as [Hm3 ->]. clear H.
  exists (k0 + k1)%nat. unfold Num in *. rewrite Hm3.
  split; [rewrite Hm2 in Hn1; lia|]. split.
  - rewrite refs_build_order_unfold. simpl. rewrite Hr0, Hrefs, Hr1, Hm2. simpl.
    unfold Num. rewrite Hn0. symmetry. apply mesh_refs_app.
  - intros s. rewrite !ProcessGatheredData_order_preorder. simpl.
    rewrite (order_children_same _ _ Hs1 (fun i => i :: s)). reflexivity.
Qed.

(** The build phase on a tree without mesh references: reading the mesh
    references of the tree it leaves, node by node in the order of
    [ProcessGatheredData_order], gives the indices of the meshes it added
    in the order of their creation. *)
Lemma ProcessGatheredData_Recursive_in_order scene param scene' :
  refs_build_order (rootNode scene) = [] ->
  ProcessGatheredData_Recursive scene param = Some scene' ->
  exists count,
    Num (meshes scene') = Num (meshes scene) + Z.of_nat count
    /\ refs_along (rootNode scene') (ProcessGatheredData_order (rootNode scene) [])
       = mesh_refs (Num (meshes scene)) count.
Proof.
  intros Hnone. unfold ProcessGatheredData_Recursive.
  set (s0 := WriteToLogWithNewLine scene _).
  destruct (WriteToLogWithNewLine_frame scene "Begin processing gathered data.")
    as (Hr0 & _ & _ & Hm0 & _).
  fold s0 in Hr0, Hm0.
  destruct (ProcessGatheredData_Internal (rootNode s0) param (rootNode s0) [] s0)
    as [[s1 root1]|] eqn:Hbuild; simpl; [|discriminate].
  intros H. injection H as <-.
  rewrite <- Hr0 in Hnone.
  destruct (ProcessGatheredData_Internal_in_order _ _ _ _ _ _ _ Hnone Hbuild)
    as (count & Hn & Hrefs & Hsame).
  exists count.
  destruct (WriteToLogWithNewLine_frame (set_rootNode s1 root1)
              (Printf "End processing gathered data. Duration: %.3fs" [arg_seconds]))
    as (Hr2 & _ & _ & Hm2 & _).
  rewrite Hr2, Hm2. simpl. rewrite <- Hm0. split; [exact Hn|].
  rewrite <- Hrefs, <- Hr0, <- Hsame.
  apply refs_along_build_order. reflexivity.
Qed.

(** Two scenes with the same meshes and materials. *)
Definition pools_eq (s1 s2 : FAssimpScene) : Prop :=
  meshes s1 = meshes s2
  /\ materials s1 = materials s2
  /\ uniqueMaterials s1 = uniqueMaterials s2.

Lemma pools_eq_log s1 s2 text1 text2 :
  pools_eq s1 s2 ->
  pools_eq (WriteToLogWithNewLine s1 text1) (WriteToLogWithNewLine s2 text2).
Proof.
  intros (Hm & Hmat & Hu). unfold pools_eq.
  destruct (WriteToLogWithNewLine_frame s1 text1) as (_ & _ & _ & -> & -> & ->).
  destruct (WriteToLogWithNewLine_frame s2 text2) as (_ & _ & _ & -> & -> & ->).
  split; [exact Hm|]. split; [exact Hmat|exact Hu].
Qed.

Lemma pools_eq_logged s text : pools_eq (WriteToLogWithNewLine s text) s.
Proof.
  unfold pools_eq.
  destruct (WriteToLogWithNewLine_frame s text) as (_ & _ & _ & -> & -> & ->).
  repeat split.
Qed.

Lemma pools_eq_sym s1 s2 : pools_eq s1 s2 -> pools_eq s2 s1.
Proof. intros (Hm & Hmat & Hu). repeat split; symmetry; assumption. Qed.

Lemma pools_eq_trans s1 s2 s3 : pools_eq s1 s2 -> pools_eq s2 s3 -> pools_eq s1 s3.
Proof.
  intros (Hm & Hmat & Hu) (Hm' & Hmat' & Hu').
  repeat split; etransitivity; eassumption.
Qed.

(** Every pointer of the cache leads to a node of the tree. *)
Definition cache_valid (scene : FAssimpScene) : Prop :=
  Forall (fun p => is_Some (deref (rootNode scene) p)) (allNodesHelper scene).

(** The two phases of [PrepareSceneForExport], one after the other: the
    gather phase goes through the old cache and then through the pre-order
    of the tree, the build phase works on the gathered tree. *)
Lemma PrepareSceneForExport_phases scene param :
  fresh (rootNode scene) ->
  cache_valid scene ->
  Num (materials scene) = Num (uniqueMaterials scene) ->
  let cache := allNodesHelper scene ++ GetNodesRecursive (rootNode scene) [] [] in
  exists gathered built,
    gather_all_nodes
      (set_allNodesHelper
         (WriteToLogWithNewLine (set_numObjectsSkipped scene 0) "Begin gather mesh data.")
         cache)
      cache param = Some gathered
    /\ rootNode gathered = gather_tree param (rootNode scene)
    /\ allNodesHelper gathered = cache
    /\ pools_eq gathered scene
    /\ numObjectsSkipped gathered
       = Num (List.filter (source_skipped param) (tree_sources (rootNode scene)))
    /\ ProcessGatheredData_Recursive
         (WriteToLogWithNewLine gathered
            (Printf "End gather mesh data. Duration: %.3fs" [arg_seconds])) param
       = Some built
    /\ numObjectsSkipped built = numObjectsSkipped gathered
    /\ allNodesHelper built = cache
    /\ PrepareSceneForExport scene param
       = Some (SetDataAndPtrsToParentClass_EntireScene built param).
Proof.
  intros Hfresh Hvalid Hlen cache. unfold PrepareSceneForExport.
  set (s1 := WriteToLogWithNewLine (set_numObjectsSkipped scene 0) _).
  destruct (WriteToLogWithNewLine_frame (set_numObjectsSkipped scene 0)
              "Begin gather mesh data.") as (Hr1 & Hk1 & Ha1 & Hm1 & Hmat1 & Hu1).
  fold s1 in Hr1, Hk1, Ha1, Hm1, Hmat1, Hu1. simpl in Hr1, Hk1, Ha1, Hm1, Hmat1, Hu1.
  rewrite Ha1, Hr1, GetNodesRecursive_acc. fold cache.
  cbn [allNodesHelper set_allNodesHelper].
  set (s2 := set_allNodesHelper s1 cache).
  destruct (gather_all_nodes_cached param s2 (allNodesHelper scene)) as (s3 & Hg & He).
  { subst s2. simpl. rewrite Hr1. exact Hfresh. }
  { subst s2. simpl. rewrite Hr1. exact Hvalid. }
  assert (Hroot2 : rootNode s2 = rootNode scene) by (subst s2; simpl; exact Hr1).
  rewrite Hroot2 in Hg, He. fold cache in Hg.
  exists s3. rewrite Hg. simpl.
  assert (Hroot3 : rootNode s3 = gather_tree param (rootNode scene)).
  { exact (scene_gathered_rootNode _ _ _ _ He). }
  assert (Hframe3 : allNodesHelper s3 = cache /\ pools_eq s3 scene
                    /\ numObjectsSkipped s3
                       = Num (List.filter (source_skipped param)
                                (tree_sources (rootNode scene)))).
  { unfold scene_gathered in He. rewrite He. subst s2. unfold pools_eq. simpl.
    rewrite Hm1, Hmat1, Hu1, Hk1. repeat split. }
  destruct Hframe3 as (Ha3 & Hp3 & Hk3).
  set (s4 := WriteToLogWithNewLine s3 _).
  destruct (WriteToLogWithNewLine_frame s3
              (Printf "End gather mesh data. Duration: %.3fs" [arg_seconds]))
    as (Hr4 & Hk4 & Ha4 & _ & Hmat4 & Hu4).
  fold s4 in Hr4, Hk4, Ha4, Hmat4, Hu4.
  destruct (ProcessGatheredData_Recursive_spec s4 param) as (s5 & Hrec & Hk5 & Ha5 & _).
  { rewrite Hr4, Hroot3. apply tree_valid_gather_tree. exact Hfresh. }
  { rewrite Hmat4, Hu4. destruct Hp3 as (_ & -> & ->). exact Hlen. }
  exists s5. rewrite Hrec. simpl.
  split; [reflexivity|]. split; [exact Hroot3|]. split; [exact Ha3|].
  split; [exact Hp3|]. split; [exact Hk3|]. split; [reflexivity|].
  split; [rewrite Hk5; exact Hk4|]. split; [rewrite Ha5, Ha4; exact Ha3|reflexivity].
Qed.

Lemma PrepareSceneForExport_spec scene param :
  fresh (rootNode scene) ->
  cache_valid scene ->
  Num (materials scene) = Num (uniqueMaterials scene) ->
  exists prepared,
    PrepareSceneForExport scene param = Some prepared
    /\ numObjectsSkipped prepared
       = Num (List.filter (source_skipped param) (tree_sources (rootNode scene))).
Proof.
  intros Hfresh Hvalid Hlen.
  destruct (PrepareSceneForExport_phases scene param Hfresh Hvalid Hlen)
    as (gathered & built & _ & _ & _ & _ & Hk & _ & Hkb & _ & ->).
  eexists. split; [reflexivity|]. simpl. rewrite Hkb. exact Hk.
Qed.

Lemma PostExportWork_result this result :
  result_numObjectsSkipped (snd (fst (PostExportWork this result)))
  = numObjectsSkipped (scene this)
  /\ bIsExporting (fst (fst (PostExportWork this result))) = false
  /\ meshes (scene (fst (fst (PostExportWork this result)))) = []
  /\ materials (scene (fst (fst (PostExportWork this result)))) = []
  /\ uniqueMaterials (scene (fst (fst (PostExportWork this result)))) = []
  /\ rootNode (scene (fst (fst (PostExportWork this result))))
     = ClearExportData (rootNode (scene this))
  /\ allNodesHelper (scene (fst (fst (PostExportWork this result))))
     = allNodesHelper (scene this).
Proof.
  unfold PostExportWork.
  destruct (negb (String.eqb (aiExporterError this) EmptyString));
    destruct (aiExporterReturn this); simpl;
    repeat match goal with
           | |- context [if ?b then _ else _] => destruct b; simpl
           | |- context [match exportLog ?s with _ => _ end] =>
               destruct (exportLog s); simpl
           end;
    repeat split.
Qed.

(** What the log leaves as it is. *)
Lemma fold_WriteToLog_frame (l : list FString) :
  forall s,
    rootNode (fold_left WriteToLogWithNewLine l s) = rootNode s
    /\ allNodesHelper (fold_left WriteToLogWithNewLine l s) = allNodesHelper s.
Proof.
  induction l as [|x l IH]; intros s; simpl; [split; reflexivity|].
  destruct (IH (WriteToLogWithNewLine s x)) as [-> ->].
  destruct (WriteToLogWithNewLine_frame s x) as (-> & _ & -> & _).
  split; reflexivity.
Qed.

Lemma log_scene_counts_frame s :
  rootNode (log_scene_counts s) = rootNode s
  /\ allNodesHelper (log_scene_counts s) = allNodesHelper s.
Proof.
  unfold log_scene_counts.
  repeat match goal with
         | |- context [WriteToLogWithNewLine ?x ?t] =>
             destruct (WriteToLogWithNewLine_frame x t) as (-> & _ & -> & _)
         end.
  split; reflexivity.
Qed.

Lemma log_scene_counts_numObjectsSkipped s :
  numObjectsSkipped (log_scene_counts s) = numObjectsSkipped s.
Proof.
  unfold log_scene_counts. rewrite !WriteToLogWithNewLine_numObjectsSkipped. reflexivity.
Qed.

(** The scene [PreExportWork] hands to the export: the scene of the
    exporter with the log of the result attached. *)
Definition logging_scene (this : URuntimeMeshExporter) (param : FRuntimeMeshExportParam)
  : FAssimpScene :=
  set_exportLog (set_bLogToUnreal (scene this) (bLogToUnreal_param param))
    (Some EmptyString).

Lemma Export_idle_spec this param result :
  bIsExporting this = false ->
  bOverrideExisting param = true \/ FileExists (file param) = false ->
  CreateDirectoryTree (FPaths_GetPath (file param)) = true ->
  fresh (rootNode (scene this)) ->
  cache_valid (scene this) ->
  Num (materials (scene this)) = Num (uniqueMaterials (scene this)) ->
  exists this' result' prepared,
    Export this param result = Some (this', result')
    /\ result_numObjectsSkipped result'
       = Num (List.filter (source_skipped param) (tree_sources (rootNode (scene this))))
    /\ bIsExporting this' = false
    /\ PrepareSceneForExport (logging_scene this param) param = Some prepared
    /\ meshes (scene this') = []
    /\ materials (scene this') = []
    /\ uniqueMaterials (scene this') = []
    /\ rootNode (scene this') = ClearExportData (rootNode prepared)
    /\ allNodesHelper (scene this') = allNodesHelper prepared.
Proof.
  intros Hidle Hfile Hdir Hfresh Hnodes Hlen.
  unfold Export, PreExportWork. rewrite Hidle.
  replace (negb (bOverrideExisting param) && FileExists (file param)) with false
    by (destruct Hfile as [-> | ->]; [reflexivity|rewrite andb_false_r; reflexivity]).
  rewrite Hdir. cbn [negb]. cbv zeta. cbn [negb scene set_scene set_codec_result].
  change (set_exportLog (set_bLogToUnreal (scene this) (bLogToUnreal_param param)) _)
    with (logging_scene this param).
  destruct (PrepareSceneForExport_spec (logging_scene this param) param)
    as (prepared & Hprep & Hcount).
  { exact Hfresh. }
  { exact Hnodes. }
  { exact Hlen. }
  rewrite Hprep.
  match goal with
  | |- context [Some prepared ≫= ?f] => change (Some prepared ≫= f) with (f prepared)
  end.
  cbv beta zeta.
  set (run := Exporter_Export _ _ _).
  set (logged_scene := fold_left WriteToLogWithNewLine (logged run)
                         (WriteToLogWithNewLine (log_scene_counts prepared)
                            "Begin export scene.")).
  assert (Hk : numObjectsSkipped logged_scene = numObjectsSkipped prepared).
  { subst logged_scene. rewrite (fold_WriteToLog_numObjectsSkipped (fun _ x => x)).
    rewrite WriteToLogWithNewLine_numObjectsSkipped.
    apply log_scene_counts_numObjectsSkipped. }
  assert (Hframe : forall text,
             rootNode (WriteToLogWithNewLine logged_scene text) = rootNode prepared
             /\ allNodesHelper (WriteToLogWithNewLine logged_scene text)
                = allNodesHelper prepared).
  { intros text.
    destruct (WriteToLogWithNewLine_frame logged_scene text) as (-> & _ & -> & _).
    subst logged_scene.
    destruct (fold_WriteToLog_frame (logged run)
                (WriteToLogWithNewLine (log_scene_counts prepared) "Begin export scene."))
      as [-> ->].
    destruct (WriteToLogWithNewLine_frame (log_scene_counts prepared)
                "Begin export scene.") as (-> & _ & -> & _).
    apply log_scene_counts_frame. }
  simpl in Hcount.
  destruct (outcome run) as [ret|what].
  - match goal with
    | |- context [PostExportWork ?e ?r] =>
        pose proof (PostExportWork_result e r)
          as (Hpost & Hbusy & Hm & Hmat & Hu & Hroot & Hcache);
        destruct (PostExportWork e r) as [[e' r'] ok]
    end.
    cbn [fst snd scene set_scene set_codec_result] in Hpost, Hbusy, Hm, Hmat, Hu,
      Hroot, Hcache.
    eexists _, _, prepared. split; [reflexivity|]. split.
    { cbn [result_numObjectsSkipped set_bSuccess].
      rewrite Hpost, WriteToLogWithNewLine_numObjectsSkipped, Hk. exact Hcount. }
    split; [exact Hbusy|]. split; [reflexivity|].
    split; [exact Hm|]. split; [exact Hmat|]. split; [exact Hu|].
    rewrite Hroot, Hcache. destruct (Hframe (Printf "End export scene. Duration: %.3fs"
                                                   [arg_seconds])) as [-> ->].
    split; reflexivity.
  - match goal with
    | |- context [PostExportWork ?e ?r] =>
        pose proof (PostExportWork_result e r)
          as (Hpost & Hbusy & Hm & Hmat & Hu & Hroot & Hcache);
        destruct (PostExportWork e r) as [[e' r'] ok]
    end.
    cbn [fst snd scene set_scene set_codec_result] in Hpost, Hbusy, Hm, Hmat, Hu,
      Hroot, Hcache.
    eexists _, _, prepared. split; [reflexivity|]. split.
    { cbn [result_numObjectsSkipped set_bSuccess].
      rewrite Hpost, WriteToLogWithNewLine_numObjectsSkipped, Hk. exact Hcount. }
    split; [exact Hbusy|]. split; [reflexivity|].
    split; [exact Hm|]. split; [exact Hmat|]. split; [exact Hu|].
    rewrite Hroot, Hcache.
    destruct (Hframe (Printf "Exception thrown during export: %s" [arg_s what]))
      as [-> ->].
    split; reflexivity.
Qed.

(** ** The skip accounting of an export *)

Lemma filter_Permutation_bool {A : Type} (f : A -> bool) (l k : list A) :
  Permutation l k -> Permutation (List.filter f l) (List.filter f k).
Proof.
  induction 1 as [|x l k _ IH|x y l|l k m _ IH1 _ IH2]; simpl.
  - reflexivity.
  - destruct (f x); [apply perm_skip|]; exact IH.
  - destruct (f x), (f y); try reflexivity. apply perm_swap.
  - etransitivity; eassumption.
Qed.

(** A source that refuses, and a source that returns no section. *)
Definition refuses (param : FRuntimeMeshExportParam) (object : IMeshExportable) : Prop :=
  fst (GetMeshData object (lod param) (bSkipLodNotValid param)) = false.

Definition returns_no_sections (param : FRuntimeMeshExportParam)
    (object : IMeshExportable) : Prop :=
  GetMeshData object (lod param) (bSkipLodNotValid param) = (true, []).

Lemma three_sources param (l : list IMeshExportable) o1 o2 o3 :
  Permutation l [o1; o2; o3] ->
  refuses param o1 -> returns_no_sections param o2 -> source_skipped param o3 = false ->
  Num (List.filter (source_skipped param) l) = 2
  /\ map (source_sections param)
         (List.filter (fun o => negb (source_skipped param o)) l)
     = [source_sections param o3].
Proof.
  intros Hperm H1 H2 H3.
  assert (Hs1 : source_skipped param o1 = true).
  { unfold source_skipped, refuses in *.
    destruct (GetMeshData o1 (lod param) (bSkipLodNotValid param)) as [a secs].
    simpl in H1. subst a. reflexivity. }
  assert (Hs2 : source_skipped param o2 = true).
  { unfold source_skipped, returns_no_sections in *. rewrite H2. reflexivity. }
  split.
  - pose proof (filter_Permutation_bool (source_skipped param) _ _ Hperm) as Hp.
    apply Permutation_length in Hp. unfold Num. rewrite Hp. simpl.
    rewrite Hs1, Hs2, H3. reflexivity.
  - pose proof (filter_Permutation_bool (fun o => negb (source_skipped param o))
                  _ _ Hperm) as Hp.
    simpl in Hp. rewrite Hs1, Hs2, H3 in Hp. simpl in Hp.
    symmetry in Hp. apply Permutation_length_1_inv in Hp. rewrite Hp. reflexivity.
Qed.

Lemma create_mesh_reads_scene st1 st2 section :
  fst st1 = fst st2 ->
  option_map fst (create_mesh st1 section) = option_map fst (create_mesh st2 section).
Proof.
  destruct st1 as [s1 n1], st2 as [s2 n2]. simpl. intros ->.
  unfold create_mesh, mbind, option_bind. cbv zeta.
  repeat case_match; simplify_eq; reflexivity.
Qed.

Lemma create_meshes_reads_scene sections :
  forall st1 st2,
    fst st1 = fst st2 ->
    option_map fst (create_meshes st1 sections)
    = option_map fst (create_meshes st2 sections).
Proof.
  induction sections as [|section rest IH]; intros st1 st2 H; cbn [create_meshes].
  - simpl. rewrite H. reflexivity.
  - pose proof (create_mesh_reads_scene st1 st2 section H) as Hstep.
    destruct (create_mesh st1 section) as [st1'|], (create_mesh st2 section) as [st2'|];
      simpl in Hstep; try discriminate; [|reflexivity].
    apply IH. injection Hstep as ->. reflexivity.
Qed.

Lemma CreateAssimpMeshesFromMeshData_reads_gathered scene n1 n2 param :
  worldTransform n1 = worldTransform n2 ->
  gatheredExportables n1 = gatheredExportables n2 ->
  option_map fst (CreateAssimpMeshesFromMeshData scene n1 param)
  = option_map fst (CreateAssimpMeshesFromMeshData scene n2 param).
Proof.
  intros Hw Hg. unfold CreateAssimpMeshesFromMeshData. rewrite Hw, Hg.
  destruct (group_sections _ _ _ _) as [m|]; simpl; [|reflexivity].
  apply create_meshes_reads_scene. reflexivity.
Qed.

(** ** Skipped sources leave no trace in the pools *)

(** Two trees of the same shape with the same world transforms and the same
    gathered sections, node by node. *)
Local Unset Elimination Schemes.
Inductive same_gathered : FAssimpNode -> FAssimpNode -> Prop :=
| same_gathered_node a b :
    worldTransform a = worldTransform b ->
    gatheredExportables a = gatheredExportables b ->
    Forall2 same_gathered (children a) (children b) ->
    same_gathered a b.
Local Set Elimination Schemes.

(** The tree with the skipped sources taken off the lists of registered
    sources. *)
Fixpoint drop_skipped (param : FRuntimeMeshExportParam) (n : FAssimpNode) : FAssimpNode :=
  set_children
    (set_exportObjects n
       (List.filter (fun o => negb (source_skipped param o)) (exportObjects n)))
    (map (drop_skipped param) (children n)).

Lemma create_mesh_pools s1 n1 s2 n2 section r1 r2 :
  pools_eq s1 s2 ->
  create_mesh (s1, n1) section = Some r1 ->
  create_mesh (s2, n2) section = Some r2 ->
  pools_eq (fst r1) (fst r2).
Proof.
  intros (Hm & Hmat & Hu). unfold create_mesh, mbind, option_bind. cbv zeta.
  rewrite Hm, Hmat, Hu. intros H1 H2.
  repeat case_match; simplify_eq; simpl; repeat split.
Qed.

Lemma create_meshes_pools sections :
  forall s1 n1 s2 n2 r1 r2,
    pools_eq s1 s2 ->
    create_meshes (s1, n1) sections = Some r1 ->
    create_meshes (s2, n2) sections = Some r2 ->
    pools_eq (fst r1) (fst r2).
Proof.
  induction sections as [|section rest IH]; intros s1 n1 s2 n2 r1 r2 Hpools H1 H2;
    cbn [create_meshes] in H1, H2.
  - injection H1 as <-. injection H2 as <-. exact Hpools.
  - destruct (create_mesh (s1, n1) section) as [[a1 b1]|] eqn:Hone1; [|discriminate].
    destruct (create_mesh (s2, n2) section) as [[a2 b2]|] eqn:Hone2; [|discriminate].
    exact (IH _ _ _ _ _ _ (create_mesh_pools _ _ _ _ _ _ _ Hpools Hone1 Hone2) H1 H2).
Qed.

Lemma CreateAssimpMeshesFromMeshData_pools s1 n1 s2 n2 param r1 r2 :
  worldTransform n1 = worldTransform n2 ->
  gatheredExportables n1 = gatheredExportables n2 ->
  pools_eq s1 s2 ->
  CreateAssimpMeshesFromMeshData s1 n1 param = Some r1 ->
  CreateAssimpMeshesFromMeshData s2 n2 param = Some r2 ->
  pools_eq (fst r1) (fst r2).
Proof.
  unfold CreateAssimpMeshesFromMeshData. intros -> -> Hpools.
  destruct (group_sections _ _ _ _) as [m|]; simpl; [|discriminate].
  apply create_meshes_pools. exact Hpools.
Qed.

(** Building two subtrees with the same gathered sections on scenes with
    the same pools leaves the same pools. *)
Definition builds_same_pools (param : FRuntimeMeshExportParam) (a : FAssimpNode) : Prop :=
  forall b root1 root2 self1 self2 s1 s2 r1 r2,
    same_gathered a b ->
    pools_eq s1 s2 ->
    ProcessGatheredData_Internal root1 param a self1 s1 = Some r1 ->
    ProcessGatheredData_Internal root2 param b self2 s2 = Some r2 ->
    pools_eq (fst r1) (fst r2).

Lemma process_children_pools param root1 root2 self1 self2 cs1 :
  Forall (builds_same_pools param) cs1 ->
  forall cs2 i1 i2 s1 s2 r1 r2,
    Forall2 same_gathered cs1 cs2 ->
    pools_eq s1 s2 ->
    process_children root1 param self1 cs1 i1 s1 = Some r1 ->
    process_children root2 param self2 cs2 i2 s2 = Some r2 ->
    pools_eq (fst r1) (fst r2).
Proof.
  induction 1 as [|c1 cs1 Hc _ IH]; intros cs2 i1 i2 s1 s2 r1 r2 Hsame Hpools H1 H2;
    inversion Hsame as [|? c2 ? later2 Hc12 Hlater]; subst;
    cbn [process_children] in H1, H2.
  - injection H1 as <-. injection H2 as <-. exact Hpools.
  - fold (process_children root1 param self1) in H1.
    fold (process_children root2 param self2) in H2.
    destruct (process_children root1 param self1 cs1 (S i1) s1) as [[a1 l1]|] eqn:Hl1;
      [|discriminate].
    destruct (process_children root2 param self2 later2 (S i2) s2) as [[a2 l2]|] eqn:Hl2;
      [|discriminate].
    pose proof (IH _ _ _ _ _ _ _ Hlater Hpools Hl1 Hl2) as Hp. simpl in Hp.
    destruct (ProcessGatheredData_Internal root1 param c1 (i1 :: self1) a1)
      as [[b1 d1]|] eqn:Hb1; [|discriminate].
    destruct (ProcessGatheredData_Internal root2 param c2 (i2 :: self2) a2)
      as [[b2 d2]|] eqn:Hb2; [|discriminate].
    injection H1 as <-. injection H2 as <-. simpl.
    exact (Hc _ _ _ _ _ _ _ _ _ Hc12 Hp Hb1 Hb2).
Qed.

Lemma ProcessGatheredData_Internal_pools param :
  forall a, builds_same_pools param a.
Proof.
  induction a as [a IH] using FAssimpNode_induction.
  intros b root1 root2 self1 self2 s1 s2 r1 r2 Hsame Hpools H1 H2.
  inversion Hsame as [? ? Hw Hg Hchildren]; subst.
  rewrite ProcessGatheredData_Internal_unfold in H1, H2.
  destruct (GetHierarchicalName root1 self1) as [name1|]; [|discriminate].
  destruct (GetHierarchicalName root2 self2) as [name2|]; [|discriminate].
  destruct (CreateAssimpMeshesFromMeshData s1 a param) as [[a1 c1]|] eqn:Hc1;
    [|discriminate].
  destruct (CreateAssimpMeshesFromMeshData s2 b param) as [[a2 c2]|] eqn:Hc2;
    [|discriminate].
  pose proof (CreateAssimpMeshesFromMeshData_pools _ _ _ _ _ _ _ Hw Hg Hpools Hc1 Hc2)
    as Hp1.
  simpl in Hp1. cbv zeta in H1, H2.
  match type of H1 with
  | context [process_children _ _ _ _ _ ?s] =>
      destruct (process_children root1 param self1 (children a) 0%nat s)
        as [[b1 l1]|] eqn:Hl1; [|discriminate]
  end.
  match type of H2 with
  | context [process_children _ _ _ _ _ ?s] =>
      destruct (process_children root2 param self2 (children b) 0%nat s)
        as [[b2 l2]|] eqn:Hl2; [|discriminate]
  end.
  pose proof (process_children_pools param _ _ _ _ _ IH _ _ _ _ _ _ _ Hchildren
                (pools_eq_log _ _ _ _ Hp1) Hl1 Hl2) as Hp2.
  simpl in Hp2.
  injection H1 as <-. injection H2 as <-. simpl.
  assert (Hleft : forall (c : bool) text, pools_eq (if c then WriteToLogWithNewLine b1 text else b1) b1).
  { intros [|] text; [apply pools_eq_logged|repeat split]. }
  assert (Hright : forall (c : bool) text, pools_eq b2 (if c then WriteToLogWithNewLine b2 text else b2)).
  { intros [|] text; [apply pools_eq_sym, pools_eq_logged|repeat split]. }
  exact (pools_eq_trans _ _ _ (Hleft _ _) (pools_eq_trans _ _ _ Hp2 (Hright _ _))).
Qed.

Lemma ProcessGatheredData_Recursive_pools s1 s2 param b1 b2 :
  same_gathered (rootNode s1) (rootNode s2) ->
  pools_eq s1 s2 ->
  ProcessGatheredData_Recursive s1 param = Some b1 ->
  ProcessGatheredData_Recursive s2 param = Some b2 ->
  pools_eq b1 b2.
Proof.
  intros Hsame Hpools. unfold ProcessGatheredData_Recursive.
  set (a1 := WriteToLogWithNewLine s1 _). set (a2 := WriteToLogWithNewLine s2 _).
  assert (Hr1 : rootNode a1 = rootNode s1) by apply WriteToLogWithNewLine_frame.
  assert (Hr2 : rootNode a2 = rootNode s2) by apply WriteToLogWithNewLine_frame.
  destruct (ProcessGatheredData_Internal (rootNode a1) param (rootNode a1) [] a1)
    as [[c1 root1]|] eqn:H1; simpl; [|discriminate].
  destruct (ProcessGatheredData_Internal (rootNode a2) param (rootNode a2) [] a2)
    as [[c2 root2]|] eqn:H2; simpl; [|discriminate].
  intros E1 E2. injection E1 as <-. injection E2 as <-.
  assert (Hp : pools_eq c1 c2).
  { refine (ProcessGatheredData_Internal_pools param _ _ _ _ _ _ _ _ _ _ _ _ H1 H2).
    - rewrite Hr1, Hr2. exact Hsame.
    - apply pools_eq_log. exact Hpools. }
  apply (pools_eq_trans _ (set_rootNode c1 root1)); [apply pools_eq_logged|].
  apply (pools_eq_trans _ (set_rootNode c2 root2));
    [|apply pools_eq_sym, pools_eq_logged].
  exact Hp.
Qed.

Lemma drop_skipped_unfold param n :
  drop_skipped param n
  = set_children
      (set_exportObjects n
         (List.filter (fun o => negb (source_skipped param o)) (exportObjects n)))
      (map (drop_skipped param) (children n)).
Proof. destruct n. reflexivity. Qed.

Lemma fresh_drop_skipped param :
  forall n, fresh n -> fresh (drop_skipped param n).
Proof.
  induction n as [n IH] using FAssimpNode_induction. intros Hfresh.
  inversion Hfresh as [? Hidx Hgath Hfc]; subst.
  rewrite drop_skipped_unfold. constructor; [exact Hidx|exact Hgath|].
  rewrite set_children_children. apply Forall_fmap.
  clear Hidx Hgath Hfresh.
  induction (children n) as [|c cs IHcs]; [constructor|].
  inversion IH as [|? ? Hc Hcs]; inversion Hfc as [|? ? Hfc1 Hfcs]; subst.
  constructor; [exact (Hc Hfc1)|exact (IHcs Hcs Hfcs)].
Qed.

Lemma filter_accepted_kept param (l : list IMeshExportable) :
  List.filter (source_accepted param)
    (List.filter (fun o => negb (source_skipped param o)) l)
  = List.filter (source_accepted param) l.
Proof.
  induction l as [|o l IH]; simpl; [reflexivity|].
  rewrite source_skipped_accepted, negb_involutive.
  destruct (source_accepted param o) eqn:Ho; simpl; rewrite ?Ho, IH; reflexivity.
Qed.

Lemma filter_skipped_kept param (l : list IMeshExportable) :
  List.filter (source_skipped param)
    (List.filter (fun o => negb (source_skipped param o)) l)
  = [].
Proof.
  induction l as [|o l IH]; simpl; [reflexivity|].
  destruct (source_skipped param o) eqn:Ho; simpl; rewrite ?Ho; exact IH.
Qed.

(** The tree without the skipped sources has the remaining sources, in
    their order, and none of them is skipped. *)
Lemma tree_sources_drop_skipped param :
  forall n,
    tree_sources (drop_skipped param n)
    = List.filter (fun o => negb (source_skipped param o)) (tree_sources n).
Proof.
  induction n as [n IH] using FAssimpNode_induction.
  rewrite drop_skipped_unfold, (tree_sources_unfold (set_children _ _)),
    (tree_sources_unfold n), set_children_children.
  simpl. rewrite List.filter_app. f_equal.
  rewrite map_map. clear -IH.
  induction IH as [|c cs Hc _ IHcs]; simpl; [reflexivity|].
  rewrite List.filter_app, Hc, IHcs. reflexivity.
Qed.

Lemma gather_tree_drop_skipped param :
  forall n,
    same_gathered (gather_tree param n) (gather_tree param (drop_skipped param n)).
Proof.
  induction n as [n IH] using FAssimpNode_induction.
  rewrite drop_skipped_unfold, !gather_tree_unfold, !set_children_children.
  constructor.
  - rewrite !gathered_batch_spec. reflexivity.
  - rewrite !gathered_batch_spec. simpl. rewrite filter_accepted_kept. reflexivity.
  - rewrite !set_children_children, map_map. clear -IH.
    induction IH as [|c cs Hc _ IHcs]; simpl; constructor; assumption.
Qed.

Lemma node_at_drop_skipped param :
  forall path t,
    node_at (drop_skipped param t) path = drop_skipped param <$> node_at t path.
Proof.
  induction path as [|i path IH]; intros t; simpl; [reflexivity|].
  rewrite drop_skipped_unfold, set_children_children, list_lookup_fmap.
  destruct (children t !! i) as [c|]; simpl; [apply IH|reflexivity].
Qed.

Lemma cache_valid_drop_skipped param scene :
  cache_valid scene ->
  cache_valid (set_rootNode scene (drop_skipped param (rootNode scene))).
Proof.
  unfold cache_valid. simpl. intros H.
  eapply Forall_impl; [exact H|]. intros q [n Hn].
  unfold deref in *. rewrite node_at_drop_skipped, Hn. eexists. reflexivity.
Qed.

(** An export builds the pools that it builds when the skipped sources are
    not registered at all. *)
Lemma PrepareSceneForExport_without_skipped scene param :
  fresh (rootNode scene) ->
  cache_valid scene ->
  Num (materials scene) = Num (uniqueMaterials scene) ->
  exists prepared remaining,
    PrepareSceneForExport scene param = Some prepared
    /\ PrepareSceneForExport
         (set_rootNode scene (drop_skipped param (rootNode scene))) param
       = Some remaining
    /\ pools_eq prepared remaining
    /\ numObjectsSkipped prepared
       = Num (List.filter (source_skipped param) (tree_sources (rootNode scene)))
    /\ numObjectsSkipped remaining = 0.
Proof.
  intros Hfresh Hvalid Hlen.
  destruct (PrepareSceneForExport_phases scene param Hfresh Hvalid Hlen)
    as (g1 & b1 & _ & Hr1 & _ & Hp1 & Hk1 & Hb1 & Hkb1 & _ & ->).
  destruct (PrepareSceneForExport_phases
              (set_rootNode scene (drop_skipped param (rootNode scene))) param)
    as (g2 & b2 & _ & Hr2 & _ & Hp2 & Hk2 & Hb2 & Hkb2 & _ & ->).
  { simpl. apply fresh_drop_skipped. exact Hfresh. }
  { apply cache_valid_drop_skipped. exact Hvalid. }
  { exact Hlen. }
  simpl in Hr2, Hk2. rewrite tree_sources_drop_skipped, filter_skipped_kept in Hk2.
  eexists _, _. split; [reflexivity|]. split; [reflexivity|].
  assert (Hp : pools_eq b1 b2).
  { refine (ProcessGatheredData_Recursive_pools _ _ param _ _ _ _ Hb1 Hb2).
    - destruct (WriteToLogWithNewLine_frame g1
                  (Printf "End gather mesh data. Duration: %.3fs" [arg_seconds]))
        as (-> & _).
      destruct (WriteToLogWithNewLine_frame g2
                  (Printf "End gather mesh data. Duration: %.3fs" [arg_seconds]))
        as (-> & _).
      rewrite Hr1, Hr2. apply gather_tree_drop_skipped.
    - apply pools_eq_log. apply (pools_eq_trans _ scene); [exact Hp1|].
      apply pools_eq_sym. exact Hp2. }
  destruct Hp as (Hm & Hmat & Hu).
  split; [|split; [simpl; rewrite Hkb1; exact Hk1|simpl; rewrite Hkb2; exact Hk2]].
  unfold pools_eq. simpl. rewrite Hm, Hmat, Hu. repeat split.
Qed.

Lemma three_sources_remaining param (l : list IMeshExportable) o1 o2 o3 :
  Permutation l [o1; o2; o3] ->
  refuses param o1 -> returns_no_sections param o2 -> source_skipped param o3 = false ->
  List.filter (fun o => negb (source_skipped param o)) l = [o3].
Proof.
  intros Hperm H1 H2 H3.
  assert (Hs1 : source_skipped param o1 = true).
  { unfold source_skipped, refuses in *.
    destruct (GetMeshData o1 (lod param) (bSkipLodNotValid param)) as [a secs].
    simpl in H1. subst a. reflexivity. }
  assert (Hs2 : source_skipped param o2 = true).
  { unfold source_skipped, returns_no_sections in *. rewrite H2. reflexivity. }
  pose proof (filter_Permutation_bool (fun o => negb (source_skipped param o))
                _ _ Hperm) as Hp.
  simpl in Hp. rewrite Hs1, Hs2, H3 in Hp. simpl in Hp.
  symmetry in Hp. apply Permutation_length_1_inv in Hp. exact Hp.
Qed.

(** ** The states of an exporter between two exports *)

(** A tree without any trace of an export: nothing gathered, no mesh
    referred to. *)
Local Unset Elimination Schemes.
Inductive clean : FAssimpNode -> Prop :=
| clean_node n :
    indexGatherNext n = 0 -> gatheredExportables n = [] -> meshRefIndices n = [] ->
    Forall clean (children n) -> clean n.
Local Set Elimination Schemes.

(** The shape of a tree: every field but [children] reset. *)
Fixpoint skeleton (t : FAssimpNode) : FAssimpNode :=
  set_children (new_FAssimpNode NAME_None) (map skeleton (children t)).

Lemma skeleton_unfold t :
  skeleton t = set_children (new_FAssimpNode NAME_None) (map skeleton (children t)).
Proof. destruct t. reflexivity. Qed.

Lemma node_at_skeleton :
  forall path t, node_at (skeleton t) path = skeleton <$> node_at t path.
Proof.
  induction path as [|i path IH]; intros t; simpl; [reflexivity|].
  rewrite skeleton_unfold, set_children_children, list_lookup_fmap.
  destruct (children t !! i) as [c|]; simpl; [apply IH|reflexivity].
Qed.

Lemma skeleton_valid t t' path :
  skeleton t' = skeleton t -> is_Some (node_at t path) -> is_Some (node_at t' path).
Proof.
  intros Hs [n Hn].
  pose proof (node_at_skeleton path t') as H'. rewrite Hs, node_at_skeleton, Hn in H'.
  destruct (node_at t' path); [eexists; reflexivity|discriminate].
Qed.

Lemma skeleton_children t t' :
  map skeleton (children t') = map skeleton (children t) -> skeleton t' = skeleton t.
Proof. intros H. rewrite (skeleton_unfold t'), (skeleton_unfold t), H. reflexivity. Qed.

Lemma clean_fresh : forall t, clean t -> fresh t.
Proof.
  induction t as [t IH] using FAssimpNode_induction. intros Hclean.
  inversion Hclean as [? Hidx Hgath _ Hchildren]; subst.
  constructor; [exact Hidx|exact Hgath|].
  clear -IH Hchildren. induction IH as [|c cs Hc _ IHcs]; [constructor|].
  inversion Hchildren; subst. constructor; [apply Hc|apply IHcs]; assumption.
Qed.

Lemma clean_refs : forall t, clean t -> refs_build_order t = [].
Proof.
  induction t as [t IH] using FAssimpNode_induction. intros Hclean.
  inversion Hclean as [? _ _ Hrefs Hchildren]; subst.
  rewrite refs_build_order_unfold, Hrefs. simpl.
  clear -IH Hchildren. induction IH as [|c cs Hc _ IHcs]; [reflexivity|].
  inversion Hchildren; subst. simpl. rewrite concat_app, IHcs by assumption.
  simpl. rewrite Hc by assumption. reflexivity.
Qed.

Lemma clean_node_at :
  forall path t n, clean t -> node_at t path = Some n -> clean n.
Proof.
  induction path as [|i path IH]; intros t n Hclean Hn; simpl in Hn.
  - injection Hn as <-. exact Hclean.
  - destruct (children t !! i) as [c|] eqn:Hc; [|discriminate].
    inversion Hclean as [? _ _ _ Hchildren]; subst.
    rewrite Forall_forall in Hchildren.
    apply (IH c n); [|exact Hn]. apply Hchildren.
    exact (list_elem_of_lookup_2 _ _ _ Hc).
Qed.

Lemma clean_update (f : FAssimpNode -> FAssimpNode) :
  forall path t n,
    clean t -> node_at t path = Some n -> clean (f n) -> clean (node_update t path f).
Proof.
  induction path as [|i path IH]; intros t n Hclean Hn Hf; simpl in *.
  - injection Hn as ->. exact Hf.
  - destruct (children t !! i) as [c|] eqn:Hc; [|discriminate].
    inversion Hclean as [? Hidx Hgath Hrefs Hchildren]; subst.
    constructor; [exact Hidx|exact Hgath|exact Hrefs|]. simpl.
    apply Forall_insert; [exact Hchildren|].
    apply (IH c n); [|exact Hn|exact Hf].
    rewrite Forall_forall in Hchildren. apply Hchildren.
    exact (list_elem_of_lookup_2 _ _ _ Hc).
Qed.

Lemma clean_new inName : clean (new_FAssimpNode inName).
Proof. constructor; try reflexivity. constructor. Qed.

Lemma clean_ClearExportData : forall t, clean (ClearExportData t).
Proof.
  induction t as [t IH] using FAssimpNode_induction.
  destruct t as [cs refs nm wt objs idx gath base]. simpl in *.
  constructor; try reflexivity. simpl.
  apply Forall_fmap. exact IH.
Qed.

Lemma skeleton_ClearExportData : forall t, skeleton (ClearExportData t) = skeleton t.
Proof.
  induction t as [t IH] using FAssimpNode_induction.
  apply skeleton_children.
  destruct t as [cs refs nm wt objs idx gath base]. simpl in *.
  rewrite map_map. apply map_ext_Forall. exact IH.
Qed.

Lemma skeleton_gather_tree param : forall t, skeleton (gather_tree param t) = skeleton t.
Proof.
  induction t as [t IH] using FAssimpNode_induction.
  apply skeleton_children. rewrite gather_tree_unfold, set_children_children.
  rewrite map_map. apply map_ext_Forall. exact IH.
Qed.

Lemma skeleton_bound param :
  forall t parent, skeleton (SetDataAndPtrsToParentClass parent t param) = skeleton t.
Proof.
  induction t as [t IH] using FAssimpNode_induction. intros parent.
  apply skeleton_children. rewrite SetDataAndPtrsToParentClass_children.
  rewrite map_map. apply map_ext_Forall.
  eapply Forall_impl; [exact IH|]. intros c Hc. apply Hc.
Qed.

Definition keeps_shape (root : FAssimpNode) (param : FRuntimeMeshExportParam)
    (t : FAssimpNode) : Prop :=
  forall self s s' t',
    ProcessGatheredData_Internal root param t self s = Some (s', t') ->
    skeleton t' = skeleton t.

Lemma process_children_shape root param self cs :
  Forall (keeps_shape root param) cs ->
  forall i s s' cs',
    process_children root param self cs i s = Some (s', cs') ->
    map skeleton cs' = map skeleton cs.
Proof.
  induction 1 as [|c cs Hc _ IH]; intros i s s' cs' H; cbn [process_children] in H.
  - injection H as <- <-. reflexivity.
  - fold (process_children root param self) in H.
    destruct (process_children root param self cs (S i) s) as [[s1 later]|] eqn:Hlater;
      [|discriminate].
    destruct (ProcessGatheredData_Internal root param c (i :: self) s1)
      as [[s2 c2]|] eqn:Hchild; [|discriminate].
    injection H as <- <-. simpl.
    rewrite (Hc _ _ _ _ Hchild), (IH _ _ _ _ Hlater). reflexivity.
Qed.

Lemma ProcessGatheredData_Internal_shape root param :
  forall t, keeps_shape root param t.
Proof.
  induction t as [t IH] using FAssimpNode_induction. intros self s s' t' H.
  rewrite ProcessGatheredData_Internal_unfold in H.
  destruct (GetHierarchicalName root self) as [hname|]; [|discriminate].
  destruct (CreateAssimpMeshesFromMeshData s t param) as [[s1 created]|] eqn:Hcreate;
    [|discriminate].
  cbv zeta in H.
  match type of H with
  | context [process_children _ _ _ _ _ ?x] =>
      destruct (process_children root param self (children t) 0%nat x)
        as [[s3 processed]|] eqn:Hprocess; [|discriminate]
  end.
  injection H as _ <-. apply skeleton_children. rewrite set_children_children.
  exact (process_children_shape _ _ _ _ IH _ _ _ _ Hprocess).
Qed.

Lemma ProcessGatheredData_Recursive_shape s param s' :
  ProcessGatheredData_Recursive s param = Some s' ->
  skeleton (rootNode s') = skeleton (rootNode s).
Proof.
  unfold ProcessGatheredData_Recursive.
  set (s0 := WriteToLogWithNewLine s _).
  assert (Hr0 : rootNode s0 = rootNode s) by apply WriteToLogWithNewLine_frame.
  destruct (ProcessGatheredData_Internal (rootNode s0) param (rootNode s0) [] s0)
    as [[s1 root1]|] eqn:Hbuild; simpl; [|discriminate].
  intros H. injection H as <-.
  destruct (WriteToLogWithNewLine_frame (set_rootNode s1 root1)
              (Printf "End processing gathered data. Duration: %.3fs" [arg_seconds]))
    as (-> & _).
  simpl. rewrite <- Hr0.
  exact (ProcessGatheredData_Internal_shape _ _ _ _ _ _ _ Hbuild).
Qed.

(** [FindOrCreateNode] adds clean nodes and keeps every node where it
    is. *)
Lemma FindOrCreateNode_clean (path : list FString) :
  forall t, clean t -> clean (fst (FindOrCreateNode t path)).
Proof.
  induction path as [|seg rest IH]; intros t Hclean; simpl; [exact Hclean|].
  inversion Hclean as [? Hidx Hgath Hrefs Hchildren]; subst.
  destruct (list_find (fun child => name child = FName_of seg) (children t))
    as [[i c]|] eqn:Hfind.
  - apply list_find_Some in Hfind as (Hi & _ & _).
    assert (Hc : clean c).
    { rewrite Forall_forall in Hchildren. apply Hchildren.
      exact (list_elem_of_lookup_2 _ _ _ Hi). }
    specialize (IH c Hc). destruct (FindOrCreateNode c rest) as [c' p]. simpl in *.
    constructor; [exact Hidx|exact Hgath|exact Hrefs|]. simpl.
    apply Forall_insert; assumption.
  - specialize (IH (new_FAssimpNode (FName_of seg)) (clean_new _)).
    destruct (FindOrCreateNode (new_FAssimpNode (FName_of seg)) rest) as [c' p].
    simpl in *.
    constructor; [exact Hidx|exact Hgath|exact Hrefs|]. simpl.
    apply Forall_app. split; [exact Hchildren|]. constructor; [exact IH|constructor].
Qed.

Lemma FindOrCreateNode_valid (path : list FString) :
  forall t q,
    is_Some (node_at t q) -> is_Some (node_at (fst (FindOrCreateNode t path)) q).
Proof.
  induction path as [|seg rest IH]; intros t q Hq; simpl; [exact Hq|].
  destruct (list_find (fun child => name child = FName_of seg) (children t))
    as [[i c]|] eqn:Hfind.
  - apply list_find_Some in Hfind as (Hi & _ & _).
    specialize (IH c). destruct (FindOrCreateNode c rest) as [c' p]. simpl in *.
    destruct q as [|j q]; simpl in *; [eexists; reflexivity|].
    destruct (decide (j = i)) as [->|Hne].
    + rewrite list_lookup_insert_eq by (apply lookup_lt_Some in Hi; exact Hi).
      rewrite Hi in Hq. exact (IH q Hq).
    + rewrite list_lookup_insert_ne by (intros E; apply Hne; symmetry; exact E).
      exact Hq.
  - destruct (FindOrCreateNode (new_FAssimpNode (FName_of seg)) rest) as [c' p].
    simpl. destruct q as [|j q]; simpl in *; [eexists; reflexivity|].
    destruct (children t !! j) as [c|] eqn:Hj; [|destruct Hq; discriminate].
    rewrite (lookup_app_l_Some _ _ _ _ Hj). exact Hq.
Qed.

(** An exporter between two exports: idle, its tree clean, its pools empty,
    every pointer of the cache a node of the tree. *)
Definition exporter_ok (e : URuntimeMeshExporter) : Prop :=
  bIsExporting e = false
  /\ clean (rootNode (scene e))
  /\ cache_valid (scene e)
  /\ meshes (scene e) = []
  /\ materials (scene e) = []
  /\ uniqueMaterials (scene e) = [].

Lemma exporter_ok_new : exporter_ok new_URuntimeMeshExporter.
Proof.
  split; [reflexivity|]. split; [apply clean_new|]. split; [constructor|].
  repeat split.
Qed.

(** Registering at the node of a path, as [AddNode] and [AddExportObject]
    do. *)
Lemma exporter_ok_register (e : URuntimeMeshExporter) (nodeList : list FString)
    (f : FAssimpNode -> FAssimpNode) :
  (forall n, clean n -> clean (f n)) ->
  (forall n, children (f n) = children n) ->
  exporter_ok e ->
  exporter_ok
    (let '(root, foundNode) := FindOrCreateNode (rootNode (scene e)) nodeList in
     set_scene e (set_rootNode (scene e) (node_update root foundNode f))).
Proof.
  intros Hclean Hshape (Hidle & Hc & Hv & Hm & Hmat & Hu).
  pose proof (FindOrCreateNode_clean nodeList _ Hc) as Hc'.
  pose proof (FindOrCreateNode_valid nodeList (rootNode (scene e))) as Hv'.
  destruct (FindOrCreateNode (rootNode (scene e)) nodeList) as [root found] eqn:Hfind.
  destruct (FindOrCreateNode_found _ _ _ _ Hfind) as [[n Hn] _].
  simpl in Hc', Hv'.
  split; [exact Hidle|]. split; [|split; [|repeat split; assumption]].
  - simpl. apply (clean_update f _ _ n Hc' Hn). apply Hclean.
    exact (clean_node_at _ _ _ Hc' Hn).
  - unfold cache_valid in *. simpl.
    eapply Forall_impl; [exact Hv|]. intros q Hq. unfold deref in *.
    apply (node_at_update_shape f _ _ _ n Hn (Hshape n)). apply Hv'. exact Hq.
Qed.

Lemma exporter_ok_AddNode e hierarchicalName nodeTransformWS :
  exporter_ok e -> exporter_ok (AddNode e hierarchicalName nodeTransformWS).
Proof.
  intros Hok. unfold AddNode. rewrite (proj1 Hok).
  apply exporter_ok_register; [| |exact Hok].
  - intros n Hn. inversion Hn; subst. constructor; assumption.
  - reflexivity.
Qed.

Lemma exporter_ok_AddExportObject e exportable bOverrideNode hierarchicalNodeName :
  exporter_ok e ->
  exporter_ok (AddExportObject e exportable bOverrideNode hierarchicalNodeName).
Proof.
  intros Hok. unfold AddExportObject. rewrite (proj1 Hok).
  apply exporter_ok_register; [| |exact Hok].
  - intros n Hn. inversion Hn; subst. constructor; assumption.
  - reflexivity.
Qed.

Lemma exporter_ok_AddExportObjects e exportables bOverrideNode hierarchicalNodeName :
  exporter_ok e ->
  exporter_ok (AddExportObjects e exportables bOverrideNode hierarchicalNodeName).
Proof.
  intros Hok. unfold AddExportObjects. rewrite (proj1 Hok).
  revert e Hok. induction exportables as [|object rest IH]; intros e Hok; simpl.
  - exact Hok.
  - apply IH. apply exporter_ok_AddExportObject. exact Hok.
Qed.

Lemma exporter_ok_AddObjectIfExportable e object bOverrideNode hierarchicalNodeName :
  exporter_ok e ->
  exporter_ok (fst (AddObjectIfExportable e object bOverrideNode hierarchicalNodeName)).
Proof.
  intros Hok. unfold AddObjectIfExportable. rewrite (proj1 Hok).
  destruct (as_MeshExportable object); simpl; [|exact Hok].
  apply exporter_ok_AddExportObject. exact Hok.
Qed.

Lemma exporter_ok_AddObjectsIfExportable e objects bOverrideNode hierarchicalNodeName
    notExportable :
  exporter_ok e ->
  exporter_ok
    (fst (AddObjectsIfExportable e objects bOverrideNode hierarchicalNodeName
            notExportable)).
Proof.
  intros Hok. unfold AddObjectsIfExportable. rewrite (proj1 Hok).
  revert e notExportable Hok.
  induction objects as [|object rest IH]; intros e notExportable Hok; simpl.
  - exact Hok.
  - pose proof (exporter_ok_AddObjectIfExportable e object bOverrideNode
                  hierarchicalNodeName Hok) as Hone.
    destruct (AddObjectIfExportable e object bOverrideNode hierarchicalNodeName)
      as [e1 added].
    simpl in Hone. destruct (negb added); apply IH; exact Hone.
Qed.

(** Every pointer of the pre-order is a node of the tree. *)
Lemma GetNodesRecursive_valid root :
  forall sub self,
    deref root self = Some sub ->
    Forall (fun p => is_Some (deref root p)) (GetNodesRecursive sub self []).
Proof.
  induction sub as [sub IH] using FAssimpNode_induction. intros self Hself.
  rewrite GetNodesRecursive_preorder. constructor; [rewrite Hself; eexists; reflexivity|].
  apply Forall_concat. apply Forall_forall. intros l Hl.
  apply list_elem_of_lookup_1 in Hl as [i Hi].
  rewrite list_lookup_imap in Hi.
  destruct (children sub !! i) as [c|] eqn:Hc; [|discriminate].
  injection Hi as <-.
  rewrite Forall_forall in IH. apply IH.
  - exact (list_elem_of_lookup_2 _ _ _ Hc).
  - rewrite (deref_child _ _ _ _ Hself). exact Hc.
Qed.

(** The prepared scene has the tree in its shape and a valid cache. *)
Lemma PrepareSceneForExport_cache scene param prepared :
  fresh (rootNode scene) ->
  cache_valid scene ->
  Num (materials scene) = Num (uniqueMaterials scene) ->
  PrepareSceneForExport scene param = Some prepared ->
  skeleton (rootNode prepared) = skeleton (rootNode scene)
  /\ allNodesHelper prepared
     = allNodesHelper scene ++ GetNodesRecursive (rootNode scene) [] []
  /\ cache_valid prepared.
Proof.
  intros Hfresh Hvalid Hlen Hprep.
  destruct (PrepareSceneForExport_phases scene param Hfresh Hvalid Hlen)
    as (g & b & _ & Hr & _ & _ & _ & Hb & _ & Hab & Hprep').
  rewrite Hprep in Hprep'. injection Hprep' as ->.
  assert (Hshape : skeleton (rootNode (SetDataAndPtrsToParentClass_EntireScene b param))
                   = skeleton (rootNode scene)).
  { simpl. rewrite skeleton_bound, (ProcessGatheredData_Recursive_shape _ _ _ Hb).
    destruct (WriteToLogWithNewLine_frame g
                (Printf "End gather mesh data. Duration: %.3fs" [arg_seconds]))
      as (-> & _).
    rewrite Hr. apply skeleton_gather_tree. }
  split; [exact Hshape|]. split; [exact Hab|].
  unfold cache_valid.
  change (allNodesHelper (SetDataAndPtrsToParentClass_EntireScene b param))
    with (allNodesHelper b).
  rewrite Hab. apply Forall_app. split.
  - eapply Forall_impl; [exact Hvalid|]. intros q Hq.
    exact (skeleton_valid _ _ _ Hshape Hq).
  - eapply Forall_impl; [exact (GetNodesRecursive_valid _ _ [] eq_refl)|].
    intros q Hq. exact (skeleton_valid _ _ _ Hshape Hq).
Qed.

(** [Export] on an exporter between two exports returns, and leaves an
    exporter between two exports. *)
Lemma Export_ok this param result :
  exporter_ok this ->
  exists this' result',
    Export this param result = Some (this', result') /\ exporter_ok this'.
Proof.
  intros Hok. pose proof Hok as (Hidle & Hclean & Hvalid & Hm & Hmat & Hu).
  destruct (negb (bOverrideExisting param) && FileExists (file param)) eqn:Hfile.
  { unfold Export, PreExportWork. rewrite Hidle, Hfile. simpl.
    eexists _, _. split; [reflexivity|exact Hok]. }
  destruct (CreateDirectoryTree (FPaths_GetPath (file param))) eqn:Hdir.
  2:{ unfold Export, PreExportWork. rewrite Hidle, Hfile, Hdir. simpl.
      eexists _, _. split; [reflexivity|exact Hok]. }
  destruct (Export_idle_spec this param result Hidle) as
    (this' & result' & prepared & Hexp & _ & Hidle' & Hprep & Hm' & Hmat' & Hu'
     & Hroot & Hcache).
  { destruct (bOverrideExisting param); [left; reflexivity|right; exact Hfile]. }
  { exact Hdir. }
  { apply clean_fresh. exact Hclean. }
  { exact Hvalid. }
  { rewrite Hmat, Hu. reflexivity. }
  exists this', result'. split; [exact Hexp|].
  destruct (PrepareSceneForExport_cache (logging_scene this param) param prepared)
    as (Hshape & _ & Hvalid'); [| | |exact Hprep|].
  { apply clean_fresh. exact Hclean. }
  { exact Hvalid. }
  { simpl. rewrite Hmat, Hu. reflexivity. }
  split; [exact Hidle'|]. split; [rewrite Hroot; apply clean_ClearExportData|].
  split; [|repeat split; assumption].
  unfold cache_valid in *. rewrite Hcache, Hroot.
  eapply Forall_impl; [exact Hvalid'|]. intros q Hq.
  exact (skeleton_valid _ _ _ (skeleton_ClearExportData _) Hq).
Qed.

(** The exporters that the synchronous interface reaches from a new one. *)
Inductive reachable : URuntimeMeshExporter -> Prop :=
| reachable_new : reachable new_URuntimeMeshExporter
| reachable_AddNode e hierarchicalName nodeTransformWS :
    reachable e -> reachable (AddNode e hierarchicalName nodeTransformWS)
| reachable_AddExportObject e exportable bOverrideNode hierarchicalNodeName :
    reachable e ->
    reachable (AddExportObject e exportable bOverrideNode hierarchicalNodeName)
| reachable_AddExportObjects e exportables bOverrideNode hierarchicalNodeName :
    reachable e ->
    reachable (AddExportObjects e exportables bOverrideNode hierarchicalNodeName)
| reachable_AddObjectIfExportable e object bOverrideNode hierarchicalNodeName :
    reachable e ->
    reachable (fst (AddObjectIfExportable e object bOverrideNode hierarchicalNodeName))
| reachable_AddObjectsIfExportable e objects bOverrideNode hierarchicalNodeName
    notExportable :
    reachable e ->
    reachable (fst (AddObjectsIfExportable e objects bOverrideNode hierarchicalNodeName
                      notExportable))
| reachable_Export e param result e' result' :
    reachable e -> Export e param result = Some (e', result') -> reachable e'.

Lemma reachable_ok e : reachable e -> exporter_ok e.
Proof.
  induction 1 as [| | | | | |e param result e' result' _ IH Hexp].
  - apply exporter_ok_new.
  - apply exporter_ok_AddNode. assumption.
  - apply exporter_ok_AddExportObject. assumption.
  - apply exporter_ok_AddExportObjects. assumption.
  - apply exporter_ok_AddObjectIfExportable. assumption.
  - apply exporter_ok_AddObjectsIfExportable. assumption.
  - destruct (Export_ok e param result IH) as (e1 & r1 & Hexp1 & Hok1).
    rewrite Hexp in Hexp1. injection Hexp1 as <- _. exact Hok1.
Qed.

(** C1.  [GatherMeshData] skips a source as a whole when it refuses,
    returns no section or returns an invalid section: it adds one to the
    skipped counter for each such source, stores nothing of it, and goes on
    with the next source.  One export of a scene counts exactly the skipped
    sources of the tree, gathers exactly the section lists of the others,
    and builds the meshes and materials that it builds when the skipped
    sources are not registered at all; with three registered sources of
    which one refuses and one returns no section the count is 2 and the
    pools are those of the scene with the third source alone.  This holds
    for every export of an exporter that the synchronous interface reaches
    from a new one. *)
Theorem skipped_sources_are_counted_and_dropped :
  (forall scene this param bGatherAll numToGather,
      bGatherAll = true \/ 0 < numToGather ->
      0 <= indexGatherNext this <= Num (exportObjects this) ->
      let batch := gather_batch this bGatherAll numToGather in
      exists scene' this',
        GatherMeshData scene this param bGatherAll numToGather
        = Some (scene', this', Num batch)
        /\ numObjectsSkipped scene'
           = numObjectsSkipped scene + Num (List.filter (source_skipped param) batch)
        /\ gatheredExportables this'
           = gatheredExportables this
             ++ map (source_sections param)
                    (List.filter (fun o => negb (source_skipped param o)) batch)
        /\ indexGatherNext this' = indexGatherNext this + Num batch
        /\ meshes scene' = meshes scene /\ materials scene' = materials scene)
  /\ (forall this param result,
        bIsExporting this = false ->
        bOverrideExisting param = true \/ FileExists (file param) = false ->
        CreateDirectoryTree (FPaths_GetPath (file param)) = true ->
        fresh (rootNode (scene this)) ->
        cache_valid (scene this) ->
        Num (materials (scene this)) = Num (uniqueMaterials (scene this)) ->
        let sources := tree_sources (rootNode (scene this)) in
        exists this' result',
          Export this param result = Some (this', result')
          /\ result_numObjectsSkipped result'
             = Num (List.filter (source_skipped param) sources)
          /\ tree_gathered (gather_tree param (rootNode (scene this)))
             = map (source_sections param)
                   (List.filter (fun o => negb (source_skipped param o)) sources)
          /\ (forall o1 o2 o3,
                Permutation sources [o1; o2; o3] ->
                refuses param o1 -> returns_no_sections param o2 ->
                source_skipped param o3 = false ->
                result_numObjectsSkipped result' = 2
                /\ tree_gathered (gather_tree param (rootNode (scene this)))
                   = [source_sections param o3]))
  /\ (forall s param,
        fresh (rootNode s) -> cache_valid s ->
        Num (materials s) = Num (uniqueMaterials s) ->
        let cache := allNodesHelper s ++ GetNodesRecursive (rootNode s) [] [] in
        let kept := drop_skipped param (rootNode s) in
        exists gathered prepared remaining,
          gather_all_nodes
            (set_allNodesHelper
               (WriteToLogWithNewLine (set_numObjectsSkipped s 0) "Begin gather mesh data.")
               cache)
            cache param = Some gathered
          /\ rootNode gathered = gather_tree param (rootNode s)
          /\ numObjectsSkipped gathered
             = Num (List.filter (source_skipped param) (tree_sources (rootNode s)))
          /\ PrepareSceneForExport s param = Some prepared
          /\ numObjectsSkipped prepared = numObjectsSkipped gathered
          /\ PrepareSceneForExport (set_rootNode s kept) param = Some remaining
          /\ numObjectsSkipped remaining = 0
          /\ tree_sources kept
             = List.filter (fun o => negb (source_skipped param o))
                           (tree_sources (rootNode s))
          /\ meshes prepared = meshes remaining
          /\ materials prepared = materials remaining
          /\ uniqueMaterials prepared = uniqueMaterials remaining
          /\ (forall o1 o2 o3,
                Permutation (tree_sources (rootNode s)) [o1; o2; o3] ->
                refuses param o1 -> returns_no_sections param o2 ->
                source_skipped param o3 = false ->
                numObjectsSkipped prepared = 2 /\ tree_sources kept = [o3]))
  /\ (forall s n1 n2 param,
        worldTransform n1 = worldTransform n2 ->
        gatheredExportables n1 = gatheredExportables n2 ->
        option_map fst (CreateAssimpMeshesFromMeshData s n1 param)
        = option_map fst (CreateAssimpMeshesFromMeshData s n2 param))
  /\ (forall this param result,
        reachable this ->
        bOverrideExisting param = true \/ FileExists (file param) = false ->
        CreateDirectoryTree (FPaths_GetPath (file param)) = true ->
        exists this' result',
          Export this param result = Some (this', result')
          /\ result_numObjectsSkipped result'
             = Num (List.filter (source_skipped param)
                      (tree_sources (rootNode (scene this))))
          /\ reachable this'
          /\ bIsExporting this' = false
          /\ fresh (rootNode (scene this'))
          /\ cache_valid (scene this')
          /\ Num (materials (scene this')) = Num (uniqueMaterials (scene this'))).
Proof.
  assert (Hfilter : forall param l,
             List.filter (fun o => negb (source_skipped param o)) l
             = List.filter (source_accepted param) l).
  { intros param l. apply List.filter_ext. intros o.
    rewrite source_skipped_accepted. apply negb_involutive. }
  split; [|split; [|split; [|split]]].
  - intros s this param bGatherAll numToGather Hpre Hrange batch.
    destruct (GatherMeshData_spec s this param bGatherAll numToGather Hpre Hrange)
      as (s' & Hg & He).
    fold batch in Hg, He. exists s', (gathered_batch param this batch).
    split; [exact Hg|]. rewrite gathered_batch_spec, Hfilter.
    unfold gather_effect in He. rewrite He. repeat split.
  - intros this param result Hidle Hfile Hdir Hfresh Hvalid Hlen sources.
    destruct (Export_idle_spec this param result Hidle Hfile Hdir Hfresh Hvalid Hlen)
      as (this' & result' & prepared & Hexp & Hcount & _).
    exists this', result'. split; [exact Hexp|]. split; [exact Hcount|].
    assert (Hgathered : tree_gathered (gather_tree param (rootNode (scene this)))
                        = map (source_sections param)
                            (List.filter (fun o => negb (source_skipped param o)) sources)).
    { rewrite Hfilter. apply tree_gathered_gather_tree. exact Hfresh. }
    split; [exact Hgathered|].
    intros o1 o2 o3 Hperm H1 H2 H3.
    destruct (three_sources param sources o1 o2 o3 Hperm H1 H2 H3) as [Htwo Hone].
    split; [rewrite Hcount; exact Htwo|rewrite Hgathered; exact Hone].
  - intros s param Hfresh Hvalid Hlen cache kept.
    destruct (PrepareSceneForExport_phases s param Hfresh Hvalid Hlen)
      as (gathered & built & Hg & Hroot & _ & _ & Hk & _ & Hkb & _ & Hprep).
    destruct (PrepareSceneForExport_without_skipped s param Hfresh Hvalid Hlen)
      as (prepared & remaining & Hprep' & Hrem & (Hm & Hmat & Hu) & Hcount & Hzero).
    rewrite Hprep in Hprep'. injection Hprep' as <-.
    exists gathered, (SetDataAndPtrsToParentClass_EntireScene built param), remaining.
    split; [exact Hg|]. split; [exact Hroot|]. split; [exact Hk|].
    split; [exact Hprep|]. split; [exact Hkb|]. split; [exact Hrem|].
    split; [exact Hzero|]. split; [apply tree_sources_drop_skipped|].
    split; [exact Hm|]. split; [exact Hmat|]. split; [exact Hu|].
    intros o1 o2 o3 Hperm H1 H2 H3. split.
    + rewrite Hcount. exact (proj1 (three_sources param _ o1 o2 o3 Hperm H1 H2 H3)).
    + subst kept. rewrite tree_sources_drop_skipped.
      exact (three_sources_remaining param _ o1 o2 o3 Hperm H1 H2 H3).
  - intros s n1 n2 param. apply CreateAssimpMeshesFromMeshData_reads_gathered.
  - intros this param result Hreach Hfile Hdir.
    pose proof (reachable_ok this Hreach) as (Hidle & Hclean & Hvalid & Hm & Hmat & Hu).
    destruct (Export_idle_spec this param result Hidle Hfile Hdir
                (clean_fresh _ Hclean) Hvalid)
      as (this' & result' & prepared & Hexp & Hcount & _).
    { rewrite Hmat, Hu. reflexivity. }
    exists this', result'. split; [exact Hexp|]. split; [exact Hcount|].
    assert (Hreach' : reachable this').
    { exact (reachable_Export _ _ _ _ _ Hreach Hexp). }
    split; [exact Hreach'|].
    pose proof (reachable_ok this' Hreach')
      as (Hidle' & Hclean' & Hvalid' & Hm' & Hmat' & Hu').
    split; [exact Hidle'|]. split; [exact (clean_fresh _ Hclean')|].
    split; [exact Hvalid'|]. rewrite Hmat', Hu'. reflexivity.
Qed.

(** ** Materials are deduplicated by handle *)

Lemma create_mesh_material scene this section :
  section_valid section = true ->
  pools_consistent scene ->
  Num (uniqueMaterials scene) < 2 ^ 32 ->
  exists scene' this' mesh,
    create_mesh (scene, this) section = Some (scene', this')
    /\ meshes scene' = meshes scene ++ [mesh]
    /\ (In (material section) (uniqueMaterials scene) ->
        uniqueMaterials scene' = uniqueMaterials scene
        /\ materials scene' = materials scene
        /\ mMaterialIndex (mesh_base mesh)
           = TArray_Find (uniqueMaterials scene) (material section))
    /\ (~ In (material section) (uniqueMaterials scene) ->
        uniqueMaterials scene' = uniqueMaterials scene ++ [material section]
        /\ materials scene' = materials scene ++ [new_aiMaterial (material section)]
        /\ mMaterialIndex (mesh_base mesh) = Num (uniqueMaterials scene))
    /\ pools_consistent scene'
    /\ 0 <= mMaterialIndex (mesh_base mesh) < Num (materials scene')
    /\ uniqueMaterials scene' !! Z.to_nat (mMaterialIndex (mesh_base mesh))
       = Some (material section)
    /\ (exists added, uniqueMaterials scene' = uniqueMaterials scene ++ added
                      /\ (length added <= 1)%nat).
Proof.
  intros Hvalid Hcons Hbound.
  destruct (create_mesh_consistent scene this section Hvalid Hcons Hbound)
    as (scene' & this' & mesh & Hcreate & Hmeshes & Hres & Hcons' & _ & _).
  destruct Hcons as (Hlen & Hnodup & _).
  destruct (resolve_material_spec _ _ _ Hlen Hnodup _ _ _ Hres)
    as (Hlen' & _ & Hrange & Hlook & Hin & Hnew & Hadded & _).
  exists scene', this', mesh.
  split; [exact Hcreate|]. split; [exact Hmeshes|]. split; [exact Hin|].
  split; [exact Hnew|]. split; [exact Hcons'|]. split; [lia|].
  split; [exact Hlook|exact Hadded].
Qed.

(** C9.  Creating a mesh resolves its material by handle: a handle already
    in [uniqueMaterials] keeps its first index and adds nothing; a new
    handle appends exactly one material record (name, two-sided set,
    shininess zero, diffuse texture).  Afterwards the two pools have equal
    length and every mesh's material index is a valid index; meshes of
    distinct handles get distinct material records. *)
Theorem materials_deduplicated_by_handle :
  (forall scene this section,
      section_valid section = true ->
      pools_consistent scene ->
      Num (uniqueMaterials scene) < int32_max ->
      exists scene' this' mesh,
        create_mesh (scene, this) section = Some (scene', this')
        /\ meshes scene' = meshes scene ++ [mesh]
        /\ (In (material section) (uniqueMaterials scene) ->
            uniqueMaterials scene' = uniqueMaterials scene
            /\ materials scene' = materials scene
            /\ mMaterialIndex (mesh_base mesh)
               = TArray_Find (uniqueMaterials scene) (material section))
        /\ (~ In (material section) (uniqueMaterials scene) ->
            uniqueMaterials scene' = uniqueMaterials scene ++ [material section]
            /\ materials scene'
               = materials scene
                 ++ [[AI_MATKEY_NAME
                        (if decide (material section = nullptr) then "Unknown"%string
                         else TCHAR_TO_ANSI (UMaterial_GetName (material section)));
                      AI_MATKEY_TWOSIDED 1;
                      AI_MATKEY_SHININESS f_zero;
                      AI_MATKEY_TEXTURE_DIFFUSE 0 texture_path]]
            /\ mMaterialIndex (mesh_base mesh) = Num (uniqueMaterials scene))
        /\ Num (materials scene') = Num (uniqueMaterials scene')
        /\ Forall (fun m => 0 <= mMaterialIndex (mesh_base m) < Num (materials scene'))
                  (meshes scene')
        /\ pools_consistent scene'
        /\ uniqueMaterials scene' !! Z.to_nat (mMaterialIndex (mesh_base mesh))
           = Some (material section)
        /\ (forall this2 section2,
              section_valid section2 = true ->
              material section2 <> material section ->
              exists scene2 this2' mesh2,
                create_mesh (scene', this2) section2 = Some (scene2, this2')
                /\ meshes scene2 = meshes scene' ++ [mesh2]
                /\ mMaterialIndex (mesh_base mesh2) <> mMaterialIndex (mesh_base mesh)
                /\ 0 <= mMaterialIndex (mesh_base mesh) < Num (materials scene2)
                /\ 0 <= mMaterialIndex (mesh_base mesh2) < Num (materials scene2)))
  /\ (forall scene param,
        tree_valid (rootNode scene) ->
        pools_consistent scene ->
        exists scene',
          ProcessGatheredData_Recursive scene param = Some scene'
          /\ Num (materials scene') = Num (uniqueMaterials scene')
          /\ (Num (uniqueMaterials scene') < 2 ^ 32 -> pools_consistent scene')).
Proof.
  split.
  - intros scene0 this section Hvalid Hcons Hbound.
    destruct (create_mesh_material scene0 this section Hvalid Hcons)
      as (scene' & this' & mesh & Hcreate & Hmeshes & Hin & Hnew & Hcons' & Hrange
          & Hlook & (added & Hadd & Hadd1)).
    { unfold int32_max in Hbound. lia. }
    exists scene', this', mesh.
    split; [exact Hcreate|]. split; [exact Hmeshes|]. split; [exact Hin|].
    split; [exact Hnew|].
    split; [exact (proj1 Hcons')|]. split; [exact (proj2 (proj2 Hcons'))|].
    split; [exact Hcons'|]. split; [exact Hlook|].
    intros this2 section2 Hvalid2 Hdiff.
    assert (Hbound' : Num (uniqueMaterials scene') < 2 ^ 32).
    { rewrite Hadd, Num_app. unfold Num at 2. unfold int32_max in Hbound. lia. }
    destruct (create_mesh_material scene' this2 section2 Hvalid2 Hcons' Hbound')
      as (scene2 & this2' & mesh2 & Hcreate2 & Hmeshes2 & _ & _ & Hcons2 & Hrange2
          & Hlook2 & (added2 & Hadd2 & _)).
    exists scene2, this2', mesh2.
    split; [exact Hcreate2|]. split; [exact Hmeshes2|].
    assert (Hlen' : Num (materials scene') = Num (uniqueMaterials scene'))
      by exact (proj1 Hcons').
    assert (Hlen2 : Num (materials scene2) = Num (uniqueMaterials scene2))
      by exact (proj1 Hcons2).
    split.
    + intros Heq. apply Hdiff. rewrite Heq, Hadd2 in Hlook2.
      rewrite lookup_app_l in Hlook2 by (unfold Num in *; lia).
      rewrite Hlook in Hlook2. injection Hlook2 as ->. reflexivity.
    + split; [|exact Hrange2].
      rewrite Hlen2, Hadd2, Num_app. pose proof (Num_nonneg added2). lia.
  - intros scene0 param Hvalid Hcons.
    destruct (ProcessGatheredData_Recursive_spec scene0 param Hvalid (proj1 Hcons))
      as (scene' & Hrec & _ & _ & Hlen' & _ & Hstep).
    exists scene'. split; [exact Hrec|]. split; [exact Hlen'|].
    intros Hbound. apply Hstep; assumption.
Qed.

(** ** Binding: the transform of every node *)





(** ** Gathering order and building order in one export *)

Lemma gather_tree_refs param :
  forall n,
    refs_build_order (gather_tree param n) = refs_build_order n
    /\ (forall s, ProcessGatheredData_order (gather_tree param n) s
                  = ProcessGatheredData_order n s).
Proof.
  induction n as [n IH] using FAssimpNode_induction.
  rewrite gather_tree_unfold. split.
  - rewrite (refs_build_order_unfold (set_children _ _)), (refs_build_order_unfold n).
    rewrite set_children_children, gathered_batch_spec. simpl. do 3 f_equal.
    rewrite map_map. apply map_ext_Forall.
    eapply Forall_impl; [exact IH|]. intros c [Hc _]. exact Hc.
  - intros s. rewrite !ProcessGatheredData_order_preorder, set_children_children.
    do 3 f_equal. apply order_children_same.
    clear -IH. induction IH as [|c cs [_ Hc] _ IHcs]; simpl; constructor; assumption.
Qed.

Lemma SetDataAndPtrsToParentClass_refs param :
  forall path parent this,
    meshRefIndices <$> node_at (SetDataAndPtrsToParentClass parent this param) path
    = meshRefIndices <$> node_at this path.
Proof.
  induction path as [|i path IH]; intros parent this; simpl.
  - destruct this. reflexivity.
  - rewrite SetDataAndPtrsToParentClass_children, list_lookup_fmap.
    destruct (children this !! i) as [c|]; simpl; [apply IH|reflexivity].
Qed.

Lemma refs_along_bound param root ptrs :
  refs_along (SetDataAndPtrsToParentClass None root param) ptrs = refs_along root ptrs.
Proof.
  unfold refs_along. f_equal. apply map_ext. intros p. unfold deref.
  pose proof (SetDataAndPtrsToParentClass_refs param (rev p) None root) as H.
  destruct (node_at (SetDataAndPtrsToParentClass None root param) (rev p)),
    (node_at root (rev p)); simpl in H; congruence.
Qed.

(** One export of a scene on which nothing was gathered or built: the cache
    of the gather phase is the pre-order of [GetNodesRecursive], and the
    meshes are created along [ProcessGatheredData_order]. *)
Lemma PrepareSceneForExport_orders scene param :
  fresh (rootNode scene) ->
  cache_valid scene ->
  Num (materials scene) = Num (uniqueMaterials scene) ->
  refs_build_order (rootNode scene) = [] ->
  exists prepared count,
    PrepareSceneForExport scene param = Some prepared
    /\ allNodesHelper prepared
       = allNodesHelper scene ++ GetNodesRecursive (rootNode scene) [] []
    /\ Num (meshes prepared) = Num (meshes scene) + Z.of_nat count
    /\ refs_along (rootNode prepared) (ProcessGatheredData_order (rootNode scene) [])
       = mesh_refs (Num (meshes scene)) count.
Proof.
  intros Hfresh Hvalid Hlen Hrefs.
  destruct (PrepareSceneForExport_phases scene param Hfresh Hvalid Hlen)
    as (g & b & _ & Hr & _ & (Hm & _) & _ & Hb & _ & Hab & ->).
  destruct (WriteToLogWithNewLine_frame g
              (Printf "End gather mesh data. Duration: %.3fs" [arg_seconds]))
    as (Hr4 & _ & _ & Hm4 & _).
  assert (Hnone : refs_build_order
                    (rootNode
                       (WriteToLogWithNewLine g
                          (Printf "End gather mesh data. Duration: %.3fs"
                                  [arg_seconds])))
                  = []).
  { rewrite Hr4, Hr, (proj1 (gather_tree_refs param _)). exact Hrefs. }
  destruct (ProcessGatheredData_Recursive_in_order _ param b Hnone Hb)
    as (count & Hn & Halong).
  eexists _, count. split; [reflexivity|]. simpl.
  split; [exact Hab|].
  unfold Num in *. rewrite length_map.
  split; [rewrite Hn, Hm4, Hm; reflexivity|].
  rewrite refs_along_bound.
  rewrite Hr4, Hr, (proj2 (gather_tree_refs param _)), Hm4, Hm in Halong.
  exact Halong.
Qed.

(** C2 (as the code has it).  Gathering caches the nodes in pre-order with
    the children of every node from the first to the last, appended to the
    cache; building visits the same nodes in pre-order with the children of
    every node from the last to the first.  The two sequences are
    permutations of each other and are equal when no node has more than one
    child.  In one export of a scene on which nothing was gathered or built,
    the gather phase goes through that cache and the meshes are created, and
    numbered, along the building order. *)
Theorem gather_and_build_orders :
  (forall (this : FAssimpNode) (self : NodePtr),
      GetNodesRecursive this self []
      = self :: concat (imap (fun i c => GetNodesRecursive c (i :: self) [])
                             (children this))
      /\ (forall outNodes,
            GetNodesRecursive this self outNodes
            = outNodes ++ GetNodesRecursive this self [])
      /\ ProcessGatheredData_order this self
         = self :: concat (rev (imap (fun i c => ProcessGatheredData_order c (i :: self))
                                     (children this)))
      /\ Permutation (ProcessGatheredData_order this self)
                     (GetNodesRecursive this self [])
      /\ (at_most_one_child this = true ->
          ProcessGatheredData_order this self = GetNodesRecursive this self []))
  /\ (forall scene param,
        fresh (rootNode scene) ->
        cache_valid scene ->
        Num (materials scene) = Num (uniqueMaterials scene) ->
        refs_build_order (rootNode scene) = [] ->
        exists prepared count,
          PrepareSceneForExport scene param = Some prepared
          /\ allNodesHelper prepared
             = allNodesHelper scene ++ GetNodesRecursive (rootNode scene) [] []
          /\ Num (meshes prepared) = Num (meshes scene) + Z.of_nat count
          /\ refs_along (rootNode prepared)
                        (ProcessGatheredData_order (rootNode scene) [])
             = mesh_refs (Num (meshes scene)) count).
Proof.
  split.
  - intros this self. split; [apply GetNodesRecursive_preorder|].
    split; [intros outNodes; apply GetNodesRecursive_acc|].
    split; [apply ProcessGatheredData_order_preorder|].
    split; [apply order_Permutation|apply order_single_chain].
  - apply PrepareSceneForExport_orders.
Qed.

(** ** Busy exporter *)

(** C8.  While an export is in flight, [Export] and [Export_Async_Cpp]
    return at once with [bSuccess] false and leave the scene, its mesh and
    material pools included, as it is; [AddNode], [AddExportObject] and
    their variants return without touching the exporter. *)
Theorem busy_exporter_rejects :
  forall this : URuntimeMeshExporter,
    bIsExporting this = true ->
    (forall param result,
        exists result',
          Export this param result = Some (this, result')
          /\ bSuccess result' = false)
    /\ (forall param,
          exists this' result',
            Export_Async_Cpp this param = (this', Some result')
            /\ bSuccess result' = false
            /\ scene this' = scene this
            /\ bIsExporting this' = true)
    /\ (forall hierarchicalName nodeTransformWS,
          AddNode this hierarchicalName nodeTransformWS = this)
    /\ (forall exportable bOverrideNode hierarchicalNodeName,
          AddExportObject this exportable bOverrideNode hierarchicalNodeName = this)
    /\ (forall exportables bOverrideNode hierarchicalNodeName,
          AddExportObjects this exportables bOverrideNode hierarchicalNodeName = this)
    /\ (forall object bOverrideNode hierarchicalNodeName,
          AddObjectIfExportable this object bOverrideNode hierarchicalNodeName
          = (this, false))
    /\ (forall objects bOverrideNode hierarchicalNodeName notExportable,
          AddObjectsIfExportable this objects bOverrideNode hierarchicalNodeName
            notExportable
          = (this, notExportable)).
Proof.
  intros this Hbusy.
  split; [|split; [|split; [|split; [|split; [|split]]]]].
  - intros param result. unfold Export, PreExportWork. rewrite Hbusy. simpl.
    eexists. split; reflexivity.
  - intros param. unfold Export_Async_Cpp, PreExportWork. rewrite Hbusy. simpl.
    eexists _, _. split; [reflexivity|].
    split; [|split; [reflexivity|exact Hbusy]].
    unfold asyncResult_read. simpl. destruct (exportLog (scene this)); reflexivity.
  - intros. unfold AddNode. rewrite Hbusy. reflexivity.
  - intros. unfold AddExportObject. rewrite Hbusy. reflexivity.
  - intros. unfold AddExportObjects. rewrite Hbusy. reflexivity.
  - intros. unfold AddObjectIfExportable. rewrite Hbusy. reflexivity.
  - intros. unfold AddObjectsIfExportable. rewrite Hbusy. reflexivity.
Qed.

(** * Further properties of the exporter, the scene and the import *)

(** ** What an export leaves of the registration *)

(** The registration of a tree: its nodes with their names, world
    transforms and sources, without anything an export writes. *)
Fixpoint registered (t : FAssimpNode) : FAssimpNode :=
  mkFAssimpNode (map registered (children t)) [] (name t) (worldTransform t)
    (exportObjects t) 0 [] aiNode_base_init.

Lemma registered_unfold t :
  registered t
  = mkFAssimpNode (map registered (children t)) [] (name t) (worldTransform t)
      (exportObjects t) 0 [] aiNode_base_init.
Proof. destruct t. reflexivity. Qed.

Lemma registered_eq t t' :
  name t' = name t -> worldTransform t' = worldTransform t ->
  exportObjects t' = exportObjects t ->
  map registered (children t') = map registered (children t) ->
  registered t' = registered t.
Proof.
  intros Hn Hw Ho Hc.
  rewrite (registered_unfold t'), (registered_unfold t), Hn, Hw, Ho, Hc. reflexivity.
Qed.

Lemma tree_sources_registered : forall t, tree_sources (registered t) = tree_sources t.
Proof.
  induction t as [t IH] using FAssimpNode_induction.
  rewrite registered_unfold, (tree_sources_unfold t), tree_sources_unfold. simpl.
  f_equal. f_equal. rewrite map_map. apply map_ext_Forall. exact IH.
Qed.

Lemma registered_gather_tree param : forall t, registered (gather_tree param t) = registered t.
Proof.
  induction t as [t IH] using FAssimpNode_induction.
  apply registered_eq; rewrite gather_tree_unfold, ?gathered_batch_spec; try reflexivity.
  rewrite set_children_children, map_map. apply map_ext_Forall. exact IH.
Qed.

Lemma registered_bound param :
  forall t parent, registered (SetDataAndPtrsToParentClass parent t param) = registered t.
Proof.
  induction t as [t IH] using FAssimpNode_induction. intros parent.
  apply registered_eq; try (destruct t; reflexivity).
  rewrite SetDataAndPtrsToParentClass_children, map_map. apply map_ext_Forall.
  eapply Forall_impl; [exact IH|]. intros c Hc. apply Hc.
Qed.

Lemma registered_ClearExportData : forall t, registered (ClearExportData t) = registered t.
Proof.
  induction t as [t IH] using FAssimpNode_induction.
  apply registered_eq; try (destruct t; reflexivity).
  destruct t as [cs refs nm wt objs idx gath base]. simpl in *.
  rewrite map_map. apply map_ext_Forall. exact IH.
Qed.

(** Creating meshes writes the mesh references of the node and empties its
    gathered sections, nothing else. *)
Lemma create_mesh_node scene this section scene' this' :
  create_mesh (scene, this) section = Some (scene', this') ->
  this' = set_meshRefIndices this (meshRefIndices this').
Proof.
  unfold create_mesh, mbind, option_bind. cbv zeta. intros H.
  repeat case_match; simplify_eq; reflexivity.
Qed.

Lemma create_meshes_node sections :
  forall scene this scene' this',
    create_meshes (scene, this) sections = Some (scene', this') ->
    this' = set_meshRefIndices this (meshRefIndices this').
Proof.
  induction sections as [|section rest IH]; intros scene this scene' this' H;
    cbn [create_meshes] in H.
  - injection H as <- <-. destruct this. reflexivity.
  - destruct (create_mesh (scene, this) section) as [[s1 t1]|] eqn:Hone; [|discriminate].
    rewrite (IH _ _ _ _ H), (create_mesh_node _ _ _ _ _ Hone). reflexivity.
Qed.

Lemma CreateAssimpMeshesFromMeshData_node scene this param scene' this' :
  CreateAssimpMeshesFromMeshData scene this param = Some (scene', this') ->
  this' = set_meshRefIndices (set_gatheredExportables this []) (meshRefIndices this').
Proof.
  unfold CreateAssimpMeshesFromMeshData. intros H.
  destruct (group_sections _ _ _ _) as [m|]; simpl in H; [|discriminate].
  exact (create_meshes_node _ _ _ _ _ H).
Qed.

Definition keeps_registration (root : FAssimpNode) (param : FRuntimeMeshExportParam)
    (t : FAssimpNode) : Prop :=
  forall self s s' t',
    ProcessGatheredData_Internal root param t self s = Some (s', t') ->
    registered t' = registered t.

Lemma process_children_registration root param self cs :
  Forall (keeps_registration root param) cs ->
  forall i s s' cs',
    process_children root param self cs i s = Some (s', cs') ->
    map registered cs' = map registered cs.
Proof.
  induction 1 as [|c cs Hc _ IH]; intros i s s' cs' H; cbn [process_children] in H.
  - injection H as <- <-. reflexivity.
  - fold (process_children root param self) in H.
    destruct (process_children root param self cs (S i) s) as [[s1 later]|] eqn:Hlater;
      [|discriminate].
    destruct (ProcessGatheredData_Internal root param c (i :: self) s1)
      as [[s2 c2]|] eqn:Hchild; [|discriminate].
    injection H as <- <-. simpl.
    rewrite (Hc _ _ _ _ Hchild), (IH _ _ _ _ Hlater). reflexivity.
Qed.

Lemma ProcessGatheredData_Internal_registration root param :
  forall t, keeps_registration root param t.
Proof.
  induction t as [t IH] using FAssimpNode_induction. intros self s s' t' H.
  rewrite ProcessGatheredData_Internal_unfold in H.
  destruct (GetHierarchicalName root self) as [hname|]; [|discriminate].
  destruct (CreateAssimpMeshesFromMeshData s t param) as [[s1 created]|] eqn:Hcreate;
    [|discriminate].
  cbv zeta in H.
  match type of H with
  | context [process_children _ _ _ _ _ ?x] =>
      destruct (process_children root param self (children t) 0%nat x)
        as [[s3 processed]|] eqn:Hprocess; [|discriminate]
  end.
  injection H as _ <-.
  rewrite (CreateAssimpMeshesFromMeshData_node _ _ _ _ _ Hcreate).
  apply registered_eq; try reflexivity.
  rewrite set_children_children.
  exact (process_children_registration _ _ _ _ IH _ _ _ _ Hprocess).
Qed.

Lemma ProcessGatheredData_Recursive_registration s param s' :
  ProcessGatheredData_Recursive s param = Some s' ->
  registered (rootNode s') = registered (rootNode s).
Proof.
  unfold ProcessGatheredData_Recursive.
  set (s0 := WriteToLogWithNewLine s _).
  assert (Hr0 : rootNode s0 = rootNode s) by apply WriteToLogWithNewLine_frame.
  destruct (ProcessGatheredData_Internal (rootNode s0) param (rootNode s0) [] s0)
    as [[s1 root1]|] eqn:Hbuild; simpl; [|discriminate].
  intros H. injection H as <-.
  destruct (WriteToLogWithNewLine_frame (set_rootNode s1 root1)
              (Printf "End processing gathered data. Duration: %.3fs" [arg_seconds]))
    as (-> & _).
  simpl. rewrite <- Hr0.
  exact (ProcessGatheredData_Internal_registration _ _ _ _ _ _ _ Hbuild).
Qed.

Lemma PrepareSceneForExport_registration scene param prepared :
  fresh (rootNode scene) ->
  cache_valid scene ->
  Num (materials scene) = Num (uniqueMaterials scene) ->
  PrepareSceneForExport scene param = Some prepared ->
  registered (rootNode prepared) = registered (rootNode scene).
Proof.
  intros Hfresh Hvalid Hlen Hprep.
  destruct (PrepareSceneForExport_phases scene param Hfresh Hvalid Hlen)
    as (g & b & _ & Hr & _ & _ & _ & Hb & _ & _ & Hprep').
  rewrite Hprep in Hprep'. injection Hprep' as ->.
  simpl. rewrite registered_bound, (ProcessGatheredData_Recursive_registration _ _ _ Hb).
  destruct (WriteToLogWithNewLine_frame g
              (Printf "End gather mesh data. Duration: %.3fs" [arg_seconds]))
    as (-> & _).
  rewrite Hr. apply registered_gather_tree.
Qed.

(** The export is turned down before the scene is prepared. *)
Lemma Export_not_ready this param result :
  bIsExporting this = false ->
  negb (bOverrideExisting param) && FileExists (file param) = true
  \/ CreateDirectoryTree (FPaths_GetPath (file param)) = false ->
  Export this param result
  = Some (set_codec_result this aiReturn_FAILURE EmptyString,
          mkFRuntimeMeshExportResult false EmptyString
            (if negb (bOverrideExisting param) && FileExists (file param)
             then Printf "File %s does already exist!" [arg_s (file param)]
             else Printf "Could not create directory: %s"
                         [arg_s (FPaths_GetPath (file param))])
            (result_numObjectsSkipped result)).
Proof.
  intros Hidle Hno. unfold Export, PreExportWork. rewrite Hidle.
  destruct (negb (bOverrideExisting param) && FileExists (file param)) eqn:Hfile.
  - reflexivity.
  - destruct Hno as [Hno|Hdir]; [discriminate|]. rewrite Hdir. reflexivity.
Qed.

(** X1.  [Export] on an idle exporter gives up before it touches the scene
    when the target file exists and must not be overridden, or when the
    directory of the target cannot be created: the result is a failure
    whose error is the one message of the first check that failed and whose
    log is empty, the skipped count of the result is left as the caller
    passed it, and the exporter stays idle with its scene as it was. *)
Theorem Export_turned_down_before_preparing this param result :
  bIsExporting this = false ->
  (bOverrideExisting param = false /\ FileExists (file param) = true)
  \/ CreateDirectoryTree (FPaths_GetPath (file param)) = false ->
  exists this' result',
    Export this param result = Some (this', result')
    /\ bSuccess result' = false
    /\ error result'
       = (if negb (bOverrideExisting param) && FileExists (file param)
          then Printf "File %s does already exist!" [arg_s (file param)]
          else Printf "Could not create directory: %s"
                      [arg_s (FPaths_GetPath (file param))])
    /\ result_exportLog result' = EmptyString
    /\ result_numObjectsSkipped result' = result_numObjectsSkipped result
    /\ bIsExporting this' = false
    /\ scene this' = scene this.
Proof.
  intros Hidle Hno.
  rewrite (Export_not_ready this param result Hidle).
  - eexists _, _. split; [reflexivity|]. simpl. repeat split. exact Hidle.
  - destruct Hno as [[-> ->]|Hdir]; [left; reflexivity|right; exact Hdir].
Qed.

(** The call of the codec in [Export] on the prepared scene. *)
Definition export_run (param : FRuntimeMeshExportParam) (prepared : FAssimpScene)
  : codec_run :=
  Exporter_Export
    (WriteToLogWithNewLine (log_scene_counts prepared) "Begin export scene.")
    (TCHAR_TO_ANSI (formatId param)) (TCHAR_TO_ANSI (file param)).

Lemma string_app_nonempty (a b : string) :
  b <> EmptyString -> (a ++ b)%string <> EmptyString.
Proof.
  intros Hb. destruct a as [|c a]; simpl; [exact Hb|discriminate].
Qed.

Lemma NewLineAndAppend_nonempty (appendTo append : FString) :
  append <> EmptyString -> NewLineAndAppend appendTo append <> EmptyString.
Proof. intros H. unfold NewLineAndAppend. apply string_app_nonempty. exact H. Qed.

Lemma NewLineAndAppend_empty (append : FString) :
  NewLineAndAppend EmptyString append = append.
Proof. reflexivity. Qed.

(** The verdict of [PostExportWork], and the error text next to it. *)
Lemma PostExportWork_verdict this result :
  let '(_, result', success) := PostExportWork this result in
  (success = true
   <-> aiExporterReturn this = aiReturn_SUCCESS
       /\ aiExporterError this = EmptyString /\ error result = EmptyString)
  /\ (success = true <-> error result' = EmptyString).
Proof.
  unfold PostExportWork.
  destruct (String.eqb_spec (aiExporterError this) EmptyString) as [Herr|Herr];
    cbn [negb].
  - destruct (aiExporterReturn this); cbv zeta.
    + destruct (String.eqb_spec (error result) EmptyString) as [He|He]; cbn [negb];
        destruct (exportLog (scene this)); simpl; split; split;
        try discriminate; try (intros (_ & _ & H); contradiction);
        try (intros _; repeat split; assumption); try (intros _; assumption);
        try (intros H; contradiction).
    + destruct (exportLog (scene this)); simpl; split; split; try discriminate;
        try (intros (H & _); discriminate);
        intros H; exfalso; revert H; apply NewLineAndAppend_nonempty; discriminate.
    + destruct (exportLog (scene this)); simpl; split; split; try discriminate;
        try (intros (H & _); discriminate);
        intros H; exfalso; revert H; apply NewLineAndAppend_nonempty; discriminate.
  - assert (Hne : NewLineAndAppend (error result) (aiExporterError this) <> EmptyString)
      by (apply NewLineAndAppend_nonempty; exact Herr).
    destruct (aiExporterReturn this); cbv zeta.
    + cbn [error set_error].
      destruct (String.eqb_spec (NewLineAndAppend (error result) (aiExporterError this))
                  EmptyString) as [He|He]; [contradiction|]. cbn [negb].
      destruct (exportLog (scene this)); simpl; split; split; try discriminate;
        try (intros (_ & H & _); contradiction); intros H; contradiction.
    + destruct (exportLog (scene this)); simpl; split; split; try discriminate;
        try (intros (H & _); discriminate);
        intros H; exfalso; revert H; apply NewLineAndAppend_nonempty; discriminate.
    + destruct (exportLog (scene this)); simpl; split; split; try discriminate;
        try (intros (H & _); discriminate);
        intros H; exfalso; revert H; apply NewLineAndAppend_nonempty; discriminate.
Qed.

(** [Export] once [PreExportWork] has let it pass. *)
Lemma Export_ready this param result prepared :
  bIsExporting this = false ->
  bOverrideExisting param = true \/ FileExists (file param) = false ->
  CreateDirectoryTree (FPaths_GetPath (file param)) = true ->
  PrepareSceneForExport (logging_scene this param) param = Some prepared ->
  let run := export_run param prepared in
  let logged_scene :=
    fold_left WriteToLogWithNewLine (logged run)
      (WriteToLogWithNewLine (log_scene_counts prepared) "Begin export scene.") in
  let busy :=
    mkURuntimeMeshExporter true (logging_scene this param) aiReturn_FAILURE EmptyString
      (asyncResult this) (delegatesBound this) in
  let cleared :=
    mkFRuntimeMeshExportResult (bSuccess result) EmptyString EmptyString
      (result_numObjectsSkipped result) in
  Export this param result
  = match outcome run with
    | codec_returned ret =>
        let '(this', result', success) :=
          PostExportWork
            (set_scene (set_codec_result busy ret (errorString run))
               (WriteToLogWithNewLine logged_scene
                  (Printf "End export scene. Duration: %.3fs" [arg_seconds])))
            cleared in
        Some (this', set_bSuccess result' success)
    | codec_threw what =>
        let '(this', result', success) :=
          PostExportWork
            (set_scene (set_codec_result busy aiReturn_FAILURE (errorString run))
               (WriteToLogWithNewLine logged_scene
                  (Printf "Exception thrown during export: %s" [arg_s what])))
            (set_error cleared
               (Printf "Exception thrown during export: %s" [arg_s what])) in
        Some (this', set_bSuccess result' success)
    end.
Proof.
  intros Hidle Hfile Hdir Hprep. cbv zeta.
  unfold Export, PreExportWork. rewrite Hidle.
  replace (negb (bOverrideExisting param) && FileExists (file param)) with false
    by (destruct Hfile as [-> | ->]; [reflexivity|rewrite andb_false_r; reflexivity]).
  rewrite Hdir. cbn [negb]. cbv zeta. cbn [negb scene set_scene set_codec_result].
  change (set_exportLog (set_bLogToUnreal (scene this) (bLogToUnreal_param param)) _)
    with (logging_scene this param).
  rewrite Hprep.
  match goal with
  | |- context [Some prepared ≫= ?f] => change (Some prepared ≫= f) with (f prepared)
  end.
  cbv beta zeta. fold (export_run param prepared).
  destruct (outcome (export_run param prepared)) as [ret|what]; reflexivity.
Qed.

(** X2.  Once [PreExportWork] has let an export pass, [Export] reports
    success exactly when the codec returned [aiReturn_SUCCESS], threw
    nothing and left an empty error string; and the result carries an
    error text exactly when it reports a failure. *)
Theorem Export_success_iff this param result :
  exporter_ok this ->
  bOverrideExisting param = true \/ FileExists (file param) = false ->
  CreateDirectoryTree (FPaths_GetPath (file param)) = true ->
  exists this' result' prepared,
    PrepareSceneForExport (logging_scene this param) param = Some prepared
    /\ Export this param result = Some (this', result')
    /\ (bSuccess result' = true
        <-> outcome (export_run param prepared) = codec_returned aiReturn_SUCCESS
            /\ errorString (export_run param prepared) = EmptyString)
    /\ (bSuccess result' = true <-> error result' = EmptyString).
Proof.
  intros (Hidle & Hclean & Hvalid & Hm & Hmat & Hu) Hfile Hdir.
  destruct (PrepareSceneForExport_spec (logging_scene this param) param)
    as (prepared & Hprep & _).
  { apply clean_fresh. exact Hclean. }
  { exact Hvalid. }
  { simpl. rewrite Hmat, Hu. reflexivity. }
  pose proof (Export_ready this param result prepared Hidle Hfile Hdir Hprep) as Hexp.
  cbv zeta in Hexp.
  destruct (outcome (export_run param prepared)) as [ret|what] eqn:Hout.
  - match type of Hexp with
    | context [PostExportWork ?e ?r] =>
        pose proof (PostExportWork_verdict e r) as Hverdict;
        destruct (PostExportWork e r) as [[e' r'] ok]
    end.
    cbn [aiExporterReturn aiExporterError set_scene set_codec_result error] in Hverdict.
    destruct Hverdict as [Hok Herr].
    exists e', (set_bSuccess r' ok), prepared.
    split; [exact Hprep|]. split; [exact Hexp|]. cbn [bSuccess error set_bSuccess].
    split; [|exact Herr]. rewrite Hok. split.
    + intros (-> & He & _). split; [exact Hout|exact He].
    + intros (Hret & He). rewrite Hout in Hret. injection Hret as ->.
      repeat split. exact He.
  - match type of Hexp with
    | context [PostExportWork ?e ?r] =>
        pose proof (PostExportWork_verdict e r) as Hverdict;
        destruct (PostExportWork e r) as [[e' r'] ok]
    end.
    cbn [aiExporterReturn aiExporterError set_scene set_codec_result error] in Hverdict.
    destruct Hverdict as [Hok Herr].
    exists e', (set_bSuccess r' ok), prepared.
    split; [exact Hprep|]. split; [exact Hexp|]. cbn [bSuccess error set_bSuccess].
    split; [|exact Herr]. rewrite Hok. split.
    + intros (Hret & _). discriminate.
    + intros (Hret & _). rewrite Hout in Hret. discriminate.
Qed.

(** X3.  An export changes nothing of what was registered: whatever its
    outcome, the tree of the exporter has afterwards the same nodes with the
    same names, world transforms and sources in the same order, and nothing
    gathered, so that the exporter can export the same scene again. *)
Theorem Export_keeps_the_registration this param result this' result' :
  exporter_ok this ->
  Export this param result = Some (this', result') ->
  registered (rootNode (scene this')) = registered (rootNode (scene this))
  /\ tree_sources (rootNode (scene this')) = tree_sources (rootNode (scene this))
  /\ clean (rootNode (scene this')).
Proof.
  intros Hok Hexp. pose proof Hok as (Hidle & Hclean & Hvalid & Hm & Hmat & Hu).
  assert (Hreg : registered (rootNode (scene this')) = registered (rootNode (scene this))
                 /\ clean (rootNode (scene this'))).
  { destruct (negb (bOverrideExisting param) && FileExists (file param)) eqn:Hfile.
    { rewrite (Export_not_ready this param result Hidle) in Hexp
        by (left; exact Hfile).
      injection Hexp as <- _. split; [reflexivity|exact Hclean]. }
    destruct (CreateDirectoryTree (FPaths_GetPath (file param))) eqn:Hdir.
    2:{ rewrite (Export_not_ready this param result Hidle) in Hexp
          by (right; exact Hdir).
        injection Hexp as <- _. split; [reflexivity|exact Hclean]. }
    destruct (Export_idle_spec this param result Hidle) as
      (e1 & r1 & prepared & Hexp1 & _ & _ & Hprep & _ & _ & _ & Hroot & _).
    { destruct (bOverrideExisting param); [left; reflexivity|right; exact Hfile]. }
    { exact Hdir. }
    { apply clean_fresh. exact Hclean. }
    { exact Hvalid. }
    { rewrite Hmat, Hu. reflexivity. }
    rewrite Hexp in Hexp1. injection Hexp1 as <- _.
    rewrite Hroot. split; [|apply clean_ClearExportData].
    rewrite registered_ClearExportData.
    apply (PrepareSceneForExport_registration (logging_scene this param) param prepared).
    - apply clean_fresh. exact Hclean.
    - exact Hvalid.
    - simpl. rewrite Hmat, Hu. reflexivity.
    - exact Hprep. }
  destruct Hreg as [Hreg Hc]. split; [exact Hreg|]. split; [|exact Hc].
  rewrite <- (tree_sources_registered (rootNode (scene this'))), Hreg.
  apply tree_sources_registered.
Qed.

(** X4.  The node cache of the scene is never emptied: an export that gets
    past [PreExportWork] appends the nodes of the tree in pre-order to the
    cache it finds, an export that is turned down leaves it alone, and the
    pointers of the cache stay valid. *)
Theorem Export_appends_to_the_cache this param result this' result' :
  exporter_ok this ->
  Export this param result = Some (this', result') ->
  allNodesHelper (scene this')
  = allNodesHelper (scene this)
    ++ (if (bOverrideExisting param || negb (FileExists (file param)))
           && CreateDirectoryTree (FPaths_GetPath (file param))
        then GetNodesRecursive (rootNode (scene this)) [] []
        else [])
  /\ cache_valid (scene this').
Proof.
  intros Hok Hexp. pose proof Hok as (Hidle & Hclean & Hvalid & Hm & Hmat & Hu).
  destruct (negb (bOverrideExisting param) && FileExists (file param)) eqn:Hfile.
  { rewrite (Export_not_ready this param result Hidle) in Hexp by (left; exact Hfile).
    injection Hexp as <- _.
    replace (bOverrideExisting param || negb (FileExists (file param))) with false
      by (destruct (bOverrideExisting param), (FileExists (file param));
          simpl in *; congruence).
    simpl. rewrite app_nil_r. split; [reflexivity|exact Hvalid]. }
  replace (bOverrideExisting param || negb (FileExists (file param))) with true
    by (destruct (bOverrideExisting param), (FileExists (file param));
        simpl in *; congruence).
  destruct (CreateDirectoryTree (FPaths_GetPath (file param))) eqn:Hdir.
  2:{ rewrite (Export_not_ready this param result Hidle) in Hexp by (right; exact Hdir).
      injection Hexp as <- _. simpl. rewrite app_nil_r.
      split; [reflexivity|exact Hvalid]. }
  destruct (Export_ok this param result Hok) as (e0 & r0 & Hexp0 & Hok0).
  rewrite Hexp in Hexp0. injection Hexp0 as <- _.
  destruct (Export_idle_spec this param result Hidle) as
    (e1 & r1 & prepared & Hexp1 & _ & _ & Hprep & _ & _ & _ & _ & Hcache).
  { destruct (bOverrideExisting param); [left; reflexivity|right; exact Hfile]. }
  { exact Hdir. }
  { apply clean_fresh. exact Hclean. }
  { exact Hvalid. }
  { rewrite Hmat, Hu. reflexivity. }
  rewrite Hexp in Hexp1. injection Hexp1 as <- _.
  destruct (PrepareSceneForExport_cache (logging_scene this param) param prepared)
    as (_ & Hgrow & _); [| | |exact Hprep|].
  { apply clean_fresh. exact Hclean. }
  { exact Hvalid. }
  { simpl. rewrite Hmat, Hu. reflexivity. }
  split; [|exact (proj1 (proj2 (proj2 Hok0)))].
  rewrite Hcache, Hgrow. reflexivity.
Qed.

(** ** Where a registration ends up *)

(** The names of the nodes met from [n] along child indices, outermost
    first, and the hierarchical name that belongs to such a list. *)
Fixpoint names_along (n : FAssimpNode) (path : list nat) : option (list FName) :=
  match path with
  | [] => Some []
  | i :: rest =>
      match children n !! i with
      | Some c => (fun names => name c :: names) <$> names_along c rest
      | None => None
      end
  end.

Definition dotted (names : list FName) : FString :=
  fold_left (fun s nm => (s ++ "." ++ ToString nm)%string) names "root"%string.

(** The same node, but for its children. *)
Definition same_node (m m' : FAssimpNode) : Prop := m' = set_children m (children m').

Lemma same_node_refl m : same_node m m.
Proof. unfold same_node. symmetry. apply node_eta. Qed.

Lemma same_node_trans a b c : same_node a b -> same_node b c -> same_node a c.
Proof.
  unfold same_node. intros Hab Hbc. rewrite Hbc at 1. rewrite Hab at 1.
  apply set_children_twice.
Qed.

Lemma same_node_fields m m' :
  same_node m m' ->
  name m' = name m /\ worldTransform m' = worldTransform m
  /\ exportObjects m' = exportObjects m.
Proof. unfold same_node. intros ->. repeat split. Qed.

Lemma names_along_snoc :
  forall l n i,
    names_along n (l ++ [i])
    = match names_along n l, node_at n l with
      | Some names, Some m =>
          match children m !! i with
          | Some c => Some (names ++ [name c])
          | None => None
          end
      | _, _ => None
      end.
Proof.
  induction l as [|j l IH]; intros n i; simpl.
  - destruct (children n !! i); reflexivity.
  - destruct (children n !! j) as [c|]; [|reflexivity].
    rewrite IH. destruct (names_along c l) as [names|]; simpl; [|reflexivity].
    destruct (node_at c l) as [m|]; [|reflexivity].
    destruct (children m !! i); reflexivity.
Qed.

Lemma names_along_is_Some :
  forall l n, is_Some (node_at n l) -> is_Some (names_along n l).
Proof.
  induction l as [|j l IH]; intros n H; simpl in *; [eexists; reflexivity|].
  destruct (children n !! j) as [c|]; [|destruct H; discriminate].
  destruct (IH c H) as [names ->]. eexists. reflexivity.
Qed.

Lemma dotted_snoc names nm :
  dotted (names ++ [nm]) = (dotted names ++ "." ++ ToString nm)%string.
Proof. unfold dotted. rewrite fold_left_app. reflexivity. Qed.

(** [GetHierarchicalName] reads the names along the pointer. *)
Lemma GetHierarchicalName_names root :
  forall p, GetHierarchicalName root p = dotted <$> names_along root (rev p).
Proof.
  induction p as [|i parent IH].
  - reflexivity.
  - rewrite GetHierarchicalName_child, IH. unfold deref. simpl rev.
    rewrite names_along_snoc, node_at_app.
    destruct (node_at root (rev parent)) as [m|] eqn:Hm; simpl.
    + destruct (names_along_is_Some (rev parent) root) as [names ->];
        [rewrite Hm; eexists; reflexivity|].
      simpl. destruct (children m !! i) as [c|]; simpl; [|reflexivity].
      rewrite dotted_snoc. reflexivity.
    + destruct (names_along root (rev parent)); reflexivity.
Qed.

(** The node [FindOrCreateNode] returns bears the names of the path, and is
    either the node that was there or a new one. *)
Lemma FindOrCreateNode_names (path : list FString) :
  forall this this' found,
    FindOrCreateNode this path = (this', found) ->
    names_along this' found = Some (map FName_of path).
Proof.
  induction path as [|seg rest IH]; intros this this' found H; simpl in H.
  - injection H as <- <-. reflexivity.
  - destruct (list_find (fun child => name child = FName_of seg) (children this))
      as [[i c]|] eqn:Hfind.
    + destruct (FindOrCreateNode c rest) as [c' p] eqn:Hrec.
      injection H as <- <-. simpl.
      apply list_find_Some in Hfind as (Hi & Hname & _).
      rewrite list_lookup_insert_eq by (apply lookup_lt_Some in Hi; exact Hi).
      rewrite (IH _ _ _ Hrec). simpl.
      pose proof (FindOrCreateNode_name rest c) as Hn. rewrite Hrec in Hn.
      simpl in Hn. rewrite Hn, Hname. reflexivity.
    + destruct (FindOrCreateNode (new_FAssimpNode (FName_of seg)) rest)
        as [c' p] eqn:Hrec.
      injection H as <- <-. simpl.
      rewrite lookup_app_r by lia. rewrite Nat.sub_diag. simpl.
      rewrite (IH _ _ _ Hrec). simpl.
      pose proof (FindOrCreateNode_name rest (new_FAssimpNode (FName_of seg))) as Hn.
      rewrite Hrec in Hn. simpl in Hn. rewrite Hn. reflexivity.
Qed.

Lemma FindOrCreateNode_found_node (path : list FString) :
  forall this this' found,
    FindOrCreateNode this path = (this', found) ->
    exists n0,
      node_at this' found = Some n0
      /\ ((exists m, node_at this found = Some m /\ same_node m n0)
          \/ (node_at this found = None /\ same_node (new_FAssimpNode (name n0)) n0)).
Proof.
  induction path as [|seg rest IH]; intros this this' found H; simpl in H.
  - injection H as <- <-. exists this. split; [reflexivity|]. left.
    exists this. split; [reflexivity|apply same_node_refl].
  - destruct (list_find (fun child => name child = FName_of seg) (children this))
      as [[i c]|] eqn:Hfind.
    + destruct (FindOrCreateNode c rest) as [c' p] eqn:Hrec.
      injection H as <- <-. simpl.
      apply list_find_Some in Hfind as (Hi & _ & _).
      rewrite list_lookup_insert_eq by (apply lookup_lt_Some in Hi; exact Hi).
      rewrite Hi. exact (IH _ _ _ Hrec).
    + destruct (FindOrCreateNode (new_FAssimpNode (FName_of seg)) rest)
        as [c' p] eqn:Hrec.
      injection H as <- <-. simpl.
      rewrite lookup_app_r by lia. rewrite Nat.sub_diag. simpl.
      rewrite lookup_ge_None_2 by lia.
      destruct (IH _ _ _ Hrec) as (n0 & Hn0 & Hcase).
      exists n0. split; [exact Hn0|]. right. split; [reflexivity|].
      destruct Hcase as [(m & Hm & Hsame)|[_ Hnew]]; [|exact Hnew].
      destruct p as [|j p]; simpl in Hm; [|discriminate].
      injection Hm as <-.
      destruct (same_node_fields _ _ Hsame) as (-> & _). exact Hsame.
Qed.

(** [FindOrCreateNode] keeps every node where it is and as it is, but for
    the children it may have got. *)
Lemma FindOrCreateNode_keeps (path : list FString) :
  forall t q m,
    node_at t q = Some m ->
    exists m', node_at (fst (FindOrCreateNode t path)) q = Some m' /\ same_node m m'.
Proof.
  induction path as [|seg rest IH]; intros t q m Hq; simpl.
  - exists m. split; [exact Hq|apply same_node_refl].
  - destruct (list_find (fun child => name child = FName_of seg) (children t))
      as [[i c]|] eqn:Hfind.
    + apply list_find_Some in Hfind as (Hi & _ & _).
      specialize (IH c). destruct (FindOrCreateNode c rest) as [c' p]. simpl in *.
      destruct q as [|j q]; simpl in *.
      { injection Hq as <-. eexists. split; [reflexivity|]. reflexivity. }
      destruct (decide (j = i)) as [->|Hne].
      * rewrite list_lookup_insert_eq by (apply lookup_lt_Some in Hi; exact Hi).
        rewrite Hi in Hq. exact (IH q m Hq).
      * rewrite list_lookup_insert_ne by (intros E; apply Hne; symmetry; exact E).
        exists m. split; [exact Hq|apply same_node_refl].
    + destruct (FindOrCreateNode (new_FAssimpNode (FName_of seg)) rest) as [c' p].
      simpl. destruct q as [|j q]; simpl in *.
      { injection Hq as <-. eexists. split; [reflexivity|]. reflexivity. }
      destruct (children t !! j) as [c|] eqn:Hj; [|discriminate].
      rewrite (lookup_app_l_Some _ _ _ _ Hj).
      exists m. split; [exact Hq|apply same_node_refl].
Qed.

Lemma tree_sources_FindOrCreateNode (path : list FString) :
  forall t, tree_sources (fst (FindOrCreateNode t path)) = tree_sources t.
Proof.
  induction path as [|seg rest IH]; intros t; simpl; [reflexivity|].
  destruct (list_find (fun child => name child = FName_of seg) (children t))
    as [[i c]|] eqn:Hfind.
  - apply list_find_Some in Hfind as (Hi & _ & _).
    specialize (IH c). destruct (FindOrCreateNode c rest) as [c' p]. simpl in *.
    rewrite (tree_sources_unfold t). f_equal. f_equal.
    change (map tree_sources) with (fmap (M := list) tree_sources).
    rewrite list_fmap_insert, IH. apply list_insert_id.
    rewrite list_lookup_fmap, Hi. reflexivity.
  - specialize (IH (new_FAssimpNode (FName_of seg))).
    destruct (FindOrCreateNode (new_FAssimpNode (FName_of seg)) rest) as [c' p].
    simpl in *.
    rewrite (tree_sources_unfold t). f_equal.
    rewrite map_app, concat_app. simpl. rewrite IH. simpl. rewrite app_nil_r.
    reflexivity.
Qed.

(** Writing to one node leaves the others as they are. *)
Lemma node_at_update_other (f : FAssimpNode -> FAssimpNode) :
  (forall n, children (f n) = children n) ->
  forall path q t m,
    node_at t q = Some m -> q <> path ->
    exists m', node_at (node_update t path f) q = Some m' /\ same_node m m'.
Proof.
  intros Hch. induction path as [|i path IH]; intros q t m Hq Hne; simpl.
  - destruct q as [|j q]; [contradiction|]. simpl in *. rewrite Hch.
    exists m. split; [exact Hq|apply same_node_refl].
  - destruct (children t !! i) as [c|] eqn:Hc.
    2:{ exists m. split; [exact Hq|apply same_node_refl]. }
    destruct q as [|j q]; simpl in *.
    { injection Hq as <-. eexists. split; [reflexivity|reflexivity]. }
    destruct (decide (j = i)) as [->|Hji].
    + rewrite list_lookup_insert_eq by (apply lookup_lt_Some in Hc; exact Hc).
      rewrite Hc in Hq. apply (IH q c m Hq). intros ->. apply Hne. reflexivity.
    + rewrite list_lookup_insert_ne by (intros E; apply Hji; symmetry; exact E).
      exists m. split; [exact Hq|apply same_node_refl].
Qed.

Lemma name_node_update (f : FAssimpNode -> FAssimpNode) :
  (forall n, name (f n) = name n) ->
  forall path t, name (node_update t path f) = name t.
Proof.
  intros Hname. destruct path as [|i path]; intros t; simpl; [apply Hname|].
  destruct (children t !! i); reflexivity.
Qed.

Lemma names_along_update (f : FAssimpNode -> FAssimpNode) :
  (forall n, name (f n) = name n) ->
  (forall n, children (f n) = children n) ->
  forall path q t, names_along (node_update t path f) q = names_along t q.
Proof.
  intros Hname Hch. induction path as [|i path IH]; intros q t; simpl.
  - destruct q as [|j q]; simpl; [reflexivity|]. rewrite Hch. reflexivity.
  - destruct (children t !! i) as [c|] eqn:Hc; [|reflexivity].
    destruct q as [|j q]; simpl; [reflexivity|].
    destruct (decide (j = i)) as [->|Hji].
    + rewrite list_lookup_insert_eq by (apply lookup_lt_Some in Hc; exact Hc).
      rewrite Hc, IH, (name_node_update f Hname). reflexivity.
    + rewrite list_lookup_insert_ne by (intros E; apply Hji; symmetry; exact E).
      reflexivity.
Qed.

Lemma concat_insert_Permutation {A : Type} (ls : list (list A)) (i : nat)
    (l l' extra : list A) :
  ls !! i = Some l -> Permutation l' (extra ++ l) ->
  Permutation (concat (<[i := l']> ls)) (extra ++ concat ls).
Proof.
  intros Hi Hperm.
  rewrite insert_take_drop by (apply lookup_lt_Some in Hi; exact Hi).
  rewrite <- (take_drop_middle ls i l Hi) at 3.
  rewrite !concat_app. simpl. rewrite Hperm, <- app_assoc.
  apply Permutation_app_swap_app.
Qed.

Lemma tree_sources_update (f : FAssimpNode -> FAssimpNode) (extra : list IMeshExportable) :
  (forall n, exportObjects (f n) = exportObjects n ++ extra) ->
  (forall n, children (f n) = children n) ->
  forall path t n,
    node_at t path = Some n ->
    Permutation (tree_sources (node_update t path f)) (extra ++ tree_sources t).
Proof.
  intros Hobj Hch. induction path as [|i path IH]; intros t n Hn; simpl in *.
  - injection Hn as ->.
    rewrite (tree_sources_unfold n), tree_sources_unfold, Hobj, Hch.
    rewrite <- app_assoc. apply Permutation_app_swap_app.
  - destruct (children t !! i) as [c|] eqn:Hc; [|discriminate].
    rewrite (tree_sources_unfold t), tree_sources_unfold. simpl.
    change (map tree_sources) with (fmap (M := list) tree_sources).
    rewrite list_fmap_insert.
    rewrite (concat_insert_Permutation _ i (tree_sources c) _ extra).
    + apply Permutation_app_swap_app.
    + rewrite list_lookup_fmap, Hc. reflexivity.
    + exact (IH c n Hn).
Qed.

Lemma tree_sources_update_same (f : FAssimpNode -> FAssimpNode) :
  (forall n, exportObjects (f n) = exportObjects n) ->
  (forall n, children (f n) = children n) ->
  forall path t, tree_sources (node_update t path f) = tree_sources t.
Proof.
  intros Hobj Hch. induction path as [|i path IH]; intros t; simpl.
  - rewrite (tree_sources_unfold t), tree_sources_unfold, Hobj, Hch. reflexivity.
  - destruct (children t !! i) as [c|] eqn:Hc; [|reflexivity].
    rewrite (tree_sources_unfold t), tree_sources_unfold. simpl. f_equal. f_equal.
    change (map tree_sources) with (fmap (M := list) tree_sources).
    rewrite list_fmap_insert, IH. apply list_insert_id.
    rewrite list_lookup_fmap, Hc. reflexivity.
Qed.

(** Registering at the node of a path, as [AddNode] and [AddExportObject]
    do: the node found or created, with its names, and the other nodes. *)
Lemma register_spec (r : FAssimpNode) (path : list FString)
    (f : FAssimpNode -> FAssimpNode) :
  (forall n, name (f n) = name n) ->
  (forall n, children (f n) = children n) ->
  forall root found,
    FindOrCreateNode r path = (root, found) ->
    exists n0,
      node_at (node_update root found f) found = Some (f n0)
      /\ GetHierarchicalName (node_update root found f) (rev found)
         = Some (dotted (map FName_of path))
      /\ match node_at r found with
         | Some m => same_node m n0
         | None => same_node (new_FAssimpNode (name n0)) n0
         end
      /\ (forall q m,
            node_at r q = Some m -> q <> found ->
            exists m', node_at (node_update root found f) q = Some m'
                       /\ same_node m m')
      /\ node_at root found = Some n0
      /\ tree_sources root = tree_sources r.
Proof.
  intros Hname Hch root found Hfind.
  destruct (FindOrCreateNode_found_node _ _ _ _ Hfind) as (n0 & Hn0 & Hcase).
  exists n0. split; [exact (node_at_update _ f _ _ Hn0)|]. split.
  { rewrite GetHierarchicalName_names, rev_involutive.
    rewrite (names_along_update f Hname Hch).
    rewrite (FindOrCreateNode_names _ _ _ _ Hfind). reflexivity. }
  split.
  { destruct Hcase as [(m & -> & Hsame)|[-> Hnew]]; assumption. }
  split.
  { intros q m Hq Hne.
    destruct (FindOrCreateNode_keeps path r q m Hq) as (m0 & Hm0 & Hsame0).
    rewrite Hfind in Hm0. simpl in Hm0.
    destruct (node_at_update_other f Hch found q root m0 Hm0 Hne) as (m' & Hm' & Hsame').
    exists m'. split; [exact Hm'|exact (same_node_trans _ _ _ Hsame0 Hsame')]. }
  split; [exact Hn0|].
  pose proof (tree_sources_FindOrCreateNode path r) as Hs. rewrite Hfind in Hs.
  exact Hs.
Qed.

(** X5.  [AddExportObject] on an idle exporter appends the source to the
    sources of one node and touches nothing else: the node is the one whose
    hierarchical name is "root" followed by the dot-separated parts of the
    source's node name (or of the overriding name), created with its
    missing ancestors when it was not there; every other node keeps its
    name, world transform and sources, and the sources of the tree are the
    old ones and the new one. *)
Theorem AddExportObject_registers_at_its_node (this : URuntimeMeshExporter)
    (exportable : IMeshExportable) (bOverrideNode : bool)
    (hierarchicalNodeName : FString) :
  bIsExporting this = false ->
  let path :=
    ParseIntoArray (if bOverrideNode then hierarchicalNodeName
                    else GetHierarchicalNodeName exportable) in
  let root := rootNode (scene this) in
  let root' :=
    rootNode (scene (AddExportObject this exportable bOverrideNode
                       hierarchicalNodeName)) in
  exists p n,
    deref root' p = Some n
    /\ GetHierarchicalName root' p = Some (dotted (map FName_of path))
    /\ exportObjects n
       = match deref root p with Some m => exportObjects m | None => [] end
         ++ [exportable]
    /\ (forall m, deref root p = Some m ->
                  name n = name m /\ worldTransform n = worldTransform m)
    /\ (forall q m,
          deref root q = Some m -> q <> p ->
          exists m', deref root' q = Some m'
                     /\ name m' = name m /\ worldTransform m' = worldTransform m
                     /\ exportObjects m' = exportObjects m)
    /\ Permutation (tree_sources root') (exportable :: tree_sources root).
Proof.
  intros Hidle path root root'. subst root'. unfold AddExportObject. rewrite Hidle.
  fold path. fold root.
  destruct (FindOrCreateNode root path) as [created found] eqn:Hfind.
  set (f := fun n : FAssimpNode => set_exportObjects n (exportObjects n ++ [exportable])).
  destruct (register_spec root path f (fun _ => eq_refl) (fun _ => eq_refl) _ _ Hfind)
    as (n0 & Hat & Hname & Hold & Hothers & Hn0 & Hsources).
  cbn [scene set_scene rootNode set_rootNode].
  exists (rev found), (f n0). unfold deref. rewrite rev_involutive.
  split; [exact Hat|]. split; [exact Hname|]. split.
  { destruct (node_at root found) as [m|].
    - destruct (same_node_fields _ _ Hold) as (_ & _ & <-). reflexivity.
    - destruct (same_node_fields _ _ Hold) as (_ & _ & Hnone).
      simpl. change (exportObjects n0 ++ [exportable] = [exportable]).
      rewrite Hnone. reflexivity. }
  split.
  { intros m Hm. rewrite Hm in Hold.
    destruct (same_node_fields _ _ Hold) as (Hn & Hw & _).
    split; [exact Hn|exact Hw]. }
  split.
  { intros q m Hq Hne.
    destruct (Hothers (rev q) m Hq) as (m' & Hm' & Hsame).
    { intros E. apply Hne. rewrite <- E. symmetry. apply rev_involutive. }
    exists m'. split; [exact Hm'|]. exact (same_node_fields _ _ Hsame). }
  rewrite (tree_sources_update f [exportable] (fun _ => eq_refl) (fun _ => eq_refl)
             found created n0 Hn0).
  rewrite Hsources. reflexivity.
Qed.

(** X6.  [AddNode] on an idle exporter sets the world transform of one node
    and touches nothing else: the node is the one whose hierarchical name is
    "root" followed by the dot-separated parts of the given name, created
    with its missing ancestors when it was not there; it keeps the sources
    it had, every other node keeps its name, world transform and sources,
    and the sources of the tree are the same. *)
Theorem AddNode_sets_one_world_transform this hierarchicalName nodeTransformWS :
  bIsExporting this = false ->
  let path := ParseIntoArray hierarchicalName in
  let root := rootNode (scene this) in
  let root' := rootNode (scene (AddNode this hierarchicalName nodeTransformWS)) in
  exists p n,
    deref root' p = Some n
    /\ GetHierarchicalName root' p = Some (dotted (map FName_of path))
    /\ worldTransform n = nodeTransformWS
    /\ exportObjects n
       = match deref root p with Some m => exportObjects m | None => [] end
    /\ (forall q m,
          deref root q = Some m -> q <> p ->
          exists m', deref root' q = Some m'
                     /\ name m' = name m /\ worldTransform m' = worldTransform m
                     /\ exportObjects m' = exportObjects m)
    /\ tree_sources root' = tree_sources root.
Proof.
  intros Hidle path root root'. subst root'. unfold AddNode. rewrite Hidle.
  fold path. fold root.
  destruct (FindOrCreateNode root path) as [created found] eqn:Hfind.
  set (f := fun n : FAssimpNode => set_worldTransform n nodeTransformWS).
  destruct (register_spec root path f (fun _ => eq_refl) (fun _ => eq_refl) _ _ Hfind)
    as (n0 & Hat & Hname & Hold & Hothers & Hn0 & Hsources).
  cbn [scene set_scene rootNode set_rootNode].
  exists (rev found), (f n0). unfold deref. rewrite rev_involutive.
  split; [exact Hat|]. split; [exact Hname|]. split; [reflexivity|]. split.
  { destruct (node_at root found) as [m|];
      destruct (same_node_fields _ _ Hold) as (_ & _ & Hobj); exact Hobj. }
  split.
  { intros q m Hq Hne.
    destruct (Hothers (rev q) m Hq) as (m' & Hm' & Hsame).
    { intros E. apply Hne. rewrite <- E. symmetry. apply rev_involutive. }
    exists m'. split; [exact Hm'|]. exact (same_node_fields _ _ Hsame). }
  rewrite <- Hsources.
  apply (tree_sources_update_same f (fun _ => eq_refl) (fun _ => eq_refl)).
Qed.

Lemma AddExportObject_idle this exportable bOverrideNode hierarchicalNodeName :
  bIsExporting (AddExportObject this exportable bOverrideNode hierarchicalNodeName)
  = bIsExporting this.
Proof.
  unfold AddExportObject. destruct (bIsExporting this) eqn:Hbusy; [exact Hbusy|].
  destruct (FindOrCreateNode _ _). exact Hbusy.
Qed.

Lemma AddExportObject_sources this exportable bOverrideNode hierarchicalNodeName :
  bIsExporting this = false ->
  Permutation
    (tree_sources (rootNode (scene (AddExportObject this exportable bOverrideNode
                                      hierarchicalNodeName))))
    (tree_sources (rootNode (scene this)) ++ [exportable]).
Proof.
  intros Hidle. unfold AddExportObject. rewrite Hidle.
  destruct (FindOrCreateNode (rootNode (scene this)) _) as [created found] eqn:Hfind.
  destruct (FindOrCreateNode_found_node _ _ _ _ Hfind) as (n0 & Hn0 & _).
  cbn [scene set_scene rootNode set_rootNode].
  rewrite (tree_sources_update
             (fun n => set_exportObjects n (exportObjects n ++ [exportable]))
             [exportable] (fun _ => eq_refl) (fun _ => eq_refl) found created n0 Hn0).
  pose proof (tree_sources_FindOrCreateNode
                (ParseIntoArray (if bOverrideNode then hierarchicalNodeName
                                 else GetHierarchicalNodeName exportable))
                (rootNode (scene this))) as Hs.
  rewrite Hfind in Hs. simpl in Hs. rewrite Hs. apply Permutation_app_comm.
Qed.

Lemma fold_AddExportObject_sources bOverrideNode hierarchicalNodeName
    (exportables : list IMeshExportable) :
  forall this,
    bIsExporting this = false ->
    let this' :=
      fold_left (fun this object =>
                   AddExportObject this object bOverrideNode hierarchicalNodeName)
                exportables this in
    bIsExporting this' = false
    /\ Permutation (tree_sources (rootNode (scene this')))
                   (tree_sources (rootNode (scene this)) ++ exportables).
Proof.
  induction exportables as [|object rest IH]; intros this Hidle; simpl.
  - split; [exact Hidle|]. rewrite app_nil_r. reflexivity.
  - destruct (IH (AddExportObject this object bOverrideNode hierarchicalNodeName))
      as [Hidle' Hperm].
    { rewrite AddExportObject_idle. exact Hidle. }
    split; [exact Hidle'|]. rewrite Hperm.
    rewrite (AddExportObject_sources this object _ _ Hidle), <- app_assoc. reflexivity.
Qed.

(** X7.  [AddObjectsIfExportable] on an idle exporter sorts the objects in
    two: those that implement the interface are registered, in their order,
    exactly as [AddExportObjects] registers them; the others are appended
    to [notExportable], in their order, after what it held.  No object is
    lost and none ends up in both. *)
Theorem AddObjectsIfExportable_sorts_the_objects (this : URuntimeMeshExporter)
    (objects : list UObject) (bOverrideNode : bool) (hierarchicalNodeName : FString)
    (notExportable : list UObject) :
  bIsExporting this = false ->
  AddObjectsIfExportable this objects bOverrideNode hierarchicalNodeName notExportable
  = (AddExportObjects this (omap as_MeshExportable objects) bOverrideNode
       hierarchicalNodeName,
     notExportable
     ++ List.filter (fun object => match as_MeshExportable object with
                                   | Some _ => false
                                   | None => true
                                   end) objects)
  /\ Permutation
       (tree_sources
          (rootNode (scene (fst (AddObjectsIfExportable this objects bOverrideNode
                                   hierarchicalNodeName notExportable)))))
       (tree_sources (rootNode (scene this)) ++ omap as_MeshExportable objects).
Proof.
  intros Hidle.
  assert (Heq : AddObjectsIfExportable this objects bOverrideNode hierarchicalNodeName
                  notExportable
                = (AddExportObjects this (omap as_MeshExportable objects) bOverrideNode
                     hierarchicalNodeName,
                   notExportable
                   ++ List.filter (fun object => match as_MeshExportable object with
                                                 | Some _ => false
                                                 | None => true
                                                 end) objects)).
  { unfold AddObjectsIfExportable, AddExportObjects. rewrite Hidle.
    revert this notExportable Hidle.
    induction objects as [|object rest IH]; intros this notExportable Hidle; simpl.
    - rewrite app_nil_r. reflexivity.
    - unfold AddObjectIfExportable at 2. rewrite Hidle.
      destruct (as_MeshExportable object) as [interfaceObject|]; simpl.
      + apply IH. rewrite AddExportObject_idle. exact Hidle.
      + rewrite (IH this (notExportable ++ [object]) Hidle), <- app_assoc.
        reflexivity. }
  split; [exact Heq|]. rewrite Heq. cbn [fst].
  unfold AddExportObjects. rewrite Hidle.
  exact (proj2 (fold_AddExportObject_sources _ _ _ this Hidle)).
Qed.

(** ** The scene handed to the codec *)

(** A property of every mesh that [create_mesh] makes of a valid section
    holds for every mesh the build phase adds to the pool. *)
Section MeshInvariant.

Variable P : FAssimpMesh -> Prop.
Hypothesis create_mesh_P :
  forall scene this section scene' this',
    section_valid section = true ->
    create_mesh (scene, this) section = Some (scene', this') ->
    exists mesh, meshes scene' = meshes scene ++ [mesh] /\ P mesh.

Definition adds_meshes (s s' : FAssimpScene) : Prop :=
  exists added, meshes s' = meshes s ++ added /\ Forall P added.

Lemma adds_meshes_refl s s' : meshes s' = meshes s -> adds_meshes s s'.
Proof. intros H. exists []. rewrite app_nil_r. split; [exact H|constructor]. Qed.

Lemma adds_meshes_trans s1 s2 s3 :
  adds_meshes s1 s2 -> adds_meshes s2 s3 -> adds_meshes s1 s3.
Proof.
  intros (a & Ha & HPa) (b & Hb & HPb). exists (a ++ b).
  rewrite Hb, Ha, app_assoc. split; [reflexivity|].
  apply Forall_app. split; assumption.
Qed.

Lemma adds_meshes_log s text : adds_meshes s (WriteToLogWithNewLine s text).
Proof. apply adds_meshes_refl. apply WriteToLogWithNewLine_frame. Qed.

Lemma create_meshes_adds sections :
  forall scene this scene' this',
    Forall (fun section => section_valid section = true) sections ->
    create_meshes (scene, this) sections = Some (scene', this') ->
    adds_meshes scene scene'.
Proof.
  induction sections as [|section rest IH]; intros scene this scene' this' Hall H;
    cbn [create_meshes] in H.
  - injection H as <- <-. apply adds_meshes_refl. reflexivity.
  - inversion Hall as [|? ? Hs Hrest]; subst.
    destruct (create_mesh (scene, this) section) as [[s1 t1]|] eqn:Hone; [|discriminate].
    destruct (create_mesh_P _ _ _ _ _ Hs Hone) as (mesh & Hm & HP).
    apply (adds_meshes_trans _ s1).
    + exists [mesh]. split; [exact Hm|]. constructor; [exact HP|constructor].
    + exact (IH _ _ _ _ Hrest H).
Qed.

Lemma CreateAssimpMeshesFromMeshData_adds scene this param scene' this' :
  gathered_valid this ->
  CreateAssimpMeshesFromMeshData scene this param = Some (scene', this') ->
  adds_meshes scene scene'.
Proof.
  intros Hvalid. unfold CreateAssimpMeshesFromMeshData.
  destruct (group_sections_spec (worldTransform this) param
              (concat (gatheredExportables this)) []) as (m & -> & Hm).
  { unfold gathered_valid in Hvalid. clear -Hvalid.
    induction Hvalid as [|l ls Hl _ IH]; simpl; [constructor|].
    apply Forall_app. split; assumption. }
  { constructor. }
  simpl. intros H.
  exact (create_meshes_adds _ _ _ _ _ (map_valid_concat m Hm) H).
Qed.

Definition builds_adding (root : FAssimpNode) (param : FRuntimeMeshExportParam)
    (this : FAssimpNode) : Prop :=
  tree_valid this ->
  forall self scene scene' this',
    ProcessGatheredData_Internal root param this self scene = Some (scene', this') ->
    adds_meshes scene scene'.

Lemma process_children_adds root param self cs :
  Forall (builds_adding root param) cs -> Forall tree_valid cs ->
  forall i scene scene' cs',
    process_children root param self cs i scene = Some (scene', cs') ->
    adds_meshes scene scene'.
Proof.
  induction 1 as [|c cs Hc _ IH]; intros Hvalid i scene scene' cs' H;
    cbn [process_children] in H.
  - injection H as <- <-. apply adds_meshes_refl. reflexivity.
  - inversion Hvalid as [|? ? Hvc Hvcs]; subst.
    fold (process_children root param self) in H.
    destruct (process_children root param self cs (S i) scene) as [[s1 later]|] eqn:Hlater;
      [|discriminate].
    destruct (ProcessGatheredData_Internal root param c (i :: self) s1)
      as [[s2 c2]|] eqn:Hchild; [|discriminate].
    injection H as <- <-.
    exact (adds_meshes_trans _ _ _ (IH Hvcs _ _ _ _ Hlater) (Hc Hvc _ _ _ _ Hchild)).
Qed.

Lemma ProcessGatheredData_Internal_adds root param :
  forall this, builds_adding root param this.
Proof.
  induction this as [this IH] using FAssimpNode_induction.
  intros Hvalid self scene scene' this' H.
  inversion Hvalid as [? Hgath Hchildren]; subst.
  rewrite ProcessGatheredData_Internal_unfold in H.
  destruct (GetHierarchicalName root self) as [hname|]; [|discriminate].
  destruct (CreateAssimpMeshesFromMeshData scene this param) as [[s1 created]|] eqn:Hcreate;
    [|discriminate].
  pose proof (CreateAssimpMeshesFromMeshData_adds _ _ _ _ _ Hgath Hcreate) as H1.
  cbv zeta in H.
  set (s2 := WriteToLogWithNewLine s1 _) in H.
  assert (H2 : adds_meshes s1 s2) by apply adds_meshes_log.
  destruct (process_children root param self (children this) 0%nat s2)
    as [[s3 processed]|] eqn:Hprocess; [|discriminate].
  pose proof (process_children_adds _ _ _ _ IH Hchildren _ _ _ _ Hprocess) as H3.
  apply (adds_meshes_trans _ _ _ H1), (adds_meshes_trans _ _ _ H2),
        (adds_meshes_trans _ _ _ H3).
  destruct ((Num (children (set_children created processed)) =? 0)
            && (Num (meshRefIndices (set_children created processed)) =? 0));
    injection H as <- _; [apply adds_meshes_log|apply adds_meshes_refl; reflexivity].
Qed.

Lemma ProcessGatheredData_Recursive_adds scene param scene' :
  tree_valid (rootNode scene) ->
  ProcessGatheredData_Recursive scene param = Some scene' ->
  adds_meshes scene scene'.
Proof.
  intros Hvalid. unfold ProcessGatheredData_Recursive.
  set (s0 := WriteToLogWithNewLine scene _).
  assert (H0 : adds_meshes scene s0) by apply adds_meshes_log.
  assert (Hr0 : rootNode s0 = rootNode scene) by apply WriteToLogWithNewLine_frame.
  destruct (ProcessGatheredData_Internal (rootNode s0) param (rootNode s0) [] s0)
    as [[s1 root1]|] eqn:Hbuild; simpl; [|discriminate].
  intros H. injection H as <-.
  rewrite <- Hr0 in Hvalid.
  apply (adds_meshes_trans _ _ _ H0),
        (adds_meshes_trans _ _ _
           (ProcessGatheredData_Internal_adds _ _ _ Hvalid _ _ _ _ Hbuild)).
  apply (adds_meshes_trans _ (set_rootNode s1 root1));
    [apply adds_meshes_refl; reflexivity|apply adds_meshes_log].
Qed.

End MeshInvariant.

(** The arrays of a mesh are parallel: one entry for every vertex; and
    every face is a triangle. *)
Definition mesh_parallel (mesh : FAssimpMesh) : Prop :=
  Num (mesh_normals mesh) = Num (mesh_vertices mesh)
  /\ Num (mesh_tangents mesh) = Num (mesh_vertices mesh)
  /\ Num (mesh_bitangents mesh) = Num (mesh_vertices mesh)
  /\ Num (mesh_textureCoordinates_0 mesh) = Num (mesh_vertices mesh)
  /\ Num (mesh_vertexColors mesh) = Num (mesh_vertices mesh)
  /\ Forall (fun face => mNumIndices face = 3 /\ length (mIndices face) = 3%nat)
            (mesh_faces mesh).

Lemma for_each_index_Forall {B : Type} (Q : B -> Prop) (f : nat -> option B) :
  (forall i x, f i = Some x -> Q x) ->
  forall n l, for_each_index n f = Some l -> Forall Q l.
Proof.
  intros Hf. induction n as [|n IH]; intros l H; simpl in H.
  - injection H as <-. constructor.
  - destruct (for_each_index n f) as [l0|]; [|discriminate].
    destruct (f n) as [x|] eqn:Hx; [|discriminate].
    injection H as <-. apply Forall_app. split; [apply IH; reflexivity|].
    constructor; [exact (Hf _ _ Hx)|constructor].
Qed.

Lemma create_mesh_parallel scene this section scene' this' :
  section_valid section = true ->
  create_mesh (scene, this) section = Some (scene', this') ->
  exists mesh, meshes scene' = meshes scene ++ [mesh] /\ mesh_parallel mesh.
Proof.
  intros Hvalid.
  destruct (section_valid_lengths section Hvalid) as (Hn & Ht & _ & _ & _).
  unfold create_mesh, mbind, option_bind. cbv zeta. intros H.
  repeat case_match; simplify_eq; simpl.
  all: eexists; split; [reflexivity|]; unfold mesh_parallel, Num; simpl;
    rewrite !length_map, ?length_replicate, ?Hn, ?Ht;
    repeat match goal with
           | Hfe : for_each_index _ _ = Some ?l |- _ =>
               lazymatch goal with
               | |- context [length l] =>
                   rewrite (for_each_index_length _ _ _ Hfe)
               | _ => fail
               end
           end;
    repeat split;
    match goal with
    | Hfe : for_each_index _ _ = Some ?l |- Forall _ ?l =>
        refine (for_each_index_Forall _ _ _ _ _ Hfe); intros i x Hx;
        repeat case_match; simplify_eq; split; reflexivity
    end.
Qed.

(** The mesh references of a tree after the build phase and the binding. *)
Lemma ProcessGatheredData_Recursive_refs scene param scene' :
  refs_build_order (rootNode scene) = [] ->
  ProcessGatheredData_Recursive scene param = Some scene' ->
  exists count,
    Num (meshes scene') = Num (meshes scene) + Z.of_nat count
    /\ refs_build_order (rootNode scene') = mesh_refs (Num (meshes scene)) count.
Proof.
  intros Hnone. unfold ProcessGatheredData_Recursive.
  set (s0 := WriteToLogWithNewLine scene _).
  destruct (WriteToLogWithNewLine_frame scene "Begin processing gathered data.")
    as (Hr0 & _ & _ & Hm0 & _).
  fold s0 in Hr0, Hm0.
  destruct (ProcessGatheredData_Internal (rootNode s0) param (rootNode s0) [] s0)
    as [[s1 root1]|] eqn:Hbuild; simpl; [|discriminate].
  intros H. injection H as <-.
  rewrite <- Hr0 in Hnone.
  destruct (ProcessGatheredData_Internal_in_order _ _ _ _ _ _ _ Hnone Hbuild)
    as (count & Hn & Hrefs & _).
  exists count.
  destruct (WriteToLogWithNewLine_frame (set_rootNode s1 root1)
              (Printf "End processing gathered data. Duration: %.3fs" [arg_seconds]))
    as (Hr2 & _ & _ & Hm2 & _).
  rewrite Hr2, Hm2. simpl. rewrite <- Hm0. split; [exact Hn|exact Hrefs].
Qed.

Lemma refs_build_order_bound param :
  forall t parent,
    refs_build_order (SetDataAndPtrsToParentClass parent t param) = refs_build_order t.
Proof.
  induction t as [t IH] using FAssimpNode_induction. intros parent.
  rewrite (refs_build_order_unfold (SetDataAndPtrsToParentClass _ _ _)),
    (refs_build_order_unfold t), SetDataAndPtrsToParentClass_children.
  f_equal; [destruct t; reflexivity|]. do 2 f_equal.
  rewrite map_map. apply map_ext_Forall.
  eapply Forall_impl; [exact IH|]. intros c Hc. apply Hc.
Qed.

Lemma refs_build_order_node_at :
  forall path t n,
    node_at t path = Some n ->
    forall r, In r (meshRefIndices n) -> In r (refs_build_order t).
Proof.
  induction path as [|i path IH]; intros t n Hn r Hr; simpl in Hn;
    rewrite refs_build_order_unfold.
  - injection Hn as ->. apply in_or_app. left. exact Hr.
  - destruct (children t !! i) as [c|] eqn:Hc; [|discriminate].
    apply in_or_app. right. apply in_concat.
    exists (refs_build_order c). split; [|exact (IH c n Hn r Hr)].
    apply -> in_rev. apply in_map. apply list_elem_of_In.
    exact (list_elem_of_lookup_2 _ _ _ Hc).
Qed.

Lemma mesh_refs_range count :
  forall from r, 0 <= from -> In r (mesh_refs from count) -> 0 <= r < from + Z.of_nat count.
Proof.
  induction count as [|count IH]; intros from r Hfrom Hr; simpl in Hr.
  - contradiction.
  - destruct Hr as [<-|Hr].
    + unfold to_uint32.
      pose proof (Z.mod_pos_bound from (2 ^ 32) ltac:(lia)) as Hb.
      pose proof (Z.mod_le from (2 ^ 32) Hfrom ltac:(lia)) as Hle. lia.
    + specialize (IH (from + 1) r ltac:(lia) Hr). lia.
Qed.

Lemma SetDataAndPtrsToParentClass_counts param :
  forall path parent this n,
    node_at (SetDataAndPtrsToParentClass parent this param) path = Some n ->
    mNumMeshes (node_base n) = Num (meshRefIndices n)
    /\ mMeshes (node_base n) = view_of_owned
    /\ mNumChildren (node_base n) = Num (children n)
    /\ mChildren (node_base n) = view_of_owned.
Proof.
  induction path as [|i path IH]; intros parent this n Hn; simpl in Hn.
  - injection Hn as <-. rewrite SetDataAndPtrsToParentClass_children.
    unfold Num. rewrite length_map. destruct this. repeat split.
  - rewrite SetDataAndPtrsToParentClass_children, list_lookup_fmap in Hn.
    destruct (children this !! i) as [c|]; simpl in Hn; [|discriminate].
    exact (IH _ _ _ Hn).
Qed.

(** A mesh as the codec sees it: the counts of the foreign struct are the
    lengths of the owned arrays its pointers are bound to. *)
Definition mesh_bound (mesh : FAssimpMesh) : Prop :=
  mNumVertices (mesh_base mesh) = Num (mesh_vertices mesh)
  /\ mNumFaces (mesh_base mesh) = Num (mesh_faces mesh)
  /\ mPrimitiveTypes (mesh_base mesh) = aiPrimitiveType_TRIANGLE
  /\ mNumUVComponents_0 (mesh_base mesh) = 2
  /\ mVertices (mesh_base mesh) = view_of_owned
  /\ mNormals (mesh_base mesh) = view_of_owned
  /\ mTangents (mesh_base mesh) = view_of_owned
  /\ mBitangents (mesh_base mesh) = view_of_owned
  /\ mColors_0 (mesh_base mesh) = view_of_owned
  /\ mTextureCoords_0 (mesh_base mesh) = view_of_owned
  /\ mFaces (mesh_base mesh) = view_of_owned.

(** What [create_mesh] writes besides the arrays. *)
Definition mesh_made (mesh : FAssimpMesh) : Prop :=
  mesh_parallel mesh
  /\ mPrimitiveTypes (mesh_base mesh) = aiPrimitiveType_TRIANGLE
  /\ mesh_numUVComponents_0 mesh = 2.

Lemma create_mesh_made scene this section scene' this' :
  section_valid section = true ->
  create_mesh (scene, this) section = Some (scene', this') ->
  exists mesh, meshes scene' = meshes scene ++ [mesh] /\ mesh_made mesh.
Proof.
  intros Hvalid H.
  destruct (create_mesh_parallel _ _ _ _ _ Hvalid H) as (mesh & Hm & Hp).
  exists mesh. split; [exact Hm|]. split; [exact Hp|].
  revert H Hm. unfold create_mesh, mbind, option_bind. cbv zeta. intros H.
  repeat case_match; simplify_eq; simpl; intros Hm;
    apply app_inv_head in Hm; injection Hm as <-; split; reflexivity.
Qed.

(** X8.  The scene that [PrepareSceneForExport] makes of a scene with a
    clean tree and empty pools is well formed for the codec: the counts of
    the scene, of every mesh and of every node are the lengths of the owned
    arrays behind the pointers; the arrays of a mesh (normals, tangents,
    bitangents, texture coordinates, colors) have one entry for every
    vertex and every face has three indices; every mesh reference of a node
    is an index into the mesh pool, and read node by node in the order of
    the build the references are those of the meshes in their order, each
    one once. *)
Theorem prepared_scene_is_well_formed scene param prepared :
  clean (rootNode scene) ->
  cache_valid scene ->
  meshes scene = [] -> materials scene = [] -> uniqueMaterials scene = [] ->
  PrepareSceneForExport scene param = Some prepared ->
  scene_mNumMeshes (scene_base prepared) = Num (meshes prepared)
  /\ scene_mNumMaterials (scene_base prepared) = Num (materials prepared)
  /\ scene_mMeshes (scene_base prepared) = view_of_owned
  /\ scene_mMaterials (scene_base prepared) = view_of_owned
  /\ scene_mRootNode (scene_base prepared) = view_of_owned
  /\ Forall (fun mesh => mesh_bound mesh /\ mesh_parallel mesh) (meshes prepared)
  /\ (forall p n,
        deref (rootNode prepared) p = Some n ->
        mNumMeshes (node_base n) = Num (meshRefIndices n)
        /\ mMeshes (node_base n) = view_of_owned
        /\ mNumChildren (node_base n) = Num (children n)
        /\ mChildren (node_base n) = view_of_owned
        /\ Forall (fun r => 0 <= r < Num (meshes prepared)) (meshRefIndices n))
  /\ refs_build_order (rootNode prepared) = mesh_refs 0 (length (meshes prepared)).
Proof.
  intros Hclean Hvalid Hm Hmat Hu Hprep.
  assert (Hfresh : fresh (rootNode scene)) by (apply clean_fresh; exact Hclean).
  assert (Hlen : Num (materials scene) = Num (uniqueMaterials scene))
    by (rewrite Hmat, Hu; reflexivity).
  destruct (PrepareSceneForExport_phases scene param Hfresh Hvalid Hlen)
    as (g & b & _ & Hr & _ & (Hmg & _) & _ & Hb & _ & _ & Hprep').
  rewrite Hprep in Hprep'. injection Hprep' as ->.
  set (g' := WriteToLogWithNewLine g _) in Hb.
  destruct (WriteToLogWithNewLine_frame g
              (Printf "End gather mesh data. Duration: %.3fs" [arg_seconds]))
    as (Hr' & _ & _ & Hm' & _).
  fold g' in Hr', Hm'.
  assert (Hnone : refs_build_order (rootNode g') = []).
  { rewrite Hr', Hr, (proj1 (gather_tree_refs param _)). apply clean_refs. exact Hclean. }
  destruct (ProcessGatheredData_Recursive_refs _ _ _ Hnone Hb) as (count & Hcount & Hrefs).
  rewrite Hm', Hmg, Hm in Hcount, Hrefs. change (Num []) with 0 in Hcount, Hrefs.
  assert (Htv : tree_valid (rootNode g')).
  { rewrite Hr', Hr. apply tree_valid_gather_tree. exact Hfresh. }
  destruct (ProcessGatheredData_Recursive_adds mesh_made create_mesh_made _ _ _ Htv Hb)
    as (added & Hadded & Hmade).
  rewrite Hm', Hmg, Hm in Hadded. simpl in Hadded.
  assert (Hnum : Num (meshes (SetDataAndPtrsToParentClass_EntireScene b param))
                 = Z.of_nat count).
  { simpl. unfold Num in *. rewrite length_map. lia. }
  assert (Hrefs' : refs_build_order
                     (rootNode (SetDataAndPtrsToParentClass_EntireScene b param))
                   = mesh_refs 0 count).
  { simpl. rewrite refs_build_order_bound. exact Hrefs. }
  split; [simpl; unfold Num; rewrite length_map; reflexivity|].
  split; [reflexivity|]. split; [reflexivity|]. split; [reflexivity|].
  split; [reflexivity|]. split; [|split].
  - simpl. rewrite Hadded. apply Forall_fmap.
    eapply Forall_impl; [exact Hmade|]. intros mesh (Hp & Hprim & Huv). simpl.
    split; [|exact Hp]. unfold mesh_bound. simpl. repeat split; assumption.
  - intros p n Hn. unfold deref in Hn. simpl in Hn.
    destruct (SetDataAndPtrsToParentClass_counts _ _ _ _ _ Hn) as (H1 & H2 & H3 & H4).
    split; [exact H1|]. split; [exact H2|]. split; [exact H3|]. split; [exact H4|].
    apply Forall_forall. intros r Hin. rewrite Hnum.
    apply (mesh_refs_range count 0 r); [lia|].
    rewrite <- Hrefs'. simpl.
    apply (refs_build_order_node_at _ _ _ Hn r). apply list_elem_of_In. exact Hin.
  - rewrite Hrefs'. f_equal. unfold Num in Hnum. lia.
Qed.

(** ** Gathering tick by tick *)






























(** ** The asynchronous export from the call to the result *)
















(** [Export_Async_Cpp] while an export runs: the result handed to
    [callbackFinished] carries the log of the running export. *)
Lemma Export_Async_Cpp_busy this aparam text :
  bIsExporting this = true ->
  exportLog (scene this) = Some text ->
  exists this' turned_down,
    Export_Async_Cpp this aparam = (this', Some turned_down)
    /\ result_exportLog turned_down = text
    /\ error turned_down
       = NewLineAndAppend (error (asyncResult this)) "Already exporting!"
    /\ bSuccess turned_down = false.
Proof.
  intros Hbusy Hlog. unfold Export_Async_Cpp, PreExportWork. rewrite Hbusy. simpl.
  eexists _, _. split; [reflexivity|].
  unfold asyncResult_read. simpl. rewrite Hlog. repeat split.
Qed.















(** ** Merging imported sections *)

(** The triangle indices the sections of [l] contribute to a section that
    already holds [base] vertices: each section's indices are shifted by
    the number of vertices before it. *)
Fixpoint offset_triangles (base : Z) (l : list FRuntimeMeshImportSectionInfo)
  : list Z :=
  match l with
  | [] => []
  | section :: rest =>
      OffsetTriangleArray base (sec_triangles section)
      ++ offset_triangles (base + Num (sec_vertices section)) rest
  end.

(** The vertex a triangle index of a section refers to. *)
Definition corner (section : FRuntimeMeshImportSectionInfo) (index : Z)
  : option FVector :=
  if 0 <=? index then sec_vertices section !! Z.to_nat index else None.

(** Every triangle index of a section refers to one of its vertices. *)
Definition section_indexed (section : FRuntimeMeshImportSectionInfo) : Prop :=
  Forall (fun index => 0 <= index < Num (sec_vertices section))
         (sec_triangles section).

Definition append_all (first : FRuntimeMeshImportSectionInfo)
    (others : list FRuntimeMeshImportSectionInfo) : FRuntimeMeshImportSectionInfo :=
  fold_left (fun merged section => fst (Append_Move merged section)) others first.

Lemma MergeAllSections_cons first others :
  MergeAllSections (first :: others) = [append_all first others].
Proof. destruct others; reflexivity. Qed.

Lemma append_all_snoc first others section :
  append_all first (others ++ [section])
  = fst (Append_Move (append_all first others) section).
Proof. unfold append_all. rewrite fold_left_app. reflexivity. Qed.

Lemma append_all_channels first others :
  let merged := append_all first others in
  sec_vertices merged = sec_vertices first ++ concat (map sec_vertices others)
  /\ sec_normals merged = sec_normals first ++ concat (map sec_normals others)
  /\ sec_tangents merged = sec_tangents first ++ concat (map sec_tangents others)
  /\ sec_vertexColors merged
     = sec_vertexColors first ++ concat (map sec_vertexColors others)
  /\ uv0 merged = uv0 first ++ concat (map uv0 others)
  /\ sec_triangles merged
     = sec_triangles first ++ offset_triangles (Num (sec_vertices first)) others.
Proof.
  revert first. induction others as [|section rest IH]; intros first; simpl.
  - rewrite !app_nil_r. repeat split; reflexivity.
  - destruct (IH (fst (Append_Move first section)))
      as (Hv & Hn & Ht & Hc & Hu & Htri).
    unfold append_all in *. simpl in *.
    rewrite Hv, Hn, Ht, Hc, Hu, Htri, Num_app, <- !app_assoc.
    repeat split; reflexivity.
Qed.

Lemma append_all_material first others :
  let merged := append_all first others in
  materialName merged
  = (if forallb (fun section => bool_decide (materialName section = materialName first))
                others
     then materialName first else NAME_None)
  /\ materialIndex merged
     = (if forallb (fun section => materialIndex section =? materialIndex first) others
        then materialIndex first else INDEX_NONE).
Proof.
  revert first. induction others as [|section rest IH]; intros first; simpl.
  - split; reflexivity.
  - destruct (IH (fst (Append_Move first section))) as (Hname & Hindex).
    unfold append_all in *. simpl in *. rewrite Hname, Hindex. clear Hname Hindex IH.
    split.
    + destruct (decide (materialName first = materialName section)) as [Heq|Hne].
      * rewrite bool_decide_eq_true_2 by (symmetry; exact Heq). reflexivity.
      * rewrite bool_decide_eq_false_2 by (intros H; apply Hne; symmetry; exact H).
        simpl. destruct (forallb _ rest); reflexivity.
    + destruct (Z.eqb_spec (materialIndex first) (materialIndex section)) as [Heq|Hne].
      * rewrite Heq, Z.eqb_refl. reflexivity.
      * destruct (Z.eqb_spec (materialIndex section) (materialIndex first)) as [Heq'|_];
          [exfalso; apply Hne; symmetry; exact Heq'|].
        simpl. destruct (forallb _ rest); reflexivity.
Qed.

Lemma offset_triangles_length base l :
  length (offset_triangles base l) = length (concat (map sec_triangles l)).
Proof.
  revert base. induction l as [|section rest IH]; intros base; simpl; [reflexivity|].
  rewrite !length_app, IH. unfold OffsetTriangleArray. rewrite length_map. reflexivity.
Qed.

Lemma offset_triangles_corners (pre : list FVector) l :
  Forall section_indexed l ->
  Num pre + Num (concat (map sec_vertices l)) <= int32_max ->
  Forall (fun index =>
            Num pre <= index < Num pre + Num (concat (map sec_vertices l)))
         (offset_triangles (Num pre) l)
  /\ map (fun index => (pre ++ concat (map sec_vertices l)) !! Z.to_nat index)
         (offset_triangles (Num pre) l)
     = concat (map (fun section => map (corner section) (sec_triangles section)) l).
Proof.
  revert pre. induction l as [|section rest IH]; intros pre Hl Hfit; simpl.
  - split; [constructor|reflexivity].
  - inversion Hl as [|? ? Hsection Hrest]; subst. simpl in Hfit.
    rewrite Num_app in Hfit.
    pose proof (Num_nonneg pre) as Hpre.
    pose proof (Num_nonneg (sec_vertices section)) as Hsec.
    pose proof (Num_nonneg (concat (map sec_vertices rest))) as Hcat.
    destruct (IH (pre ++ sec_vertices section) Hrest) as (Hrange & Hcorners).
    { rewrite Num_app. lia. }
    rewrite Num_app in Hrange, Hcorners. rewrite <- app_assoc in Hcorners.
    assert (Hshift : forall index, 0 <= index < Num (sec_vertices section) ->
              int32_add index (Num pre) = index + Num pre).
    { intros index Hindex. apply int32_add_exact.
      unfold in_int32, int32_min, int32_max in *. lia. }
    split.
    + apply Forall_app. split.
      * unfold OffsetTriangleArray. rewrite Forall_map.
        eapply Forall_impl; [exact Hsection|]. intros index Hindex.
        simpl in Hindex |- *.
        rewrite (Hshift index Hindex), Num_app. lia.
      * eapply Forall_impl; [exact Hrange|]. intros index Hindex. simpl in *.
        rewrite Num_app. lia.
    + rewrite map_app, Hcorners. f_equal.
      unfold OffsetTriangleArray. rewrite map_map.
      apply map_ext_Forall. eapply Forall_impl; [exact Hsection|].
      intros index Hindex. simpl in Hindex |- *. rewrite (Hshift index Hindex).
      unfold corner. destruct (Z.leb_spec 0 index) as [_|Hneg]; [|lia].
      unfold Num in *.
      rewrite lookup_app_r by lia.
      replace (Z.to_nat (index + Z.of_nat (length pre)) - length pre)%nat
        with (Z.to_nat index) by lia.
      apply lookup_app_l. lia.
Qed.

(** X12.  [MergeAllSections] leaves a list of fewer than two sections as it
    is and turns a longer one into a single section: every data channel of
    that section is the concatenation of the channel over all the sections
    in their order, the triangle indices of each section are shifted by the
    number of vertices of the sections before it, and the material name and
    index are those of the first section when all sections share them and
    [None] and [-1] otherwise. *)
Theorem MergeAllSections_concatenates_in_order :
  forall (first : FRuntimeMeshImportSectionInfo)
         (others : list FRuntimeMeshImportSectionInfo),
    MergeAllSections [] = []
    /\ exists merged,
         MergeAllSections (first :: others) = [merged]
         /\ sec_vertices merged = concat (map sec_vertices (first :: others))
         /\ sec_normals merged = concat (map sec_normals (first :: others))
         /\ sec_tangents merged = concat (map sec_tangents (first :: others))
         /\ sec_vertexColors merged = concat (map sec_vertexColors (first :: others))
         /\ uv0 merged = concat (map uv0 (first :: others))
         /\ sec_triangles merged
            = sec_triangles first ++ offset_triangles (Num (sec_vertices first)) others
         /\ materialName merged
            = (if forallb (fun section =>
                             bool_decide (materialName section = materialName first))
                          others
               then materialName first else NAME_None)
         /\ materialIndex merged
            = (if forallb (fun section => materialIndex section =? materialIndex first)
                          others
               then materialIndex first else -1).
Proof.
  intros first others. split; [reflexivity|].
  exists (append_all first others).
  destruct (append_all_channels first others) as (Hv & Hn & Ht & Hc & Hu & Htri).
  destruct (append_all_material first others) as (Hname & Hindex).
  split; [apply MergeAllSections_cons|].
  simpl. repeat split; assumption.
Qed.

(** X13.  When every triangle index of every section refers to a vertex of
    its section and the vertices of all sections together fit an [int32]
    count, the section [MergeAllSections] produces has the same triangle
    corners: its indices stay within its vertices and refer, one for one
    and in order, to the vertices the indices of the sections referred to. *)
Theorem MergeAllSections_keeps_the_corners :
  forall (first : FRuntimeMeshImportSectionInfo)
         (others : list FRuntimeMeshImportSectionInfo),
    Forall section_indexed (first :: others) ->
    Num (concat (map sec_vertices (first :: others))) <= int32_max ->
    exists merged,
      MergeAllSections (first :: others) = [merged]
      /\ section_indexed merged
      /\ map (corner merged) (sec_triangles merged)
         = concat (map (fun section => map (corner section) (sec_triangles section))
                       (first :: others)).
Proof.
  intros first others Hall Hfit.
  exists (append_all first others).
  split; [apply MergeAllSections_cons|].
  destruct (append_all_channels first others) as (Hv & _ & _ & _ & _ & Htri).
  inversion Hall as [|? ? Hfirst Hothers]; subst.
  simpl in Hfit. rewrite Num_app in Hfit.
  destruct (offset_triangles_corners (sec_vertices first) others Hothers Hfit)
    as (Hrange & Hcorners).
  pose proof (Num_nonneg (sec_vertices first)) as Hn0.
  pose proof (Num_nonneg (concat (map sec_vertices others))) as Hn1.
  split.
  - unfold section_indexed. rewrite Htri, Hv, Num_app. apply Forall_app. split.
    + eapply Forall_impl; [exact Hfirst|]. intros index Hindex.
      simpl in Hindex |- *. lia.
    + eapply Forall_impl; [exact Hrange|]. intros index Hindex.
      simpl in Hindex |- *. lia.
  - rewrite Htri, map_app. simpl. f_equal.
    + apply map_ext_Forall. eapply Forall_impl; [exact Hfirst|].
      intros index Hindex. simpl in Hindex |- *. unfold corner. rewrite Hv.
      destruct (0 <=? index); [|reflexivity].
      apply lookup_app_l. unfold Num in Hindex. lia.
    + rewrite <- Hcorners. apply map_ext_Forall.
      eapply Forall_impl; [exact Hrange|]. intros index Hindex.
      simpl in Hindex |- *. unfold corner. rewrite Hv.
      destruct (Z.leb_spec 0 index) as [_|Hneg]; [reflexivity|lia].
Qed.

(** ** Merging the sections of one material *)

(** The map [MergeSectionsSameMaterial] has built when its loop has visited
    the sections [visited], the last of them first. *)
Definition merge_by_material (visited : list FRuntimeMeshImportSectionInfo)
  : TMap FName FRuntimeMeshImportSectionInfo :=
  fold_left
    (fun (m : TMap FName FRuntimeMeshImportSectionInfo) section =>
       match TMap_Find m (materialName section) with
       | None => m ++ [(materialName section, section)]
       | Some meshInfoRef =>
           if Num (sec_vertices meshInfoRef) =? 0 then
             TMap_assign m (materialName section) section
           else
             TMap_assign m (materialName section)
               (fst (Append_Move meshInfoRef section))
       end)
    (rev visited) [].

(** The sections of [l] that carry material name [name], in the order the
    loop of [MergeSectionsSameMaterial] meets them. *)
Definition of_material (name : FName) (l : list FRuntimeMeshImportSectionInfo)
  : list FRuntimeMeshImportSectionInfo :=
  filter (fun section => materialName section = name) (rev l).

Lemma MergeSectionsSameMaterial_map l :
  MergeSectionsSameMaterial l = map snd (merge_by_material l).
Proof. reflexivity. Qed.

Lemma merge_by_material_cons section l :
  merge_by_material (section :: l)
  = let m := merge_by_material l in
    match TMap_Find m (materialName section) with
    | None => m ++ [(materialName section, section)]
    | Some meshInfoRef =>
        if Num (sec_vertices meshInfoRef) =? 0 then
          TMap_assign m (materialName section) section
        else
          TMap_assign m (materialName section)
            (fst (Append_Move meshInfoRef section))
    end.
Proof. unfold merge_by_material. simpl. rewrite fold_left_app. reflexivity. Qed.

Lemma of_material_cons name section l :
  of_material name (section :: l)
  = of_material name l ++ (if decide (materialName section = name) then [section] else []).
Proof.
  unfold of_material. simpl. rewrite filter_app. reflexivity.
Qed.

Lemma TMap_Find_None_keys {K V : Type} `{EqDecision K} (m : TMap K V) (k : K) :
  TMap_Find m k = None <-> ~ In k (map fst m).
Proof.
  unfold TMap_Find.
  destruct (list_find (fun e => fst e = k) m) as [[i e]|] eqn:Hfind.
  - split; [discriminate|]. intros Hnot. exfalso. apply Hnot.
    apply list_find_Some in Hfind as (Hi & Hk & _).
    apply in_map_iff. exists e. split; [exact Hk|].
    apply list_elem_of_In. eapply list_elem_of_lookup_2. exact Hi.
  - split; [|reflexivity]. intros _ Hin.
    apply in_map_iff in Hin as (e & He & Hin).
    apply list_find_None in Hfind. rewrite Forall_forall in Hfind.
    apply (Hfind e); [apply list_elem_of_In; exact Hin|exact He].
Qed.

Lemma TMap_assign_keys {K V : Type} `{EqDecision K} (m : TMap K V) (k : K) (v : V) :
  map fst (TMap_assign m k v) = map fst m.
Proof.
  unfold TMap_assign. rewrite map_map. apply map_ext. intros e.
  destruct (decide (fst e = k)) as [Heq|_]; [symmetry; exact Heq|reflexivity].
Qed.

Lemma TMap_assign_Forall {K V : Type} `{EqDecision K} (P : K * V -> Prop)
    (m : TMap K V) (k : K) (v : V) :
  P (k, v) -> Forall (fun e => fst e <> k -> P e) m -> Forall P (TMap_assign m k v).
Proof.
  intros Hv Hm. unfold TMap_assign. rewrite Forall_map.
  eapply Forall_impl; [exact Hm|]. intros e He. simpl.
  destruct (decide (fst e = k)); [exact Hv|apply He; assumption].
Qed.

Lemma of_material_nil name l :
  ~ In name (map materialName l) -> of_material name l = [].
Proof.
  intros Hnot. unfold of_material.
  induction l as [|section l IH]; [reflexivity|].
  simpl. rewrite filter_app, IH, filter_cons, filter_nil.
  - destruct (decide (materialName section = name)) as [Heq|_]; [|reflexivity].
    exfalso. apply Hnot. left. exact Heq.
  - intros Hin. apply Hnot. right. exact Hin.
Qed.

(** What the map holds under each key: the key itself as material name, and
    the vertices of the sections of that material. *)
Definition entry_ok (l : list FRuntimeMeshImportSectionInfo)
    (e : FName * FRuntimeMeshImportSectionInfo) : Prop :=
  materialName (snd e) = fst e
  /\ sec_vertices (snd e) = concat (map sec_vertices (of_material (fst e) l)).

Lemma merge_by_material_spec l :
  map fst (merge_by_material l) = rev (remove_dups (map materialName l))
  /\ Forall (entry_ok l) (merge_by_material l).
Proof.
  induction l as [|section l (Hkeys & Hentries)]; [split; [reflexivity|constructor]|].
  rewrite merge_by_material_cons. cbv zeta.
  assert (Hdups : rev (remove_dups (map materialName (section :: l)))
                  = if decide (materialName section ∈ map materialName l)
                    then rev (remove_dups (map materialName l))
                    else rev (remove_dups (map materialName l)) ++ [materialName section]).
  { simpl. destruct (decide_rel elem_of (materialName section) (map materialName l));
      reflexivity. }
  rewrite Hdups. clear Hdups.
  assert (Hothers : Forall (fun e => fst e <> materialName section ->
                                     entry_ok (section :: l) e)
                           (merge_by_material l)).
  { eapply Forall_impl; [exact Hentries|]. intros e (Hname & Hvertices) Hne.
    split; [exact Hname|]. rewrite of_material_cons.
    destruct (decide (materialName section = fst e)) as [Heq|_];
      [exfalso; apply Hne; symmetry; exact Heq|].
    rewrite app_nil_r. exact Hvertices. }
  assert (Hkey : In (materialName section) (map fst (merge_by_material l))
                 <-> materialName section ∈ map materialName l).
  { rewrite Hkeys, <- in_rev, <- list_elem_of_In. apply elem_of_remove_dups. }
  destruct (TMap_Find (merge_by_material l) (materialName section))
    as [meshInfoRef|] eqn:Hfind.
  - assert (Hin : materialName section ∈ map materialName l).
    { apply Hkey. pose proof (TMap_Find_In _ _ _ Hfind) as Hmem.
      apply in_map_iff. exists (materialName section, meshInfoRef).
      split; [reflexivity|apply list_elem_of_In; exact Hmem]. }
    assert (Hold : entry_ok l (materialName section, meshInfoRef)).
    { pose proof (TMap_Find_In _ _ _ Hfind) as Hmem. rewrite Forall_forall in Hentries.
      apply Hentries. exact Hmem. }
    destruct Hold as (Hname & Hvertices). simpl in Hname, Hvertices.
    assert (Hnew : forall v,
              materialName v = materialName section ->
              sec_vertices v = sec_vertices meshInfoRef ++ sec_vertices section ->
              entry_ok (section :: l) (materialName section, v)).
    { intros v Hv1 Hv2. split; [exact Hv1|]. simpl.
      rewrite of_material_cons, decide_True by reflexivity.
      rewrite map_app, concat_app, <- Hvertices. simpl. rewrite app_nil_r. exact Hv2. }
    rewrite decide_True by exact Hin.
    destruct (Z.eqb_spec (Num (sec_vertices meshInfoRef)) 0) as [Hzero|Hsome].
    + split; [rewrite TMap_assign_keys; exact Hkeys|].
      apply TMap_assign_Forall; [|exact Hothers].
      apply Hnew; [reflexivity|]. apply Num_nil_iff in Hzero. rewrite Hzero. reflexivity.
    + split; [rewrite TMap_assign_keys; exact Hkeys|].
      apply TMap_assign_Forall; [|exact Hothers].
      apply Hnew; [|reflexivity]. simpl.
      rewrite decide_True by exact Hname. exact Hname.
  - assert (Hnotin : ~ materialName section ∈ map materialName l).
    { intros Hin. apply Hkey in Hin. apply TMap_Find_None_keys in Hfind. contradiction. }
    rewrite decide_False by exact Hnotin.
    split.
    + rewrite map_app, Hkeys. reflexivity.
    + apply Forall_app. split.
      * rewrite Forall_forall in Hothers |- *. intros e He.
        apply Hothers; [exact He|].
        intros Heq. apply TMap_Find_None_keys in Hfind. apply Hfind.
        apply in_map_iff. exists e. split; [exact Heq|apply list_elem_of_In; exact He].
      * constructor; [|constructor]. split; [reflexivity|]. simpl.
        rewrite of_material_cons, decide_True by reflexivity.
        rewrite of_material_nil.
        -- simpl. rewrite app_nil_r. reflexivity.
        -- intros Hin. apply Hnotin. apply list_elem_of_In. exact Hin.
Qed.

(** X14.  [MergeSectionsSameMaterial] returns one section for each material
    name that occurs; its loop runs from the last section to the first, and
    the names come in the order in which it first meets them.  The vertices
    of each returned section are the vertices of the sections of its
    material, concatenated from the last such section to the first. *)
Theorem MergeSectionsSameMaterial_one_section_per_material :
  forall l : list FRuntimeMeshImportSectionInfo,
    map materialName (MergeSectionsSameMaterial l)
    = rev (remove_dups (map materialName l))
    /\ NoDup (map materialName (MergeSectionsSameMaterial l))
    /\ Forall (fun merged =>
                 sec_vertices merged
                 = concat (map sec_vertices
                               (filter (fun section =>
                                          materialName section = materialName merged)
                                       (rev l))))
              (MergeSectionsSameMaterial l).
Proof.
  intros l. rewrite MergeSectionsSameMaterial_map.
  destruct (merge_by_material_spec l) as (Hkeys & Hentries).
  assert (Hnames : map materialName (map snd (merge_by_material l))
                   = map fst (merge_by_material l)).
  { rewrite map_map. apply map_ext_Forall.
    eapply Forall_impl; [exact Hentries|]. intros e (Hname & _). exact Hname. }
  split; [rewrite Hnames; exact Hkeys|].
  split.
  - rewrite Hnames, Hkeys. apply NoDup_ListNoDup, List.NoDup_rev, NoDup_ListNoDup.
    apply NoDup_remove_dups.
  - rewrite Forall_map. eapply Forall_impl; [exact Hentries|].
    intros e (Hname & Hvertices). simpl. rewrite Hname. exact Hvertices.
Qed.

(** When no section is without vertices, the map holds under each key the
    sections of that material appended in the order the loop met them. *)
Definition entry_merged (l : list FRuntimeMeshImportSectionInfo)
    (e : FName * FRuntimeMeshImportSectionInfo) : Prop :=
  exists first others,
    of_material (fst e) l = first :: others /\ snd e = append_all first others.

Lemma of_material_In name section l :
  In section (of_material name l) -> In section l.
Proof.
  unfold of_material. intros Hin. apply list_elem_of_In in Hin.
  apply list_elem_of_filter in Hin as (_ & Hin).
  apply in_rev. apply list_elem_of_In. exact Hin.
Qed.

Lemma merge_by_material_merged l :
  Forall (fun section => sec_vertices section <> []) l ->
  Forall (entry_merged l) (merge_by_material l).
Proof.
  induction l as [|section l IH]; intros Hl; [constructor|].
  inversion Hl as [|? ? Hsection Hrest]; subst.
  specialize (IH Hrest).
  rewrite merge_by_material_cons. cbv zeta.
  assert (Hothers : Forall (fun e => fst e <> materialName section ->
                                     entry_merged (section :: l) e)
                           (merge_by_material l)).
  { eapply Forall_impl; [exact IH|]. intros e (first & others & Hof & Hsnd) Hne.
    exists first, others. split; [|exact Hsnd]. rewrite of_material_cons, Hof.
    destruct (decide (materialName section = fst e)) as [Heq|_];
      [exfalso; apply Hne; symmetry; exact Heq|].
    apply app_nil_r. }
  destruct (TMap_Find (merge_by_material l) (materialName section))
    as [meshInfoRef|] eqn:Hfind.
  - assert (Hold : entry_merged l (materialName section, meshInfoRef)).
    { pose proof (TMap_Find_In _ _ _ Hfind) as Hmem. rewrite Forall_forall in IH.
      apply IH. exact Hmem. }
    destruct Hold as (first & others & Hof & Hsnd). simpl in Hof, Hsnd.
    assert (Hfirst : sec_vertices first <> []).
    { rewrite Forall_forall in Hrest. apply Hrest. apply list_elem_of_In.
      apply (of_material_In (materialName section)). rewrite Hof. left. reflexivity. }
    destruct (Z.eqb_spec (Num (sec_vertices meshInfoRef)) 0) as [Hzero|_].
    { exfalso. apply Num_nil_iff in Hzero.
      destruct (append_all_channels first others) as (Hv & _).
      rewrite <- Hsnd, Hzero in Hv. symmetry in Hv.
      apply app_eq_nil in Hv as (Hv & _). contradiction. }
    apply TMap_assign_Forall; [|exact Hothers].
    exists first, (others ++ [section]). simpl. split.
    + rewrite of_material_cons, Hof, decide_True by reflexivity. reflexivity.
    + rewrite append_all_snoc, <- Hsnd. reflexivity.
  - apply Forall_app. split.
    + rewrite Forall_forall in Hothers |- *. intros e He.
      apply Hothers; [exact He|].
      intros Heq. apply TMap_Find_None_keys in Hfind. apply Hfind.
      apply in_map_iff. exists e. split; [exact Heq|apply list_elem_of_In; exact He].
    + constructor; [|constructor]. exists section, []. simpl. split; [|reflexivity].
      rewrite of_material_cons, decide_True by reflexivity.
      rewrite of_material_nil; [reflexivity|].
      destruct (merge_by_material_spec l) as (Hkeys & _).
      apply TMap_Find_None_keys in Hfind. rewrite Hkeys, <- in_rev in Hfind.
      intros Hin. apply Hfind. apply list_elem_of_In. apply elem_of_remove_dups.
      apply list_elem_of_In. exact Hin.
Qed.

(** X15.  When every section has at least one vertex,
    [MergeSectionsSameMaterial] does for each material name what
    [MergeAllSections] does for the sections of that name taken from the
    last to the first: the result is the row of these merged sections, one
    for each name, the names in the order in which the loop first meets
    them. *)
Theorem MergeSectionsSameMaterial_merges_each_material :
  forall l : list FRuntimeMeshImportSectionInfo,
    Forall (fun section => sec_vertices section <> []) l ->
    MergeSectionsSameMaterial l
    = concat (map (fun name =>
                     MergeAllSections
                       (filter (fun section => materialName section = name) (rev l)))
                  (rev (remove_dups (map materialName l)))).
Proof.
  intros l Hl. rewrite MergeSectionsSameMaterial_map.
  destruct (merge_by_material_spec l) as (Hkeys & _).
  rewrite <- Hkeys. clear Hkeys.
  pose proof (merge_by_material_merged l Hl) as Hentries.
  induction Hentries as [|e m (first & others & Hof & Hsnd) _ IH]; [reflexivity|].
  simpl. rewrite <- IH. unfold of_material in Hof. rewrite Hof, MergeAllSections_cons.
  simpl. rewrite Hsnd. reflexivity.
Qed.

(** ** Merging imported meshes *)

(** All vertices of a list of sections and of a list of meshes, in order. *)
Definition sections_vertices (l : list FRuntimeMeshImportSectionInfo) : list FVector :=
  concat (map sec_vertices l).

Definition all_vertices (meshInfos : list FRuntimeMeshImportMeshInfo) : list FVector :=
  concat (map (fun mesh => sections_vertices (sections mesh)) meshInfos).

Lemma MergeMeshes_fold others merged :
  let result :=
    fold_left
      (fun merged mesh =>
         mkFRuntimeMeshImportMeshInfo (meshName merged) (sections merged ++ sections mesh))
      others merged in
  meshName result = meshName merged
  /\ sections result = sections merged ++ concat (map sections others).
Proof.
  revert merged. induction others as [|mesh others IH]; intros merged; simpl.
  - rewrite app_nil_r. split; reflexivity.
  - destruct (IH (mkFRuntimeMeshImportMeshInfo (meshName merged)
                    (sections merged ++ sections mesh))) as (Hname & Hsections).
    simpl in *. rewrite Hname, Hsections, <- app_assoc. split; reflexivity.
Qed.

Lemma MergeMeshes_spec first second rest :
  MergeMeshes (first :: second :: rest)
  = [mkFRuntimeMeshImportMeshInfo NAME_None
       (concat (map sections (first :: second :: rest)))].
Proof.
  unfold MergeMeshes.
  destruct (MergeMeshes_fold (second :: rest)
              (mkFRuntimeMeshImportMeshInfo NAME_None (sections first)))
    as (Hname & Hsections).
  destruct (fold_left _ (second :: rest) _) as [name secs]. simpl in *.
  rewrite Hname, Hsections. reflexivity.
Qed.

Lemma all_vertices_MergeMeshes meshInfos :
  all_vertices (MergeMeshes meshInfos) = all_vertices meshInfos
  /\ (length (MergeMeshes meshInfos) <= 1 \/ MergeMeshes meshInfos = meshInfos)%nat.
Proof.
  destruct meshInfos as [|first [|second rest]];
    [split; [reflexivity|left; simpl; lia]..|].
  rewrite MergeMeshes_spec. split; [|left; simpl; lia].
  unfold all_vertices, sections_vertices. simpl. rewrite app_nil_r.
  rewrite !map_app, !concat_app. f_equal. f_equal.
  induction rest as [|mesh rest IH]; [reflexivity|].
  simpl. rewrite map_app, concat_app, IH. reflexivity.
Qed.

Lemma sections_vertices_MergeAllSections l :
  sections_vertices (MergeAllSections l) = sections_vertices l.
Proof.
  destruct l as [|first others]; [reflexivity|].
  rewrite MergeAllSections_cons.
  destruct (append_all_channels first others) as (Hv & _).
  unfold sections_vertices. simpl. rewrite Hv, app_nil_r. reflexivity.
Qed.

Lemma filter_by_keys (keys : list FName) (l : list FRuntimeMeshImportSectionInfo) :
  NoDup keys ->
  concat (map (fun name => filter (fun section => materialName section = name) l) keys)
  ≡ₚ filter (fun section => materialName section ∈ keys) l.
Proof.
  intros Hkeys. induction Hkeys as [|name keys Hnot _ IH]; simpl.
  - induction l as [|section l IHl]; [reflexivity|].
    rewrite filter_cons. destruct (decide (materialName section ∈ [])) as [H|_];
      [inversion H|exact IHl].
  - rewrite IH. clear IH. induction l as [|section l IHl]; [reflexivity|].
    rewrite !filter_cons.
    destruct (decide (materialName section = name)) as [Heq|Hne].
    + destruct (decide (materialName section ∈ keys)) as [Hin|_];
        [rewrite Heq in Hin; contradiction|].
      destruct (decide (materialName section ∈ name :: keys)) as [_|Hout];
        [|exfalso; apply Hout; rewrite Heq; left].
      simpl. apply Permutation_cons; [reflexivity|exact IHl].
    + destruct (decide (materialName section ∈ keys)) as [Hin|Hnin].
      * destruct (decide (materialName section ∈ name :: keys)) as [_|Hout];
          [|exfalso; apply Hout; right; exact Hin].
        rewrite <- Permutation_middle. apply Permutation_cons; [reflexivity|exact IHl].
      * destruct (decide (materialName section ∈ name :: keys)) as [Hin|_];
          [|exact IHl].
        exfalso. apply elem_of_cons in Hin as [Heq|Hin]; contradiction.
Qed.

Lemma filter_all {A : Type} (P : A -> Prop) `{forall x, Decision (P x)} (l : list A) :
  Forall P l -> filter P l = l.
Proof.
  induction 1 as [|x l Hx _ IH]; [reflexivity|].
  rewrite filter_cons, decide_True by exact Hx. rewrite IH. reflexivity.
Qed.

Lemma sections_vertices_MergeSectionsSameMaterial l :
  sections_vertices (MergeSectionsSameMaterial l) ≡ₚ sections_vertices l.
Proof.
  rewrite MergeSectionsSameMaterial_map.
  destruct (merge_by_material_spec l) as (Hkeys & Hentries).
  assert (Hparts : sections_vertices (map snd (merge_by_material l))
                   = sections_vertices
                       (concat (map (fun name => of_material name l)
                                    (map fst (merge_by_material l))))).
  { unfold sections_vertices. clear Hkeys.
    induction Hentries as [|e m (_ & Hvertices) _ IH]; [reflexivity|].
    simpl. rewrite map_app, concat_app, <- IH, Hvertices. reflexivity. }
  rewrite Hparts, Hkeys. unfold of_material.
  assert (Hperm : concat (map (fun name =>
                                 filter (fun section => materialName section = name)
                                        (rev l))
                              (rev (remove_dups (map materialName l))))
                  ≡ₚ l).
  { rewrite filter_by_keys.
    - rewrite filter_all; [symmetry; apply Permutation_rev|].
      apply Forall_forall. intros section Hin.
      apply list_elem_of_In. rewrite <- in_rev. apply list_elem_of_In.
      apply elem_of_remove_dups. apply list_elem_of_In, in_map.
      rewrite in_rev. apply list_elem_of_In. exact Hin.
    - apply NoDup_ListNoDup, List.NoDup_rev, NoDup_ListNoDup. apply NoDup_remove_dups. }
  unfold sections_vertices. rewrite Hperm. reflexivity.
Qed.

Lemma all_vertices_map (f : list FRuntimeMeshImportSectionInfo
                            -> list FRuntimeMeshImportSectionInfo) meshInfos :
  (forall l, sections_vertices (f l) ≡ₚ sections_vertices l) ->
  all_vertices (map (fun mesh => mkFRuntimeMeshImportMeshInfo (meshName mesh)
                                   (f (sections mesh))) meshInfos)
  ≡ₚ all_vertices meshInfos.
Proof.
  intros Hf. unfold all_vertices.
  induction meshInfos as [|mesh meshInfos IH]; [reflexivity|].
  simpl. rewrite IH, Hf. reflexivity.
Qed.

Lemma all_vertices_map_eq (f : list FRuntimeMeshImportSectionInfo
                               -> list FRuntimeMeshImportSectionInfo) meshInfos :
  (forall l, sections_vertices (f l) = sections_vertices l) ->
  all_vertices (map (fun mesh => mkFRuntimeMeshImportMeshInfo (meshName mesh)
                                   (f (sections mesh))) meshInfos)
  = all_vertices meshInfos.
Proof.
  intros Hf. unfold all_vertices.
  induction meshInfos as [|mesh meshInfos IH]; [reflexivity|].
  simpl. rewrite IH, Hf. reflexivity.
Qed.

(** X16.  Whatever import methods are chosen, merging meshes and sections
    after the import neither drops nor invents a vertex: the vertices of
    the result are those of the imported meshes, in the same order unless
    sections are merged by material, where they are a rearrangement.
    Merging meshes leaves at most one mesh, merging all sections at most
    one section in each mesh, and merging by material no two sections of
    one mesh with the same material name. *)
Theorem import_methods_keep_every_vertex :
  forall (importMethodMesh : EImportMethodMesh)
         (importMethodSection : EImportMethodSection)
         (meshInfos : list FRuntimeMeshImportMeshInfo),
    all_vertices (handle_import_methods importMethodMesh importMethodSection meshInfos)
    ≡ₚ all_vertices meshInfos
    /\ (importMethodSection <> ImportSection_MergeSameMaterial ->
        all_vertices (handle_import_methods importMethodMesh importMethodSection meshInfos)
        = all_vertices meshInfos)
    /\ (importMethodMesh = ImportMesh_Merge ->
        (length (handle_import_methods importMethodMesh importMethodSection meshInfos)
         <= 1)%nat)
    /\ (importMethodSection = ImportSection_Merge ->
        Forall (fun mesh => (length (sections mesh) <= 1)%nat)
               (handle_import_methods importMethodMesh importMethodSection meshInfos))
    /\ (importMethodSection = ImportSection_MergeSameMaterial ->
        Forall (fun mesh => NoDup (map materialName (sections mesh)))
               (handle_import_methods importMethodMesh importMethodSection meshInfos)).
Proof.
  intros mm ms meshInfos. unfold handle_import_methods.
  destruct (Z.ltb_spec 0 (Num meshInfos)) as [_|Hnone].
  2:{ assert (meshInfos = []) as ->.
      { apply Num_nil_iff. pose proof (Num_nonneg meshInfos). lia. }
      repeat split; try reflexivity; intros; try constructor; simpl; lia. }
  cbv zeta.
  set (kept := match mm with
               | ImportMesh_Keep => meshInfos
               | ImportMesh_Merge => MergeMeshes meshInfos
               end).
  assert (Hkept : all_vertices kept = all_vertices meshInfos).
  { subst kept. destruct mm; [reflexivity|apply all_vertices_MergeMeshes]. }
  assert (Hone : mm = ImportMesh_Merge -> (length kept <= 1)%nat).
  { intros ->. subst kept.
    destruct meshInfos as [|first [|second rest]]; simpl; lia. }
  rewrite <- Hkept. clearbody kept. clear Hkept.
  split; [|split; [|split; [|split]]].
  - destruct ms; [reflexivity| |].
    + apply all_vertices_map. intros l. rewrite sections_vertices_MergeAllSections.
      reflexivity.
    + apply all_vertices_map. apply sections_vertices_MergeSectionsSameMaterial.
  - intros Hms. destruct ms; [reflexivity| |contradiction].
    apply all_vertices_map_eq. apply sections_vertices_MergeAllSections.
  - intros Hmm. specialize (Hone Hmm). destruct ms; rewrite ?length_map; exact Hone.
  - intros ->. rewrite Forall_map. apply Forall_forall. intros mesh _. simpl.
    destruct (sections mesh) as [|first others]; [simpl; lia|].
    rewrite MergeAllSections_cons. simpl. lia.
  - intros ->. rewrite Forall_map. apply Forall_forall. intros mesh _. simpl.
    rewrite MergeSectionsSameMaterial_map.
    destruct (merge_by_material_spec (sections mesh)) as (Hkeys & Hentries).
    assert (Hnames : map materialName (map snd (merge_by_material (sections mesh)))
                     = map fst (merge_by_material (sections mesh))).
    { rewrite map_map. apply map_ext_Forall.
      eapply Forall_impl; [exact Hentries|]. intros e (Hname & _). exact Hname. }
    rewrite Hnames, Hkeys. apply NoDup_ListNoDup, List.NoDup_rev, NoDup_ListNoDup.
    apply NoDup_remove_dups.
Qed.

(** ** Importing the meshes of a node: what is read and what comes out *)

(** An optional per-vertex channel of a foreign mesh holds an entry for each
    vertex. *)
Definition channel_readable {A : Type} (mesh : aiMesh) (channel : option (list A))
  : Prop :=
  match channel with
  | Some data => (Z.to_nat (in_mNumVertices mesh) <= length data)%nat
  | None => True
  end.

(** A foreign mesh whose arrays are as long as its counts say, whose
    material is one of the scene and whose faces are triangles. *)
Definition mesh_readable (scene : aiScene) (mesh : aiMesh) : Prop :=
  is_Some (c_index (in_scene_mMaterials scene) (in_mMaterialIndex mesh))
  /\ (Z.to_nat (in_mNumVertices mesh) <= length (in_mVertices mesh))%nat
  /\ channel_readable mesh (in_mNormals mesh)
  /\ channel_readable mesh (in_mTextureCoords_0 mesh)
  /\ channel_readable mesh (in_mTangents mesh)
  /\ channel_readable mesh (in_mColors_0 mesh)
  /\ forall faceIndex,
       (faceIndex < Z.to_nat (to_int32 (in_mNumFaces mesh)))%nat ->
       exists face, in_mFaces mesh !! faceIndex = Some face /\ face_is_triangle face.

(** The meshes a node refers to are meshes of the scene, and readable. *)
Definition node_readable (scene : aiScene) (node : aiNode) : Prop :=
  forall nodeMeshIndex,
    (nodeMeshIndex < Z.to_nat (in_mNumMeshes node))%nat ->
    exists sceneMeshIndex mesh,
      in_mMeshes node !! nodeMeshIndex = Some sceneMeshIndex
      /\ c_index (in_scene_mMeshes scene) (to_int32 sceneMeshIndex) = Some mesh
      /\ mesh_readable scene mesh.

(** The shape of the section [ImportMeshesOfNode] makes of a mesh. *)
Definition section_of_mesh (scene : aiScene) (mesh : aiMesh)
    (section : FRuntimeMeshImportSectionInfo) : Prop :=
  let n := Z.to_nat (in_mNumVertices mesh) in
  (exists matName,
     c_index (in_scene_mMaterials scene) (in_mMaterialIndex mesh) = Some matName
     /\ materialName section = FName_of matName)
  /\ materialIndex section = to_int32 (in_mMaterialIndex mesh)
  /\ length (sec_vertices section) = n
  /\ length (sec_normals section) = n
  /\ length (uv0 section)
     = (if has_channel mesh (in_mTextureCoords_0 mesh) then n else 0%nat)
  /\ length (sec_tangents section)
     = (if has_channel mesh (in_mTangents mesh) && has_channel mesh (in_mBitangents mesh)
        then n else 0%nat)
  /\ length (sec_vertexColors section)
     = (if has_channel mesh (in_mColors_0 mesh) then n else 0%nat)
  /\ length (sec_triangles section)
     = (3 * Z.to_nat (to_int32 (in_mNumFaces mesh)))%nat.

Lemma for_each_index_lookup {B : Type} (f : nat -> option B) (n : nat) (l : list B) :
  for_each_index n f = Some l ->
  forall i x, l !! i = Some x -> f i = Some x.
Proof.
  revert l. induction n as [|n IH]; simpl; intros l H i x Hi.
  - injection H as <-. discriminate.
  - destruct (for_each_index n f) as [l0|] eqn:Hl0; [|discriminate].
    destruct (f n) as [y|] eqn:Hy; [|discriminate]. injection H as <-.
    pose proof (for_each_index_length _ _ _ Hl0) as Hlen.
    destruct (decide (i < length l0)%nat) as [Hlt|Hge].
    + rewrite lookup_app_l in Hi by exact Hlt. exact (IH l0 eq_refl i x Hi).
    + rewrite lookup_app_r in Hi by lia.
      destruct (i - length l0)%nat as [|k] eqn:Hk; [|discriminate].
      injection Hi as <-. replace i with n by lia. exact Hy.
Qed.

Lemma read_channel_length {A B : Type} (mesh : aiMesh) (channel : option (list A))
    (f : A -> B) (l : list B) :
  read_channel mesh channel f = Some l ->
  length l = Z.to_nat (in_mNumVertices mesh).
Proof.
  unfold read_channel. destruct channel as [data|]; [|discriminate].
  apply for_each_index_length.
Qed.

Lemma read_channel_total {A B : Type} (mesh : aiMesh) (data : list A) (f : A -> B) :
  (Z.to_nat (in_mNumVertices mesh) <= length data)%nat ->
  is_Some (read_channel mesh (Some data) f).
Proof.
  intros Hlen. unfold read_channel. apply for_each_index_total. intros i Hi.
  destruct (lookup_lt_is_Some_2 data i) as [x Hx]; [lia|].
  rewrite Hx. eexists. reflexivity.
Qed.

Lemma import_face_length flip face l :
  import_face flip face = Some l -> length l = 3%nat.
Proof.
  unfold import_face. destruct (negb (mNumIndices face =? 3)); [discriminate|].
  destruct (mIndices face) as [|i0 [|i1 [|i2 rest]]]; try discriminate.
  destruct flip; intros [= <-]; reflexivity.
Qed.

Lemma concat_length_const {A : Type} (k : nat) (ls : list (list A)) :
  Forall (fun l => length l = k) ls -> length (concat ls) = (k * length ls)%nat.
Proof.
  induction 1 as [|l ls Hl _ IH]; simpl; [lia|].
  rewrite length_app, IH, Hl. lia.
Qed.

Lemma import_triangles_length transform mesh tris :
  import_triangles transform mesh = Some tris ->
  length tris = (3 * Z.to_nat (to_int32 (in_mNumFaces mesh)))%nat.
Proof.
  unfold import_triangles. intros H.
  destruct (for_each_index _ _) as [faces|] eqn:Hfaces; [|discriminate].
  simpl in H. injection H as <-.
  rewrite (concat_length_const 3).
  - rewrite (for_each_index_length _ _ _ Hfaces). reflexivity.
  - eapply for_each_index_Forall; [|exact Hfaces].
    intros i l Hl. simpl in Hl.
    destruct (in_mFaces mesh !! i) as [face|]; [|discriminate].
    exact (import_face_length _ _ _ Hl).
Qed.

Lemma import_triangles_total transform scene mesh :
  mesh_readable scene mesh -> is_Some (import_triangles transform mesh).
Proof.
  intros (_ & _ & _ & _ & _ & _ & Hfaces). unfold import_triangles.
  destruct (for_each_index_total (Z.to_nat (to_int32 (in_mNumFaces mesh)))
              (fun faceIndex =>
                 match in_mFaces mesh !! faceIndex with
                 | Some face => import_face (bFlipTriangleWindingOrder transform) face
                 | None => None
                 end)) as [faces Hok].
  - intros i Hi. destruct (Hfaces i Hi) as (face & -> & Htri).
    rewrite (import_face_triangle _ _ Htri). eexists. reflexivity.
  - rewrite Hok. eexists. reflexivity.
Qed.

Lemma import_section_shape scene transform mesh section :
  import_section scene transform mesh = Some section ->
  section_of_mesh scene mesh section.
Proof.
  unfold import_section, section_of_mesh. intros H.
  destruct (c_index (in_scene_mMaterials scene) (in_mMaterialIndex mesh))
    as [matName|]; [|discriminate]. cbn [mbind option_bind] in H.
  destruct (read_channel mesh (Some (in_mVertices mesh)) _) as [vs|] eqn:Hvs;
    [|discriminate]. cbn [mbind option_bind] in H.
  destruct (if has_channel mesh (in_mNormals mesh) then _ else _) as [ns|] eqn:Hns;
    [|discriminate]. cbn [mbind option_bind] in H.
  destruct (if has_channel mesh (in_mTextureCoords_0 mesh) then _ else _)
    as [uvs|] eqn:Huvs; [|discriminate]. cbn [mbind option_bind] in H.
  destruct (if has_channel mesh (in_mTangents mesh)
               && has_channel mesh (in_mBitangents mesh) then _ else _)
    as [ts|] eqn:Hts; [|discriminate]. cbn [mbind option_bind] in H.
  destruct (if has_channel mesh (in_mColors_0 mesh) then _ else _) as [cs|] eqn:Hcs;
    [|discriminate]. cbn [mbind option_bind] in H.
  destruct (import_triangles transform mesh) as [tris|] eqn:Htris; [|discriminate].
  cbn [mbind option_bind] in H. injection H as <-. simpl.
  split; [exists matName; split; reflexivity|].
  split; [reflexivity|].
  split; [exact (read_channel_length _ _ _ _ Hvs)|].
  split.
  { destruct (has_channel mesh (in_mNormals mesh)).
    - exact (read_channel_length _ _ _ _ Hns).
    - injection Hns as <-. apply length_replicate. }
  split.
  { destruct (has_channel mesh (in_mTextureCoords_0 mesh)).
    - exact (read_channel_length _ _ _ _ Huvs).
    - injection Huvs as <-. reflexivity. }
  split.
  { destruct (has_channel mesh (in_mTangents mesh)
              && has_channel mesh (in_mBitangents mesh)).
    - exact (read_channel_length _ _ _ _ Hts).
    - injection Hts as <-. reflexivity. }
  split.
  { destruct (has_channel mesh (in_mColors_0 mesh)).
    - exact (read_channel_length _ _ _ _ Hcs).
    - injection Hcs as <-. reflexivity. }
  exact (import_triangles_length _ _ _ Htris).
Qed.

Lemma optional_channel_total {A B : Type} (mesh : aiMesh) (channel : option (list A))
    (f : A -> B) (cond : bool) (otherwise : list B) :
  channel_readable mesh channel ->
  (cond = true -> is_Some channel) ->
  is_Some (if cond then read_channel mesh channel f else Some otherwise).
Proof.
  intros Hread Hcond. destruct cond; [|eexists; reflexivity].
  destruct (Hcond eq_refl) as [data ->]. apply read_channel_total. exact Hread.
Qed.

Lemma has_channel_is_Some {A : Type} (mesh : aiMesh) (channel : option (list A)) :
  has_channel mesh channel = true -> is_Some channel.
Proof.
  unfold has_channel. destruct channel; [eexists; reflexivity|discriminate].
Qed.

Lemma import_section_total scene transform mesh :
  mesh_readable scene mesh -> is_Some (import_section scene transform mesh).
Proof.
  intros Hmesh. pose proof (import_triangles_total transform scene mesh Hmesh) as Htris.
  destruct Hmesh as ([matName Hmat] & Hvs & Hns & Huvs & Hts & Hcs & _).
  unfold import_section. rewrite Hmat. cbn [mbind option_bind].
  destruct (read_channel_total mesh (in_mVertices mesh)
              (fun v => TransformPosition transform (ai_to_FVector v)) Hvs) as [vs ->].
  cbn [mbind option_bind].
  destruct (optional_channel_total mesh (in_mNormals mesh)
              (fun v => GetSafeNormal
                          (TransformVector (InverseTransposed transform) (ai_to_FVector v)))
              (has_channel mesh (in_mNormals mesh))
              (replicate (Z.to_nat (in_mNumVertices mesh)) FVector_Zero) Hns
              (has_channel_is_Some _ _)) as [ns ->].
  cbn [mbind option_bind].
  destruct (optional_channel_total mesh (in_mTextureCoords_0 mesh)
              (fun v => mkFVector2D (ai_x v) (SFopp (ai_y v)))
              (has_channel mesh (in_mTextureCoords_0 mesh)) [] Huvs
              (has_channel_is_Some _ _)) as [uvs ->].
  cbn [mbind option_bind].
  destruct (optional_channel_total mesh (in_mTangents mesh)
              (fun v => GetSafeNormal (TransformVectorNoScale transform (ai_to_FVector v)))
              (has_channel mesh (in_mTangents mesh)
               && has_channel mesh (in_mBitangents mesh)) [] Hts) as [ts ->].
  { intros Hboth. apply andb_prop in Hboth as (Hboth & _).
    exact (has_channel_is_Some _ _ Hboth). }
  cbn [mbind option_bind].
  destruct (optional_channel_total mesh (in_mColors_0 mesh)
              (fun c => mkFLinearColor (ai_r c) (ai_g c) (ai_b c) (ai_a c))
              (has_channel mesh (in_mColors_0 mesh)) [] Hcs
              (has_channel_is_Some _ _)) as [cs ->].
  cbn [mbind option_bind]. destruct Htris as [tris ->]. eexists. reflexivity.
Qed.

Lemma ImportMeshesOfNode_returns scene node result nodeTransform :
  node_readable scene node ->
  is_Some (ImportMeshesOfNode scene node result nodeTransform).
Proof.
  intros Hnode. unfold ImportMeshesOfNode.
  destruct (in_mNumMeshes node =? 0); [eexists; reflexivity|].
  destruct (for_each_index_total (Z.to_nat (in_mNumMeshes node))
              (fun nodeMeshIndex =>
                 sceneMeshIndex ← in_mMeshes node !! nodeMeshIndex;
                 mesh ← c_index (in_scene_mMeshes scene) (to_int32 sceneMeshIndex);
                 import_section scene nodeTransform mesh)) as [secs Hsecs].
  - intros i Hi. destruct (Hnode i Hi) as (idx & mesh & -> & Hmesh & Hreadable).
    simpl. rewrite Hmesh. simpl. apply import_section_total. exact Hreadable.
  - rewrite Hsecs. eexists. reflexivity.
Qed.

(** X17.  [ImportMeshesOfNode] returns for every node whose meshes are
    readable meshes of the scene.  Whenever it returns, a node without
    meshes leaves the result as it is, and any other node adds exactly one
    mesh, named after the node, with one section for each mesh of the node
    in their order: the section has as many vertices and as many normals as
    the mesh has vertices, its texture coordinates, tangents and vertex
    colours are either absent or one for each vertex, and it has three
    triangle indices for each face. *)
Theorem ImportMeshesOfNode_adds_one_mesh_of_parallel_sections :
  forall (scene : aiScene) (node : aiNode) (result : FRuntimeMeshImportResult)
         (nodeTransform : FTransform),
    (node_readable scene node ->
     is_Some (ImportMeshesOfNode scene node result nodeTransform))
    /\ forall result',
         ImportMeshesOfNode scene node result nodeTransform = Some result' ->
         import_bSuccess result' = import_bSuccess result
         /\ (in_mNumMeshes node = 0 -> result' = result)
         /\ (in_mNumMeshes node <> 0 ->
             exists secs,
               meshInfos result'
               = meshInfos result
                 ++ [mkFRuntimeMeshImportMeshInfo (FName_of (in_mName node)) secs]
               /\ length secs = Z.to_nat (in_mNumMeshes node)
               /\ forall nodeMeshIndex section,
                    secs !! nodeMeshIndex = Some section ->
                    exists sceneMeshIndex mesh,
                      in_mMeshes node !! nodeMeshIndex = Some sceneMeshIndex
                      /\ c_index (in_scene_mMeshes scene) (to_int32 sceneMeshIndex)
                         = Some mesh
                      /\ section_of_mesh scene mesh section).
Proof.
  intros scene node result nodeTransform.
  split; [apply ImportMeshesOfNode_returns|].
  unfold ImportMeshesOfNode.
  - intros result' H.
    destruct (Z.eqb_spec (in_mNumMeshes node) 0) as [Hzero|Hsome].
    + injection H as <-. repeat split; try reflexivity. intros Hne. contradiction.
    + destruct (for_each_index _ _) as [secs|] eqn:Hsecs; [|discriminate].
      simpl in H. injection H as <-. simpl.
      split; [reflexivity|]. split; [intros Hzero; contradiction|].
      intros _. exists secs. split; [reflexivity|].
      split; [exact (for_each_index_length _ _ _ Hsecs)|].
      intros i section Hi.
      pose proof (for_each_index_lookup _ _ _ Hsecs i section Hi) as Hf.
      simpl in Hf.
      destruct (in_mMeshes node !! i) as [idx|]; [|discriminate]. simpl in Hf.
      destruct (c_index (in_scene_mMeshes scene) (to_int32 idx)) as [mesh|] eqn:Hmesh;
        [|discriminate]. simpl in Hf.
      exists idx, mesh. split; [reflexivity|]. split; [exact Hmesh|].
      exact (import_section_shape _ _ _ _ Hf).
Qed.

(** ** The winding order of the imported triangles *)

(** C7.  The indices of every imported face are emitted in the order
    (index0, index2, index1) when the product of the three scale components
    of the node transform is negative, and in the order (index0, index1,
    index2) otherwise; under a negative product the buffer is the one
    obtained under a non-negative product with the second and third index
    of every triangle exchanged.  [ImportMeshesOfNode] emits them so: called
    with the node transform on a node whose meshes are readable, it returns
    and adds one mesh named after the node, with one section for each mesh
    of the node, and the triangle buffer of the section made of a mesh holds
    the mesh's faces in that order. *)
Theorem ImportMeshesOfNode_winding_order :
  forall (transform : FTransform) (mesh : aiMesh),
    in_mNumFaces mesh = Num (in_mFaces mesh) ->
    Num (in_mFaces mesh) <= int32_max ->
    Forall face_is_triangle (in_mFaces mesh) ->
    let negative :=
      fltb (fmul (fmul (vecX (GetScale3D transform)) (vecY (GetScale3D transform)))
                 (vecZ (GetScale3D transform))) f_zero in
    (negative = true ->
       import_triangles transform mesh
       = Some (concat (map face_reversed (in_mFaces mesh))))
    /\ (negative = false ->
       import_triangles transform mesh
       = Some (concat (map face_in_order (in_mFaces mesh))))
    /\ concat (map face_reversed (in_mFaces mesh))
       = swap_winding (concat (map face_in_order (in_mFaces mesh)))
    /\ (forall scene sec,
          import_section scene transform mesh = Some sec ->
          sec_triangles sec
          = concat (map (if negative then face_reversed else face_in_order)
                        (in_mFaces mesh)))
    /\ (forall (scene : aiScene) (node : aiNode) (result : FRuntimeMeshImportResult)
               (nodeMeshIndex : nat) (sceneMeshIndex : Z),
          node_readable scene node ->
          (nodeMeshIndex < Z.to_nat (in_mNumMeshes node))%nat ->
          in_mMeshes node !! nodeMeshIndex = Some sceneMeshIndex ->
          c_index (in_scene_mMeshes scene) (to_int32 sceneMeshIndex) = Some mesh ->
          exists secs section,
            ImportMeshesOfNode scene node result transform
            = Some (mkFRuntimeMeshImportResult (import_bSuccess result)
                      (meshInfos result
                       ++ [mkFRuntimeMeshImportMeshInfo (FName_of (in_mName node)) secs]))
            /\ length secs = Z.to_nat (in_mNumMeshes node)
            /\ secs !! nodeMeshIndex = Some section
            /\ sec_triangles section
               = concat (map (if negative then face_reversed else face_in_order)
                             (in_mFaces mesh))).
Proof.
  intros transform mesh Hnum Hmax Hfaces negative.
  pose proof (import_triangles_wellformed transform mesh Hnum Hmax Hfaces) as Himp.
  fold (bFlipTriangleWindingOrder transform) in negative.
  change (bFlipTriangleWindingOrder transform) with negative in Himp.
  assert (Hsection : forall scene sec,
             import_section scene transform mesh = Some sec ->
             sec_triangles sec
             = concat (map (if negative then face_reversed else face_in_order)
                           (in_mFaces mesh))).
  { intros scene0 sec Hsec. apply import_section_triangles in Hsec.
    rewrite Himp in Hsec. injection Hsec as <-.
    destruct negative; reflexivity. }
  split; [intros Hneg; rewrite Himp, Hneg; reflexivity|].
  split; [intros Hneg; rewrite Himp, Hneg; reflexivity|].
  split; [apply swap_winding_faces; exact Hfaces|].
  split; [exact Hsection|].
  intros scene node result nodeMeshIndex sceneMeshIndex Hnode Hindex Hrefers Hmesh.
  destruct (ImportMeshesOfNode_returns scene node result transform Hnode)
    as [result' Hresult].
  revert Hresult. unfold ImportMeshesOfNode.
  destruct (Z.eqb_spec (in_mNumMeshes node) 0) as [Hzero|_].
  { rewrite Hzero in Hindex. simpl in Hindex. lia. }
  destruct (for_each_index _ _) as [secs|] eqn:Hsecs; [|discriminate].
  intros _.
  pose proof (for_each_index_length _ _ _ Hsecs) as Hlength.
  destruct (lookup_lt_is_Some_2 secs nodeMeshIndex) as [section Hsection_at];
    [rewrite Hlength; exact Hindex|].
  exists secs, section.
  split; [reflexivity|]. split; [exact Hlength|]. split; [exact Hsection_at|].
  pose proof (for_each_index_lookup _ _ _ Hsecs nodeMeshIndex section Hsection_at)
    as Hmade.
  simpl in Hmade. rewrite Hrefers in Hmade. simpl in Hmade.
  rewrite Hmesh in Hmade. simpl in Hmade.
  exact (Hsection scene section Hmade).
Qed.

(** ** Conversions between the engine's and the foreign value types *)

Lemma tempMatrix_of_FTransformToAiTransform (transform : FTransform) (i j : nat) :
  (i < 4)%nat -> (j < 4)%nat ->
  tempMatrix_of (FTransformToAiTransform transform) i j
  = ToMatrixWithScale transform i j.
Proof.
  intros Hi Hj.
  destruct i as [|[|[|[|i]]]]; [| | | |lia];
    (destruct j as [|[|[|[|j]]]]; [| | | |lia]); reflexivity.
Qed.

(** X18.  The two matrix conversions use one layout.  The matrix
    [AiTransformToFTransform] hands to the engine for the result of
    [FTransformToAiTransform] is the engine's matrix of the transform, entry
    for entry; and a foreign matrix that the engine's conversion to a
    transform and back to a matrix reproduces comes back unchanged from
    [AiTransformToFTransform] followed by [FTransformToAiTransform]. *)
Theorem matrix_conversions_are_inverse :
  forall (m : aiMatrix4x4),
    (forall i j, (i < 4)%nat -> (j < 4)%nat ->
       ToMatrixWithScale (FTransform_of_FMatrix (tempMatrix_of m)) i j
       = tempMatrix_of m i j) ->
    FTransformToAiTransform (AiTransformToFTransform m) = m
    /\ forall (transform : FTransform) (i j : nat),
         (i < 4)%nat -> (j < 4)%nat ->
         tempMatrix_of (FTransformToAiTransform transform) i j
         = ToMatrixWithScale transform i j.
Proof.
  intros m Hengine. split; [|apply tempMatrix_of_FTransformToAiTransform].
  unfold FTransformToAiTransform, AiTransformToFTransform.
  rewrite !Hengine by lia. destruct m. reflexivity.
Qed.

(** X19.  Converting tangents to procedural-mesh tangents and back returns
    the tangents; every converted tangent carries the flag that was passed,
    so the other round trip, from procedural-mesh tangents to vectors and
    back with flag [b], restores exactly the arrays whose flags all are
    [b]. *)
Theorem tangent_conversions_round_trip :
  forall (tangents : list FVector) (procTangents : list FProcMeshTangent) (b : bool),
    ConvertProceduralMeshTangentToVector
      (ConvertVectorToProceduralMeshTangent tangents b) = tangents
    /\ Forall (fun tan => bFlipTangentY tan = b)
              (ConvertVectorToProceduralMeshTangent tangents b)
    /\ (ConvertVectorToProceduralMeshTangent
          (ConvertProceduralMeshTangentToVector procTangents) b = procTangents
        <-> Forall (fun tan => bFlipTangentY tan = b) procTangents).
Proof.
  intros tangents procTangents b.
  unfold ConvertProceduralMeshTangentToVector, ConvertVectorToProceduralMeshTangent.
  split; [rewrite map_map; simpl; apply map_id|].
  split; [rewrite Forall_map; apply Forall_forall; intros tan _; reflexivity|].
  rewrite map_map. induction procTangents as [|[tan flip] l IH]; simpl.
  - split; [constructor|reflexivity].
  - split.
    + intros [= -> Hl]. constructor; [reflexivity|apply IH; exact Hl].
    + intros H. inversion H as [|? ? Hflip Hl]; subst. simpl.
      f_equal. apply IH. exact Hl.
Qed.

(** ** The log as lines *)

Lemma ends_with_newline_app (a b : string) :
  b <> EmptyString -> ends_with_newline (a ++ b) = ends_with_newline b.
Proof.
  intros Hb. induction a as [|c a IH]; [reflexivity|].
  simpl. rewrite IH.
  destruct (a ++ b)%string eqn:Hab; [|reflexivity].
  exfalso. exact (string_app_nonempty a b Hb Hab).
Qed.

Lemma string_eqb_nonempty (s : string) :
  s <> EmptyString -> String.eqb s EmptyString = false.
Proof. intros Hs. destruct s; [contradiction|reflexivity]. Qed.

Lemma string_app_assoc (a b c : string) :
  ((a ++ b) ++ c = a ++ (b ++ c))%string.
Proof. induction a as [|x a IH]; [reflexivity|]. exact (f_equal (String x) IH). Qed.

(** A log entry that is not empty and does not end its line itself. *)
Definition is_line (line : FString) : Prop :=
  line <> EmptyString /\ ends_with_newline line = false.

Lemma concat_newline_cons (a b : string) (rest : list string) :
  String.concat newline (((a ++ newline) ++ b)%string :: rest)
  = (a ++ newline ++ String.concat newline (b :: rest))%string.
Proof.
  destruct rest as [|r rest]; cbn [String.concat]; rewrite !string_app_assoc; reflexivity.
Qed.

Lemma NewLineAndAppend_lines (lines : list FString) (log : FString) :
  is_line log -> Forall is_line lines ->
  fold_left NewLineAndAppend lines log = String.concat newline (log :: lines).
Proof.
  intros Hlog Hlines. revert log Hlog.
  induction Hlines as [|line lines Hline _ IH]; intros log Hlog; [reflexivity|].
  destruct Hlog as (Hlog1 & Hlog2). destruct Hline as (Hline1 & Hline2).
  assert (Hstep : NewLineAndAppend log line = ((log ++ newline) ++ line)%string).
  { unfold NewLineAndAppend. rewrite (string_eqb_nonempty log Hlog1), Hlog2.
    reflexivity. }
  cbn [fold_left]. rewrite IH.
  - rewrite Hstep. apply concat_newline_cons.
  - rewrite Hstep. split; [apply string_app_nonempty; exact Hline1|].
    rewrite ends_with_newline_app by exact Hline1. exact Hline2.
Qed.

Lemma fold_WriteToLogWithNewLine_log (lines : list FString) (scene : FAssimpScene) :
  exportLog (fold_left WriteToLogWithNewLine lines scene)
  = fold_left (fun log line => NewLineAndAppend log line) lines <$> exportLog scene.
Proof.
  revert scene. induction lines as [|line lines IH]; intros scene; simpl.
  - destruct (exportLog scene); reflexivity.
  - rewrite IH. unfold WriteToLogWithNewLine.
    destruct (exportLog scene) as [log|] eqn:Hlog; simpl; [reflexivity|].
    rewrite Hlog. reflexivity.
Qed.

(** X20.  The export log holds one line for each entry: writing entries
    that are not empty and do not end in a line break to a scene whose log
    is empty leaves the entries joined by single line breaks, and writing
    them to a scene whose log holds such lines already adds them as further
    lines; a scene without a log stays without one. *)
Theorem log_holds_one_line_per_entry :
  forall (scene : FAssimpScene) (lines : list FString),
    Forall is_line lines ->
    (exportLog scene = None ->
     exportLog (fold_left WriteToLogWithNewLine lines scene) = None)
    /\ (exportLog scene = Some EmptyString ->
        exportLog (fold_left WriteToLogWithNewLine lines scene)
        = Some (String.concat newline lines))
    /\ (forall log,
          is_line log -> exportLog scene = Some log ->
          exportLog (fold_left WriteToLogWithNewLine lines scene)
          = Some (String.concat newline (log :: lines))).
Proof.
  intros scene lines Hlines. rewrite fold_WriteToLogWithNewLine_log.
  split; [intros ->; reflexivity|]. split.
  - intros ->. simpl. f_equal.
    destruct Hlines as [|line lines Hline Hlines]; [reflexivity|].
    cbn [fold_left]. rewrite NewLineAndAppend_empty.
    apply NewLineAndAppend_lines; assumption.
  - intros log Hlog ->. simpl. f_equal. apply NewLineAndAppend_lines; assumption.
Qed.

(** ** Walking the nodes of a foreign scene *)

(** The nodes of a tree, each with the nodes above it: a node before its
    children, the children in their order. *)
Fixpoint walk (above : list aiNodeTree) (node : aiNodeTree)
  : list (list aiNodeTree * aiNodeTree) :=
  (above, node) :: concat (map (walk (node :: above)) (in_mChildren node)).

(** Importing the meshes of the nodes of a list in turn. *)
Definition import_nodes (scene : aiScene)
    (nodes : list (list aiNodeTree * aiNodeTree)) (result : FRuntimeMeshImportResult)
  : option FRuntimeMeshImportResult :=
  fold_left
    (fun acc '(above, node) =>
       result ← acc;
       ImportMeshesOfNode scene (in_node node) result
         (BuildComposedNodeTransform above node FTransform_Identity))
    nodes (Some result).

Lemma aiNodeTree_induction (P : aiNodeTree -> Prop)
    (step : forall node, Forall P (in_mChildren node) -> P node) : forall node, P node.
Proof.
  fix prove 1. intros [n m cs]. apply step. simpl.
  induction cs as [|c l IH]; constructor; [apply prove|exact IH].
Qed.

Lemma walk_unfold above node :
  walk above node
  = (above, node) :: concat (map (walk (node :: above)) (in_mChildren node)).
Proof. destruct node. reflexivity. Qed.

Definition walk_step {S : Type}
    (predicate : list aiNodeTree -> aiNodeTree -> S -> option S)
    (acc : option S) (visited : list aiNodeTree * aiNodeTree) : option S :=
  s ← acc; predicate (fst visited) (snd visited) s.

Lemma walk_step_None {S : Type} predicate nodes :
  fold_left (@walk_step S predicate) nodes None = None.
Proof. induction nodes as [|v nodes IH]; [reflexivity|exact IH]. Qed.

Lemma IterateSceneNodes_unfold {S : Type} above node predicate (s : S) :
  IterateSceneNodes above node predicate s
  = match predicate above node s with
    | Some s =>
        fold_left
          (fun acc child =>
             s ← acc; IterateSceneNodes (node :: above) child predicate s)
          (in_mChildren node) (Some s)
    | None => None
    end.
Proof.
  destruct node as [n m cs]. simpl. destruct (predicate above _ s) as [s'|]; [|reflexivity].
  clear s. generalize (mkaiNodeTree n m cs :: above). intros up.
  revert s'. induction cs as [|c cs IH]; intros s; [reflexivity|].
  simpl. destruct (IterateSceneNodes up c predicate s) as [s'|].
  - apply IH.
  - clear IH. induction cs as [|c' cs IH]; [reflexivity|exact IH].
Qed.

Lemma IterateSceneNodes_walk {S : Type} predicate :
  forall node above (s : S),
    IterateSceneNodes above node predicate s
    = fold_left (walk_step predicate) (walk above node) (Some s).
Proof.
  induction node as [node IH] using aiNodeTree_induction. intros above s.
  rewrite IterateSceneNodes_unfold, walk_unfold. cbn [fold_left walk_step fst snd].
  simpl. destruct (predicate above node s) as [s'|]; [|symmetry; apply walk_step_None].
  clear s. generalize (Some s'). clear s'.
  induction IH as [|c cs Hc _ IHcs]; intros acc; [reflexivity|].
  simpl. rewrite fold_left_app, <- IHcs. f_equal.
  destruct acc as [s|]; simpl; [apply Hc|symmetry; apply walk_step_None].
Qed.

Lemma count_nodes_fold (nodes : list (list aiNodeTree * aiNodeTree)) (numNodes : Z) :
  0 <= numNodes -> numNodes + Z.of_nat (length nodes) <= int32_max ->
  fold_left (walk_step (fun _ _ numNodes => Some (int32_add numNodes 1))) nodes
            (Some numNodes)
  = Some (numNodes + Z.of_nat (length nodes)).
Proof.
  revert numNodes. induction nodes as [|v nodes IH]; intros numNodes H0 Hfit; simpl.
  - rewrite Z.add_0_r. reflexivity.
  - simpl length in Hfit. rewrite int32_add_exact.
    + rewrite IH by lia. f_equal. lia.
    + unfold in_int32, int32_min. lia.
Qed.

(** The progress updates [from + 1], ..., [from + count] of [numNodes]. *)
Definition progress_updates (numNodes from : Z) (count : nat)
  : list FRuntimeMeshImportExportProgress :=
  map (fun k => mkFRuntimeMeshImportExportProgress Progress_ImportingMeshes
                  (from + Z.of_nat k) numNodes)
      (seq 1 count).

Lemma progress_updates_S numNodes from count :
  progress_updates numNodes from (S count)
  = mkFRuntimeMeshImportExportProgress Progress_ImportingMeshes (from + 1) numNodes
    :: progress_updates numNodes (from + 1) count.
Proof.
  unfold progress_updates. cbn [seq map]. f_equal.
  rewrite <- seq_shift, map_map. apply map_ext. intros k. f_equal. lia.
Qed.

Lemma import_walk_fold scene numNodes nodes :
  forall result nodeCounter sent,
    0 <= nodeCounter -> nodeCounter + Z.of_nat (length nodes) <= int32_max ->
    fold_left
      (walk_step
         (fun above node '(result, nodeCounter, sent) =>
            result ← ImportMeshesOfNode scene (in_node node) result
                       (BuildComposedNodeTransform above node FTransform_Identity);
            Some (result, int32_add nodeCounter 1,
                  sent ++ [mkFRuntimeMeshImportExportProgress
                             Progress_ImportingMeshes (int32_add nodeCounter 1)
                             numNodes])))
      nodes (Some (result, nodeCounter, sent))
    = (result' ← import_nodes scene nodes result;
       Some (result', nodeCounter + Z.of_nat (length nodes),
             sent ++ progress_updates numNodes nodeCounter (length nodes))).
Proof.
  unfold import_nodes.
  induction nodes as [|[above node] nodes IH]; intros result nodeCounter sent H0 Hfit.
  - simpl. rewrite Z.add_0_r, app_nil_r. reflexivity.
  - simpl length in Hfit. cbn [fold_left walk_step fst snd mbind option_bind].
    destruct (ImportMeshesOfNode scene (in_node node) result _) as [result1|].
    + cbn [mbind option_bind].
      rewrite int32_add_exact by (unfold in_int32, int32_min; lia).
      rewrite IH by lia. cbn [length]. rewrite progress_updates_S, <- app_assoc.
      destruct (fold_left _ nodes (Some result1)) as [result'|]; [|reflexivity].
      simpl. do 3 f_equal. lia.
    + cbn [mbind option_bind]. rewrite walk_step_None.
      assert (Hnone : forall l,
                fold_left
                  (fun acc '(above, node) =>
                     result ← acc;
                     ImportMeshesOfNode scene (in_node node) result
                       (BuildComposedNodeTransform above node FTransform_Identity))
                  l None = None).
      { induction l as [|[a n] l IHl]; [reflexivity|exact IHl]. }
      rewrite Hnone. reflexivity.
Qed.

Lemma import_nodes_cons scene above node nodes result :
  import_nodes scene ((above, node) :: nodes) result
  = (result1 ← ImportMeshesOfNode scene (in_node node) result
                 (BuildComposedNodeTransform above node FTransform_Identity);
     import_nodes scene nodes result1).
Proof.
  unfold import_nodes. cbn [fold_left mbind option_bind].
  destruct (ImportMeshesOfNode scene (in_node node) result _) as [result1|];
    [reflexivity|].
  induction nodes as [|[a n] l IHl]; [reflexivity|exact IHl].
Qed.

Lemma import_nodes_names scene nodes :
  forall result result',
    import_nodes scene nodes result = Some result' ->
    import_bSuccess result' = import_bSuccess result
    /\ map meshName (meshInfos result')
       = map meshName (meshInfos result)
         ++ map (fun node => FName_of (in_mName (in_node node)))
                (filter (fun node => in_mNumMeshes (in_node node) <> 0)
                        (map snd nodes)).
Proof.
  induction nodes as [|[above node] nodes IH]; intros result result' H.
  - injection H as <-. simpl. rewrite app_nil_r. split; reflexivity.
  - rewrite import_nodes_cons in H.
    destruct (ImportMeshesOfNode scene (in_node node) result _) as [result1|] eqn:Hnode;
      [|discriminate].
    cbn [mbind option_bind] in H.
    destruct (IH _ _ H) as (Hsuccess & Hnames). rewrite Hsuccess, Hnames.
    cbn [map snd]. rewrite filter_cons.
    unfold ImportMeshesOfNode in Hnode.
    destruct (Z.eqb_spec (in_mNumMeshes (in_node node)) 0) as [Hzero|Hsome].
    + injection Hnode as <-.
      rewrite decide_False by (intros Hne; apply Hne; exact Hzero).
      split; reflexivity.
    + destruct (for_each_index _ _) as [secs|]; [|discriminate].
      injection Hnode as <-. simpl.
      rewrite decide_True by exact Hsome.
      rewrite map_app, <- app_assoc. split; reflexivity.
Qed.

Lemma import_nodes_total scene nodes :
  Forall (fun visited => node_readable scene (in_node (snd visited))) nodes ->
  forall result, is_Some (import_nodes scene nodes result).
Proof.
  induction 1 as [|[above node] nodes Hnode _ IH]; intros result.
  - eexists. reflexivity.
  - rewrite import_nodes_cons.
    destruct (ImportMeshesOfNode_returns scene (in_node node) result
                (BuildComposedNodeTransform above node FTransform_Identity) Hnode)
      as [result1 ->].
    cbn [mbind option_bind]. apply IH.
Qed.

(** X21.  The import walks the nodes of the scene so that a node comes
    before its children and the children come in their order: when the
    number of nodes fits an [int32], the meshes are imported node after
    node in that order, each node under its own transformation multiplied
    onto that of its parent and so on up to the root, and after each node a
    progress update with the number of nodes done so far and the number of
    all nodes is sent.  The meshes added to the result are named after the
    nodes that have meshes, in the order of the walk, and the import
    returns when the meshes of all nodes are readable. *)
Theorem scene_nodes_are_imported_in_walk_order :
  forall (scene : aiScene) (root : aiNodeTree) (result : FRuntimeMeshImportResult),
    Z.of_nat (length (walk [] root)) <= int32_max ->
    import_scene_meshes scene root result
    = (result' ← import_nodes scene (walk [] root) result;
       Some (result',
             map (fun k => mkFRuntimeMeshImportExportProgress Progress_ImportingMeshes
                             (Z.of_nat k) (Z.of_nat (length (walk [] root))))
                 (seq 1 (length (walk [] root)))))
    /\ (forall result' sent,
          import_scene_meshes scene root result = Some (result', sent) ->
          import_bSuccess result' = import_bSuccess result
          /\ map meshName (meshInfos result')
             = map meshName (meshInfos result)
               ++ map (fun node => FName_of (in_mName (in_node node)))
                      (filter (fun node => in_mNumMeshes (in_node node) <> 0)
                              (map snd (walk [] root))))
    /\ (Forall (fun visited => node_readable scene (in_node (snd visited)))
               (walk [] root) ->
        is_Some (import_scene_meshes scene root result))
    /\ (forall above node transform,
          BuildComposedNodeTransform above node transform
          = fold_right
              (fun node composed =>
                 FTransform_mul (AiTransformToFTransform (in_mTransformation node))
                                composed)
              transform (node :: above)).
Proof.
  intros scene root result Hfit.
  assert (Heq : import_scene_meshes scene root result
                = (result' ← import_nodes scene (walk [] root) result;
                   Some (result',
                         progress_updates (Z.of_nat (length (walk [] root))) 0
                           (length (walk [] root))))).
  { unfold import_scene_meshes. rewrite !IterateSceneNodes_walk.
    rewrite count_nodes_fold by lia.
    unfold mbind at 1. unfold option_bind at 1. cbv beta iota zeta. rewrite Z.add_0_l.
    rewrite IterateSceneNodes_walk, import_walk_fold by lia.
    destruct (import_nodes scene (walk [] root) result) as [result'|]; reflexivity. }
  split; [exact Heq|]. split; [|split].
  - intros result' sent H. rewrite Heq in H.
    destruct (import_nodes scene (walk [] root) result) as [result1|] eqn:Hnodes;
      [|discriminate].
    injection H as <- _. exact (import_nodes_names _ _ _ _ Hnodes).
  - intros Hreadable. rewrite Heq.
    destruct (import_nodes_total scene _ Hreadable result) as [result' ->].
    eexists. reflexivity.
  - intros above node transform. revert node.
    induction above as [|parent above IH]; intros node; [reflexivity|].
    simpl. rewrite IH. reflexivity.
Qed.

(** ** Building: the meshes a node makes of its sections *)

Definition sum_Z (l : list Z) : Z := fold_right Z.add 0 l.

Definition vertices_of (l : list FExportableMeshSection) : Z :=
  sum_Z (map (fun section => Num (vertices section)) l).

Definition triangles_of (l : list FExportableMeshSection) : Z :=
  sum_Z (map (fun section => Num (triangles section)) l).

Lemma sum_Z_app l k : sum_Z (l ++ k) = sum_Z l + sum_Z k.
Proof. induction l as [|x l IH]; simpl; [reflexivity|]. rewrite IH. lia. Qed.

Lemma vertices_of_app l k : vertices_of (l ++ k) = vertices_of l + vertices_of k.
Proof. unfold vertices_of. rewrite map_app. apply sum_Z_app. Qed.

Lemma triangles_of_app l k : triangles_of (l ++ k) = triangles_of l + triangles_of k.
Proof. unfold triangles_of. rewrite map_app. apply sum_Z_app. Qed.

(** The sections of a map, entry after entry. *)
Definition sections_of (m : MaterialSections) : list FExportableMeshSection :=
  concat (map snd m).

Lemma sections_of_app m1 m2 : sections_of (m1 ++ m2) = sections_of m1 ++ sections_of m2.
Proof. unfold sections_of. rewrite map_app, concat_app. reflexivity. Qed.

Lemma TMap_assign_other {K V : Type} `{EqDecision K} (m : TMap K V) (k : K) (v : V) :
  ~ In k (map fst m) -> TMap_assign m k v = m.
Proof.
  intros Hnot. unfold TMap_assign. induction m as [|e m IH]; [reflexivity|].
  simpl. destruct (decide (fst e = k)) as [Heq|_].
  - exfalso. apply Hnot. left. exact Heq.
  - f_equal. apply IH. intros Hin. apply Hnot. right. exact Hin.
Qed.

Lemma TMap_split {K V : Type} `{EqDecision K} (m : TMap K V) (k : K) (v : V) :
  NoDup (map fst m) -> TMap_Find m k = Some v ->
  exists m1 m2,
    m = m1 ++ (k, v) :: m2
    /\ forall new, TMap_assign m k new = m1 ++ (k, new) :: m2.
Proof.
  intros Hnodup Hfind. apply TMap_Find_In in Hfind.
  apply list_elem_of_split in Hfind as (m1 & m2 & ->).
  exists m1, m2. split; [reflexivity|]. intros new.
  rewrite map_app in Hnodup. simpl in Hnodup.
  apply NoDup_app in Hnodup as (_ & Hdisjoint & Hrest).
  apply NoDup_cons in Hrest as (Hnot2 & _).
  unfold TMap_assign. rewrite map_app. simpl.
  rewrite decide_True by reflexivity. f_equal; [|f_equal].
  - apply (TMap_assign_other m1 k new). intros Hin.
    apply (Hdisjoint k); [apply list_elem_of_In; exact Hin|left].
  - apply (TMap_assign_other m2 k new). intros Hin. apply Hnot2.
    apply list_elem_of_In. exact Hin.
Qed.

(** What the map of [CreateAssimpMeshesFromMeshData] holds when the sections
    [seen] have been filed. *)
Definition grouped (param : FRuntimeMeshExportParam) (m : MaterialSections)
    (seen : list FExportableMeshSection) : Prop :=
  map_valid m
  /\ NoDup (map fst m)
  /\ (forall handle, handle ∈ map fst m <-> handle ∈ map material seen)
  /\ vertices_of (sections_of m) = vertices_of seen
  /\ triangles_of (sections_of m) = triangles_of seen
  /\ (if bCombineSameMaterial param
      then Forall (fun e => length (snd e) = 1%nat) m
      else length (sections_of m) = length seen).

Lemma grouped_nil param : grouped param [] [].
Proof.
  split; [constructor|]. split; [constructor|]. split; [intros handle; reflexivity|].
  split; [reflexivity|]. split; [reflexivity|].
  destruct (bCombineSameMaterial param); [constructor|reflexivity].
Qed.

Lemma group_section_grouped this_worldTransform param m seen section :
  section_valid section = true -> grouped param m seen ->
  exists m',
    group_section this_worldTransform param m section = Some m'
    /\ grouped param m' (seen ++ [section]).
Proof.
  intros Hvalid (Hm & Hnodup & Hkeys & Hvs & Htris & Hshape).
  destruct (group_section_spec this_worldTransform param m section Hvalid Hm)
    as (m' & Hrun & Hm').
  exists m'. split; [exact Hrun|]. split; [exact Hm'|].
  revert Hrun. unfold group_section.
  destruct (section_valid_lengths section Hvalid) as (Hn & Ht & _).
  destruct (transform_section_data_spec
              (FTransform_mul (meshToWorld section) (Inverse this_worldTransform))
              (length (vertices section)) section)
    as (section' & -> & Hlv & _ & _ & _ & _ & Htri & Hmat); try lia.
  cbn [mbind option_bind].
  set (handle := material section').
  assert (Hadd : exists secs,
             TMap_Find (TMap_FindOrAdd m handle []) handle = Some secs
             /\ NoDup (map fst (TMap_FindOrAdd m handle []))
             /\ (forall h, h ∈ map fst (TMap_FindOrAdd m handle [])
                           <-> h ∈ map fst m \/ h = handle)
             /\ sections_of (TMap_FindOrAdd m handle []) = sections_of m
             /\ (bCombineSameMaterial param = true ->
                 Forall (fun e => fst e <> handle -> length (snd e) = 1%nat)
                        (TMap_FindOrAdd m handle [])
                 /\ (secs = [] \/ length secs = 1%nat))).
  { destruct (TMap_Find_FindOrAdd m handle []) as (secs & Hfind & Horigin).
    exists secs. split; [exact Hfind|]. unfold TMap_FindOrAdd.
    destruct (TMap_Find m handle) as [old|] eqn:Hold.
    - destruct Horigin as [[= <-]|[Hnone _]]; [|discriminate Hnone].
      split; [exact Hnodup|]. split.
      { intros h. split; [intros Hin; left; exact Hin|].
        intros [Hin| ->]; [exact Hin|].
        apply TMap_Find_In in Hold. apply list_elem_of_In, in_map_iff.
        exists (handle, old). split; [reflexivity|apply list_elem_of_In; exact Hold]. }
      split; [reflexivity|]. intros Hcombine. rewrite Hcombine in Hshape. split.
      + eapply Forall_impl; [exact Hshape|]. intros e He _. exact He.
      + right. apply TMap_Find_In in Hold. rewrite Forall_forall in Hshape.
        exact (Hshape _ Hold).
    - destruct Horigin as [Hsome|[_ ->]]; [discriminate Hsome|].
      apply TMap_Find_None_keys in Hold.
      split.
      { rewrite map_app. simpl. apply NoDup_app. split; [exact Hnodup|].
        split; [|apply NoDup_singleton].
        intros h Hin Hin'. apply list_elem_of_singleton in Hin'. subst h.
        apply Hold. apply list_elem_of_In. exact Hin. }
      split.
      { intros h. rewrite map_app. simpl. rewrite elem_of_app, list_elem_of_singleton.
        reflexivity. }
      split; [rewrite sections_of_app; unfold sections_of at 2; simpl;
              apply app_nil_r|].
      intros Hcombine. rewrite Hcombine in Hshape. split; [|left; reflexivity].
      apply Forall_app. split.
      + eapply Forall_impl; [exact Hshape|]. intros e He _. exact He.
      + constructor; [|constructor]. simpl. intros Hne. contradiction. }
  destruct Hadd as (secs & Hfind & Hnodup1 & Hkeys1 & Hsections1 & Hshape1).
  rewrite Hfind. cbn [mbind option_bind].
  destruct (TMap_split _ _ _ Hnodup1 Hfind) as (m1 & m2 & Hsplit & Hassign).
  assert (Hspec : forall new,
             vertices_of new = vertices_of secs + Num (vertices section) ->
             triangles_of new = triangles_of secs + Num (triangles section) ->
             (if bCombineSameMaterial param then length new = 1%nat
              else length new = S (length secs)) ->
             NoDup (map fst (m1 ++ (handle, new) :: m2))
             /\ (forall h, h ∈ map fst (m1 ++ (handle, new) :: m2)
                           <-> h ∈ map material (seen ++ [section]))
             /\ vertices_of (sections_of (m1 ++ (handle, new) :: m2))
                = vertices_of (seen ++ [section])
             /\ triangles_of (sections_of (m1 ++ (handle, new) :: m2))
                = triangles_of (seen ++ [section])
             /\ (if bCombineSameMaterial param
                 then Forall (fun e => length (snd e) = 1%nat)
                             (m1 ++ (handle, new) :: m2)
                 else length (sections_of (m1 ++ (handle, new) :: m2))
                      = length (seen ++ [section]))).
  { intros new Hnv Hnt Hnl.
    assert (Hfst : map fst (m1 ++ (handle, new) :: m2)
                   = map fst (TMap_FindOrAdd m handle [])).
    { rewrite Hsplit, !map_app. reflexivity. }
    split; [rewrite Hfst; exact Hnodup1|]. split.
    { intros h. rewrite Hfst, Hkeys1, Hkeys, map_app, elem_of_app. simpl.
      rewrite list_elem_of_singleton. unfold handle. rewrite Hmat. reflexivity. }
    rewrite Hsplit in Hsections1.
    assert (Hparts : sections_of (m1 ++ (handle, new) :: m2)
                     = sections_of m1 ++ new ++ sections_of m2
                     /\ sections_of m = sections_of m1 ++ secs ++ sections_of m2).
    { rewrite <- Hsections1. rewrite !sections_of_app. split; reflexivity. }
    destruct Hparts as (Hnew & Hold).
    rewrite Hold in Hvs, Htris. rewrite !vertices_of_app in Hvs.
    rewrite !triangles_of_app in Htris.
    split.
    { rewrite Hnew, !vertices_of_app, Hnv. unfold vertices_of at 5. simpl. lia. }
    split.
    { rewrite Hnew, !triangles_of_app, Hnt. unfold triangles_of at 5. simpl. lia. }
    destruct (bCombineSameMaterial param) eqn:Hcombine.
    - destruct (Hshape1 eq_refl) as (Hothers & _). rewrite Hsplit in Hothers.
      apply Forall_app in Hothers as (Hothers1 & Hothers2).
      apply Forall_cons in Hothers2 as (_ & Hothers2).
      rewrite Hsplit, map_app in Hnodup1. simpl in Hnodup1.
      apply NoDup_app in Hnodup1 as (_ & Hdisjoint & Hrest).
      apply NoDup_cons in Hrest as (Hnot2 & _).
      apply Forall_app. split; [|constructor; [exact Hnl|]].
      + rewrite Forall_forall in Hothers1 |- *. intros e He. apply Hothers1; [exact He|].
        intros Heq. apply (Hdisjoint handle); [|left].
        apply list_elem_of_In, in_map_iff. exists e.
        split; [exact Heq|apply list_elem_of_In; exact He].
      + rewrite Forall_forall in Hothers2 |- *. intros e He. apply Hothers2; [exact He|].
        intros Heq. apply Hnot2. apply list_elem_of_In, in_map_iff. exists e.
        split; [exact Heq|apply list_elem_of_In; exact He].
    - rewrite Hold, !length_app in Hshape. rewrite Hnew, !length_app, Hnl.
      simpl. lia. }
  assert (Hvalid_secs : Forall (fun s0 => material s0 = handle) secs).
  { assert (Hm1 : map_valid (TMap_FindOrAdd m handle [])).
    { unfold TMap_FindOrAdd. destruct (TMap_Find m handle); [exact Hm|].
      apply Forall_app. split; [exact Hm|]. constructor; [constructor|constructor]. }
    apply TMap_Find_In in Hfind. unfold map_valid in Hm1.
    rewrite Forall_forall in Hm1. specialize (Hm1 _ Hfind). simpl in Hm1.
    eapply Forall_impl; [exact Hm1|]. intros s0 (Hs0 & _). exact Hs0. }
  destruct (bCombineSameMaterial param && IsValidIndex secs 0) eqn:Hcombine.
  - apply andb_prop in Hcombine as (Hcombine & Hindex).
    destruct secs as [|first others]; [discriminate Hindex|].
    destruct (Hshape1 Hcombine) as (_ & [Hnil|Hone]); [discriminate Hnil|].
    destruct others as [|second others]; [|discriminate Hone].
    inversion Hvalid_secs as [|? ? Hfirst _]; subst.
    unfold Append. rewrite decide_True by exact Hfirst.
    cbn [mbind option_bind]. intros [= <-]. rewrite Hassign.
    apply Hspec.
    + unfold vertices_of. simpl. rewrite Num_app. unfold Num. rewrite Hlv. lia.
    + unfold triangles_of. simpl. rewrite Num_app. unfold Num.
      rewrite length_map, Htri. lia.
    + rewrite Hcombine. reflexivity.
  - cbn [mbind option_bind]. intros [= <-]. rewrite Hassign.
    apply Hspec.
    + rewrite vertices_of_app. unfold vertices_of at 2. simpl. unfold Num.
      rewrite Hlv. lia.
    + rewrite triangles_of_app. unfold triangles_of at 2. simpl. rewrite Htri. lia.
    + destruct (bCombineSameMaterial param) eqn:Hflag.
      * simpl in Hcombine. destruct (Hshape1 eq_refl) as (_ & [->|Hone]); [reflexivity|].
        exfalso. destruct secs as [|first [|second others]]; try discriminate Hone.
        discriminate Hcombine.
      * rewrite length_app. simpl. lia.
Qed.

Lemma group_sections_grouped this_worldTransform param sections :
  forall m seen,
    Forall (fun section => section_valid section = true) sections ->
    grouped param m seen ->
    exists m',
      group_sections this_worldTransform param m sections = Some m'
      /\ grouped param m' (seen ++ sections).
Proof.
  induction sections as [|section rest IH]; intros m seen Hall Hm; simpl.
  - exists m. rewrite app_nil_r. split; [reflexivity|exact Hm].
  - inversion Hall as [|? ? Hs Hrest]; subst.
    destruct (group_section_grouped this_worldTransform param m seen section Hs Hm)
      as (m1 & -> & Hm1).
    destruct (IH m1 (seen ++ [section]) Hrest Hm1) as (m' & Hrun & Hm').
    exists m'. rewrite <- app_assoc in Hm'. split; [exact Hrun|exact Hm'].
Qed.

Lemma create_meshes_made sections :
  forall scene this,
    Forall (fun section => section_valid section = true) sections ->
    Num (materials scene) = Num (uniqueMaterials scene) ->
    exists scene' this' made,
      create_meshes (scene, this) sections = Some (scene', this')
      /\ meshes scene' = meshes scene ++ made
      /\ Forall2 (fun section mesh =>
                    Num (mesh_vertices mesh) = Num (vertices section)
                    /\ Num (mesh_faces mesh) = Z.quot (Num (triangles section)) 3)
                 sections made.
Proof.
  induction sections as [|section rest IH]; intros scene this Hall Hlen;
    cbn [create_meshes].
  - exists scene, this, []. rewrite app_nil_r.
    split; [reflexivity|]. split; [reflexivity|constructor].
  - inversion Hall as [|? ? Hs Hrest]; subst.
    destruct (create_mesh_spec scene this section Hs Hlen)
      as (mesh & Hcreate & _ & Hmv & Hmf).
    destruct (create_mesh_step scene this section Hs Hlen)
      as (s1 & t1 & Hcreate' & _ & Hp1 & _).
    rewrite Hcreate in Hcreate'. rewrite Hcreate.
    injection Hcreate' as Hs1 Ht1.
    rewrite Hs1, Ht1.
    destruct (IH s1 t1 Hrest (proj1 Hp1)) as (s2 & t2 & made & Hrec & Hmeshes & Hmade).
    exists s2, t2, (mesh :: made). split; [exact Hrec|].
    split.
    + rewrite Hmeshes, <- Hs1. simpl. rewrite <- app_assoc. reflexivity.
    + constructor; [split; assumption|exact Hmade].
Qed.

(** X22.  From the valid sections gathered at a node,
    [CreateAssimpMeshesFromMeshData] makes one mesh for each material handle
    among them when [bCombineSameMaterial] is set and one mesh for each
    section otherwise, and appends them to the mesh pool.  In both cases
    the meshes have together as many vertices as the sections, and three
    times their number of faces is the number of triangle indices of the
    sections; the node keeps no gathered section. *)
Theorem node_makes_one_mesh_per_material_or_section :
  forall (scene : FAssimpScene) (this : FAssimpNode) (param : FRuntimeMeshExportParam),
    gathered_valid this ->
    Num (materials scene) = Num (uniqueMaterials scene) ->
    exists scene' this' made,
      CreateAssimpMeshesFromMeshData scene this param = Some (scene', this')
      /\ meshes scene' = meshes scene ++ made
      /\ gatheredExportables this' = []
      /\ length made
         = (if bCombineSameMaterial param
            then length (remove_dups (map material (concat (gatheredExportables this))))
            else length (concat (gatheredExportables this)))
      /\ sum_Z (map (fun mesh => Num (mesh_vertices mesh)) made)
         = sum_Z (map (fun section => Num (vertices section))
                      (concat (gatheredExportables this)))
      /\ 3 * sum_Z (map (fun mesh => Num (mesh_faces mesh)) made)
         = sum_Z (map (fun section => Num (triangles section))
                      (concat (gatheredExportables this))).
Proof.
  intros scene this param Hvalid Hlen.
  assert (Hall : Forall (fun section => section_valid section = true)
                        (concat (gatheredExportables this))).
  { unfold gathered_valid in Hvalid. clear -Hvalid.
    induction Hvalid as [|l ls Hl _ IH]; simpl; [constructor|].
    apply Forall_app. split; assumption. }
  destruct (CreateAssimpMeshesFromMeshData_spec scene this param Hvalid Hlen)
    as (scene' & this' & Hrun & _ & _ & Hthis).
  exists scene', this'. pose proof Hrun as Hcall.
  unfold CreateAssimpMeshesFromMeshData in Hrun.
  destruct (group_sections_grouped (worldTransform this) param
              (concat (gatheredExportables this)) [] [] Hall (grouped_nil param))
    as (m & Hgroup & Hm & Hnodup & Hkeys & Hvs & Htris & Hshape).
  rewrite Hgroup in Hrun. cbn [mbind option_bind] in Hrun.
  destruct (create_meshes_made (concat (map snd m)) scene
              (set_gatheredExportables this []) (map_valid_concat m Hm) Hlen)
    as (scene'' & this'' & made & Hrun' & Hmeshes & Hmade).
  rewrite Hrun in Hrun'. injection Hrun' as <- <-.
  exists made. split; [exact Hcall|]. split; [exact Hmeshes|].
  split; [rewrite Hthis; reflexivity|].
  simpl in Hkeys, Hvs, Htris, Hshape.
  fold (sections_of m) in Hmade.
  assert (Hlength : length made = length (sections_of m)).
  { symmetry. exact (Forall2_length _ _ _ Hmade). }
  assert (Hsums : sum_Z (map (fun mesh => Num (mesh_vertices mesh)) made)
                  = vertices_of (sections_of m)
                  /\ 3 * sum_Z (map (fun mesh => Num (mesh_faces mesh)) made)
                     = triangles_of (sections_of m)).
  { pose proof (map_valid_concat m Hm) as Hsecs. fold (sections_of m) in Hsecs.
    clear -Hmade Hsecs. unfold vertices_of, triangles_of.
    induction Hmade as [|section mesh sections made (Hv & Hf) _ IH];
      [split; reflexivity|].
    inversion Hsecs as [|? ? Hs Hrest]; subst.
    destruct (IH Hrest) as (IHv & IHf).
    destruct (section_valid_lengths section Hs) as (_ & _ & _ & _ & Hrem).
    simpl. rewrite Hv, Hf, IHv. split; [reflexivity|].
    rewrite <- IHf.
    pose proof (Z.quot_rem' (Num (triangles section)) 3) as Hqr. lia. }
  destruct Hsums as (Hsumv & Hsumf).
  split; [|split; [rewrite Hsumv; exact Hvs|rewrite Hsumf; exact Htris]].
  rewrite Hlength.
  destruct (bCombineSameMaterial param).
  - assert (Hones : length (sections_of m) = length (map fst m)).
    { clear -Hshape. unfold sections_of.
      induction Hshape as [|e m He _ IH]; [reflexivity|].
      simpl. rewrite length_app, IH, He. reflexivity. }
    rewrite Hones. apply Permutation_length. apply NoDup_Permutation.
    + exact Hnodup.
    + apply NoDup_remove_dups.
    + intros handle. rewrite Hkeys, elem_of_remove_dups. reflexivity.
  - exact Hshape.
Qed.

End Engine.

(** * Concrete scenes

    The definitions above are evaluated here on concrete inputs.  The engine
    operations are instantiated by simple stand-ins: names are strings
    compared as they are, [Printf] keeps the format, transforms are composed
    by keeping the left operand, vectors are left where they are, and the
    codec always succeeds. *)

Definition sample_Printf (format : string) (_ : list PrintfArg) : FString := format.
Definition sample_mul (a _ : FTransform) : FTransform := a.
Definition sample_Inverse (t : FTransform) : FTransform := t.
Definition sample_TransformVector (_ : FTransform) (v : FVector) : FVector := v.
Definition sample_ReinterpretAsLinear (c : FColor) : FLinearColor :=
  mkFLinearColor (f_of_Z (colR c)) (f_of_Z (colG c)) (f_of_Z (colB c)) (f_of_Z (colA c)).
Definition sample_GetName (handle : UMaterialInterface_ptr) : FString :=
  if decide (handle = 7) then "M_Chair" else "M_Other".
Definition sample_Quaternion (r : FRotator) : FQuat :=
  mkFQuat (Roll r) (Pitch r) (Yaw r) f_one.
Definition sample_ConcatenateRotation (t : FTransform) (q : FQuat) : FTransform :=
  mkFTransform q (Translation t) (Scale3D t).
Definition sample_ToMatrixWithScale (t : FTransform) : FMatrix :=
  fun i j =>
    match i, j with
    | 0%nat, 0%nat => vecX (Scale3D t)
    | 1%nat, 1%nat => vecY (Scale3D t)
    | 2%nat, 2%nat => vecZ (Scale3D t)
    | 3%nat, 3%nat => f_one
    | _, _ => f_zero
    end.

(** Splitting at dots, empty parts dropped. *)
Fixpoint split_dots (s current : string) : list string :=
  match s with
  | EmptyString => if String.eqb current EmptyString then [] else [current]
  | String c rest =>
      if Ascii.eqb c (Ascii.ascii_of_nat 46) then
        if String.eqb current EmptyString then split_dots rest EmptyString
        else current :: split_dots rest EmptyString
      else split_dots rest (current ++ String c EmptyString)
  end.

Definition sample_ParseIntoArray (s : FString) : list FString := split_dots s EmptyString.

Definition sample_codec (_ : FAssimpScene (FName := string)) (_ _ : string) : codec_run :=
  mkcodec_run (codec_returned aiReturn_SUCCESS) [] EmptyString.

Definition sample_AddExportObject :=
  AddExportObject (FName := string) (fun s => s) sample_ParseIntoArray.

Definition sample_AddNode :=
  AddNode (FName := string) (fun s => s) sample_ParseIntoArray.

Definition sample_PrepareSceneForExport :=
  PrepareSceneForExport (FName := string) (fun s => s) (fun s => s) sample_Printf
    sample_mul sample_Inverse sample_TransformVector sample_TransformVector
    sample_ReinterpretAsLinear sample_GetName sample_Quaternion
    sample_ConcatenateRotation sample_ToMatrixWithScale.

Definition sample_Export :=
  Export (FName := string) (fun s => s) (fun s => s) sample_Printf
    sample_mul sample_Inverse sample_TransformVector sample_TransformVector
    sample_ReinterpretAsLinear sample_GetName sample_Quaternion
    sample_ConcatenateRotation sample_ToMatrixWithScale
    (fun _ => false) (fun _ => true) (fun s => s) sample_codec.

Definition sample_Export_Async_Cpp :=
  Export_Async_Cpp (FName := string) sample_Printf
    (fun _ => false) (fun _ => true) (fun s => s).

(** A triangle: three vertices, one face, material handle 7. *)
Definition sample_triangle : FExportableMeshSection :=
  {| meshToWorld := FTransform_Identity;
     material := 7;
     vertices := [FVector_Zero; FVector_One; mkFVector f_one f_zero f_zero];
     normals := [FVector_One; FVector_One; FVector_One];
     tangents := [FVector_One; FVector_One; FVector_One];
     textureCoordinates := [mkFVector2D f_zero f_zero; mkFVector2D f_one f_zero;
                            mkFVector2D f_zero f_one];
     vertexColors := [mkFColor 0 0 255 255; mkFColor 0 255 0 255; mkFColor 255 0 0 255];
     triangles := [0; 1; 2] |}.

(** Two more vertices of the same material, without a face. *)
Definition sample_two_vertices : FExportableMeshSection :=
  {| meshToWorld := FTransform_Identity;
     material := 7;
     vertices := [FVector_One; FVector_Zero];
     normals := [FVector_One; FVector_One];
     tangents := [FVector_One; FVector_One];
     textureCoordinates := [mkFVector2D f_zero f_zero; mkFVector2D f_one f_one];
     vertexColors := [mkFColor 0 0 0 255; mkFColor 255 255 255 255];
     triangles := [] |}.

(** The triangle again under another material handle of the same name. *)
Definition sample_triangle_other : FExportableMeshSection :=
  {| meshToWorld := FTransform_Identity;
     material := 9;
     vertices := vertices sample_triangle;
     normals := normals sample_triangle;
     tangents := tangents sample_triangle;
     textureCoordinates := textureCoordinates sample_triangle;
     vertexColors := vertexColors sample_triangle;
     triangles := [0; 2; 1] |}.

(** Three sources: one delivers the triangle, one refuses, one returns no
    section. *)
Definition source_good : IMeshExportable :=
  mkIMeshExportable "Chair" "Room.Chair" (fun _ _ => (true, [sample_triangle])).
Definition source_refusing : IMeshExportable :=
  mkIMeshExportable "Ghost" "Room" (fun _ _ => (false, [sample_triangle])).
Definition source_empty : IMeshExportable :=
  mkIMeshExportable "Void" "Room.Chair" (fun _ _ => (true, [])).
Definition source_other : IMeshExportable :=
  mkIMeshExportable "Table" "Room.Table" (fun _ _ => (true, [sample_triangle_other])).

Definition sample_param : FRuntimeMeshExportParam :=
  {| bCombineSameMaterial := true; lod := 0; bSkipLodNotValid := false;
     formatId := "obj"; file := "Export/scene.obj"; bOverrideExisting := true;
     correction := mkFTransformCorrection false true false Plus_90 Zero Zero
                     (f_of_Z 2);
     bLogToUnreal_param := false |}.

Definition sample_exporter_new : URuntimeMeshExporter (FName := string) :=
  new_URuntimeMeshExporter "None"%string.

(** An idle exporter with the three sources registered under two nodes. *)
Definition sample_exporter : URuntimeMeshExporter :=
  sample_AddExportObject
    (sample_AddExportObject
       (sample_AddExportObject sample_exporter_new source_good false EmptyString)
       source_refusing false EmptyString)
    source_empty false EmptyString.

(** The same exporter after an asynchronous export has started. *)
Definition sample_exporter_busy : URuntimeMeshExporter :=
  fst (sample_Export_Async_Cpp sample_exporter
         (mkFRuntimeMeshExportAsyncParam 1 sample_param)).

(** A root with two children, each with one source of its own. *)
Definition sample_two_children : URuntimeMeshExporter :=
  sample_AddExportObject
    (sample_AddExportObject sample_exporter_new source_good true "Chair")
    source_other true "Table".

Definition sample_result : FRuntimeMeshExportResult :=
  mkFRuntimeMeshExportResult false EmptyString EmptyString 0.

(** ** The statements above at concrete inputs *)

(** A mirrored node transform, and a mesh of two triangles. *)
Definition sample_mirror : FTransform :=
  mkFTransform FQuat_Identity FVector_Zero (mkFVector f_minus_one f_one f_one).

Definition sample_aiMesh : aiMesh :=
  {| in_mNumVertices := 4;
     in_mVertices := [mkaiVector3D f_zero f_zero f_zero; mkaiVector3D f_one f_zero f_zero;
                      mkaiVector3D f_zero f_one f_zero; mkaiVector3D f_one f_one f_zero];
     in_mNormals := None; in_mTangents := None; in_mBitangents := None;
     in_mTextureCoords_0 := None; in_mColors_0 := None;
     in_mNumFaces := 2;
     in_mFaces := [mkaiFace 3 [0; 1; 2]; mkaiFace 3 [2; 1; 3]];
     in_mMaterialIndex := 0 |}.

(** Appending the two vertices to the triangle gives five vertices and
    leaves the triangle's indices as they are. *)
Lemma Append_triangle_two_vertices :
  material sample_triangle = material sample_two_vertices
  /\ exists R,
       Append sample_triangle sample_two_vertices = Some R
       /\ Num (vertices R) = 5
       /\ triangles R = [0; 1; 2].
Proof.
  split; [reflexivity|].
  destruct (Append_concatenates_and_offsets sample_triangle sample_two_vertices eq_refl)
    as (R & HR & _ & _ & _ & _ & _ & Hnum & _ & _ & _ & Hsame & _).
  exists R. split; [exact HR|]. split.
  - rewrite Hnum. reflexivity.
  - rewrite (Hsame eq_refl). reflexivity.
Defined.

(** A scene with that mesh and one material, and a node that refers to the
    mesh. *)
Definition sample_aiScene : aiScene := mkaiScene [sample_aiMesh] ["Wood"%string].

Definition sample_aiNode : aiNode := mkaiNode "Chair" 1 [0].

Definition sample_ImportMeshesOfNode :=
  ImportMeshesOfNode (FName := string) (fun s => s) sample_TransformVector
    sample_TransformVector sample_TransformVector (fun v => v) (fun t => t).

(** The two triangles under the mirrored transform and under the identity,
    as [import_triangles] emits them and as [ImportMeshesOfNode] adds them
    for the node. *)
Lemma winding_of_sample_aiMesh :
  import_triangles sample_mirror sample_aiMesh = Some [0; 2; 1; 2; 3; 1]
  /\ import_triangles FTransform_Identity sample_aiMesh = Some [0; 1; 2; 2; 1; 3]
  /\ (exists secs section,
        sample_ImportMeshesOfNode sample_aiScene sample_aiNode
          (mkFRuntimeMeshImportResult false []) sample_mirror
        = Some (mkFRuntimeMeshImportResult false
                  [mkFRuntimeMeshImportMeshInfo "Chair"%string secs])
        /\ length secs = 1%nat
        /\ secs !! 0%nat = Some section
        /\ sec_triangles section = [0; 2; 1; 2; 3; 1])
  /\ (exists secs section,
        sample_ImportMeshesOfNode sample_aiScene sample_aiNode
          (mkFRuntimeMeshImportResult false []) FTransform_Identity
        = Some (mkFRuntimeMeshImportResult false
                  [mkFRuntimeMeshImportMeshInfo "Chair"%string secs])
        /\ length secs = 1%nat
        /\ secs !! 0%nat = Some section
        /\ sec_triangles section = [0; 1; 2; 2; 1; 3]).
Proof.
  assert (Hfaces : Forall face_is_triangle (in_mFaces sample_aiMesh)).
  { repeat constructor. }
  assert (Hnode : node_readable sample_aiScene sample_aiNode).
  { intros nodeMeshIndex Hindex.
    destruct nodeMeshIndex as [|nodeMeshIndex]; [|simpl in Hindex; lia].
    exists 0, sample_aiMesh. split; [reflexivity|]. split; [reflexivity|].
    split; [eexists; reflexivity|]. split; [simpl; lia|].
    split; [exact I|]. split; [exact I|]. split; [exact I|]. split; [exact I|].
    intros faceIndex Hface.
    destruct faceIndex as [|[|faceIndex]];
      [eexists; split; [reflexivity|repeat constructor]
      |eexists; split; [reflexivity|repeat constructor]
      |vm_compute in Hface; lia]. }
  destruct (ImportMeshesOfNode_winding_order (FName := string) (fun s => s)
              sample_TransformVector sample_TransformVector sample_TransformVector
              (fun v => v) (fun t => t) sample_mirror sample_aiMesh
              eq_refl ltac:(vm_compute; discriminate) Hfaces)
    as (Hneg & _ & _ & _ & Hnode_neg).
  destruct (ImportMeshesOfNode_winding_order (FName := string) (fun s => s)
              sample_TransformVector sample_TransformVector sample_TransformVector
              (fun v => v) (fun t => t) FTransform_Identity sample_aiMesh
              eq_refl ltac:(vm_compute; discriminate) Hfaces)
    as (_ & Hpos & _ & _ & Hnode_pos).
  split; [exact (Hneg eq_refl)|]. split; [exact (Hpos eq_refl)|].
  split.
  - destruct (Hnode_neg sample_aiScene sample_aiNode (mkFRuntimeMeshImportResult false [])
                0%nat 0 Hnode ltac:(simpl; lia) eq_refl eq_refl)
      as (secs & section & Hrun & Hlength & Hat & Htriangles).
    exists secs, section. split; [exact Hrun|]. split; [exact Hlength|].
    split; [exact Hat|exact Htriangles].
  - destruct (Hnode_pos sample_aiScene sample_aiNode (mkFRuntimeMeshImportResult false [])
                0%nat 0 Hnode ltac:(simpl; lia) eq_refl eq_refl)
      as (secs & section & Hrun & Hlength & Hat & Htriangles).
    exists secs, section. split; [exact Hrun|]. split; [exact Hlength|].
    split; [exact Hat|exact Htriangles].
Defined.

(** The exporter with an asynchronous export in flight turns a second
    export down and keeps its scene. *)
Lemma busy_sample_exporter :
  bIsExporting sample_exporter_busy = true
  /\ (exists result',
        sample_Export sample_exporter_busy sample_param sample_result
        = Some (sample_exporter_busy, result')
        /\ bSuccess result' = false)
  /\ sample_AddExportObject sample_exporter_busy source_other false EmptyString
     = sample_exporter_busy.
Proof.
  split; [reflexivity|].
  destruct (busy_exporter_rejects (FName := string) (fun s => s) (fun s => s)
              (fun s => s) sample_Printf
              sample_mul sample_Inverse sample_TransformVector sample_TransformVector
              sample_ReinterpretAsLinear sample_GetName sample_Quaternion
              sample_ConcatenateRotation sample_ToMatrixWithScale
              (fun _ => false) (fun _ => true) (fun s => s) sample_ParseIntoArray
              sample_codec sample_exporter_busy eq_refl)
    as (Hexport & _ & _ & Hadd & _).
  split; [exact (Hexport sample_param sample_result)|].
  exact (Hadd source_other false EmptyString).
Defined.

(** The root with two children: gathering caches the first child before the
    second, building visits the second child before the first, and the
    prepared scene has the mesh of the second child at index 0 and the mesh
    of the first child at index 1. *)
Lemma gather_and_build_orders_differ :
  GetNodesRecursive (rootNode (scene sample_two_children)) [] []
  = [[]; [0%nat]; [1%nat]]
  /\ ProcessGatheredData_order (rootNode (scene sample_two_children)) []
     = [[]; [1%nat]; [0%nat]]
  /\ GetNodesRecursive (rootNode (scene sample_two_children)) [] []
     <> ProcessGatheredData_order (rootNode (scene sample_two_children)) []
  /\ option_map
       (fun prepared =>
          (allNodesHelper prepared,
           map (fun child => (name child, meshRefIndices child))
               (children (rootNode prepared))))
       (sample_PrepareSceneForExport (scene sample_two_children) sample_param)
     = Some ([[]; [0%nat]; [1%nat]],
             [("Chair"%string, [1]); ("Table"%string, [0])]).
Proof.
  split; [reflexivity|]. split; [reflexivity|]. split; [discriminate|].
  vm_compute. reflexivity.
Qed.

(** On a chain the two orders agree; in the export of the root with two
    children the cache lists the first child before the second, and the
    meshes are numbered second child first. *)
Lemma orders_in_sample_exports :
  ProcessGatheredData_order (rootNode (scene sample_exporter)) []
  = GetNodesRecursive (rootNode (scene sample_exporter)) [] []
  /\ exists prepared count,
       sample_PrepareSceneForExport (scene sample_two_children) sample_param
       = Some prepared
       /\ allNodesHelper prepared = [[]; [0%nat]; [1%nat]]
       /\ refs_along (rootNode prepared) [[]; [1%nat]; [0%nat]] = mesh_refs 0 count.
Proof.
  destruct (gather_and_build_orders (FName := string)
              (fun s => s) (fun s => s) sample_Printf
              sample_mul sample_Inverse sample_TransformVector sample_TransformVector
              sample_ReinterpretAsLinear sample_GetName sample_Quaternion
              sample_ConcatenateRotation sample_ToMatrixWithScale)
    as (Horders & Hexport).
  split.
  - destruct (Horders (rootNode (scene sample_exporter)) []) as (_ & _ & _ & _ & Hone).
    exact (Hone eq_refl).
  - destruct (Hexport (scene sample_two_children) sample_param)
      as (prepared & count & Hrun & Hcache & _ & Hrefs).
    + vm_compute. repeat constructor.
    + constructor.
    + reflexivity.
    + reflexivity.
    + exists prepared, count. split; [exact Hrun|]. split; [exact Hcache|exact Hrefs].
Defined.

(** Three sources, of which one refuses and one returns no section: the
    export succeeds, counts two skipped sources and gathers the sections of
    the third; the prepared scene has the one mesh that the scene with the
    third source alone has; a second export of the same exporter counts two
    skipped sources again. *)
Lemma export_of_three_sources :
  (exists this' result',
      sample_Export sample_exporter sample_param sample_result = Some (this', result')
      /\ result_numObjectsSkipped result' = 2
      /\ tree_gathered (gather_tree sample_param (rootNode (scene sample_exporter)))
         = [[sample_triangle]])
  /\ (exists prepared remaining,
        sample_PrepareSceneForExport (scene sample_exporter) sample_param = Some prepared
        /\ sample_PrepareSceneForExport
             (set_rootNode (scene sample_exporter)
                (drop_skipped sample_param (rootNode (scene sample_exporter))))
             sample_param
           = Some remaining
        /\ tree_sources (drop_skipped sample_param (rootNode (scene sample_exporter)))
           = [source_good]
        /\ numObjectsSkipped prepared = 2
        /\ numObjectsSkipped remaining = 0
        /\ meshes prepared = meshes remaining
        /\ Num (meshes remaining) = 1)
  /\ (exists first result' second result'',
        sample_Export sample_exporter sample_param sample_result = Some (first, result')
        /\ allNodesHelper (scene first) = [[]; [0%nat]; [0%nat; 0%nat]]
        /\ sample_Export first sample_param sample_result = Some (second, result'')
        /\ result_numObjectsSkipped result'' = 2
        /\ allNodesHelper (scene second)
           = [[]; [0%nat]; [0%nat; 0%nat]; []; [0%nat]; [0%nat; 0%nat]]).
Proof.
  assert (Hperm : Permutation (tree_sources (rootNode (scene sample_exporter)))
                              [source_refusing; source_empty; source_good]).
  { change (Permutation [source_refusing; source_good; source_empty]
                        [source_refusing; source_empty; source_good]).
    apply perm_skip, perm_swap. }
  assert (Hfresh : fresh (rootNode (scene sample_exporter))).
  { vm_compute. repeat constructor. }
  destruct (skipped_sources_are_counted_and_dropped (FName := string)
              "None"%string (fun s => s) (fun s => s) (fun s => s) sample_Printf
              sample_mul sample_Inverse sample_TransformVector sample_TransformVector
              sample_ReinterpretAsLinear sample_GetName sample_Quaternion
              sample_ConcatenateRotation sample_ToMatrixWithScale
              (fun _ => false) (fun _ => true) (fun s => s) sample_ParseIntoArray
              sample_codec)
    as (_ & Hexport & Hprepare & _ & Hrepeat).
  split; [|split].
  - destruct (Hexport sample_exporter sample_param sample_result eq_refl
                (or_introl eq_refl) eq_refl Hfresh (Forall_nil_2 _) eq_refl)
      as (this' & result' & Hrun & _ & _ & Hthree).
    exists this', result'. split; [exact Hrun|].
    destruct (Hthree source_refusing source_empty source_good Hperm
                eq_refl eq_refl eq_refl) as [Hcount Hgathered].
    split; [exact Hcount|]. rewrite Hgathered. reflexivity.
  - destruct (Hprepare (scene sample_exporter) sample_param Hfresh (Forall_nil_2 _)
                eq_refl)
      as (gathered & prepared & remaining & _ & _ & _ & Hprep & _ & Hrem & Hzero & _
          & Hmeshes & _ & _ & Hthree).
    destruct (Hthree source_refusing source_empty source_good Hperm
                eq_refl eq_refl eq_refl) as [Hcount Hkept].
    exists prepared, remaining.
    split; [exact Hprep|]. split; [exact Hrem|]. split; [exact Hkept|].
    split; [exact Hcount|]. split; [exact Hzero|]. split; [exact Hmeshes|].
    vm_compute in Hrem. injection Hrem as <-. reflexivity.
  - assert (Hreach : reachable "None"%string (fun s => s) (fun s => s) (fun s => s)
                       sample_Printf sample_mul sample_Inverse sample_TransformVector
                       sample_TransformVector sample_ReinterpretAsLinear sample_GetName
                       sample_Quaternion sample_ConcatenateRotation
                       sample_ToMatrixWithScale (fun _ => false) (fun _ => true)
                       (fun s => s) sample_ParseIntoArray sample_codec sample_exporter).
    { unfold sample_exporter, sample_AddExportObject.
      repeat apply reachable_AddExportObject. apply reachable_new. }
    destruct (Hrepeat sample_exporter sample_param sample_result Hreach
                (or_introl eq_refl) eq_refl)
      as (first & result' & Hrun1 & _ & Hreach1 & _).
    destruct (Hrepeat first sample_param sample_result Hreach1
                (or_introl eq_refl) eq_refl)
      as (second & result'' & Hrun2 & Hcount2 & _).
    exists first, result', second, result''.
    split; [exact Hrun1|].
    pose proof Hrun1 as Hfirst. vm_compute in Hfirst. injection Hfirst as Hfirst _.
    split; [rewrite <- Hfirst; reflexivity|]. split; [exact Hrun2|].
    split.
    + rewrite Hcount2, <- Hfirst. reflexivity.
    + pose proof Hrun2 as Hsecond. rewrite <- Hfirst in Hsecond.
      vm_compute in Hsecond. injection Hsecond as Hsecond _.
      rewrite <- Hsecond. reflexivity.
Defined.

(** An empty scene, then the triangle and the triangle of the other
    handle: two material records at two indices. *)
Lemma two_handles_two_materials :
  exists scene1 node1 mesh1 scene2 node2 mesh2,
    create_mesh (fun s => s) sample_ReinterpretAsLinear sample_GetName
      (new_FAssimpScene "None"%string, new_FAssimpNode "None"%string) sample_triangle
    = Some (scene1, node1)
    /\ meshes scene1 = [mesh1]
    /\ uniqueMaterials scene1 = [7]
    /\ mMaterialIndex (mesh_base mesh1) = 0
    /\ create_mesh (fun s => s) sample_ReinterpretAsLinear sample_GetName
         (scene1, node1) sample_triangle_other
       = Some (scene2, node2)
    /\ meshes scene2 = [mesh1; mesh2]
    /\ mMaterialIndex (mesh_base mesh2) <> mMaterialIndex (mesh_base mesh1).
Proof.
  destruct (materials_deduplicated_by_handle (FName := string)
              (fun s => s) (fun s => s) sample_Printf
              sample_mul sample_Inverse sample_TransformVector sample_TransformVector
              sample_ReinterpretAsLinear sample_GetName)
    as (Hcreate & _).
  destruct (Hcreate (new_FAssimpScene "None"%string) (new_FAssimpNode "None"%string)
              sample_triangle)
    as (scene1 & node1 & mesh1 & Hrun1 & Hmeshes1 & _ & Hnew & _ & _ & _ & _ & Hnext).
  - reflexivity.
  - split; [reflexivity|]. split; constructor.
  - reflexivity.
  - destruct Hnew as (Huniq & _ & Hindex).
    { intros []. }
    destruct (Hnext node1 sample_triangle_other) as (scene2 & node2 & mesh2 & Hrun2
                                                     & Hmeshes2 & Hdiff & _).
    + reflexivity.
    + discriminate.
    + exists scene1, node1, mesh1, scene2, node2, mesh2.
      split; [exact Hrun1|]. split; [exact Hmeshes1|]. split; [exact Huniq|].
      split; [exact Hindex|]. split; [exact Hrun2|].
      split; [rewrite Hmeshes2, Hmeshes1; reflexivity|exact Hdiff].
Defined.



(** Three children of which the first and the last are both named "Room":
    the path "Room" leads to the first. *)
Definition sample_duplicates : FAssimpNode (FName := string) :=
  set_children (new_FAssimpNode "None"%string)
    [new_FAssimpNode "Room"%string; new_FAssimpNode "Hall"%string;
     set_worldTransform (new_FAssimpNode "Room"%string) sample_mirror].

Lemma first_of_two_rooms :
  exists p,
    snd (FindOrCreateNode (fun s => s) sample_duplicates ["Room"%string]) = 0%nat :: p.
Proof.
  destruct (FindOrCreateNode_idempotent_and_names (FName := string)
              (fun s => s) (fun s => s))
    as (_ & _ & Hfirst & _).
  destruct (Hfirst sample_duplicates "Room"%string []
              2%nat (set_worldTransform (new_FAssimpNode "Room"%string) sample_mirror)
              eq_refl eq_refl)
    as (i & p & first & Hptr & _ & _ & _ & Hmin & _).
  exists p. destruct i as [|i]; [exact Hptr|].
  exfalso.
  exact (Hmin 0%nat (new_FAssimpNode "Room"%string) eq_refl (Nat.lt_0_succ i) eq_refl).
Defined.

(** Two import sections of equal name and different index: the name stays,
    the index is reset, the second triangle is offset by three. *)
Definition sample_import_section (index : Z) : FRuntimeMeshImportSectionInfo :=
  {| materialName := "Wood"%string; materialIndex := index;
     sec_vertices := vertices sample_triangle; sec_triangles := [0; 1; 2];
     sec_normals := normals sample_triangle;
     uv0 := textureCoordinates sample_triangle;
     sec_vertexColors := [];
     sec_tangents := tangents sample_triangle |}.

Definition sample_merged : FRuntimeMeshImportSectionInfo :=
  fst (Append_Move "None"%string (sample_import_section 0) (sample_import_section 1)).

Lemma Append_Move_equal_name_other_index :
  materialName sample_merged = "Wood"%string
  /\ materialIndex sample_merged = -1
  /\ sec_triangles sample_merged = [0; 1; 2; 3; 4; 5].
Proof.
  unfold sample_merged.
  destruct (Append_Move_material_and_offsets (FName := string) "None"%string
              (sample_import_section 0) (sample_import_section 1))
    as (Hname & _ & _ & Hindex & _ & _ & Htriangles & _).
  split; [exact (Hname eq_refl)|].
  split; [apply Hindex; discriminate|].
  rewrite Htriangles. reflexivity.
Defined.

(** ** Further statements at concrete inputs *)

(** The sample exporter is idle and its tree carries no export data. *)
Lemma sample_exporter_ok : exporter_ok sample_exporter.
Proof.
  apply (reachable_ok (FName := string) "None"%string (fun s => s) (fun s => s)
           (fun s => s) sample_Printf sample_mul sample_Inverse sample_TransformVector
           sample_TransformVector sample_ReinterpretAsLinear sample_GetName
           sample_Quaternion sample_ConcatenateRotation sample_ToMatrixWithScale
           (fun _ => false) (fun _ => true) (fun s => s) sample_ParseIntoArray
           sample_codec).
  unfold sample_exporter, sample_AddExportObject.
  repeat apply reachable_AddExportObject. apply reachable_new.
Qed.

(** The parameters of the sample export, now without leave to overwrite. *)
Definition sample_param_keep : FRuntimeMeshExportParam :=
  {| bCombineSameMaterial := true; lod := 0; bSkipLodNotValid := false;
     formatId := "obj"; file := "Export/scene.obj"; bOverrideExisting := false;
     correction := correction sample_param;
     bLogToUnreal_param := false |}.

(** The file exists and may not be overwritten: the export is turned down
    with the message for that case and the scene is as before. *)
Lemma export_onto_existing_file :
  exists this' result',
    Export (FName := string) (fun s => s) (fun s => s) sample_Printf
      sample_mul sample_Inverse sample_TransformVector sample_TransformVector
      sample_ReinterpretAsLinear sample_GetName sample_Quaternion
      sample_ConcatenateRotation sample_ToMatrixWithScale
      (fun _ => true) (fun _ => true) (fun s => s) sample_codec
      sample_exporter sample_param_keep sample_result
    = Some (this', result')
    /\ bSuccess result' = false
    /\ error result' = "File %s does already exist!"%string
    /\ scene this' = scene sample_exporter.
Proof.
  destruct (Export_turned_down_before_preparing (FName := string)
              (fun s => s) (fun s => s) sample_Printf
              sample_mul sample_Inverse sample_TransformVector sample_TransformVector
              sample_ReinterpretAsLinear sample_GetName sample_Quaternion
              sample_ConcatenateRotation sample_ToMatrixWithScale
              (fun _ => true) (fun _ => true) (fun s => s) sample_codec
              sample_exporter sample_param_keep sample_result
              eq_refl (or_introl (conj eq_refl eq_refl)))
    as (this' & result' & Hrun & Hfail & Herror & _ & _ & _ & Hscene).
  exists this', result'.
  split; [exact Hrun|]. split; [exact Hfail|]. split; [exact Herror|exact Hscene].
Defined.

(** The sample export succeeds: the codec returns success and no error
    text. *)
Lemma sample_export_succeeds :
  exists this' result',
    sample_Export sample_exporter sample_param sample_result = Some (this', result')
    /\ bSuccess result' = true
    /\ error result' = EmptyString.
Proof.
  destruct (Export_success_iff (FName := string)
              (fun s => s) (fun s => s) sample_Printf
              sample_mul sample_Inverse sample_TransformVector sample_TransformVector
              sample_ReinterpretAsLinear sample_GetName sample_Quaternion
              sample_ConcatenateRotation sample_ToMatrixWithScale
              (fun _ => false) (fun _ => true) (fun s => s) sample_codec
              sample_exporter sample_param sample_result
              sample_exporter_ok (or_introl eq_refl) eq_refl)
    as (this' & result' & prepared & _ & Hrun & Hcodec & Herror).
  exists this', result'. split; [exact Hrun|].
  assert (Hsuccess : bSuccess result' = true).
  { apply Hcodec. split; reflexivity. }
  split; [exact Hsuccess|]. apply Herror. exact Hsuccess.
Defined.

(** After the sample export the three sources are registered as before. *)
Lemma sample_export_keeps_the_registration :
  exists this' result',
    sample_Export sample_exporter sample_param sample_result = Some (this', result')
    /\ registered (rootNode (scene this')) = registered (rootNode (scene sample_exporter))
    /\ tree_sources (rootNode (scene this'))
       = [source_refusing; source_good; source_empty].
Proof.
  destruct (Export_ok (FName := string) "None"%string
              (fun s => s) (fun s => s) sample_Printf
              sample_mul sample_Inverse sample_TransformVector sample_TransformVector
              sample_ReinterpretAsLinear sample_GetName sample_Quaternion
              sample_ConcatenateRotation sample_ToMatrixWithScale
              (fun _ => false) (fun _ => true) (fun s => s) sample_codec
              sample_exporter sample_param sample_result sample_exporter_ok)
    as (this' & result' & Hrun & _).
  destruct (Export_keeps_the_registration (FName := string)
              (fun s => s) (fun s => s) sample_Printf
              sample_mul sample_Inverse sample_TransformVector sample_TransformVector
              sample_ReinterpretAsLinear sample_GetName sample_Quaternion
              sample_ConcatenateRotation sample_ToMatrixWithScale
              (fun _ => false) (fun _ => true) (fun s => s) sample_codec
              sample_exporter sample_param sample_result this' result'
              sample_exporter_ok Hrun)
    as (Hregistered & Hsources & _).
  exists this', result'. split; [exact Hrun|]. split; [exact Hregistered|].
  rewrite Hsources. reflexivity.
Defined.

(** The chair is registered at the node "Room.Chair" of a new exporter. *)
Lemma chair_registered_at_its_node :
  exists p n,
    deref (rootNode (scene (sample_AddExportObject sample_exporter_new source_good
                              false EmptyString))) p = Some n
    /\ GetHierarchicalName (fun s => s)
         (rootNode (scene (sample_AddExportObject sample_exporter_new source_good
                             false EmptyString))) p
       = Some (dotted (fun s : string => s) ["Room"%string; "Chair"%string])
    /\ tree_sources
         (rootNode (scene (sample_AddExportObject sample_exporter_new source_good
                             false EmptyString)))
       ≡ₚ [source_good].
Proof.
  destruct (AddExportObject_registers_at_its_node (FName := string)
              (fun s => s) (fun s => s) sample_ParseIntoArray
              sample_exporter_new source_good false EmptyString eq_refl)
    as (p & n & Hat & Hname & _ & _ & _ & Hsources).
  exists p, n. split; [exact Hat|]. split; [exact Hname|exact Hsources].
Defined.

(** The node "Room" of the sample exporter gets the mirrored transform; the
    sources stay where they are. *)
Lemma room_gets_the_mirrored_transform :
  exists p n,
    deref (rootNode (scene (sample_AddNode sample_exporter "Room" sample_mirror))) p
    = Some n
    /\ worldTransform n = sample_mirror
    /\ tree_sources (rootNode (scene (sample_AddNode sample_exporter "Room"
                                        sample_mirror)))
       = tree_sources (rootNode (scene sample_exporter)).
Proof.
  destruct (AddNode_sets_one_world_transform (FName := string)
              (fun s => s) (fun s => s) sample_ParseIntoArray
              sample_exporter "Room"%string sample_mirror eq_refl)
    as (p & n & Hat & _ & Htransform & _ & _ & Hsources).
  exists p, n. split; [exact Hat|]. split; [exact Htransform|exact Hsources].
Defined.

(** Of a chair, a lamp that cannot be exported and a table, the chair and
    the table are registered and the lamp is handed back. *)
Definition sample_lamp : UObject := mkUObject "Lamp" None.

Lemma lamp_is_handed_back :
  snd (AddObjectsIfExportable (FName := string) (fun s => s) sample_ParseIntoArray
         sample_exporter_new
         [mkUObject "Chair" (Some source_good); sample_lamp;
          mkUObject "Table" (Some source_other)]
         false EmptyString [])
  = [sample_lamp]
  /\ tree_sources
       (rootNode (scene (fst (AddObjectsIfExportable (FName := string) (fun s => s)
                                sample_ParseIntoArray sample_exporter_new
                                [mkUObject "Chair" (Some source_good); sample_lamp;
                                 mkUObject "Table" (Some source_other)]
                                false EmptyString []))))
     ≡ₚ [source_good; source_other].
Proof.
  destruct (AddObjectsIfExportable_sorts_the_objects (FName := string)
              (fun s => s) sample_ParseIntoArray sample_exporter_new
              [mkUObject "Chair" (Some source_good); sample_lamp;
               mkUObject "Table" (Some source_other)]
              false EmptyString [] eq_refl)
    as (Hcall & Hsources).
  split; [rewrite Hcall; reflexivity|exact Hsources].
Defined.

(** The sample export caches the three nodes of the tree. *)
Lemma sample_export_caches_three_nodes :
  exists this' result',
    sample_Export sample_exporter sample_param sample_result = Some (this', result')
    /\ allNodesHelper (scene this') = [[]; [0%nat]; [0%nat; 0%nat]].
Proof.
  destruct (Export_ok (FName := string) "None"%string
              (fun s => s) (fun s => s) sample_Printf
              sample_mul sample_Inverse sample_TransformVector sample_TransformVector
              sample_ReinterpretAsLinear sample_GetName sample_Quaternion
              sample_ConcatenateRotation sample_ToMatrixWithScale
              (fun _ => false) (fun _ => true) (fun s => s) sample_codec
              sample_exporter sample_param sample_result sample_exporter_ok)
    as (this' & result' & Hrun & _).
  destruct (Export_appends_to_the_cache (FName := string) "None"%string
              (fun s => s) (fun s => s) sample_Printf
              sample_mul sample_Inverse sample_TransformVector sample_TransformVector
              sample_ReinterpretAsLinear sample_GetName sample_Quaternion
              sample_ConcatenateRotation sample_ToMatrixWithScale
              (fun _ => false) (fun _ => true) (fun s => s) sample_codec
              sample_exporter sample_param sample_result this' result'
              sample_exporter_ok Hrun)
    as (Hcache & _).
  exists this', result'. split; [exact Hrun|]. rewrite Hcache. reflexivity.
Defined.

Lemma sample_two_children_prepared :
  exists prepared,
    PrepareSceneForExport (FName := string) (fun s => s) (fun s => s) sample_Printf
      sample_mul sample_Inverse sample_TransformVector sample_TransformVector
      sample_ReinterpretAsLinear sample_GetName sample_Quaternion
      sample_ConcatenateRotation sample_ToMatrixWithScale
      (scene sample_two_children) sample_param
    = Some prepared.
Proof. vm_compute. eexists. reflexivity. Qed.

(** The scene prepared from the root with two children: two meshes, bound
    and with parallel arrays, numbered in the order they were built. *)
Lemma prepared_two_children_are_well_formed :
  exists prepared,
    sample_PrepareSceneForExport (scene sample_two_children) sample_param = Some prepared
    /\ scene_mNumMeshes (scene_base prepared) = Num (meshes prepared)
    /\ Forall (fun mesh => mesh_bound mesh /\ mesh_parallel mesh) (meshes prepared)
    /\ refs_build_order (rootNode prepared) = mesh_refs 0 (length (meshes prepared)).
Proof.
  destruct sample_two_children_prepared as (prepared & Hrun).
  destruct (prepared_scene_is_well_formed (FName := string)
              (fun s => s) (fun s => s) sample_Printf
              sample_mul sample_Inverse sample_TransformVector sample_TransformVector
              sample_ReinterpretAsLinear sample_GetName sample_Quaternion
              sample_ConcatenateRotation sample_ToMatrixWithScale
              (scene sample_two_children) sample_param prepared)
    as (Hcount & _ & _ & _ & _ & Hmeshes & _ & Hrefs).
  - vm_compute. repeat constructor.
  - constructor.
  - reflexivity.
  - reflexivity.
  - reflexivity.
  - exact Hrun.
  - exists prepared. split; [exact Hrun|]. split; [exact Hcount|].
    split; [exact Hmeshes|exact Hrefs].
Defined.









(** The two import sections merged: the three corners of the first
    triangle, then the three of the second. *)
Lemma merged_sample_sections_keep_their_corners :
  exists merged,
    MergeAllSections "None"%string [sample_import_section 0; sample_import_section 1]
    = [merged]
    /\ map (corner merged) (sec_triangles merged)
       = map Some (vertices sample_triangle ++ vertices sample_triangle).
Proof.
  assert (Hindexed : forall index, section_indexed (sample_import_section index)).
  { intros index. unfold section_indexed. simpl.
    repeat (constructor; [unfold Num; simpl; lia|]). constructor. }
  destruct (MergeAllSections_keeps_the_corners (FName := string) "None"%string
              (sample_import_section 0) [sample_import_section 1])
    as (merged & Hrun & _ & Hcorners).
  - constructor; [apply Hindexed|]. constructor; [apply Hindexed|constructor].
  - intros Hgt. discriminate Hgt.
  - exists merged. split; [exact Hrun|]. rewrite Hcorners. reflexivity.
Defined.

(** Two sections of the material "Wood": merging by material appends the
    first to the second. *)
Lemma two_wood_sections_merge_from_the_back :
  MergeSectionsSameMaterial "None"%string
    [sample_import_section 0; sample_import_section 1]
  = [fst (Append_Move "None"%string (sample_import_section 1) (sample_import_section 0))].
Proof.
  rewrite (MergeSectionsSameMaterial_merges_each_material (FName := string)
             "None"%string [sample_import_section 0; sample_import_section 1]).
  - reflexivity.
  - constructor; [discriminate|]. constructor; [discriminate|constructor].
Defined.

(** A scaling matrix, with stand-ins for the engine that keep the scale. *)
Definition sample_scaling : aiMatrix4x4 :=
  mkaiMatrix4x4 (f_of_Z 2) f_zero f_zero f_zero
                f_zero (f_of_Z 3) f_zero f_zero
                f_zero f_zero (f_of_Z 4) f_zero
                f_zero f_zero f_zero f_one.

Definition sample_FTransform_of_FMatrix (M : FMatrix) : FTransform :=
  mkFTransform FQuat_Identity FVector_Zero (mkFVector (M 0 0) (M 1 1) (M 2 2))%nat.

Lemma scaling_survives_import_and_export :
  FTransformToAiTransform sample_ToMatrixWithScale
    (AiTransformToFTransform sample_FTransform_of_FMatrix sample_scaling)
  = sample_scaling.
Proof.
  destruct (matrix_conversions_are_inverse sample_ToMatrixWithScale
              sample_FTransform_of_FMatrix sample_scaling) as (Hback & _).
  - intros i j Hi Hj.
    destruct i as [|[|[|[|i]]]]; [| | | |lia];
      (destruct j as [|[|[|[|j]]]]; [| | | |lia]); reflexivity.
  - exact Hback.
Defined.

(** Two entries written to an empty log. *)
Lemma two_entries_two_lines :
  exportLog
    (fold_left WriteToLogWithNewLine ["Begin export scene."%string; "Done."%string]
       (set_exportLog (new_FAssimpScene "None"%string) (Some EmptyString)))
  = Some ("Begin export scene." ++ newline ++ "Done.")%string.
Proof.
  destruct (log_holds_one_line_per_entry (FName := string)
              (set_exportLog (new_FAssimpScene "None"%string) (Some EmptyString))
              ["Begin export scene."%string; "Done."%string])
    as (_ & Hempty & _).
  - constructor; [split; [discriminate|reflexivity]|].
    constructor; [split; [discriminate|reflexivity]|constructor].
  - rewrite (Hempty eq_refl). reflexivity.
Defined.

(** A root without meshes and two children, of which the first has the
    sample mesh: one mesh is imported, three progress updates are sent. *)
Definition sample_aiNodeTree : aiNodeTree :=
  mkaiNodeTree (mkaiNode "Root" 0 []) aiMatrix4x4_Identity
    [mkaiNodeTree (mkaiNode "Chair" 1 [0]) sample_scaling [];
     mkaiNodeTree (mkaiNode "Empty" 0 []) aiMatrix4x4_Identity []].

Lemma sample_scene_is_walked :
  exists result' sent,
    import_scene_meshes (FName := string) (fun s => s) sample_mul
      sample_TransformVector sample_TransformVector sample_TransformVector
      (fun v => v) (fun t => t) sample_FTransform_of_FMatrix
      sample_aiScene sample_aiNodeTree (mkFRuntimeMeshImportResult false [])
    = Some (result', sent)
    /\ map meshName (meshInfos result') = ["Chair"%string]
    /\ map progress_current sent = [1; 2; 3]
    /\ map progress_max sent = [3; 3; 3].
Proof.
  destruct (scene_nodes_are_imported_in_walk_order (FName := string)
              (fun s => s) sample_mul
              sample_TransformVector sample_TransformVector sample_TransformVector
              (fun v => v) (fun t => t) sample_FTransform_of_FMatrix
              sample_aiScene sample_aiNodeTree (mkFRuntimeMeshImportResult false []))
    as (Hrun & Hnames & _).
  - intros Hgt. discriminate Hgt.
  - destruct (import_scene_meshes _ _ _ _ _ _ _ _ sample_aiScene sample_aiNodeTree _)
      as [[result' sent]|] eqn:Hsome; [|vm_compute in Hrun; discriminate Hrun].
    exists result', sent. split; [reflexivity|].
    destruct (Hnames result' sent eq_refl) as (_ & Hmeshes).
    split; [rewrite Hmeshes; reflexivity|].
    vm_compute in Hrun. injection Hrun as _ Hsent. rewrite Hsent. split; reflexivity.
Defined.


(** A node that has gathered the triangle and the two vertices of one
    material and the triangle of another: two meshes with eight vertices
    and two faces together. *)
Definition sample_gathered_node : FAssimpNode (FName := string) :=
  set_gatheredExportables (new_FAssimpNode "None"%string)
    [[sample_triangle; sample_two_vertices]; [sample_triangle_other]].

Lemma two_materials_two_meshes :
  exists scene' this' made,
    CreateAssimpMeshesFromMeshData (FName := string) (fun s => s) sample_mul
      sample_Inverse sample_TransformVector sample_TransformVector
      sample_ReinterpretAsLinear sample_GetName
      (new_FAssimpScene "None"%string) sample_gathered_node sample_param
    = Some (scene', this')
    /\ meshes scene' = made
    /\ length made = 2%nat
    /\ sum_Z (map (fun mesh => Num (mesh_vertices mesh)) made) = 8
    /\ sum_Z (map (fun mesh => Num (mesh_faces mesh)) made) = 2.
Proof.
  destruct (node_makes_one_mesh_per_material_or_section (FName := string)
              (fun s => s) sample_mul
              sample_Inverse sample_TransformVector sample_TransformVector
              sample_ReinterpretAsLinear sample_GetName
              (new_FAssimpScene "None"%string) sample_gathered_node sample_param)
    as (scene' & this' & made & Hrun & Hmeshes & _ & Hlength & Hvertices & Hfaces).
  - repeat constructor.
  - reflexivity.
  - exists scene', this', made. split; [exact Hrun|]. split; [exact Hmeshes|].
    split; [rewrite Hlength; reflexivity|]. split; [rewrite Hvertices; reflexivity|].
    change (3 * sum_Z (map (fun mesh => Num (mesh_faces mesh)) made) = 6) in Hfaces.
    lia.
Defined.
